(** * The IGC scalarizer pass (Compiler/Optimizer/Scalarizer.cpp)

    A shallow embedding of [ScalarizeFunction] over a small model of the
    host IR, and the properties of the pass that its specification states.

    The host IR is modelled as the pass sees it: values are instructions
    (heap objects named by an identifier), function arguments or uniqued
    constants; instructions live in a store and are listed, block by block,
    in the body of the current function.  The pass is a state transformer
    that may fail: a failed [assert], a [cast<>] of the wrong class or the
    use of a dangling object is the failure of the model. *)

From stdpp Require Import base countable gmap sets option list.

Local Open Scope nat_scope.

(** ** Types, constants and values of the host IR *)

Inductive Ty :=
| VoidTy
| IntTy (bits : N)
| FloatTy (bits : N)
| PointerTy (pointee : Ty) (addrspace : N)
| VectorTy (elt : Ty) (num : positive)
| OtherTy (tag : N).

(** Constants are uniqued: two constants are the same object when they are
    the same term.  [ConstantVector] is a vector constant that is given by
    its elements, which are not all undefined (a [ConstantVector], a
    [ConstantDataVector] or a [ConstantAggregateZero] of the host IR);
    [ConstantData] is any other constant, whose elements, when it is a
    vector, cannot be read (a constant expression, a global). *)
#[warnings="-register-all"]
Inductive Constant :=
| UndefValue (ty : Ty)
| ConstantInt (ty : Ty) (v : Z)
| ConstantPointerNull (ty : Ty)
| ConstantData (ty : Ty) (tag : N)
| ConstantVector (first : Constant) (rest : list Constant)
| ConstantExprExtractElement (vec : Constant) (idx : Constant).

Inductive Value :=
| VInst (id : positive)
| VArg (ty : Ty) (n : N)
| VConst (c : Constant).

Global Instance Ty_eq_dec : EqDecision Ty.
Proof. solve_decision. Defined.

Global Instance Constant_eq_dec : EqDecision Constant.
Proof.
  refine (fix go (c1 c2 : Constant) {struct c1} : Decision (c1 = c2) :=
    let _ : EqDecision Constant := @go in
    match c1, c2 with
    | UndefValue t1, UndefValue t2 => cast_if (decide (t1 = t2))
    | ConstantInt t1 v1, ConstantInt t2 v2 =>
        cast_if_and (decide (t1 = t2)) (decide (v1 = v2))
    | ConstantPointerNull t1, ConstantPointerNull t2 => cast_if (decide (t1 = t2))
    | ConstantData t1 g1, ConstantData t2 g2 =>
        cast_if_and (decide (t1 = t2)) (decide (g1 = g2))
    | ConstantVector x1 l1, ConstantVector x2 l2 =>
        cast_if_and (decide (x1 = x2)) (decide (l1 = l2))
    | ConstantExprExtractElement x1 i1, ConstantExprExtractElement x2 i2 =>
        cast_if_and (decide (x1 = x2)) (decide (i1 = i2))
    | _, _ => right _
    end); congruence.
Defined.

Global Instance Value_eq_dec : EqDecision Value.
Proof. solve_decision. Defined.

Fixpoint Ty_encode (t : Ty) : gen_tree N :=
  match t with
  | VoidTy => GenNode 0 []
  | IntTy b => GenNode 1 [GenLeaf b]
  | FloatTy b => GenNode 2 [GenLeaf b]
  | PointerTy p a => GenNode 3 [Ty_encode p; GenLeaf a]
  | VectorTy e n => GenNode 4 [Ty_encode e; GenLeaf (Npos n)]
  | OtherTy g => GenNode 5 [GenLeaf g]
  end.

Fixpoint Ty_decode (t : gen_tree N) : option Ty :=
  match t with
  | GenNode 0 [] => Some VoidTy
  | GenNode 1 [GenLeaf b] => Some (IntTy b)
  | GenNode 2 [GenLeaf b] => Some (FloatTy b)
  | GenNode 3 [p; GenLeaf a] =>
      match Ty_decode p with
      | Some p' => Some (PointerTy p' a)
      | None => None
      end
  | GenNode 4 [e; GenLeaf (Npos n)] =>
      match Ty_decode e with
      | Some e' => Some (VectorTy e' n)
      | None => None
      end
  | GenNode 5 [GenLeaf g] => Some (OtherTy g)
  | _ => None
  end.

Global Instance Ty_countable : Countable Ty.
Proof.
  apply (inj_countable Ty_encode Ty_decode).
  intros t; induction t; simpl; rewrite ?IHt; reflexivity.
Defined.

Fixpoint Constant_encode (c : Constant) : gen_tree (Ty + Z + N) :=
  match c with
  | UndefValue t => GenNode 0 [GenLeaf (inl (inl t))]
  | ConstantInt t v => GenNode 1 [GenLeaf (inl (inl t)); GenLeaf (inl (inr v))]
  | ConstantPointerNull t => GenNode 2 [GenLeaf (inl (inl t))]
  | ConstantData t g => GenNode 3 [GenLeaf (inl (inl t)); GenLeaf (inr g)]
  | ConstantExprExtractElement v i =>
      GenNode 4 [Constant_encode v; Constant_encode i]
  | ConstantVector x l => GenNode 5 (Constant_encode x :: (Constant_encode <$> l))
  end.

Fixpoint Constant_decode (t : gen_tree (Ty + Z + N)) : option Constant :=
  match t with
  | GenNode 0 [GenLeaf (inl (inl t))] => Some (UndefValue t)
  | GenNode 1 [GenLeaf (inl (inl t)); GenLeaf (inl (inr v))] =>
      Some (ConstantInt t v)
  | GenNode 2 [GenLeaf (inl (inl t))] => Some (ConstantPointerNull t)
  | GenNode 3 [GenLeaf (inl (inl t)); GenLeaf (inr g)] =>
      Some (ConstantData t g)
  | GenNode 4 [v; i] =>
      match Constant_decode v, Constant_decode i with
      | Some v', Some i' => Some (ConstantExprExtractElement v' i')
      | _, _ => None
      end
  | GenNode 5 (x :: l) =>
      match Constant_decode x, mapM Constant_decode l with
      | Some x', Some l' => Some (ConstantVector x' l')
      | _, _ => None
      end
  | _ => None
  end.

Global Instance Constant_countable : Countable Constant.
Proof.
  apply (inj_countable Constant_encode Constant_decode).
  fix IH 1. intros [t|t v|t|t g|x l|v i]; simpl; try reflexivity.
  - rewrite (IH x).
    assert (H : mapM Constant_decode (Constant_encode <$> l) = Some l).
    { induction l as [|y l IHl]; simpl; [reflexivity|].
      rewrite (IH y). simpl.
      change (list_fmap _ _ Constant_encode l) with (Constant_encode <$> l).
      rewrite IHl. reflexivity. }
    rewrite H. reflexivity.
  - rewrite (IH v), (IH i). reflexivity.
Defined.

Definition Value_encode (v : Value) : positive + (Ty * N) + Constant :=
  match v with
  | VInst i => inl (inl i)
  | VArg t n => inl (inr (t, n))
  | VConst c => inr c
  end.

Definition Value_decode (x : positive + (Ty * N) + Constant) : Value :=
  match x with
  | inl (inl i) => VInst i
  | inl (inr (t, n)) => VArg t n
  | inr c => VConst c
  end.

Global Instance Value_countable : Countable Value.
Proof.
  apply (inj_countable' Value_encode Value_decode).
  intros v; destruct v; reflexivity.
Defined.

(** ** Instructions *)

Inductive BinaryOps :=
| Add | Sub | Mul | FAdd | FSub | FMul | UDiv | SDiv | FDiv
| URem | SRem | FRem | Shl | LShr | AShr | And | Or | Xor.

Inductive CmpOps := ICmp | FCmp.

Inductive CastOps :=
| Trunc | ZExt | SExt | FPToUI | FPToSI | UIToFP | SIToFP
| FPTrunc | FPExt | PtrToInt | IntToPtr | BitCast | AddrSpaceCast.

Inductive Opcode :=
| OpBinary (b : BinaryOps)
| OpCmp (c : CmpOps)
| OpCast (c : CastOps)
| PHI
| Select
| ExtractElement
| InsertElement
| ShuffleVector
| Call
| Alloca
| GetElementPtr
| Load
| Store
| OtherOp (tag : N).

Inductive GenISAIntrinsicID :=
| GenISA_vmeSendIME2
| GenISA_vmeSendFBR2
| GenISA_vmeSendSIC2
| GenISA_other (tag : N).

Global Instance BinaryOps_eq_dec : EqDecision BinaryOps.
Proof. solve_decision. Defined.

Global Instance CmpOps_eq_dec : EqDecision CmpOps.
Proof. solve_decision. Defined.

Global Instance CastOps_eq_dec : EqDecision CastOps.
Proof. solve_decision. Defined.

Global Instance Opcode_eq_dec : EqDecision Opcode.
Proof. solve_decision. Defined.

(** Optional flags of an instruction: the two wrap flags of an
    [OverflowingBinaryOperator], the exact flag of a
    [PossiblyExactOperator] and the fast-math flags, kept as a bit set. *)
Record Flags := mkFlags {
  hasNoSignedWrap : bool;
  hasNoUnsignedWrap : bool;
  isExact : bool;
  getFastMathFlags : N
}.

Definition noFlags : Flags := mkFlags false false false 0%N.

(** An instruction object.  [operands] is the operand list as the pass
    reads it: the incoming values of a PHI node (its incoming blocks are
    [incomingBlocks]), the two input vectors of a shufflevector (its
    constant mask is [mask], with [-1] for an undefined element, as
    [getMaskValue] returns it), the arguments of a call followed by the
    callee.  [intrinsic] is set on a call of a GenISA intrinsic
    ([GenIntrinsicInst]).  Names are not modelled. *)
Record Instruction := mkInst {
  opcode : Opcode;
  type : Ty;
  operands : list Value;
  predicate : N;
  flags : Flags;
  incomingBlocks : list N;
  mask : list Z;
  intrinsic : option GenISAIntrinsicID;
  debugLoc : option N
}.

Definition plainInst (op : Opcode) (t : Ty) (ops : list Value) : Instruction :=
  mkInst op t ops 0%N noFlags [] [] None None.

Definition setOperands (ops : list Value) (i : Instruction) : Instruction :=
  mkInst (opcode i) (type i) ops (predicate i) (flags i)
         (incomingBlocks i) (mask i) (intrinsic i) (debugLoc i).

Definition setFlags (f : Flags) (i : Instruction) : Instruction :=
  mkInst (opcode i) (type i) (operands i) (predicate i) f
         (incomingBlocks i) (mask i) (intrinsic i) (debugLoc i).

Definition setDebugLoc (d : option N) (i : Instruction) : Instruction :=
  mkInst (opcode i) (type i) (operands i) (predicate i) (flags i)
         (incomingBlocks i) (mask i) (intrinsic i) d.

(** [PHINode::addIncoming]. *)
Definition addIncomingTo (v : Value) (bb : N) (i : Instruction) : Instruction :=
  mkInst (opcode i) (type i) (operands i ++ [v]) (predicate i) (flags i)
         (incomingBlocks i ++ [bb]) (mask i) (intrinsic i) (debugLoc i).

(** ** The function, the pass object and its state *)

Record BasicBlock := mkBlock {
  bb_name : N;
  bb_insts : list positive
}.

Record Function := mkFunction {
  isDeclaration : bool;
  returnsVoid : bool;
  blocks : list BasicBlock
}.

Record DataLayout := mkDataLayout {
  getTypeAllocSize : Ty → N;
  getTypeSizeInBits : Ty → N
}.

Record SCMEntry := mkSCMEntry {
  scalarValues : list (option Value);
  isOriginalVectorRemoved : bool
}.

Record DRLEntry := mkDRLEntry {
  unresolvedInst : Value;
  dummyVals : list Value
}.

(** An [SCMEntry*] points into one of the allocation arrays: it is the index
    of the array in [m_SCMArrays] and the offset in that array. *)
Definition SCMEntryPtr : Type := nat * nat.

(** The state the pass runs in.  The first group is the host IR: the store
    of the instruction objects that are alive, the allocator of new ones,
    and the function [F] handed to [runOnFunction].  The second group is what
    the pass is configured with: [ESTIMATED_INST_NUM] (a constant of
    Scalarizer.h), the FunctionControl flag compared with
    FLAG_FCALL_FORCE_INLINE, the constructor argument and the data layout of
    the module.  The third group is the members of [ScalarizeFunction]. *)
Record State := mkState {
  insts : gmap positive Instruction;
  nextId : positive;
  func : Function;

  ESTIMATED_INST_NUM : nat;
  forceInline : bool;
  m_ScalarizingVectorLDSTType : bool;
  m_pDL : DataLayout;

  m_SCM : gmap Value SCMEntryPtr;
  m_SCMArrays : list (list SCMEntry);
  m_SCMAllocationArray : nat;
  m_SCMArrayLocation : nat;
  m_DRL : list DRLEntry;
  m_usedVectors : list Value;
  m_removedInsts : gset positive
}.

Definition set_insts (f : gmap positive Instruction → gmap positive Instruction)
    (s : State) : State :=
  mkState (f (insts s)) (nextId s) (func s)
    (ESTIMATED_INST_NUM s) (forceInline s) (m_ScalarizingVectorLDSTType s) (m_pDL s)
    (m_SCM s) (m_SCMArrays s) (m_SCMAllocationArray s) (m_SCMArrayLocation s)
    (m_DRL s) (m_usedVectors s) (m_removedInsts s).

Definition set_nextId (f : positive → positive) (s : State) : State :=
  mkState (insts s) (f (nextId s)) (func s)
    (ESTIMATED_INST_NUM s) (forceInline s) (m_ScalarizingVectorLDSTType s) (m_pDL s)
    (m_SCM s) (m_SCMArrays s) (m_SCMAllocationArray s) (m_SCMArrayLocation s)
    (m_DRL s) (m_usedVectors s) (m_removedInsts s).

Definition set_blocks (f : list BasicBlock → list BasicBlock) (s : State) : State :=
  mkState (insts s) (nextId s)
    (mkFunction (isDeclaration (func s)) (returnsVoid (func s)) (f (blocks (func s))))
    (ESTIMATED_INST_NUM s) (forceInline s) (m_ScalarizingVectorLDSTType s) (m_pDL s)
    (m_SCM s) (m_SCMArrays s) (m_SCMAllocationArray s) (m_SCMArrayLocation s)
    (m_DRL s) (m_usedVectors s) (m_removedInsts s).

Definition set_SCM (f : gmap Value SCMEntryPtr → gmap Value SCMEntryPtr)
    (s : State) : State :=
  mkState (insts s) (nextId s) (func s)
    (ESTIMATED_INST_NUM s) (forceInline s) (m_ScalarizingVectorLDSTType s) (m_pDL s)
    (f (m_SCM s)) (m_SCMArrays s) (m_SCMAllocationArray s) (m_SCMArrayLocation s)
    (m_DRL s) (m_usedVectors s) (m_removedInsts s).

Definition set_SCMArrays (f : list (list SCMEntry) → list (list SCMEntry))
    (s : State) : State :=
  mkState (insts s) (nextId s) (func s)
    (ESTIMATED_INST_NUM s) (forceInline s) (m_ScalarizingVectorLDSTType s) (m_pDL s)
    (m_SCM s) (f (m_SCMArrays s)) (m_SCMAllocationArray s) (m_SCMArrayLocation s)
    (m_DRL s) (m_usedVectors s) (m_removedInsts s).

Definition set_SCMAllocationArray (a : nat) (s : State) : State :=
  mkState (insts s) (nextId s) (func s)
    (ESTIMATED_INST_NUM s) (forceInline s) (m_ScalarizingVectorLDSTType s) (m_pDL s)
    (m_SCM s) (m_SCMArrays s) a (m_SCMArrayLocation s)
    (m_DRL s) (m_usedVectors s) (m_removedInsts s).

Definition set_SCMArrayLocation (n : nat) (s : State) : State :=
  mkState (insts s) (nextId s) (func s)
    (ESTIMATED_INST_NUM s) (forceInline s) (m_ScalarizingVectorLDSTType s) (m_pDL s)
    (m_SCM s) (m_SCMArrays s) (m_SCMAllocationArray s) n
    (m_DRL s) (m_usedVectors s) (m_removedInsts s).

Definition set_DRL (f : list DRLEntry → list DRLEntry) (s : State) : State :=
  mkState (insts s) (nextId s) (func s)
    (ESTIMATED_INST_NUM s) (forceInline s) (m_ScalarizingVectorLDSTType s) (m_pDL s)
    (m_SCM s) (m_SCMArrays s) (m_SCMAllocationArray s) (m_SCMArrayLocation s)
    (f (m_DRL s)) (m_usedVectors s) (m_removedInsts s).

Definition set_usedVectors (f : list Value → list Value) (s : State) : State :=
  mkState (insts s) (nextId s) (func s)
    (ESTIMATED_INST_NUM s) (forceInline s) (m_ScalarizingVectorLDSTType s) (m_pDL s)
    (m_SCM s) (m_SCMArrays s) (m_SCMAllocationArray s) (m_SCMArrayLocation s)
    (m_DRL s) (f (m_usedVectors s)) (m_removedInsts s).

Definition set_removedInsts (f : gset positive → gset positive) (s : State) : State :=
  mkState (insts s) (nextId s) (func s)
    (ESTIMATED_INST_NUM s) (forceInline s) (m_ScalarizingVectorLDSTType s) (m_pDL s)
    (m_SCM s) (m_SCMArrays s) (m_SCMAllocationArray s) (m_SCMArrayLocation s)
    (m_DRL s) (m_usedVectors s) (f (m_removedInsts s)).

(** ** The monad of the pass: state, and failure for a broken assertion *)

Definition M (A : Type) : Type := State → option (A * State).

Global Instance M_ret : MRet M := λ A a st, Some (a, st).

Global Instance M_bind : MBind M := λ A B f m st,
  match m st with
  | Some (a, st') => f a st'
  | None => None
  end.

Definition fail {A : Type} : M A := λ _, None.

Definition gets {A : Type} (f : State → A) : M A := λ st, Some (f st, st).

Definition modify (f : State → State) : M unit := λ st, Some (tt, f st).

(** [assert(b)], and the dereference of a pointer that may be null. *)
Definition require (b : bool) : M unit := if b then mret tt else fail.

Definition fromOption {A : Type} (o : option A) : M A :=
  match o with
  | Some a => mret a
  | None => fail
  end.

(** [for (x : l) body(x)] *)
Fixpoint forM {A : Type} (l : list A) (body : A → M unit) : M unit :=
  match l with
  | [] => mret tt
  | x :: l' => body x ≫= λ _, forM l' body
  end.

(** A loop that builds the array [out[i] = body(i)] for the indices of [l]. *)
Fixpoint mapM' {A B : Type} (l : list A) (body : A → M B) : M (list B) :=
  match l with
  | [] => mret []
  | x :: l' => body x ≫= λ y, mapM' l' body ≫= λ ys, mret (y :: ys)
  end.

(** ** The host IR as the pass uses it *)

(** [dyn_cast<VectorType>(t)]: the element type and [getNumElements]. *)
Definition asVectorType (t : Ty) : option (Ty * nat) :=
  match t with
  | VectorTy e n => Some (e, Pos.to_nat n)
  | _ => None
  end.

Definition isVectorTy (t : Ty) : bool :=
  match t with
  | VectorTy _ _ => true
  | _ => false
  end.

Fixpoint typeOfConstant (c : Constant) : Ty :=
  match c with
  | UndefValue t => t
  | ConstantInt t _ => t
  | ConstantPointerNull t => t
  | ConstantData t _ => t
  | ConstantVector x l => VectorTy (typeOfConstant x) (Pos.of_succ_nat (length l))
  | ConstantExprExtractElement v _ =>
      match typeOfConstant v with
      | VectorTy e _ => e
      | _ => VoidTy
      end
  end.

Definition isUndefValue (v : Value) : bool :=
  match v with
  | VConst (UndefValue _) => true
  | _ => false
  end.

Definition isConstant (v : Value) : bool :=
  match v with
  | VConst _ => true
  | _ => false
  end.

(** [Type::getInt32Ty] and [ConstantInt::get(Int32Ty, i)]. *)
Definition Int32Ty : Ty := IntTy 32.

Definition constIndex (i : nat) : Value := VConst (ConstantInt Int32Ty (Z.of_nat i)).

(** [ConstantExpr::getExtractElement(vec, ConstantInt::get(Int32Ty, i))]: the
    constant folder gives the element of a vector whose elements it can
    read, an undefined value for an undefined vector or an index that is
    out of range, and the constant expression is made otherwise. *)
Definition getExtractElement (vec : Constant) (i : nat) : Constant :=
  match vec with
  | UndefValue (VectorTy e _) => UndefValue e
  | ConstantVector x l =>
      match (x :: l) !! i with
      | Some c => c
      | None => UndefValue (typeOfConstant x)
      end
  | _ => ConstantExprExtractElement vec (ConstantInt Int32Ty (Z.of_nat i))
  end.

(** Reading an instruction object; a dangling pointer has none. *)
Definition getInst (id : positive) : M Instruction :=
  gets insts ≫= λ m, fromOption (m !! id).

Definition getType (v : Value) : M Ty :=
  match v with
  | VInst id => getInst id ≫= λ i, mret (type i)
  | VArg t _ => mret t
  | VConst c => mret (typeOfConstant c)
  end.

(** The instructions of the function in the order of [inst_iterator]. *)
Definition instructionsOf (f : Function) : list positive :=
  concat (bb_insts <$> blocks f).

(** [inst_begin(F)], null at the end. *)
Definition inst_begin (f : Function) : option positive := head (instructionsOf f).

(** The element after [x] in [l] ([++it]), none at the end. *)
Fixpoint nextIn (x : positive) (l : list positive) : option positive :=
  match l with
  | [] => None
  | y :: l' => if decide (y = x) then head l' else nextIn x l'
  end.

(** [I->getParent()] *)
Definition getParent (id : positive) (f : Function) : option BasicBlock :=
  head (filter (λ b, id ∈ bb_insts b) (blocks f)).

Definition isPHI (m : gmap positive Instruction) (id : positive) : bool :=
  match m !! id with
  | Some i => bool_decide (opcode i = PHI)
  | None => false
  end.

(** [BB->getFirstNonPHI()], null when the block has only PHI nodes. *)
Definition getFirstNonPHI (m : gmap positive Instruction) (b : BasicBlock) : option positive :=
  head (filter (λ id, isPHI m id = false) (bb_insts b)).

(** Placing [x] before [loc]. *)
Fixpoint insertBeforeIn (x loc : positive) (l : list positive) : list positive :=
  match l with
  | [] => []
  | y :: l' => if decide (y = loc) then x :: y :: l' else y :: insertBeforeIn x loc l'
  end.

Definition insertBeforeInBlock (x loc : positive) (b : BasicBlock) : BasicBlock :=
  mkBlock (bb_name b) (insertBeforeIn x loc (bb_insts b)).

Definition removeFromBlock (x : positive) (b : BasicBlock) : BasicBlock :=
  mkBlock (bb_name b) (filter (λ y, y ≠ x) (bb_insts b)).

(** [new I]: a fresh instruction object that is in no block. *)
Definition newInst (i : Instruction) : M positive :=
  gets nextId ≫= λ id,
  modify (set_nextId Pos.succ) ;;
  modify (set_insts <[id := i]>) ;;
  mret id.

(** [I::Create(..., InsertBefore)]: a null [InsertBefore] leaves the new
    instruction out of every block; one that is in no block cannot be
    inserted before. *)
Definition createBefore (i : Instruction) (InsertBefore : option positive) : M positive :=
  newInst i ≫= λ id,
  match InsertBefore with
  | None => mret id
  | Some loc =>
      gets func ≫= λ f,
      require (bool_decide (loc ∈ instructionsOf f)) ;;
      modify (set_blocks (fmap (insertBeforeInBlock id loc))) ;;
      mret id
  end.

Definition replaceUses (old new : Value) (i : Instruction) : Instruction :=
  setOperands ((λ v, if decide (v = old) then new else v) <$> operands i) i.

(** [Old->replaceAllUsesWith(New)]; the host IR asserts [New != Old]. *)
Definition replaceAllUsesWith (old new : Value) : M unit :=
  require (bool_decide (new ≠ old)) ;;
  modify (set_insts (fmap (replaceUses old new))).

(** [V->use_empty()] *)
Definition use_empty (m : gmap positive Instruction) (v : Value) : bool :=
  bool_decide (map_Forall (λ _ i, v ∉ operands i) m).

(** [I->eraseFromParent()]: unlinks and deletes the instruction. *)
Definition eraseFromParent (id : positive) : M unit :=
  getInst id ;;
  modify (set_blocks (fmap (removeFromBlock id))) ;;
  modify (set_insts (delete id)).

(** [IGCLLVM::DeleteInstruction(I)], for an instruction that is in no block. *)
Definition DeleteInstruction (id : positive) : M unit :=
  getInst id ;;
  modify (set_insts (delete id)).

(** [VectorizerUtils::SetDebugLocBy] *)
Definition SetDebugLocBy (I setBy : positive) : M unit :=
  getInst I ≫= λ i,
  getInst setBy ≫= λ s,
  match debugLoc i with
  | Some _ => mret tt
  | None => modify (set_insts <[I := setDebugLoc (debugLoc s) i]>)
  end.

(** Arrays of [Value*]: [SmallVector::resize], a checked read of an element
    that must not be null, and a checked write. *)
Definition resize {A : Type} (n : nat) (l : list (option A)) : list (option A) :=
  take n l ++ replicate (n - length l) None.

Definition getLane (l : list (option Value)) (i : nat) : M Value :=
  fromOption (l !! i) ≫= fromOption.

Definition storeAt {A : Type} (l : list A) (i : nat) (x : A) : M (list A) :=
  require (bool_decide (i < length l)) ;; mret (<[i := x]> l).

(** ** The SCM and its allocation arrays *)

(** The entry of a fresh array, as [new SCMEntry[ESTIMATED_INST_NUM]] builds it. *)
Definition emptySCMEntry : SCMEntry := mkSCMEntry [] false.

Definition readEntry (p : SCMEntryPtr) : M SCMEntry :=
  gets m_SCMArrays ≫= λ arrays,
  fromOption (arrays !! p.1 ≫= λ arr, arr !! p.2).

Definition writeEntry (p : SCMEntryPtr) (e : SCMEntry) : M unit :=
  gets m_SCMArrays ≫= λ arrays,
  fromOption (arrays !! p.1) ≫= λ arr,
  require (bool_decide (p.2 < length arr)) ;;
  modify (set_SCMArrays <[p.1 := <[p.2 := e]> arr]>).

(** The constructor of the pass, on a given host state. *)
Definition ScalarizeFunction (scalarizingVectorLDSTType : bool) (s : State) : State :=
  mkState (insts s) (nextId s) (func s)
    (ESTIMATED_INST_NUM s) (forceInline s) scalarizingVectorLDSTType (m_pDL s)
    ∅ [replicate (ESTIMATED_INST_NUM s) emptySCMEntry] 0 0 [] [] ∅.

Definition releaseAllSCMEntries : M unit :=
  gets m_SCMArrays ≫= λ arrays,
  require (bool_decide (0 < length arrays)) ;;
  modify (set_SCMArrays (take 1)) ;;
  modify (set_SCMAllocationArray 0) ;;
  modify (set_SCMArrayLocation 0).

Definition getScalarizedValues (origValue : Value) : M (option SCMEntryPtr) :=
  gets m_SCM ≫= λ scm, mret (scm !! origValue).

Definition getSCMEntry (origValue : Value) : M SCMEntryPtr :=
  require (negb (isUndefValue origValue)) ;;
  gets m_SCM ≫= λ scm,
  match scm !! origValue with
  | Some p => mret p
  | None =>
      gets m_SCMArrayLocation ≫= λ loc,
      gets ESTIMATED_INST_NUM ≫= λ est,
      (if decide (loc = est) then
         gets m_SCMArrays ≫= λ arrays,
         modify (set_SCMArrays (λ a, a ++ [replicate est emptySCMEntry])) ;;
         modify (set_SCMAllocationArray (length arrays)) ;;
         modify (set_SCMArrayLocation 0)
       else mret tt) ;;
      gets m_SCMAllocationArray ≫= λ arr,
      gets m_SCMArrayLocation ≫= λ loc,
      let newEntry : SCMEntryPtr := (arr, loc) in
      modify (set_SCMArrayLocation (S loc)) ;;
      readEntry newEntry ≫= λ e,
      writeEntry newEntry
        (mkSCMEntry (match scalarValues e with
                     | [] => [None]
                     | _ :: rest => None :: rest
                     end) false) ;;
      modify (set_SCM <[origValue := newEntry]>) ;;
      mret newEntry
  end.

(** The first loop of [updateSCMEntryWithValues] on the resized lanes;
    [values] is its argument [scalarValues]. *)
Fixpoint fillLanes (values : list (option Value)) (idx : list nat)
    (lanes : list (option Value)) : M (list (option Value)) :=
  match idx with
  | [] => mret lanes
  | i :: idx' =>
      getLane values i ≫= λ v,
      storeAt lanes i (Some v) ≫= λ lanes',
      fillLanes values idx' lanes'
  end.

Definition updateSCMEntryWithValues (entry : SCMEntryPtr)
    (values : list (option Value)) (origValue : Value)
    (isOrigValueRemoved : bool) (matchDbgLoc : bool) : M unit :=
  getType origValue ≫= λ t,
  fromOption (asVectorType t) ≫= λ '(_, width),
  readEntry entry ≫= λ e,
  fillLanes values (seq 0 width) (resize width (scalarValues e)) ≫= λ lanes,
  writeEntry entry (mkSCMEntry lanes isOrigValueRemoved) ;;
  if matchDbgLoc then
    match origValue with
    | VInst origInst =>
        forM (seq 0 width) (λ i,
          getLane values i ≫= λ v,
          match v with
          | VInst scalarInst => SetDebugLocBy scalarInst origInst
          | _ => mret tt
          end)
    | _ => mret tt
    end
  else mret tt.

(** ** Resolving the lanes of a vector value *)

(** [retValues[i + destIdx] = lanes[i]] for the lanes in turn. *)
Fixpoint storeLanes (retValues : list (option Value)) (destIdx : nat)
    (lanes : list Value) : M (list (option Value)) :=
  match lanes with
  | [] => mret retValues
  | v :: lanes' =>
      storeAt retValues destIdx (Some v) ≫= λ retValues',
      storeLanes retValues' (S destIdx) lanes'
  end.

(** The placeholder of a lane that is not known yet: [new LoadInst(dummyPtr)],
    a load of a null pointer that is in no block. *)
Definition dummyLoad (dummyType : Ty) : Instruction :=
  plainInst Load dummyType [VConst (ConstantPointerNull (PointerTy dummyType 0))].

(** Where the extractelement instructions that break [origValue] down are
    placed: at the head of the function, or right after the instruction and
    after the PHI nodes of its block. *)
Definition breakdownLocation (origValue : Value) : M (option positive) :=
  gets func ≫= λ f,
  fromOption (inst_begin f) ≫= λ locationInst,
  match origValue with
  | VInst origInstruction =>
      fromOption (getParent origInstruction f) ≫= λ bb,
      fromOption (nextIn origInstruction (bb_insts bb)) ≫= λ locationInst,
      gets insts ≫= λ m,
      if isPHI m locationInst then mret (getFirstNonPHI m bb)
      else mret (Some locationInst)
  | _ => mret (Some locationInst)
  end.

(** The test [currEntry && (NULL != currEntry->scalarValues[0])]: the entry,
    when it is there and its first lane is set. *)
Definition filledEntry (currEntry : option SCMEntryPtr) : M (option SCMEntry) :=
  match currEntry with
  | Some p =>
      readEntry p ≫= λ e,
      fromOption (scalarValues e !! 0) ≫= λ lane0,
      mret (match lane0 with Some _ => Some e | None => None end)
  | None => mret None
  end.

(** [obtainScalarizedValues(retValues, retIsConstant, origValue, origInst,
    destIdx)]: the new contents of [retValues] and the value written through
    [retIsConstant].  [destIdx] is [None] for the default [-1]; [origInst]
    is not read by the function and is left out. *)
Definition obtainScalarizedValues (retValues : list (option Value))
    (origValue : Value) (destIdx : option nat) : M (list (option Value) * bool) :=
  getType origValue ≫= λ t,
  fromOption (asVectorType t) ≫= λ '(elementType, width),
  let '(destIdx, retValues) :=
    match destIdx with
    | None => (0, resize width retValues)
    | Some d => (d, retValues)
    end in
  let retIsConstant := isConstant origValue in
  getScalarizedValues origValue ≫= λ currEntry,
  filledEntry currEntry ≫= λ found,
  match found with
  | Some e =>
      (* Value was found in SCM *)
      mapM' (seq 0 width) (getLane (scalarValues e)) ≫= λ lanes,
      storeLanes retValues destIdx lanes ≫= λ r, mret (r, retIsConstant)
  | None =>
      if isUndefValue origValue then
        let undefElement := VConst (UndefValue elementType) in
        storeLanes retValues destIdx (replicate width undefElement) ≫= λ r,
        mret (r, retIsConstant)
      else
        match origValue, currEntry with
        | VConst vectorConst, _ =>
            storeLanes retValues destIdx
              ((λ i, VConst (getExtractElement vectorConst i)) <$> seq 0 width) ≫= λ r,
            mret (r, retIsConstant)
        | VInst _, None =>
            (* Not found: dummy values and a DRL entry *)
            mapM' (seq 0 width) (λ _, newInst (dummyLoad elementType)) ≫= λ dummies,
            storeLanes retValues destIdx (VInst <$> dummies) ≫= λ r,
            modify (set_DRL (λ drl, drl ++ [mkDRLEntry origValue (VInst <$> dummies)])) ;;
            mret (r, retIsConstant)
        | _, _ =>
            breakdownLocation origValue ≫= λ locationInst,
            mapM' (seq 0 width) (λ i,
              createBefore (plainInst ExtractElement elementType [origValue; constIndex i])
                           locationInst) ≫= λ extracts,
            storeLanes retValues destIdx (VInst <$> extracts) ≫= λ r,
            getSCMEntry origValue ≫= λ newEntry,
            updateSCMEntryWithValues newEntry (drop destIdx r) origValue false true ;;
            mret (r, retIsConstant)
        end
  end.

(** [obtainVectorValueWhichMightBeScalarized]: [m_usedVectors] is a
    [SmallSetVector], which keeps the order of the first insertions. *)
Definition obtainVectorValueWhichMightBeScalarized (vectorVal : Value) : M unit :=
  modify (set_usedVectors (λ u, if decide (vectorVal ∈ u) then u else u ++ [vectorVal])).

Definition recoverNonScalarizableInst (Inst : positive) : M unit :=
  getInst Inst ≫= λ I,
  (if isVectorTy (type I) then getSCMEntry (VInst Inst) ;; mret tt else mret tt) ;;
  let ops :=
    match opcode I with
    | Call => removelast (operands I)
    | _ => operands I
    end in
  forM ops (λ operand,
    getType operand ≫= λ t,
    if isVectorTy t then obtainVectorValueWhichMightBeScalarized operand
    else mret tt).

(** ** The decomposition rules *)

Definition markRemoved (I : positive) : M unit :=
  modify (set_removedInsts (λ r, {[I]} ∪ r)).

Definition getOperand (I : Instruction) (i : nat) : M Value :=
  fromOption (operands I !! i).

Definition isOverflowingBinaryOperator (b : BinaryOps) : bool :=
  match b with
  | Add | Sub | Mul | Shl => true
  | _ => false
  end.

Definition isPossiblyExactOperator (b : BinaryOps) : bool :=
  match b with
  | UDiv | SDiv | LShr | AShr => true
  | _ => false
  end.

Definition isFPMathOperator (b : BinaryOps) : bool :=
  match b with
  | FAdd | FSub | FMul | FDiv | FRem => true
  | _ => false
  end.

(** The flags the new scalar operation [BO] gets from [BI]. *)
Definition copyFlags (b : BinaryOps) (BI : Flags) : Flags :=
  mkFlags
    (if isOverflowingBinaryOperator b then hasNoSignedWrap BI else false)
    (if isOverflowingBinaryOperator b then hasNoUnsignedWrap BI else false)
    (if isPossiblyExactOperator b then isExact BI else false)
    (if isFPMathOperator b then getFastMathFlags BI else 0%N).

Definition binaryFlags (op : Opcode) (BI : Flags) : Flags :=
  match op with
  | OpBinary b => copyFlags b BI
  | _ => noFlags
  end.

(** [scalarizeInstruction(BinaryOperator *BI)] *)
Definition scalarizeInstruction_BinaryOperator (BI : positive) : M unit :=
  getInst BI ≫= λ I,
  match asVectorType (type I) with
  | None => mret tt
  | Some (_, numElements) =>
      getSCMEntry (VInst BI) ≫= λ newEntry,
      getOperand I 0 ≫= λ v0,
      obtainScalarizedValues [] v0 None ≫= λ '(operand0, op0IsConst),
      getOperand I 1 ≫= λ v1,
      obtainScalarizedValues [] v1 None ≫= λ '(operand1, op1IsConst),
      if op0IsConst && op1IsConst then mret tt
      else
        mapM' (seq 0 numElements) (λ dup,
          getLane operand0 dup ≫= λ a,
          getLane operand1 dup ≫= λ b,
          getType a ≫= λ t,
          createBefore (mkInst (opcode I) t [a; b] 0%N (binaryFlags (opcode I) (flags I))
                               [] [] None None) (Some BI)
          ≫= λ id, mret (Some (VInst id))) ≫= λ newScalarizedInsts,
        updateSCMEntryWithValues newEntry newScalarizedInsts (VInst BI) true true ;;
        markRemoved BI
  end.

(** [CmpInst::makeCmpResultType] *)
Definition makeCmpResultType (t : Ty) : Ty :=
  match t with
  | VectorTy _ n => VectorTy (IntTy 1) n
  | _ => IntTy 1
  end.

(** [scalarizeInstruction(CmpInst *CI)] *)
Definition scalarizeInstruction_CmpInst (CI : positive) : M unit :=
  getInst CI ≫= λ I,
  match asVectorType (type I) with
  | None => mret tt
  | Some (_, numElements) =>
      getSCMEntry (VInst CI) ≫= λ newEntry,
      getOperand I 0 ≫= λ v0,
      obtainScalarizedValues [] v0 None ≫= λ '(operand0, op0IsConst),
      getOperand I 1 ≫= λ v1,
      obtainScalarizedValues [] v1 None ≫= λ '(operand1, op1IsConst),
      if op0IsConst && op1IsConst then mret tt
      else
        mapM' (seq 0 numElements) (λ dup,
          getLane operand0 dup ≫= λ a,
          getLane operand1 dup ≫= λ b,
          getType a ≫= λ t,
          createBefore (mkInst (opcode I) (makeCmpResultType t) [a; b] (predicate I) noFlags
                               [] [] None None) (Some CI)
          ≫= λ id, mret (Some (VInst id))) ≫= λ newScalarizedInsts,
        updateSCMEntryWithValues newEntry newScalarizedInsts (VInst CI) true true ;;
        markRemoved CI
  end.

(** [scalarizeInstruction(CastInst *CI)] *)
Definition scalarizeInstruction_CastInst (CI : positive) : M unit :=
  getInst CI ≫= λ I,
  let instType := asVectorType (type I) in
  (* For BitCast: only when source and destination have the same vector length *)
  (if bool_decide (opcode I = OpCast BitCast) then
     match instType with
     | None => mret true
     | Some (_, n) =>
         getOperand I 0 ≫= λ v0,
         getType v0 ≫= λ t0,
         mret (match asVectorType t0 with
               | Some (_, m) => bool_decide (n ≠ m)
               | None => true
               end)
     end
   else mret false) ≫= λ notScalarizable,
  if (notScalarizable : bool) then recoverNonScalarizableInst CI
  else
    match instType with
    | None => mret tt
    | Some (scalarDestType, numElements) =>
        getSCMEntry (VInst CI) ≫= λ newEntry,
        getOperand I 0 ≫= λ v0,
        getType v0 ≫= λ t0,
        require (bool_decide (snd <$> asVectorType t0 = Some numElements)) ;;
        obtainScalarizedValues [] v0 None ≫= λ '(operand0, op0IsConst),
        if (op0IsConst : bool) then mret tt
        else
          mapM' (seq 0 numElements) (λ dup,
            getLane operand0 dup ≫= λ a,
            createBefore (plainInst (opcode I) scalarDestType [a]) (Some CI)
            ≫= λ id, mret (Some (VInst id))) ≫= λ newScalarizedInsts,
          updateSCMEntryWithValues newEntry newScalarizedInsts (VInst CI) true true ;;
          markRemoved CI
    end.

(** The incoming values a vector PHI node is kept for: the results of the
    VME send intrinsics. *)
Definition isVmeSend (m : gmap positive Instruction) (Op : Value) : bool :=
  match Op with
  | VInst id =>
      match m !! id with
      | Some GII =>
          bool_decide (opcode GII = Call) &&
          match intrinsic GII with
          | Some GenISA_vmeSendIME2 => true
          | Some GenISA_vmeSendFBR2 => true
          | Some GenISA_vmeSendSIC2 => true
          | _ => false
          end
      | None => false
      end
  | _ => false
  end.

(** [cast<PHINode>(phi)->addIncoming(v, bb)] *)
Definition addIncoming (phi : Value) (v : Value) (bb : N) : M unit :=
  match phi with
  | VInst id =>
      getInst id ≫= λ i,
      require (bool_decide (opcode i = PHI)) ;;
      modify (set_insts <[id := addIncomingTo v bb i]>)
  | _ => fail
  end.

(** The second loop of [scalarizeInstruction(PHINode *PI)]: the incoming values
    [j], [j+1], ... in turn; [operand] is the array the loop reuses. *)
Fixpoint fillScalarPHIs (PI : Instruction) (newScalarizedPHI : list (option Value))
    (numElements : nat) (operand : list (option Value)) (js : list nat) : M unit :=
  match js with
  | [] => mret tt
  | j :: js' =>
      getOperand PI j ≫= λ vj,
      obtainScalarizedValues operand vj None ≫= λ '(operand', _),
      fromOption (incomingBlocks PI !! j) ≫= λ bb,
      forM (seq 0 numElements) (λ i,
        getLane newScalarizedPHI i ≫= λ phi,
        getLane operand' i ≫= λ v,
        addIncoming phi v bb) ;;
      fillScalarPHIs PI newScalarizedPHI numElements operand' js'
  end.

(** [scalarizeInstruction(PHINode *PI)] *)
Definition scalarizeInstruction_PHINode (PI : positive) : M unit :=
  getInst PI ≫= λ I,
  match asVectorType (type I) with
  | None => mret tt
  | Some (scalarType, numElements) =>
      let numValues := length (operands I) in
      gets insts ≫= λ m,
      if existsb (isVmeSend m) (operands I) then recoverNonScalarizableInst PI
      else
        getSCMEntry (VInst PI) ≫= λ newEntry,
        mapM' (seq 0 numElements) (λ _,
          createBefore (plainInst PHI scalarType []) (Some PI)
          ≫= λ id, mret (Some (VInst id))) ≫= λ newScalarizedPHI,
        fillScalarPHIs I newScalarizedPHI numElements [] (seq 0 numValues) ;;
        updateSCMEntryWithValues newEntry newScalarizedPHI (VInst PI) true true ;;
        markRemoved PI
  end.

(** [scalarizeInstruction(SelectInst *SI)] *)
Definition scalarizeInstruction_SelectInst (SI : positive) : M unit :=
  getInst SI ≫= λ I,
  match asVectorType (type I) with
  | None => mret tt
  | Some (_, numElements) =>
      getSCMEntry (VInst SI) ≫= λ newEntry,
      getOperand I 1 ≫= λ trueValue,
      obtainScalarizedValues [] trueValue None ≫= λ '(trueValOp, _),
      getOperand I 2 ≫= λ falseValue,
      obtainScalarizedValues [] falseValue None ≫= λ '(falseValOp, _),
      getOperand I 0 ≫= λ conditionVal,
      getType conditionVal ≫= λ ct,
      (if isVectorTy ct then
         obtainScalarizedValues [] conditionVal None ≫= λ '(condOp, _), mret condOp
       else mret (replicate numElements (Some conditionVal))) ≫= λ condOp,
      mapM' (seq 0 numElements) (λ dup,
        getLane trueValOp dup ≫= λ tv,
        getLane falseValOp dup ≫= λ fv,
        if decide (tv ≠ fv) then
          getLane condOp dup ≫= λ c,
          getType tv ≫= λ t,
          createBefore (plainInst Select t [c; tv; fv]) (Some SI)
          ≫= λ id, mret (Some (VInst id))
        else mret (Some tv)) ≫= λ newScalarizedInsts,
      updateSCMEntryWithValues newEntry newScalarizedInsts (VInst SI) true true ;;
      markRemoved SI
  end.

(** [cast<ConstantInt>(v)->getZExtValue()], a [uint64_t], for a value that
    is a [ConstantInt]. *)
Definition getZExtValue (v : Value) : option Z :=
  match v with
  | VConst (ConstantInt _ z) => Some (z mod 2 ^ 64)%Z
  | _ => None
  end.

(** [static_cast<unsigned int>(scalarIndex)] *)
Definition toUnsigned (scalarIndex : Z) : nat := Z.to_nat (scalarIndex mod 2 ^ 32).

(** [scalarizeInstruction(ExtractElementInst *EI)] *)
Definition scalarizeInstruction_ExtractElementInst (EI : positive) : M unit :=
  getInst EI ≫= λ I,
  getOperand I 0 ≫= λ vectorValue,
  getOperand I 1 ≫= λ scalarIndexVal,
  match getZExtValue scalarIndexVal with
  | None => recoverNonScalarizableInst EI
  | Some scalarIndex =>
      obtainScalarizedValues [] vectorValue None ≫= λ '(operand, _),
      getLane operand (toUnsigned scalarIndex) ≫= λ lane,
      replaceAllUsesWith (VInst EI) lane ;;
      markRemoved EI
  end.

(** [scalarizeInstruction(InsertElementInst *II)] *)
Definition scalarizeInstruction_InsertElementInst (II : positive) : M unit :=
  getInst II ≫= λ I,
  getOperand I 0 ≫= λ sourceVectorValue,
  getOperand I 1 ≫= λ sourceScalarValue,
  getOperand I 2 ≫= λ scalarIndexVal,
  match getZExtValue scalarIndexVal with
  | Some scalarIndexZ =>
      getSCMEntry (VInst II) ≫= λ newEntry,
      fromOption (asVectorType (type I)) ≫= λ '(_, numElements),
      require (bool_decide (scalarIndexZ < Z.of_nat numElements)%Z) ;;
      let scalarIndex := toUnsigned scalarIndexZ in
      (if isUndefValue sourceVectorValue then
         getType sourceVectorValue ≫= λ t,
         fromOption (asVectorType t) ≫= λ '(elementType, inputWidth),
         storeAt (replicate inputWidth (Some (VConst (UndefValue elementType))))
                 scalarIndex (Some sourceScalarValue)
       else
         obtainScalarizedValues [] sourceVectorValue None ≫= λ '(scalarValues, _),
         storeAt scalarValues scalarIndex (Some sourceScalarValue)) ≫= λ scalarValues,
      updateSCMEntryWithValues newEntry scalarValues (VInst II) true false ;;
      markRemoved II
  | None => recoverNonScalarizableInst II
  end.

(** The loop of [scalarizeInstruction(ShuffleVectorInst *SI)] over the shuffle
    order: the mask-indexed element of the concatenated inputs, or [undef]. *)
Definition shuffleLane (allValues : list (option Value)) (undef : Value)
    (maskValue : Z) : M Value :=
  if bool_decide (0 ≤ maskValue)%Z then
    fromOption (allValues !! Z.to_nat maskValue) ≫= λ v,
    match v with
    | Some x => mret x
    | None => mret undef
    end
  else mret undef.

(** [scalarizeInstruction(ShuffleVectorInst *SI)] *)
Definition scalarizeInstruction_ShuffleVectorInst (SI : positive) : M unit :=
  getInst SI ≫= λ I,
  getOperand I 0 ≫= λ sourceVector0Value,
  getOperand I 1 ≫= λ sourceVector1Value,
  getType sourceVector0Value ≫= λ inputType,
  getType sourceVector1Value ≫= λ inputType1,
  fromOption (asVectorType inputType) ≫= λ '(elementType, sourceVectorWidth),
  require (bool_decide (inputType = inputType1)) ;;
  let allValues : list (option Value) := resize (2 * sourceVectorWidth) [] in
  (if isUndefValue sourceVector0Value then mret allValues
   else obtainScalarizedValues allValues sourceVector0Value (Some 0)
        ≫= λ '(r, _), mret r) ≫= λ allValues,
  (if isUndefValue sourceVector1Value then mret allValues
   else obtainScalarizedValues allValues sourceVector1Value (Some sourceVectorWidth)
        ≫= λ '(r, _), mret r) ≫= λ allValues,
  fromOption (asVectorType (type I)) ≫= λ '(_, width),
  let undef := VConst (UndefValue elementType) in
  mapM' (seq 0 width) (λ i,
    fromOption (mask I !! i) ≫= λ maskValue,
    shuffleLane allValues undef maskValue ≫= λ v, mret (Some v)) ≫= λ newVector,
  getSCMEntry (VInst SI) ≫= λ newEntry,
  updateSCMEntryWithValues newEntry newVector (VInst SI) true false ;;
  markRemoved SI.

(** [scalarizeInstruction] of a call, an alloca and a getelementptr. *)
Definition scalarizeInstruction_CallInst (CI : positive) : M unit :=
  recoverNonScalarizableInst CI.

Definition scalarizeInstruction_AllocaInst (AI : positive) : M unit :=
  recoverNonScalarizableInst AI.

Definition scalarizeInstruction_GetElementPtrInst (GI : positive) : M unit :=
  recoverNonScalarizableInst GI.

Definition isScalarizableLoadStoreType (type : option (Ty * nat)) : M bool :=
  gets m_ScalarizingVectorLDSTType ≫= λ b, mret (b && bool_decide (is_Some type)).

(** The assertion on the sizes the data layout gives for a vector type. *)
Definition checkVectorSize (dataType : Ty) (elementType : Ty) : M unit :=
  gets m_pDL ≫= λ DL,
  let vectorSize := getTypeAllocSize DL dataType in
  let elementSize := (getTypeSizeInBits DL elementType / 8)%N in
  require (bool_decide (elementSize ≠ 0%N)) ;;
  require (bool_decide (0 < vectorSize / elementSize)%N
           && bool_decide (vectorSize mod elementSize = 0)%N).

(** [BitCastInst::CreatePointerCast] of the pointer operand to a pointer to
    the element type, in the address space of the pointer. *)
Definition createOperandBase (GepPtr : Value) (elementType : Ty) (before : positive) :
    M (Value * Ty) :=
  getType GepPtr ≫= λ GepPtrType,
  match GepPtrType with
  | PointerTy _ addrspace =>
      let t := PointerTy elementType addrspace in
      createBefore (plainInst (OpCast BitCast) t [GepPtr]) (Some before) ≫= λ id,
      mret (VInst id, t)
  | _ => fail
  end.

(** [scalarizeInstruction(LoadInst *LI)] *)
Definition scalarizeInstruction_LoadInst (LI : positive) : M unit :=
  getInst LI ≫= λ I,
  isScalarizableLoadStoreType (asVectorType (type I)) ≫= λ ok,
  match ok, asVectorType (type I) with
  | true, Some (elementType, numDupElements) =>
      getSCMEntry (VInst LI) ≫= λ newEntry,
      checkVectorSize (type I) elementType ;;
      getOperand I 0 ≫= λ GepPtr,
      createOperandBase GepPtr elementType LI ≫= λ '(operandBase, ptrType),
      mapM' (seq 0 numDupElements) (λ dup,
        createBefore (plainInst GetElementPtr ptrType [operandBase; constIndex dup])
                     (Some LI) ≫= λ pGEP,
        createBefore (plainInst Load elementType [VInst pGEP]) (Some LI)
        ≫= λ id, mret (Some (VInst id))) ≫= λ newScalarizedInsts,
      updateSCMEntryWithValues newEntry newScalarizedInsts (VInst LI) true true ;;
      markRemoved LI
  | _, _ => recoverNonScalarizableInst LI
  end.

(** [scalarizeInstruction(StoreInst *SI)]: the stored value is operand 0 and
    the pointer is operand 1. *)
Definition scalarizeInstruction_StoreInst (SI : positive) : M unit :=
  getInst SI ≫= λ I,
  let indexPtr := 1 in
  let indexData := 1 - indexPtr in
  getOperand I indexData ≫= λ data,
  getType data ≫= λ dt,
  isScalarizableLoadStoreType (asVectorType dt) ≫= λ ok,
  match ok, asVectorType dt with
  | true, Some (elementType, numDupElements) =>
      checkVectorSize dt elementType ;;
      obtainScalarizedValues [] data None ≫= λ '(operand0, _),
      getOperand I indexPtr ≫= λ GepPtr,
      createOperandBase GepPtr elementType SI ≫= λ '(operandBase, ptrType),
      forM (seq 0 numDupElements) (λ dup,
        createBefore (plainInst GetElementPtr ptrType [operandBase; constIndex dup])
                     (Some SI) ≫= λ pGEP,
        getLane operand0 dup ≫= λ v,
        createBefore (plainInst Store VoidTy [v; VInst pGEP]) (Some SI) ;;
        mret tt) ;;
      markRemoved SI
  | _, _ => recoverNonScalarizableInst SI
  end.

(** ** Dispatch *)

Definition dispatchInstructionToScalarize (I : positive) : M unit :=
  gets m_removedInsts ≫= λ removed,
  if decide (I ∈ removed) then mret tt
  else
    getInst I ≫= λ inst,
    match opcode inst with
    | OpBinary _ => scalarizeInstruction_BinaryOperator I
    | OpCmp _ => scalarizeInstruction_CmpInst I
    | OpCast AddrSpaceCast => recoverNonScalarizableInst I
    | OpCast _ => scalarizeInstruction_CastInst I
    | PHI => scalarizeInstruction_PHINode I
    | Select => scalarizeInstruction_SelectInst I
    | ExtractElement => scalarizeInstruction_ExtractElementInst I
    | InsertElement => scalarizeInstruction_InsertElementInst I
    | ShuffleVector => scalarizeInstruction_ShuffleVectorInst I
    | Alloca => scalarizeInstruction_AllocaInst I
    | GetElementPtr => scalarizeInstruction_GetElementPtrInst I
    | Load => scalarizeInstruction_LoadInst I
    | Store => scalarizeInstruction_StoreInst I
    | Call | OtherOp _ => recoverNonScalarizableInst I
    end.

(** ** Reassembly of the vectors that are used whole *)

(** The loop of [obtainVectorValueWhichMightBeScalarizedImpl] from lane [i]
    on: [assembledVector] is the chain built so far. *)
Fixpoint assembleVector (t : Ty) (vectorInst : positive) (insertLocation : option positive)
    (valueEntry : SCMEntryPtr) (assembledVector : Value) (idx : list nat) : M Value :=
  match idx with
  | [] => mret assembledVector
  | i :: idx' =>
      readEntry valueEntry ≫= λ e,
      getLane (scalarValues e) i ≫= λ lane,
      createBefore (plainInst InsertElement t [assembledVector; lane; constIndex i])
                   insertLocation ≫= λ insert,
      SetDebugLocBy insert vectorInst ;;
      assembleVector t vectorInst insertLocation valueEntry (VInst insert) idx'
  end.

Definition obtainVectorValueWhichMightBeScalarizedImpl (vectorVal : Value) : M unit :=
  getType vectorVal ≫= λ t,
  fromOption (asVectorType t) ≫= λ '(_, width),
  if isUndefValue vectorVal then mret tt
  else
    gets m_SCM ≫= λ scm,
    match scm !! vectorVal with
    | None => mret tt
    | Some valueEntry =>
        readEntry valueEntry ≫= λ e,
        if negb (isOriginalVectorRemoved e) then mret tt
        else
          match vectorVal with
          | VInst vectorInst =>
              gets insts ≫= λ m,
              gets func ≫= λ f,
              (if isPHI m vectorInst then
                 fromOption (getParent vectorInst f) ≫= λ bb, mret (getFirstNonPHI m bb)
               else mret (Some vectorInst)) ≫= λ insertLocation,
              assembleVector t vectorInst insertLocation valueEntry
                             (VConst (UndefValue t)) (seq 0 width) ≫= λ assembledVector,
              replaceAllUsesWith vectorVal assembledVector ;;
              getSCMEntry assembledVector ≫= λ newEntry,
              readEntry valueEntry ≫= λ e',
              updateSCMEntryWithValues newEntry (scalarValues e') assembledVector false true
          | _ => fail
          end
    end.

Definition resolveVectorValues : M unit :=
  gets m_usedVectors ≫= λ used,
  forM used obtainVectorValueWhichMightBeScalarizedImpl.

(** ** Resolution of the deferred values *)

(** A load whose pointer operand is a null pointer constant. *)
Definition isDummyInst (ld : Instruction) : bool :=
  bool_decide (opcode ld = Load) &&
  match operands ld with
  | VConst (ConstantPointerNull _) :: _ => true
  | _ => false
  end.

(** The lambda [isDummyValue] of [resolveDeferredInstructions]. *)
Definition isDummyValue (val : Value) : M bool :=
  match val with
  | VInst id => getInst id ≫= λ ld, mret (isDummyInst ld)
  | _ => mret false
  end.

(** The search for a dummy among the lanes [idx] of the entry, which stops at
    the first one. *)
Fixpoint hasDummyLoadIn (lanes : list (option Value)) (idx : list nat) : M bool :=
  match idx with
  | [] => mret false
  | i :: idx' =>
      getLane lanes i ≫= λ v,
      isDummyValue v ≫= λ d,
      if (d : bool) then mret true else hasDummyLoadIn lanes idx'
  end.

(** The block of [resolveDeferredInstructions] that breaks the vector down
    after its definition, for the lanes that are not set or are dummies. *)
Definition scalarizeNow (vectorInst : positive) (elementType : Ty) (width : nat)
    (currentInstEntry : SCMEntryPtr) (e : SCMEntry) (scalarsInitialized : bool) : M unit :=
  gets func ≫= λ f,
  fromOption (getParent vectorInst f) ≫= λ bb,
  fromOption (nextIn vectorInst (bb_insts bb)) ≫= λ next,
  gets insts ≫= λ m,
  (if isPHI m next then fromOption (getFirstNonPHI m bb) else mret next)
  ≫= λ insertLocation,
  mapM' (seq 0 width) (λ i,
    (if scalarsInitialized then getLane (scalarValues e) i ≫= isDummyValue
     else mret true) ≫= λ fresh,
    if (fresh : bool) then
      createBefore (plainInst ExtractElement elementType
                              [VInst vectorInst; constIndex i])
                   (Some insertLocation) ≫= λ EE, mret (Some (VInst EE))
    else mret (scalarValues e !! i ≫= id)) ≫= λ newInsts,
  updateSCMEntryWithValues currentInstEntry newInsts (VInst vectorInst) false true.

(** The last loop of the body: the placeholders are replaced by the lanes
    of the entry and deleted. *)
Definition connectDummies (current : DRLEntry) (currentInstEntry : SCMEntryPtr)
    (idx : list nat) : M unit :=
  forM idx (λ i,
    fromOption (dummyVals current !! i) ≫= λ dummyVal,
    match dummyVal with
    | VInst dummyInst =>
        getInst dummyInst ;;
        readEntry currentInstEntry ≫= λ e',
        getLane (scalarValues e') i ≫= λ scalarVal,
        replaceAllUsesWith (VInst dummyInst) scalarVal ;;
        DeleteInstruction dummyInst
    | _ => fail
    end).

(** The body of the loop of [resolveDeferredInstructions]. *)
Definition resolveDeferredInstruction (current : DRLEntry) : M unit :=
  match unresolvedInst current with
  | VInst vectorInst =>
      getInst vectorInst ≫= λ I,
      fromOption (asVectorType (type I)) ≫= λ '(elementType, width),
      getSCMEntry (VInst vectorInst) ≫= λ currentInstEntry,
      readEntry currentInstEntry ≫= λ e,
      fromOption (scalarValues e !! 0) ≫= λ lane0,
      let scalarsInitialized := bool_decide (is_Some lane0) in
      (if scalarsInitialized then hasDummyLoadIn (scalarValues e) (seq 0 width)
       else mret false) ≫= λ hasDummyLoad,
      (if negb scalarsInitialized || hasDummyLoad then
         scalarizeNow vectorInst elementType width currentInstEntry e scalarsInitialized
       else mret tt) ;;
      connectDummies current currentInstEntry (seq 0 width)
  | _ => fail
  end.

Definition resolveDeferredInstructions : M unit :=
  gets m_DRL ≫= λ drl,
  forM drl resolveDeferredInstruction ;;
  modify (set_DRL (λ _, [])).

(** ** The pass on a function *)

(** The element after [I] in the order of [inst_iterator]. *)
Definition nextInstruction (I : positive) (f : Function) : option positive :=
  nextIn I (instructionsOf f).

(** The traversal loop of [runOnFunction]: [sI] is the iterator, [None] at
    [inst_end]; the iterator is moved on before the instruction is
    scalarized.  [fuel] bounds the number of iterations. *)
Fixpoint scalarizeLoop (fuel : nat) (sI : option positive) : M unit :=
  match sI with
  | None => mret tt
  | Some currInst =>
      match fuel with
      | 0 => fail
      | S fuel' =>
          gets func ≫= λ f,
          let sI' := nextInstruction currInst f in
          dispatchInstructionToScalarize currInst ;;
          scalarizeLoop fuel' sI'
      end
  end.

(** The deletion loop at the end of [runOnFunction]. *)
Definition deleteRemovedInst (index : positive) : M unit :=
  getType (VInst index) ≫= λ t,
  replaceAllUsesWith (VInst index) (VConst (UndefValue t)) ;;
  gets insts ≫= λ m,
  require (use_empty m (VInst index)) ;;
  eraseFromParent index.

Definition runOnFunction (fuel : nat) : M bool :=
  gets func ≫= λ F,
  gets forceInline ≫= λ force,
  if (if negb force then isDeclaration F else negb (returnsVoid F)) then mret false
  else
    modify (set_usedVectors (λ _, [])) ;;
    modify (set_removedInsts (λ _, ∅)) ;;
    modify (set_SCM (λ _, ∅)) ;;
    releaseAllSCMEntries ;;
    modify (set_DRL (λ _, [])) ;;
    scalarizeLoop fuel (inst_begin F) ;;
    resolveVectorValues ;;
    resolveDeferredInstructions ;;
    gets m_removedInsts ≫= λ removed,
    forM (elements removed) deleteRemovedInst ;;
    mret true.

(** ** Sample functions

    Small functions the pass is run on below.  Instructions are numbered in
    program order; [hostState] is a host state with a pass object built by
    the constructor, with four entries in an allocation array. *)

Definition i32 : Ty := IntTy 32.

Definition v2i32 : Ty := VectorTy i32 2.

Definition v4i32 : Ty := VectorTy i32 4.

Definition sampleLayout : DataLayout :=
  mkDataLayout
    (λ t, match t with VectorTy _ n => (4 * Npos n)%N | _ => 4%N end)
    (λ _, 32%N).

Definition hostState (body : list (positive * Instruction)) (bbs : list BasicBlock)
    (next : positive) : State :=
  ScalarizeFunction false
    (mkState (list_to_map body) next (mkFunction false true bbs)
             4 false false sampleLayout ∅ [] 0 0 [] [] ∅).

Definition callee : Value := VConst (ConstantData (OtherTy 0) 1).

Definition retVoid : Instruction := plainInst (OtherOp 1) VoidTy [].

(** [%1 = add i32 %x, %y; ret void]: no vector value at all. *)
Definition sample_scalar : State :=
  hostState
    [(1%positive, plainInst (OpBinary Add) i32 [VArg i32 0; VArg i32 1]);
     (2%positive, retVoid)]
    [mkBlock 0 [1; 2]%positive] 3%positive.

(** [%1 = add <2 x i32> %a, %b; call void @f(<2 x i32> %1); ret void] *)
Definition sample_add_call : State :=
  hostState
    [(1%positive, plainInst (OpBinary Add) v2i32 [VArg v2i32 0; VArg v2i32 1]);
     (2%positive, plainInst Call VoidTy [VInst 1; callee]);
     (3%positive, retVoid)]
    [mkBlock 0 [1; 2; 3]%positive] 4%positive.

(** [%1 = add <2 x i32> <c0>, <c1>; ret void]: both operands are constants. *)
Definition sample_const_add : State :=
  hostState
    [(1%positive, plainInst (OpBinary Add) v2i32
                    [VConst (ConstantData v2i32 10); VConst (ConstantData v2i32 11)]);
     (2%positive, retVoid)]
    [mkBlock 0 [1; 2]%positive] 3%positive.

(** [%1 = extractelement <4 x i32> %v, i32 2; %2 = add i32 %1, %1; ret void]
    with [%v] an argument of the function. *)
Definition sample_extract : State :=
  hostState
    [(1%positive, plainInst ExtractElement i32
                    [VArg v4i32 0; VConst (ConstantInt i32 2)]);
     (2%positive, plainInst (OpBinary Add) i32 [VInst 1; VInst 1]);
     (3%positive, retVoid)]
    [mkBlock 0 [1; 2; 3]%positive] 4%positive.

(** [%1 = add <2 x i32> %x, %y;
     %2 = shufflevector <2 x i32> %1, <2 x i32> undef, <0, 1, undef, undef>;
     call void @f(<4 x i32> %2); ret void] *)
Definition sample_shuffle : State :=
  hostState
    [(1%positive, plainInst (OpBinary Add) v2i32 [VArg v2i32 0; VArg v2i32 1]);
     (2%positive, mkInst ShuffleVector v4i32 [VInst 1; VConst (UndefValue v2i32)]
                    0%N noFlags [] [0; 1; -1; -1]%Z None None);
     (3%positive, plainInst Call VoidTy [VInst 2; callee]);
     (4%positive, retVoid)]
    [mkBlock 0 [1; 2; 3; 4]%positive] 5%positive.

(** A loop whose vector PHI node refers to a value defined after it:
    [entry: br loop]
    [loop: %2 = phi <2 x i32> [<c>, entry], [%3, loop];
           %3 = add <2 x i32> %2, <c>; br loop] *)
Definition sample_loop : State :=
  hostState
    [(1%positive, plainInst (OtherOp 2) VoidTy []);
     (2%positive, mkInst PHI v2i32 [VConst (ConstantData v2i32 10); VInst 3]
                    0%N noFlags [0; 1]%N [] None None);
     (3%positive, plainInst (OpBinary Add) v2i32
                    [VInst 2; VConst (ConstantData v2i32 10)]);
     (4%positive, plainInst (OtherOp 2) VoidTy [])]
    [mkBlock 0 [1%positive]; mkBlock 1 [2; 3; 4]%positive] 5%positive.

(** A vector PHI node fed by a VME send intrinsic:
    [entry: %1 = call <4 x i32> @GenISA.vmeSendIME2(...); br next]
    [next: %3 = phi <4 x i32> [%1, entry]; ret void] *)
Definition sample_vme_phi : State :=
  hostState
    [(1%positive, mkInst Call v4i32 [callee] 0%N noFlags [] []
                    (Some GenISA_vmeSendIME2) None);
     (2%positive, plainInst (OtherOp 2) VoidTy []);
     (3%positive, mkInst PHI v4i32 [VInst 1] 0%N noFlags [0%N] [] None None);
     (4%positive, retVoid)]
    [mkBlock 0 [1; 2]%positive; mkBlock 1 [3; 4]%positive] 5%positive.

(** ** What the properties speak of *)

(** The function is left alone by [runOnFunction]: a declaration, or, when
    inlining is forced, a function that does not return void. *)
Definition skipped (st : State) : bool :=
  if negb (forceInline st) then isDeclaration (func st)
  else negb (returnsVoid (func st)).

(** Some instruction was added to the function or removed from it.
    Instruction objects are never reused, so this is a change of the list of
    the instructions of the function. *)
Definition modified (st st' : State) : Prop :=
  instructionsOf (func st') ≠ instructionsOf (func st).

(** The computation [m] leaves the component [f] of the state as it is. *)
Definition keeps {A B : Type} (f : State → B) (m : M A) : Prop :=
  ∀ st a st', m st = Some (a, st') → f st' = f st.

(** The part of the state that holds the code: the instruction objects, the
    allocator, the blocks of the function, and the two records of what is to
    be deleted or resolved later. *)
Definition code (st : State) :=
  (insts st, nextId st, func st, m_removedInsts st, m_DRL st).

(** The type of a value, read off a store of instruction objects. *)
Definition typeOf (m : gmap positive Instruction) (v : Value) : option Ty :=
  match v with
  | VInst id => type <$> m !! id
  | VArg t _ => Some t
  | VConst c => Some (typeOfConstant c)
  end.

Definition scalarTyped (m : gmap positive Instruction) (v : Value) : bool :=
  match typeOf m v with
  | Some t => negb (isVectorTy t)
  | None => false
  end.

(** An instruction that has nothing to do with vectors: its type and the
    types of its operands are not vector types.  An extractelement, an
    insertelement or a shufflevector always has a vector operand or a vector
    result, so it is none of these; a store has its stored value. *)
Definition vectorFree (m : gmap positive Instruction) (I : Instruction) : bool :=
  negb (isVectorTy (type I)) && forallb (scalarTyped m) (operands I) &&
  match opcode I with
  | ExtractElement | InsertElement | ShuffleVector => false
  | Store => bool_decide (operands I ≠ [])
  | _ => true
  end.

(** A function without any vector value, whose instructions are distinct
    objects of the store. *)
Definition vectorFreeFunction (st : State) : bool :=
  bool_decide (NoDup (instructionsOf (func st))) &&
  forallb (λ id, match insts st !! id with
                 | Some inst => vectorFree (insts st) inst
                 | None => false
                 end)
          (instructionsOf (func st)).

(** The state a computation ends in, when it does not fail. *)
Definition stateAfter {A : Type} (m : M A) (st : State) : State :=
  match m st with
  | Some (_, st') => st'
  | None => st
  end.

Definition stateAfterRun (fuel : nat) (st : State) : State :=
  stateAfter (runOnFunction fuel) st.

(** A run that does not fail and whose result and final state pass the
    test [p]. *)
Definition holdsAfter {A : Type} (r : option (A * State)) (p : A → State → bool) : bool :=
  match r with
  | Some (a, st') => p a st'
  | None => false
  end.

(** The SCM holds the lanes of [v]: [v] has an entry whose first lane is set. *)
Definition hasLanes (st : State) (v : Value) : bool :=
  match m_SCM st !! v with
  | Some p =>
      match m_SCMArrays st !! p.1 ≫= λ arr, arr !! p.2 with
      | Some e =>
          match scalarValues e with
          | Some _ :: _ => true
          | _ => false
          end
      | None => false
      end
  | None => false
  end.

(** The operands that recovery looks at: the arguments of a call, the
    operands of any other instruction. *)
Definition recoveredOperands (I : Instruction) : list Value :=
  match opcode I with
  | Call => removelast (operands I)
  | _ => operands I
  end.

(** *** The SCM *)

(** The entry an [SCMEntry*] points to. *)
Definition lookupEntry (st : State) (p : SCMEntryPtr) : option SCMEntry :=
  m_SCMArrays st !! p.1 ≫= λ arr, arr !! p.2.

(** An entry whose lanes were filled in: its first lane is set. *)
Definition isResolved (e : SCMEntry) : bool :=
  match scalarValues e with
  | Some _ :: _ => true
  | _ => false
  end.

(** The lanes of an entry are as many as the vector type [t] of its owner
    has elements, and none of them is null. *)
Definition lanesFit (t : option Ty) (e : SCMEntry) : Prop :=
  ∃ elt w, t = Some (VectorTy elt w) ∧
           length (scalarValues e) = Pos.to_nat w ∧
           Forall is_Some (scalarValues e).

(** The lane invariant: every resolved entry of the SCM fits the type of
    the value that owns it. *)
Definition laneInvariant (st : State) : Prop :=
  ∀ v p e, m_SCM st !! v = Some p → lookupEntry st p = Some e →
           isResolved e = true → lanesFit (typeOf (insts st) v) e.

(** An entry pointer that was handed out before the allocation cursor. *)
Definition allocated (st : State) (p : SCMEntryPtr) : Prop :=
  p.1 < m_SCMAllocationArray st ∨
  (p.1 = m_SCMAllocationArray st ∧ p.2 < m_SCMArrayLocation st).

(** The discipline of the allocation arrays: the current array is the last
    one, the arrays have [ESTIMATED_INST_NUM] entries, the entries of the SCM
    were handed out by the allocator, each to one value. *)
Definition scmWf (st : State) : Prop :=
  m_SCMAllocationArray st + 1 = length (m_SCMArrays st) ∧
  Forall (λ arr, length arr = ESTIMATED_INST_NUM st) (m_SCMArrays st) ∧
  m_SCMArrayLocation st ≤ ESTIMATED_INST_NUM st ∧
  (∀ v p, m_SCM st !! v = Some p → allocated st p) ∧
  (∀ v1 v2 p, m_SCM st !! v1 = Some p → m_SCM st !! v2 = Some p → v1 = v2).

(** The types of the instruction objects. *)
Definition types (st : State) : gmap positive Ty := type <$> insts st.

(** The instruction objects up to their debug locations. *)
Definition stripped (st : State) : gmap positive Instruction :=
  setDebugLoc None <$> insts st.

(** The members of the pass that are not the SCM, and the function. *)
Definition outsideSCM (st : State) :=
  (nextId st, func st, m_DRL st, m_usedVectors st, m_removedInsts st).

(** The SCM without the contents of its entries. *)
Definition scmShape (st : State) :=
  (m_SCM st, m_SCMAllocationArray st, m_SCMArrayLocation st, ESTIMATED_INST_NUM st).

(** *** The DRL *)

(** The placeholders that the DRL records. *)
Definition placeholders (st : State) : list Value :=
  mjoin (dummyVals <$> m_DRL st).

(** Every instruction object was made by the allocator. *)
Definition storeFresh (st : State) : Prop :=
  ∀ id i, insts st !! id = Some i → (id < nextId st)%positive.

(** The DRL as [obtainScalarizedValues] builds it: an entry has one
    placeholder for each element of the vector type of its target, and a
    placeholder is a dummy load among the instruction objects. *)
Definition drlWf (st : State) : Prop :=
  Forall (λ entry,
    ∃ elt w,
      typeOf (insts st) (unresolvedInst entry) = Some (VectorTy elt w) ∧
      length (dummyVals entry) = Pos.to_nat w ∧
      Forall (λ v, ∃ d i, v = VInst d ∧ insts st !! d = Some i ∧ isDummyInst i = true)
             (dummyVals entry))
    (m_DRL st).

(** No instruction object has [v] as an operand. *)
Definition unused (m : gmap positive Instruction) (v : Value) : Prop :=
  ∀ k i, m !! k = Some i → v ∉ operands i.

(** The invariant of the resolution loop.  [T] is the types of the
    instruction objects and [P] the placeholders at the start of the loop,
    [D] the placeholders that were substituted and deleted so far. *)
Definition closureInv (T : gmap positive Ty) (P D : list positive) (st : State) : Prop :=
  storeFresh st ∧
  (∀ id t, T !! id = Some t →
     (id < nextId st)%positive ∧ ∀ i, insts st !! id = Some i → type i = t) ∧
  (∀ d, d ∈ P → ∀ i, insts st !! d = Some i → isDummyInst i = true) ∧
  (∀ d, d ∈ D → insts st !! d = None ∧ unused (insts st) (VInst d)).

(** A value that is none of the placeholders [P]. *)
Definition notAmong (P : list positive) (x : Value) : Prop :=
  ∀ d, d ∈ P → x ≠ VInst d.

Definition asInstruction (v : Value) : option positive :=
  match v with
  | VInst d => Some d
  | _ => None
  end.

(** [drlWf] as a test. *)
Definition drlWfb (st : State) : bool :=
  forallb (λ entry,
    match typeOf (insts st) (unresolvedInst entry) with
    | Some (VectorTy _ w) =>
        bool_decide (length (dummyVals entry) = Pos.to_nat w) &&
        forallb (λ v, match v with
                      | VInst d =>
                          match insts st !! d with
                          | Some i => isDummyInst i
                          | None => false
                          end
                      | _ => false
                      end) (dummyVals entry)
    | _ => false
    end) (m_DRL st).

(** [sample_loop] after the traversal: the PHI node was decomposed with
    placeholders for the lanes of the addition that follows it. *)
Definition sample_loop_traversed : State :=
  stateAfter (scalarizeLoop 10 (inst_begin (func sample_loop))) sample_loop.

(** *** The lanes of a value

    [resolveLanes] is the lane resolution as the specification words it: the
    lanes of a vector value, chosen by priority, without the array they are
    returned in.  [obtainScalarizedValues] computes these lanes and writes
    them into its array ([obtainScalarizedValues_resolveLanes] below). *)
Definition lanesBy (v : Value) (elementType : Ty) (width : nat)
    (currEntry : option SCMEntryPtr) (found : option SCMEntry) : M (list Value) :=
  match found with
  | Some e =>
      (* (a) an entry of the SCM that is filled in *)
      mapM' (seq 0 width) (getLane (scalarValues e))
  | None =>
      if isUndefValue v then
        (* (b) an undefined vector: undefined lanes *)
        mret (replicate width (VConst (UndefValue elementType)))
      else
        match v, currEntry with
        | VConst vectorConst, _ =>
            (* (c) another constant: constant extractions *)
            mret ((λ i, VConst (getExtractElement vectorConst i)) <$> seq 0 width)
        | VInst _, None =>
            (* (d) an instruction without an entry: placeholders, and a DRL entry *)
            mapM' (seq 0 width) (λ _, newInst (dummyLoad elementType)) ≫= λ dummies,
            modify (set_DRL (λ drl, drl ++ [mkDRLEntry v (VInst <$> dummies)])) ;;
            mret (VInst <$> dummies)
        | _, _ =>
            (* (e) any other value: extractions after its definition, kept in
               a new entry *)
            breakdownLocation v ≫= λ locationInst,
            mapM' (seq 0 width) (λ i,
              createBefore (plainInst ExtractElement elementType [v; constIndex i])
                           locationInst) ≫= λ extracts,
            getSCMEntry v ≫= λ newEntry,
            updateSCMEntryWithValues newEntry (Some <$> (VInst <$> extracts)) v false true ;;
            mret (VInst <$> extracts)
        end
  end.

Definition resolveLanes (v : Value) : M (list Value) :=
  getType v ≫= λ t,
  fromOption (asVectorType t) ≫= λ '(elementType, width),
  getScalarizedValues v ≫= λ currEntry,
  filledEntry currEntry ≫= λ found,
  lanesBy v elementType width currEntry found.

(** The store grows: from a store whose objects the allocator made, to such
    a store in which the objects are as they were, up to their debug
    locations. *)
Definition grows (st st' : State) : Prop :=
  storeFresh st → storeFresh st' ∧ stripped st ⊆ stripped st'.

(** *** The shuffle *)

(** What an input of a shuffle brings to the concatenated array: its lanes,
    or as many null entries when the input is an undefined vector. *)
Definition inputLanes (v : Value) (width : nat) : M (list (option Value)) :=
  if isUndefValue v then mret (replicate width None)
  else resolveLanes v ≫= λ ls, mret (Some <$> ls).

(** The element that a mask value selects from the concatenated array:
    [undef] for a negative mask value and for a null entry. *)
Definition selected (allValues : list (option Value)) (undef : Value)
    (maskValue : Z) : Value :=
  if bool_decide (maskValue < 0)%Z then undef
  else match allValues !! Z.to_nat maskValue with
       | Some (Some x) => x
       | _ => undef
       end.

(** [sample_shuffle] when the traversal has decomposed the addition and
    reaches the shuffle. *)
Definition sample_shuffle_traversed : State :=
  stateAfter (dispatchInstructionToScalarize 1) sample_shuffle.

(** *** Reassembly *)

(** The instructions of the function are objects of the store. *)
Definition linked (st : State) : Prop :=
  ∀ id, id ∈ instructionsOf (func st) → is_Some (insts st !! id).

(** The chain of insertelement instructions that puts [lanes] together from
    lane [k] on: the objects are numbered from [id], the first one inserts
    into [prev], each other one into the one before it. *)
Fixpoint chain (t : Ty) (prev : Value) (id : positive) (k : nat) (lanes : list Value)
    : list (positive * Instruction) :=
  match lanes with
  | [] => []
  | lane :: lanes' =>
      (id, plainInst InsertElement t [prev; lane; constIndex k])
      :: chain t (VInst id) (Pos.succ id) (S k) lanes'
  end.

(** The vector that a chain builds: its last instruction. *)
Definition chainEnd (prev : Value) (c : list (positive * Instruction)) : Value :=
  match last c with
  | Some (id, _) => VInst id
  | None => prev
  end.

(** Where a vector is put together again: where its instruction stands, or
    after the PHI nodes of the block when it is a PHI node. *)
Definition reassemblyLocation (st : State) (vectorInst : positive) : option positive :=
  if isPHI (insts st) vectorInst then
    getParent vectorInst (func st) ≫= getFirstNonPHI (insts st)
  else Some vectorInst.

(** [sample_add_call] after the traversal: the addition was decomposed, the
    call uses its result as a whole. *)
Definition sample_add_call_traversed : State :=
  stateAfter (scalarizeLoop 10 (inst_begin (func sample_add_call))) sample_add_call.

(** [scmWf] as a test. *)
Definition scmWfb (st : State) : bool :=
  bool_decide (m_SCMAllocationArray st + 1 = length (m_SCMArrays st)) &&
  forallb (λ arr, bool_decide (length arr = ESTIMATED_INST_NUM st)) (m_SCMArrays st) &&
  bool_decide (m_SCMArrayLocation st ≤ ESTIMATED_INST_NUM st) &&
  bool_decide (map_Forall (λ _ (p : SCMEntryPtr),
                 p.1 < m_SCMAllocationArray st ∨
                 (p.1 = m_SCMAllocationArray st ∧ p.2 < m_SCMArrayLocation st))
               (m_SCM st)) &&
  bool_decide (NoDup (map_to_list (m_SCM st)).*2).

(** *** The vector PHI node *)

(** What one incoming value brings to the new PHI nodes: node [n] gets
    lane [n] of the value, from the block [bb]. *)
Definition addLanes (phis : list positive) (lanes : list Value) (bb : N) : M unit :=
  forM (zip (seq 0 (length phis)) phis) (λ '(n, phi),
    fromOption (lanes !! n) ≫= λ lane,
    addIncoming (VInst phi) lane bb).

(** The incoming values in turn: the lanes of each are resolved and added
    to the new PHI nodes.  The result is the lanes of every incoming value. *)
Fixpoint collectLanes (phis : list positive) (incoming : list (Value * N))
    : M (list (list Value)) :=
  match incoming with
  | [] => mret []
  | (v, bb) :: rest =>
      resolveLanes v ≫= λ ls,
      addLanes phis ls bb ;;
      collectLanes phis rest ≫= λ X,
      mret (ls :: X)
  end.

(** Lane [n] of each of the lists of lanes [X]. *)
Definition column (n : nat) (X : list (list Value)) : list Value :=
  omap (λ ls, ls !! n) X.

(** *** The code of a well-formed state *)

(** The objects of the store were made by the allocator, the instructions of
    the function are objects of the store, and no instruction stands at two
    places. *)
Definition wellFormed (st : State) : Prop :=
  storeFresh st ∧ linked st ∧ NoDup (instructionsOf (func st)).

(** [wellFormed] as a test. *)
Definition wellFormedb (st : State) : bool :=
  bool_decide (map_Forall (λ id _, (id < nextId st)%positive) (insts st)) &&
  forallb (λ id, bool_decide (is_Some (insts st !! id))) (instructionsOf (func st)) &&
  bool_decide (NoDup (instructionsOf (func st))).

(** *** The rules of the binary operator and of the compare instruction

    The two rules differ in the scalar instruction that they make for an
    element, from the instruction [I] that is decomposed, the two lanes and
    the type of the first lane. *)
Definition twoOperandRule (mk : Instruction → Value → Value → Ty → Instruction)
    (X : positive) : M unit :=
  getInst X ≫= λ I,
  match asVectorType (type I) with
  | None => mret tt
  | Some (_, numElements) =>
      getSCMEntry (VInst X) ≫= λ newEntry,
      getOperand I 0 ≫= λ v0,
      obtainScalarizedValues [] v0 None ≫= λ '(operand0, op0IsConst),
      getOperand I 1 ≫= λ v1,
      obtainScalarizedValues [] v1 None ≫= λ '(operand1, op1IsConst),
      if op0IsConst && op1IsConst then mret tt
      else
        mapM' (seq 0 numElements) (λ dup,
          getLane operand0 dup ≫= λ a,
          getLane operand1 dup ≫= λ b,
          getType a ≫= λ t,
          createBefore (mk I a b t) (Some X)
          ≫= λ id, mret (Some (VInst id))) ≫= λ newScalarizedInsts,
        updateSCMEntryWithValues newEntry newScalarizedInsts (VInst X) true true ;;
        markRemoved X
  end.

(** The scalar operation that [BinaryOperator::Create] makes, with the flags
    that the rule copies, and the scalar compare that [CmpInst::Create]
    makes. *)
Definition scalarBinaryOperator (I : Instruction) (a b : Value) (t : Ty) : Instruction :=
  mkInst (opcode I) t [a; b] 0%N (binaryFlags (opcode I) (flags I)) [] [] None None.

Definition scalarCmpInst (I : Instruction) (a b : Value) (t : Ty) : Instruction :=
  mkInst (opcode I) (makeCmpResultType t) [a; b] (predicate I) noFlags [] [] None None.

(** [%1 = insertelement <2 x i32> undef, i32 %x, i32 0;
     %2 = insertelement <2 x i32> %1, i32 %y, i32 1;
     call void @f(<2 x i32> %2); ret void] *)
Definition sample_insert : State :=
  hostState
    [(1%positive, plainInst InsertElement v2i32
                    [VConst (UndefValue v2i32); VArg i32 0; VConst (ConstantInt i32 0)]);
     (2%positive, plainInst InsertElement v2i32
                    [VInst 1; VArg i32 1; VConst (ConstantInt i32 1)]);
     (3%positive, plainInst Call VoidTy [VInst 2; callee]);
     (4%positive, retVoid)]
    [mkBlock 0 [1; 2; 3; 4]%positive] 5%positive.

(** The instructions [ids] were made and placed before [l], in this order,
    and nothing else was done: the state is well-formed again, the objects
    that were there are untouched, the SCM, the DRL, the used-whole set and
    the removed set are as they were. *)
Definition placedBefore (l : positive) (ids : list positive) (st st' : State) : Prop :=
  wellFormed st' ∧ NoDup ids ∧
  (∀ id, id ∈ ids → insts st !! id = None ∧ is_Some (insts st' !! id)) ∧
  (∀ k i, insts st !! k = Some i → insts st' !! k = Some i) ∧
  (∀ l1 l2, instructionsOf (func st) = l1 ++ l :: l2 →
            instructionsOf (func st') = l1 ++ ids ++ l :: l2) ∧
  (m_SCM st', m_SCMArrays st', scmShape st') = (m_SCM st, m_SCMArrays st, scmShape st) ∧
  (m_DRL st', m_usedVectors st', m_removedInsts st')
  = (m_DRL st, m_usedVectors st, m_removedInsts st).

(** *** The cast, the load and the store *)

(** The casts that are left as they are: a bitcast whose result is no vector,
    or whose operand is no vector, or of another number of elements. *)
Definition castIsRecovered (I : Instruction) (sourceType : option Ty) : bool :=
  bool_decide (opcode I = OpCast BitCast) &&
  match asVectorType (type I), sourceType ≫= asVectorType with
  | Some (_, n), Some (_, m) => bool_decide (n ≠ m)
  | _, _ => true
  end.

(** A host state with a pass object that scalarizes vector loads and
    stores. *)
Definition hostStateLDST (body : list (positive * Instruction)) (bbs : list BasicBlock)
    (next : positive) : State :=
  ScalarizeFunction true
    (mkState (list_to_map body) next (mkFunction false true bbs)
             4 false false sampleLayout ∅ [] 0 0 [] [] ∅).

(** [%1 = icmp <2 x i32> %a, %b; call void @f(<2 x i1> %1); ret void] *)
Definition sample_cmp : State :=
  hostState
    [(1%positive, mkInst (OpCmp ICmp) (VectorTy (IntTy 1) 2) [VArg v2i32 0; VArg v2i32 1]
                    40%N noFlags [] [] None None);
     (2%positive, plainInst Call VoidTy [VInst 1; callee]);
     (3%positive, retVoid)]
    [mkBlock 0 [1; 2; 3]%positive] 4%positive.

(** [%1 = zext <2 x i32> %a to <2 x i64>; call void @f(<2 x i64> %1); ret void] *)
Definition sample_cast : State :=
  hostState
    [(1%positive, plainInst (OpCast ZExt) (VectorTy (IntTy 64) 2) [VArg v2i32 0]);
     (2%positive, plainInst Call VoidTy [VInst 1; callee]);
     (3%positive, retVoid)]
    [mkBlock 0 [1; 2; 3]%positive] 4%positive.

(** [%1 = select i1 %c, <2 x i32> %a, <2 x i32> %a; ...
     %2 = select i1 %c, <2 x i32> %a, <2 x i32> %b; ret void] *)
Definition sample_select : State :=
  hostState
    [(1%positive, plainInst Select v2i32 [VArg (IntTy 1) 2; VArg v2i32 0; VArg v2i32 0]);
     (2%positive, plainInst Select v2i32 [VArg (IntTy 1) 2; VArg v2i32 0; VArg v2i32 1]);
     (3%positive, retVoid)]
    [mkBlock 0 [1; 2; 3]%positive] 4%positive.

(** [%1 = load <2 x i32>, <2 x i32> addrspace(1)* %p;
     store <2 x i32> %1, <2 x i32> addrspace(1)* %q; ret void] *)
Definition sample_load_store : State :=
  hostStateLDST
    [(1%positive, plainInst Load v2i32 [VArg (PointerTy v2i32 1) 0]);
     (2%positive, plainInst Store VoidTy [VInst 1; VArg (PointerTy v2i32 1) 1]);
     (3%positive, retVoid)]
    [mkBlock 0 [1; 2; 3]%positive] 4%positive.

(** *** Debug locations, the deletion loop and the instructions left as they are *)

(** What matching the debug locations does to the instruction object [k]:
    an object that is one of [lanes] and has no debug location gets the debug
    location [d]; any other object is left as it is. *)
Definition matchDebugLoc (d : option N) (lanes : list Value) (k : positive)
    (i : Instruction) : Instruction :=
  if bool_decide (VInst k ∈ lanes) && bool_decide (debugLoc i = None)
  then setDebugLoc d i else i.

(** [%1 = add <2 x i32> %a, %b, !dbg 7; %2 = add i32 %x, %y;
     %3 = add i32 %x, %y, !dbg 9; ret void] *)
Definition sample_debug : State :=
  hostState
    [(1%positive, mkInst (OpBinary Add) v2i32 [VArg v2i32 0; VArg v2i32 1]
                    0%N noFlags [] [] None (Some 7%N));
     (2%positive, plainInst (OpBinary Add) i32 [VArg i32 2; VArg i32 3]);
     (3%positive, mkInst (OpBinary Add) i32 [VArg i32 2; VArg i32 3]
                    0%N noFlags [] [] None (Some 9%N));
     (4%positive, retVoid)]
    [mkBlock 0 [1; 2; 3; 4]%positive] 5%positive.

(** The instruction [i] with every operand that is an instruction of [gone]
    turned into the undefined value of the type that instruction has in [m]. *)
Definition undefUses (m : gmap positive Instruction) (gone : gset positive)
    (i : Instruction) : Instruction :=
  setOperands
    ((λ v, match v with
           | VInst k =>
               if decide (k ∈ gone) then
                 match m !! k with
                 | Some j => VConst (UndefValue (type j))
                 | None => v
                 end
               else v
           | _ => v
           end) <$> operands i) i.

(** The opcodes that the dispatcher passes to [recoverNonScalarizableInst],
    by its default case or by the rules of the alloca and the getelementptr. *)
Definition leftAsIs (op : Opcode) : bool :=
  match op with
  | Call | Alloca | GetElementPtr | OpCast AddrSpaceCast | OtherOp _ => true
  | _ => false
  end.

(** *** Constant lanes *)

(** The vector constant [<i32 a, i32 b>]. *)
Definition constVector2 (a b : Z) : Constant :=
  ConstantVector (ConstantInt i32 a) [ConstantInt i32 b].

(** [%1 = select i1 %c, <2 x i32> <i32 1, i32 2>, <2 x i32> <i32 1, i32 3>;
     ret void] *)
Definition sample_select_const : State :=
  hostState
    [(1%positive, plainInst Select v2i32
                    [VArg (IntTy 1) 0; VConst (constVector2 1 2); VConst (constVector2 1 3)]);
     (2%positive, retVoid)]
    [mkBlock 0 [1; 2]%positive] 3%positive.

(** [%1 = insertelement <2 x i32> undef, i32 1, i32 0;
     %2 = insertelement <2 x i32> %1, i32 2, i32 1;
     %3 = add <2 x i32> %2, %2; ret void] *)
Definition sample_const_lanes : State :=
  hostState
    [(1%positive, plainInst InsertElement v2i32
                    [VConst (UndefValue v2i32); VConst (ConstantInt i32 1);
                     VConst (ConstantInt i32 0)]);
     (2%positive, plainInst InsertElement v2i32
                    [VInst 1; VConst (ConstantInt i32 2); VConst (ConstantInt i32 1)]);
     (3%positive, plainInst (OpBinary Add) v2i32 [VInst 2; VInst 2]);
     (4%positive, retVoid)]
    [mkBlock 0 [1; 2; 3; 4]%positive] 5%positive.

(** [sample_const_lanes] when the traversal has done the two insertelement
    instructions and reaches the addition. *)
Definition sample_const_lanes_traversed : State :=
  stateAfter (dispatchInstructionToScalarize 1 ;; dispatchInstructionToScalarize 2)
             sample_const_lanes.

(** *** The place of the extractions

    Where the lanes of a value are extracted, in the words of the
    specification: at the head of the function for a value that is no
    instruction; for an instruction, before the instruction [next] that
    follows it in its block, or, when [next] is a PHI node, before the first
    instruction of the block that is no PHI node (in no block at all when
    the block holds only PHI nodes). *)
Definition extractionPlace (st : State) (v : Value) (loc : option positive) : Prop :=
  match v with
  | VInst vi =>
      ∃ bb pre next post,
        bb ∈ blocks (func st) ∧ bb_insts bb = pre ++ vi :: next :: post ∧
        if isPHI (insts st) next then
          match loc with
          | Some l =>
              ∃ phis rest,
                bb_insts bb = phis ++ l :: rest ∧
                Forall (λ x, isPHI (insts st) x = true) phis ∧
                isPHI (insts st) l = false
          | None => Forall (λ x, isPHI (insts st) x = true) (bb_insts bb)
          end
        else loc = Some next
  | _ => loc = head (instructionsOf (func st))
  end.

(** Two vector PHI nodes that are left as they are (an incoming value is
    the result of a VME send), followed by an addition:
    [entry: %1 = call <2 x i32> @GenISA.vmeSendIME2(...); br loop]
    [loop: %3 = phi <2 x i32> [%1, entry], [%3, loop];
           %4 = phi <2 x i32> [%1, entry], [%3, loop];
           %5 = add <2 x i32> %3, %4; br loop] *)
Definition sample_recovered_phi : State :=
  hostState
    [(1%positive, mkInst Call v2i32 [callee] 0%N noFlags [] []
                    (Some GenISA_vmeSendIME2) None);
     (2%positive, plainInst (OtherOp 2) VoidTy []);
     (3%positive, mkInst PHI v2i32 [VInst 1; VInst 3] 0%N noFlags [0%N; 1%N] [] None None);
     (4%positive, mkInst PHI v2i32 [VInst 1; VInst 3] 0%N noFlags [0%N; 1%N] [] None None);
     (5%positive, plainInst (OpBinary Add) v2i32 [VInst 3; VInst 4]);
     (6%positive, plainInst (OtherOp 2) VoidTy [])]
    [mkBlock 0 [1; 2]%positive; mkBlock 1 [3; 4; 5; 6]%positive] 7%positive.

(** [sample_recovered_phi] when the traversal reaches the addition. *)
Definition sample_recovered_phi_traversed : State :=
  stateAfter (dispatchInstructionToScalarize 1 ;; dispatchInstructionToScalarize 2 ;;
              dispatchInstructionToScalarize 3 ;; dispatchInstructionToScalarize 4)
             sample_recovered_phi.

(** *** What the placeholders are replaced by *)

(** The value that [v] stands for under [R], which gives the placeholders
    their values; a value that is no placeholder of [R] stands for itself. *)
Definition resolve (R : gmap positive Value) (v : Value) : Value :=
  match v with
  | VInst d => default v (R !! d)
  | _ => v
  end.

(** [x] is the lane [i] that the SCM of [st] holds for [v]. *)
Definition keptLane (st : State) (v : Value) (i : nat) (x : Value) : Prop :=
  ∃ p e, m_SCM st !! v = Some p ∧ lookupEntry st p = Some e ∧
         isResolved e = true ∧ scalarValues e !! i = Some (Some x).

(** [x] is an instruction of [st'] that [st] had not: the extractelement of
    lane [i] of [v] (of what [v] stands for, were it a placeholder). *)
Definition newLane (st st' : State) (R : gmap positive Value) (v : Value) (i : nat)
    (x : Value) : Prop :=
  ∃ EE ee, x = VInst EE ∧ insts st !! EE = None ∧ insts st' !! EE = Some ee ∧
           opcode ee = ExtractElement ∧ operands ee = [resolve R v; constIndex i].

(** The lane [i] of [v] as the resolution from [st] to [st'] determines it:
    the lane that the SCM held, or an extraction that was made for it. *)
Definition resolvedLane (st st' : State) (R : gmap positive Value) (v : Value)
    (i : nat) (x : Value) : Prop :=
  keptLane st v i x ∨ newLane st st' R v i x.

(** The invariant of the resolution loop on what was substituted.  [st0] is
    the state at the start of the loop, [P] its placeholders and [R] the
    values of the placeholders that were replaced so far. *)
Definition substInv (st0 : State) (P : list positive) (R : gmap positive Value)
    (s : State) : Prop :=
  scmWf s ∧
  (∀ d x, R !! d = Some x → d ∈ P ∧ notAmong P x) ∧
  (∀ id I, insts st0 !! id = Some I → R !! id = None →
     ∃ I', insts s !! id = Some I' ∧ opcode I' = opcode I ∧ type I' = type I ∧
           operands I' = resolve R <$> operands I) ∧
  (∀ v p e i x, m_SCM s !! v = Some p → lookupEntry s p = Some e →
     isResolved e = true → scalarValues e !! i = Some (Some x) →
     resolvedLane st0 s R v i x).

(** Every instruction object of [s] is in [s'] with its opcode, type and
    operands. *)
Definition carried (s s' : State) : Prop :=
  ∀ id I, insts s !! id = Some I →
    ∃ I', insts s' !! id = Some I' ∧ opcode I' = opcode I ∧ type I' = type I ∧
          operands I' = operands I.

(** The step of the last loop: the uses of [d0] become [x0] and [d0] is
    deleted. *)
Definition substituted (d0 : positive) (x0 : Value) (s : State) : State :=
  set_insts (delete d0) (set_insts (fmap (replaceUses (VInst d0) x0)) s).

(** *** Functions on which the pass is shown to run to its end *)

(** An operand that the rule of a binary operator or of a compare takes the
    lanes of: a vector of [w] elements that is an argument, a constant, or
    one of the instructions [earlier]. *)
Definition laneOperand (m : gmap positive Instruction) (earlier : list positive)
    (w : positive) (v : Value) : bool :=
  match typeOf m v with
  | Some (VectorTy _ w') => bool_decide (w' = w)
  | _ => false
  end &&
  match v with
  | VInst j => bool_decide (j ∈ earlier)
  | _ => true
  end.

(** The instructions of the functions below: no PHI node; an instruction
    that has nothing to do with vectors, a vector binary operator or compare
    of lane operands, or an instruction that the pass leaves as it is, whose
    operands are values of the function. *)
Definition supported (m : gmap positive Instruction) (earlier : list positive)
    (I : Instruction) : bool :=
  negb (bool_decide (opcode I = PHI)) &&
  (vectorFree m I ||
   match opcode I with
   | OpBinary _ | OpCmp _ =>
       match type I, operands I with
       | VectorTy _ w, [v0; v1] => laneOperand m earlier w v0 && laneOperand m earlier w v1
       | _, _ => false
       end
   | op => leftAsIs op &&
           forallb (λ v, bool_decide (is_Some (typeOf m v))) (operands I)
   end).

(** The instructions [rest] that follow the instructions [earlier] are
    supported. *)
Fixpoint supportedFrom (m : gmap positive Instruction) (earlier rest : list positive)
    : bool :=
  match rest with
  | [] => true
  | x :: rest' =>
      match m !! x with
      | Some i => supported m earlier i
      | None => false
      end && supportedFrom m (x :: earlier) rest'
  end.

(** The last instruction of each block. *)
Definition blockEnds (f : Function) : list (option positive) :=
  (λ bb, last (bb_insts bb)) <$> blocks f.

(** No block ends with an instruction of a vector type. *)
Definition endsScalar (m : gmap positive Instruction) (f : Function) : bool :=
  forallb (λ o, match o with
                | Some id =>
                    match m !! id with
                    | Some i => negb (isVectorTy (type i))
                    | None => false
                    end
                | None => true
                end) (blockEnds f).

(** A function of supported instructions, in a well-formed state. *)
Definition supportedFunction (st : State) : Prop :=
  wellFormed st ∧ scmWf st ∧ 0 < ESTIMATED_INST_NUM st ∧
  supportedFrom (insts st) [] (instructionsOf (func st)) = true ∧
  endsScalar (insts st) (func st) = true.

(** Every entry of the SCM can be read and has a first lane. *)
Definition entriesReadable (s : State) : Prop :=
  ∀ v p, m_SCM s !! v = Some p → ∃ e, lookupEntry s p = Some e ∧ scalarValues e ≠ [].

(** The lanes of the resolved entries are values of the function. *)
Definition lanesTyped (s : State) : Prop :=
  ∀ v p e i x, m_SCM s !! v = Some p → lookupEntry s p = Some e →
    isResolved e = true → scalarValues e !! i = Some (Some x) →
    is_Some (typeOf (insts s) x).

(** An entry that says that the original was removed is resolved, and is
    the entry of an instruction of the function. *)
Definition flaggedEntries (s : State) : Prop :=
  ∀ v p e, m_SCM s !! v = Some p → lookupEntry s p = Some e →
    isOriginalVectorRemoved e = true →
    isResolved e = true ∧ ∃ j, v = VInst j ∧ j ∈ instructionsOf (func s).

Definition noPHI (s : State) : Prop :=
  ∀ k, k ∈ instructionsOf (func s) → isPHI (insts s) k = false.

(** What holds of the state of the pass all along a run on a supported
    function. *)
Definition passInv (s : State) : Prop :=
  wellFormed s ∧ scmWf s ∧ 0 < ESTIMATED_INST_NUM s ∧ laneInvariant s ∧
  entriesReadable s ∧ lanesTyped s ∧ flaggedEntries s ∧ noPHI s ∧
  m_DRL s = [] ∧
  (∀ x, x ∈ m_removedInsts s → is_Some (insts s !! x)) ∧
  (∀ v, v ∈ m_usedVectors s → ∃ elt w, typeOf (insts s) v = Some (VectorTy elt w)).

(** Every instruction object of [s] is in [s'] with its opcode and type. *)
Definition kept (s s' : State) : Prop :=
  ∀ id I, insts s !! id = Some I →
    ∃ I', insts s' !! id = Some I' ∧ opcode I' = opcode I ∧ type I' = type I.

(** What holds when the traversal has dispatched the instructions [pre] and
    is to dispatch [rest], the end of the list of the function: the invariant
    of the pass; the instructions of [rest] are supported, their lane
    operands among [pre]; a vector instruction of [pre] has its entry in the
    SCM; no block ends with a vector instruction; only instructions of [pre]
    are marked as removed. *)
Definition travInv (pre rest : list positive) (s : State) : Prop :=
  passInv s ∧
  (∃ mid, instructionsOf (func s) = mid ++ rest ∧ ∀ j, j ∈ pre → j ∈ mid) ∧
  supportedFrom (stripped s) pre rest = true ∧
  (∀ j t, j ∈ pre → typeOf (insts s) (VInst j) = Some t → isVectorTy t = true →
          is_Some (m_SCM s !! VInst j)) ∧
  (∀ j t, Some j ∈ blockEnds (func s) → typeOf (insts s) (VInst j) = Some t →
          isVectorTy t = false) ∧
  (∀ r, r ∈ m_removedInsts s → r ∈ pre).

(** * Properties *)

(** ** Reasoning on runs of the monad *)

Lemma bind_Some {A B : Type} (m : M A) (f : A → M B) (st : State) (r : B * State) :
  (m ≫= f) st = Some r ↔ ∃ a s1, m st = Some (a, s1) ∧ f a s1 = Some r.
Proof.
  unfold mbind, M_bind. split.
  - destruct (m st) as [[a s1]|]; [eauto | discriminate].
  - intros (a & s1 & -> & H). exact H.
Qed.

Lemma ret_Some {A : Type} (a : A) (st : State) (r : A * State) :
  (mret a : M A) st = Some r ↔ r = (a, st).
Proof. unfold mret, M_ret. split; [intros [= <-] | intros ->]; reflexivity. Qed.

Lemma gets_Some {A : Type} (f : State → A) (st : State) (r : A * State) :
  gets f st = Some r ↔ r = (f st, st).
Proof. unfold gets. split; [intros [= <-] | intros ->]; reflexivity. Qed.

Lemma modify_Some (f : State → State) (st : State) (r : unit * State) :
  modify f st = Some r ↔ r = (tt, f st).
Proof. unfold modify. split; [intros [= <-] | intros ->]; reflexivity. Qed.

Lemma require_Some (b : bool) (st : State) (r : unit * State) :
  require b st = Some r ↔ b = true ∧ r = (tt, st).
Proof.
  unfold require. destruct b; simpl.
  - rewrite ret_Some. tauto.
  - unfold fail. split; [discriminate | intros [? _]; discriminate].
Qed.

Lemma fromOption_Some {A : Type} (o : option A) (st : State) (r : A * State) :
  fromOption o st = Some r ↔ ∃ a, o = Some a ∧ r = (a, st).
Proof.
  unfold fromOption. destruct o as [a|]; simpl.
  - rewrite ret_Some. split; [eauto | intros (? & [= <-] & ->); reflexivity].
  - unfold fail. split; [discriminate | intros (? & ? & _); discriminate].
Qed.

Lemma fail_Some {A : Type} (st : State) (r : A * State) :
  @fail A st = Some r ↔ False.
Proof. unfold fail. split; [discriminate | tauto]. Qed.

Lemma ret_inv {A : Type} (x a : A) (st s : State) :
  (mret x : M A) st = Some (a, s) → a = x ∧ s = st.
Proof. intros H. apply ret_Some in H. by injection H as -> ->. Qed.

Lemma gets_inv {A : Type} (f : State → A) (a : A) (st s : State) :
  gets f st = Some (a, s) → a = f st ∧ s = st.
Proof. intros H. apply gets_Some in H. by injection H as -> ->. Qed.

Lemma modify_inv (f : State → State) (a : unit) (st s : State) :
  modify f st = Some (a, s) → s = f st.
Proof. intros H. apply modify_Some in H. by injection H as _ ->. Qed.

Lemma require_inv (b : bool) (a : unit) (st s : State) :
  require b st = Some (a, s) → b = true ∧ s = st.
Proof. intros H. apply require_Some in H. destruct H as [? H]. by injection H as _ ->. Qed.

Lemma fromOption_inv {A : Type} (o : option A) (a : A) (st s : State) :
  fromOption o st = Some (a, s) → o = Some a ∧ s = st.
Proof.
  intros H. apply fromOption_Some in H. destruct H as (x & -> & H). by injection H as -> ->.
Qed.

Lemma getInst_inv (id : positive) (I : Instruction) (st s : State) :
  getInst id st = Some (I, s) → insts st !! id = Some I ∧ s = st.
Proof.
  unfold getInst. intros H. apply bind_Some in H. destruct H as (m & s1 & Hm & H).
  apply gets_inv in Hm. destruct Hm as [-> ->]. by apply fromOption_inv in H.
Qed.

Lemma getType_inv (v : Value) (t : Ty) (st s : State) :
  getType v st = Some (t, s) → typeOf (insts st) v = Some t ∧ s = st.
Proof.
  destruct v as [i|t' n|c]; simpl.
  - intros H. apply bind_Some in H. destruct H as (I & s1 & HI & H).
    apply getInst_inv in HI. destruct HI as [HI ->].
    apply ret_inv in H. destruct H as [-> ->]. by rewrite HI.
  - intros H. apply ret_inv in H. by destruct H as [-> ->].
  - intros H. apply ret_inv in H. by destruct H as [-> ->].
Qed.

(** Replaces the variable that an equation defines, if there is one. *)
Ltac subst_eq H :=
  lazymatch type of H with
  | ?x = ?y =>
      first [ subst x | subst y | (unify x y; clear H) | (injection H; clear H; intros; subst) | idtac ]
  end.

(** Takes a successful run apart along the structure of the computation. *)
Ltac run_inv H :=
  lazymatch type of H with
  | @mbind _ _ _ _ _ _ _ = Some _ =>
      let a := fresh "a" in let s := fresh "s" in
      let H1 := fresh H in
      apply bind_Some in H; destruct H as (a & s & H1 & H);
      run_inv H1; run_inv H
  | @mret _ _ _ _ _ = Some (_, _) =>
      let Ha := fresh in let Hs := fresh in
      apply ret_inv in H; destruct H as [Ha Hs]; subst_eq Hs; subst_eq Ha
  | gets _ _ = Some (_, _) =>
      let Ha := fresh in let Hs := fresh in
      apply gets_inv in H; destruct H as [Ha Hs]; subst_eq Hs; subst_eq Ha
  | modify _ _ = Some (_, _) => apply modify_inv in H; subst_eq H
  | require _ _ = Some (_, _) =>
      let Hb := fresh "Hreq" in let Hs := fresh in
      apply require_inv in H; destruct H as [Hb Hs]; subst_eq Hs
  | fromOption _ _ = Some (_, _) =>
      let Hx := fresh "Hopt" in let Hs := fresh in
      apply fromOption_inv in H; destruct H as [Hx Hs]; subst_eq Hs
  | fail _ = Some _ => apply fail_Some in H; destruct H
  | getInst _ _ = Some (_, _) =>
      let Hs := fresh in
      apply getInst_inv in H; destruct H as [H Hs]; subst_eq Hs
  | getType _ _ = Some (_, _) =>
      let Hs := fresh in
      apply getType_inv in H; destruct H as [H Hs]; subst_eq Hs
  | readEntry _ _ = Some _ => unfold readEntry in H; run_inv H
  | writeEntry _ _ _ = Some _ => unfold writeEntry in H; run_inv H
  | newInst _ _ = Some _ => unfold newInst in H; run_inv H
  | markRemoved _ _ = Some _ => unfold markRemoved in H; run_inv H
  | replaceAllUsesWith _ _ _ = Some _ => unfold replaceAllUsesWith in H; run_inv H
  | DeleteInstruction _ _ = Some _ => unfold DeleteInstruction in H; run_inv H
  | getScalarizedValues _ _ = Some _ => unfold getScalarizedValues in H; run_inv H
  | getOperand _ _ _ = Some _ => unfold getOperand in H; run_inv H
  | getLane _ _ _ = Some _ => unfold getLane in H; run_inv H
  | storeAt _ _ _ _ = Some _ => unfold storeAt in H; run_inv H
  | (let '(_, _) := ?x in _) _ = Some _ => destruct x; run_inv H
  | _ => idtac
  end.

Lemma holdsAfter_Some {A : Type} (r : option (A * State)) (p : A → State → bool) :
  holdsAfter r p = true → ∃ a st', r = Some (a, st') ∧ p a st' = true.
Proof. destruct r as [[a st']|]; simpl; [eauto | discriminate]. Qed.

(** ** The dispatcher and the result of the pass *)

(** C10: an instruction that is already in the removed set when the
    traversal reaches it is ignored by the dispatcher: the whole state (the
    function, the SCM, the DRL, the used-whole set and the removed set) is
    left as it is, so nothing is decomposed a second time. *)
Theorem dispatch_removed_is_noop (st : State) (I : positive) :
  I ∈ m_removedInsts st →
  dispatchInstructionToScalarize I st = Some (tt, st).
Proof.
  intros HI. unfold dispatchInstructionToScalarize.
  apply bind_Some. exists (m_removedInsts st), st. split; [reflexivity|].
  destruct (decide (I ∈ m_removedInsts st)) as [_|Hn]; [reflexivity | contradiction].
Qed.

Lemma dispatch_removed_is_noop_witness :
  1%positive ∈ m_removedInsts (set_removedInsts (λ _, {[1%positive]}) sample_add_call) ∧
  dispatchInstructionToScalarize 1
    (set_removedInsts (λ _, {[1%positive]}) sample_add_call)
  = Some (tt, set_removedInsts (λ _, {[1%positive]}) sample_add_call).
Proof.
  split.
  - simpl. apply elem_of_singleton. reflexivity.
  - apply dispatch_removed_is_noop. simpl. apply elem_of_singleton. reflexivity.
Defined.

(** ** Components of the state that a computation leaves alone *)

Section Keeps.
Context {B : Type} (f : State → B).

Lemma keeps_ret {A : Type} (a : A) : keeps f (mret a).
Proof. intros st a' st' H. apply ret_Some in H. by injection H as _ ->. Qed.

Lemma keeps_bind {A C : Type} (m : M A) (k : A → M C) :
  keeps f m → (∀ a, keeps f (k a)) → keeps f (m ≫= k).
Proof.
  intros Hm Hk st c st' H. apply bind_Some in H. destruct H as (a & s1 & H1 & H2).
  rewrite (Hk a _ _ _ H2). exact (Hm _ _ _ H1).
Qed.

Lemma keeps_gets {A : Type} (g : State → A) : keeps f (gets g).
Proof. intros st a st' H. apply gets_Some in H. by injection H as _ ->. Qed.

Lemma keeps_modify (g : State → State) :
  (∀ st, f (g st) = f st) → keeps f (modify g).
Proof. intros Hg st a st' H. apply modify_Some in H. injection H as _ ->. apply Hg. Qed.

Lemma keeps_require (b : bool) : keeps f (require b).
Proof. intros st a st' H. apply require_Some in H. destruct H as [_ H]. by injection H as _ ->. Qed.

Lemma keeps_fromOption {A : Type} (o : option A) : keeps f (fromOption o).
Proof.
  intros st a st' H. apply fromOption_Some in H. destruct H as (? & _ & H).
  by injection H as _ ->.
Qed.

Lemma keeps_fail {A : Type} : keeps f (@fail A).
Proof. intros st a st' H. discriminate H. Qed.

Lemma keeps_forM {A : Type} (l : list A) (body : A → M unit) :
  (∀ x, keeps f (body x)) → keeps f (forM l body).
Proof.
  intros Hb. induction l as [|x l IH]; simpl.
  - apply keeps_ret.
  - apply keeps_bind; [apply Hb | intros _; exact IH].
Qed.

Lemma keeps_mapM' {A C : Type} (l : list A) (body : A → M C) :
  (∀ x, keeps f (body x)) → keeps f (mapM' l body).
Proof.
  intros Hb. induction l as [|x l IH]; simpl.
  - apply keeps_ret.
  - apply keeps_bind; [apply Hb | intros y].
    apply keeps_bind; [exact IH | intros ys; apply keeps_ret].
Qed.
End Keeps.

Create HintDb keeps discriminated.

(** Proves [keeps f m] along the structure of [m]. *)
Ltac keeps_step :=
  first
    [ solve [auto 2 with keeps nocore]
    | apply keeps_ret
    | apply keeps_gets
    | apply keeps_require
    | apply keeps_fromOption
    | apply keeps_fail
    | apply keeps_modify; intros ?; reflexivity
    | apply keeps_bind; [| intros ?]
    | apply keeps_forM; intros ?
    | apply keeps_mapM'; intros ?
    | match goal with
      | |- keeps _ (match ?x with _ => _ end) => destruct x
      | |- keeps _ (let '(_, _) := ?x in _) => destruct x
      end ].

Ltac keeps_tac := repeat keeps_step.

Lemma keeps_getInst {B : Type} (f : State → B) id : keeps f (getInst id).
Proof. unfold getInst. keeps_tac. Qed.
Lemma keeps_getType {B : Type} (f : State → B) v : keeps f (getType v).
Proof. unfold getType. keeps_tac. Qed.

Lemma keeps_filledEntry {B : Type} (f : State → B) c : keeps f (filledEntry c).
Proof. unfold filledEntry. keeps_tac. Qed.

#[export] Hint Resolve keeps_getInst keeps_getType keeps_filledEntry : keeps.

(** ** Constant operands *)

Lemma keeps_storeLanes {B : Type} (f : State → B) lanes r d : keeps f (storeLanes r d lanes).
Proof.
  revert r d. induction lanes as [|v lanes IH]; intros r d; simpl; keeps_tac.
Qed.
#[export] Hint Resolve keeps_storeLanes : keeps.

Lemma keeps_obtainScalarizedValues_constant {B : Type} (f : State → B) r c d :
  keeps f (obtainScalarizedValues r (VConst c) d).
Proof. unfold obtainScalarizedValues. keeps_tac. Qed.

(** Walks to the end of a successful run, dropping the steps before it. *)
Ltac run_tail H :=
  repeat first
    [ apply bind_Some in H; destruct H as (? & ? & _ & H)
    | match type of H with
      | (match ?x with _ => _ end) _ = Some _ => destruct x
      | (match ?x with _ => _ end) _ _ = Some _ => destruct x
      | (let '(_, _) := ?x in _) _ = Some _ => destruct x
      end ].

Lemma obtainScalarizedValues_isConstant r v d st res b st' :
  obtainScalarizedValues r v d st = Some ((res, b), st') → b = isConstant v.
Proof.
  intros H. unfold obtainScalarizedValues in H.
  run_tail H; try (apply ret_Some in H; injection H as _ -> _; reflexivity).
Qed.

Lemma keeps_getSCMEntry_code v : keeps code (getSCMEntry v).
Proof. unfold getSCMEntry. keeps_tac. Qed.

#[export] Hint Resolve keeps_getSCMEntry_code : keeps.

(** C6, as stated, fails: the test of the rule is whether the operands are
    constants, not whether their lanes are.  The operand of the addition of
    [sample_const_lanes] is an insertelement chain whose lanes are the
    constants [1] and [2]; the addition is decomposed all the same, and two
    scalar additions are put into the function. *)
Lemma binary_constant_lanes_creates_instructions :
  ¬ (∀ lanes s1 st',
       resolveLanes (VInst 2) sample_const_lanes_traversed = Some (lanes, s1) →
       forallb isConstant lanes = true →
       scalarizeInstruction_BinaryOperator 3 sample_const_lanes_traversed = Some (tt, st') →
       instructionsOf (func st') = instructionsOf (func sample_const_lanes_traversed)).
Proof.
  intros H.
  assert (Hc : holdsAfter (resolveLanes (VInst 2) sample_const_lanes_traversed)
                 (λ lanes _,
                    forallb isConstant lanes &&
                    holdsAfter (scalarizeInstruction_BinaryOperator 3
                                  sample_const_lanes_traversed)
                      (λ _ st', bool_decide
                                  (instructionsOf (func st')
                                   ≠ instructionsOf (func sample_const_lanes_traversed))))
               = true) by (vm_compute; reflexivity).
  apply holdsAfter_Some in Hc. destruct Hc as (lanes & s1 & E1 & Hc).
  apply andb_prop in Hc. destruct Hc as [Hl Hc].
  apply holdsAfter_Some in Hc. destruct Hc as ([] & st' & E2 & Hc).
  apply bool_decide_eq_true in Hc. exact (Hc (H lanes s1 st' E1 Hl E2)).
Qed.

(** C6, amended: a vector binary operation whose two operands are constants
    is left as it is: no instruction object is created or changed, nothing
    is put into the function, and the operation is neither marked for removal
    nor deferred.  (The lanes of a constant operand are constants.) *)
Theorem binary_constant_operands_no_new_instruction
    (st : State) (BI : positive) (I : Instruction) (c0 c1 : Constant) (st' : State) :
  insts st !! BI = Some I →
  isVectorTy (type I) = true →
  operands I !! 0 = Some (VConst c0) →
  operands I !! 1 = Some (VConst c1) →
  scalarizeInstruction_BinaryOperator BI st = Some (tt, st') →
  insts st' = insts st ∧ nextId st' = nextId st ∧ func st' = func st ∧
  m_removedInsts st' = m_removedInsts st ∧ m_DRL st' = m_DRL st.
Proof.
  intros HI Hty H0 H1 H.
  cut (code st' = code st).
  { unfold code. intros [= -> -> -> -> ->]. auto. }
  revert H. unfold scalarizeInstruction_BinaryOperator.
  intros H. apply bind_Some in H. destruct H as (I' & s & HI' & H).
  unfold getInst in HI'. apply bind_Some in HI'. destruct HI' as (m & s0 & Hm & HI').
  apply gets_Some in Hm. injection Hm as -> ->.
  rewrite HI in HI'. apply ret_Some in HI'. injection HI' as -> ->.
  destruct (asVectorType (type I)) as [[elt n]|] eqn:Hvt.
  2:{ apply ret_Some in H. by injection H as ->. }
  apply bind_Some in H. destruct H as (newEntry & s1 & Hg & H).
  apply keeps_getSCMEntry_code in Hg. rewrite <- Hg.
  apply bind_Some in H. destruct H as (v0 & s2 & Hv0 & H).
  unfold getOperand in Hv0. rewrite H0 in Hv0. apply ret_Some in Hv0. injection Hv0 as -> ->.
  apply bind_Some in H. destruct H as ([operand0 b0] & s3 & Ho0 & H).
  pose proof (obtainScalarizedValues_isConstant _ _ _ _ _ _ _ Ho0) as ->.
  apply keeps_obtainScalarizedValues_constant with (f := code) in Ho0. rewrite <- Ho0.
  apply bind_Some in H. destruct H as (v1 & s4 & Hv1 & H).
  unfold getOperand in Hv1. rewrite H1 in Hv1. apply ret_Some in Hv1. injection Hv1 as -> ->.
  apply bind_Some in H. destruct H as ([operand1 b1] & s5 & Ho1 & H).
  pose proof (obtainScalarizedValues_isConstant _ _ _ _ _ _ _ Ho1) as ->.
  apply keeps_obtainScalarizedValues_constant with (f := code) in Ho1. rewrite <- Ho1.
  simpl in H. apply ret_Some in H. by injection H as ->.
Qed.

Lemma binary_constant_operands_no_new_instruction_witness :
  ∃ st', scalarizeInstruction_BinaryOperator 1 sample_const_add = Some (tt, st') ∧
         insts st' = insts sample_const_add ∧ func st' = func sample_const_add.
Proof.
  destruct (scalarizeInstruction_BinaryOperator 1 sample_const_add) as [[[] st']|] eqn:E;
    [| vm_compute in E; discriminate].
  exists st'. split; [reflexivity|].
  destruct (binary_constant_operands_no_new_instruction sample_const_add 1
              (plainInst (OpBinary Add) v2i32
                 [VConst (ConstantData v2i32 10); VConst (ConstantData v2i32 11)])
              (ConstantData v2i32 10) (ConstantData v2i32 11) st')
    as (Hi & _ & Hf & _); [reflexivity | reflexivity | reflexivity | reflexivity | exact E |].
  split; assumption.
Defined.

(** ** Running the pass again *)

Lemma getType_typeOf (v : Value) (st : State) (t : Ty) :
  typeOf (insts st) v = Some t → getType v st = Some (t, st).
Proof.
  destruct v as [id|t' n|c]; simpl.
  - intros H. apply bind_Some. destruct (insts st !! id) as [I|] eqn:HI; [|discriminate].
    injection H as <-. exists I, st. split; [|reflexivity].
    unfold getInst. apply bind_Some. exists (insts st), st. split; [reflexivity|].
    rewrite HI. reflexivity.
  - intros [= ->]. reflexivity.
  - intros [= <-]. reflexivity.
Qed.

Lemma getInst_Some (id : positive) (st : State) (I : Instruction) :
  insts st !! id = Some I → getInst id st = Some (I, st).
Proof.
  intros H. unfold getInst. apply bind_Some. exists (insts st), st.
  split; [reflexivity|]. rewrite H. reflexivity.
Qed.

Lemma forM_skip {A : Type} (l : list A) (body : A → M unit) (st : State) :
  Forall (λ x, body x st = Some (tt, st)) l → forM l body st = Some (tt, st).
Proof.
  induction 1 as [|x l Hx _ IH]; simpl; [reflexivity|].
  apply bind_Some. exists tt, st. split; assumption.
Qed.

Lemma Forall_removelast {A : Type} (P : A → Prop) (l : list A) :
  Forall P l → Forall P (removelast l).
Proof.
  induction 1 as [|x l Hx Hl IH]; simpl; [constructor|].
  destruct l; [constructor | constructor; assumption].
Qed.

(** Recovery of an instruction without vectors does nothing at all. *)
Lemma recoverNonScalarizableInst_vectorFree (st : State) (id : positive) (I : Instruction) :
  insts st !! id = Some I →
  isVectorTy (type I) = false →
  forallb (scalarTyped (insts st)) (operands I) = true →
  recoverNonScalarizableInst id st = Some (tt, st).
Proof.
  intros HI Hty Hops. unfold recoverNonScalarizableInst.
  apply bind_Some. exists I, st. split; [by apply getInst_Some|].
  rewrite Hty. apply bind_Some. exists tt, st. split; [reflexivity|].
  apply forM_skip.
  assert (Hall : Forall (λ operand,
            (getType operand ≫= λ t,
               if isVectorTy t then obtainVectorValueWhichMightBeScalarized operand
               else mret tt) st = Some (tt, st)) (operands I)).
  { apply Forall_forall. intros v Hv. rewrite list_elem_of_In in Hv.
    rewrite List.forallb_forall in Hops.
    specialize (Hops v Hv). unfold scalarTyped in Hops.
    destruct (typeOf (insts st) v) as [t|] eqn:Ht; [|discriminate].
    apply bind_Some. exists t, st. split; [by apply getType_typeOf|].
    destruct (isVectorTy t); [discriminate | reflexivity]. }
  destruct (opcode I); try exact Hall. by apply Forall_removelast.
Qed.

Lemma asVectorType_None (t : Ty) : isVectorTy t = false → asVectorType t = None.
Proof. destruct t; simpl; congruence. Qed.

(** Unfolds the monad on a goal that runs a computation. *)
Ltac run_goal :=
  cbv [mbind M_bind gets mret M_ret fromOption require getInst getOperand modify].

(** The dispatcher does nothing on an instruction without vectors. *)
Lemma dispatch_vectorFree (st : State) (id : positive) (I : Instruction) :
  insts st !! id = Some I →
  vectorFree (insts st) I = true →
  dispatchInstructionToScalarize id st = Some (tt, st).
Proof.
  intros HI Hvf. unfold vectorFree in Hvf.
  apply andb_prop in Hvf. destruct Hvf as [Hvf Hop].
  apply andb_prop in Hvf. destruct Hvf as [Hty Hops].
  apply negb_true_iff in Hty.
  pose proof (recoverNonScalarizableInst_vectorFree st id I HI Hty Hops) as Hrec.
  pose proof (asVectorType_None _ Hty) as Hvt.
  unfold dispatchInstructionToScalarize.
  apply bind_Some. exists (m_removedInsts st), st. split; [reflexivity|].
  destruct (decide (id ∈ m_removedInsts st)); [reflexivity|].
  apply bind_Some. exists I, st. split; [by apply getInst_Some|].
  destruct (opcode I) as [b|c|c| | | | | | | | | | |tag] eqn:Hopc; try discriminate Hop;
    try exact Hrec.
  - unfold scalarizeInstruction_BinaryOperator. run_goal. rewrite HI, Hvt. reflexivity.
  - unfold scalarizeInstruction_CmpInst. run_goal. rewrite HI, Hvt. reflexivity.
  - assert (Hcast : scalarizeInstruction_CastInst id st = Some (tt, st)).
    { unfold scalarizeInstruction_CastInst.
      apply bind_Some. exists I, st. split; [by apply getInst_Some|].
      rewrite Hvt. destruct (bool_decide (opcode I = OpCast BitCast)).
      - apply bind_Some. exists true, st. split; [reflexivity | exact Hrec].
      - apply bind_Some. exists false, st. split; reflexivity. }
    destruct c; first [exact Hcast | exact Hrec].
  - unfold scalarizeInstruction_PHINode. run_goal. rewrite HI, Hvt. reflexivity.
  - unfold scalarizeInstruction_SelectInst. run_goal. rewrite HI, Hvt. reflexivity.
  - unfold scalarizeInstruction_LoadInst.
    apply bind_Some. exists I, st. split; [by apply getInst_Some|].
    rewrite Hvt. apply bind_Some. exists false, st. split; [|exact Hrec].
    unfold isScalarizableLoadStoreType. run_goal.
    destruct (m_ScalarizingVectorLDSTType st); reflexivity.
  - unfold scalarizeInstruction_StoreInst.
    apply bind_Some. exists I, st. split; [by apply getInst_Some|].
    apply bool_decide_eq_true in Hop.
    destruct (operands I) as [|data rest] eqn:Hoperands; [contradiction|].
    simpl in Hops. apply andb_prop in Hops. destruct Hops as [Hdata _].
    unfold scalarTyped in Hdata.
    destruct (typeOf (insts st) data) as [dt|] eqn:Hdt; [|discriminate].
    apply negb_true_iff in Hdata.
    apply bind_Some. exists data, st. split.
    { unfold getOperand. rewrite Hoperands. reflexivity. }
    apply bind_Some. exists dt, st. split; [by apply getType_typeOf|].
    rewrite (asVectorType_None _ Hdata).
    apply bind_Some. exists false, st. split.
    { unfold isScalarizableLoadStoreType. run_goal.
      destruct (m_ScalarizingVectorLDSTType st); reflexivity. }
    unfold recoverNonScalarizableInst in Hrec. exact Hrec.
Qed.

Lemma nextIn_middle (x : positive) (pre rest : list positive) :
  x ∉ pre → nextIn x (pre ++ x :: rest) = head rest.
Proof.
  induction pre as [|y pre IH]; intros Hx; simpl.
  - destruct (decide (x = x)); [reflexivity | contradiction].
  - apply not_elem_of_cons in Hx. destruct Hx as [Hne Hx].
    destruct (decide (y = x)); [congruence | auto].
Qed.

Lemma scalarizeLoop_vectorFree (st : State) :
  vectorFreeFunction st = true →
  ∀ rest pre fuel,
    instructionsOf (func st) = pre ++ rest →
    length rest ≤ fuel →
    scalarizeLoop fuel (head rest) st = Some (tt, st).
Proof.
  intros Hvf. unfold vectorFreeFunction in Hvf.
  apply andb_prop in Hvf. destruct Hvf as [Hnd Hall].
  apply bool_decide_eq_true in Hnd. rewrite List.forallb_forall in Hall.
  induction rest as [|x rest IH]; intros pre fuel Hbody Hfuel; simpl.
  - destruct fuel; reflexivity.
  - destruct fuel as [|fuel]; [simpl in Hfuel; lia|]. simpl.
    apply bind_Some. exists (func st), st. split; [reflexivity|].
    apply bind_Some. exists tt, st. split.
    + specialize (Hall x). rewrite Hbody in Hall.
      destruct (insts st !! x) as [I|] eqn:HI.
      * apply (dispatch_vectorFree st x I HI). apply Hall.
        apply in_or_app. right. left. reflexivity.
      * assert (false = true) as Habs; [|discriminate Habs].
        apply Hall. apply in_or_app. right. left. reflexivity.
    + unfold nextInstruction. rewrite Hbody. rewrite nextIn_middle.
      * apply (IH (pre ++ [x])); [by rewrite <- app_assoc | simpl in Hfuel; lia].
      * rewrite Hbody in Hnd. apply NoDup_app in Hnd. destruct Hnd as (_ & Hdisj & _).
        intros Hin. apply (Hdisj x Hin). left.
Qed.

(** C9, amended: on a function that holds no vector value the pass changes
    nothing, and it runs to its end: no instruction is added, removed or
    altered.  This is the case of a second run after a first one that
    decomposed every vector instruction. *)
Theorem rerun_on_vector_free_function (fuel : nat) (st : State) :
  vectorFreeFunction st = true →
  m_SCMArrays st ≠ [] →
  length (instructionsOf (func st)) ≤ fuel →
  ∃ st', runOnFunction fuel st = Some (negb (skipped st), st') ∧
         insts st' = insts st ∧ nextId st' = nextId st ∧ func st' = func st ∧
         ¬ modified st st'.
Proof.
  intros Hvf Harr Hfuel. unfold runOnFunction, skipped, modified.
  destruct (if negb (forceInline st) then isDeclaration (func st)
            else negb (returnsVoid (func st))) eqn:Hskip.
  { exists st. run_goal. rewrite Hskip.
    repeat split; intros Hne; apply Hne; reflexivity. }
  set (s0 := set_DRL (λ _, [])
               (set_SCMArrayLocation 0
                  (set_SCMAllocationArray 0
                     (set_SCMArrays (take 1)
                        (set_SCM (λ _, ∅)
                           (set_removedInsts (λ _, ∅)
                              (set_usedVectors (λ _, []) st))))))).
  exists s0. split; [| subst s0; simpl; repeat split; intros Hne; apply Hne; reflexivity].
  apply bind_Some. exists (func st), st. split; [reflexivity|].
  apply bind_Some. exists (forceInline st), st. split; [reflexivity|].
  rewrite Hskip.
  apply bind_Some. eexists tt, _. split; [reflexivity|].
  apply bind_Some. eexists tt, _. split; [reflexivity|].
  apply bind_Some. eexists tt, _. split; [reflexivity|].
  apply bind_Some. eexists tt, _. split.
  { unfold releaseAllSCMEntries. run_goal. simpl.
    destruct (m_SCMArrays st); [contradiction | reflexivity]. }
  apply bind_Some. eexists tt, _. split; [reflexivity|].
  apply bind_Some. exists tt, s0. split.
  { apply (scalarizeLoop_vectorFree s0 Hvf (instructionsOf (func st)) []);
      [reflexivity | exact Hfuel]. }
  apply bind_Some. exists tt, s0. split; [reflexivity|].
  apply bind_Some. exists tt, s0. split; [reflexivity|].
  apply bind_Some. exists ∅, s0. split; [reflexivity|].
  rewrite elements_empty. reflexivity.
Qed.

Lemma rerun_on_vector_free_function_witness :
  vectorFreeFunction (stateAfterRun 10 sample_loop) = true ∧
  ∃ st', runOnFunction 10 (stateAfterRun 10 sample_loop) = Some (true, st') ∧
         insts st' = insts (stateAfterRun 10 sample_loop) ∧
         func st' = func (stateAfterRun 10 sample_loop).
Proof.
  split; [vm_compute; reflexivity|].
  destruct (rerun_on_vector_free_function 10 (stateAfterRun 10 sample_loop))
    as (st' & Hrun & Hi & _ & Hf & _).
  - vm_compute. reflexivity.
  - vm_compute. discriminate.
  - vm_compute. lia.
  - exists st'. split; [exact Hrun | split; assumption].
Defined.

(** C9, as stated, fails: the first run on [sample_add_call] leaves the
    extractions of the arguments and the chain that reassembles the operand
    of the call; the second run decomposes them again and builds new ones. *)
Lemma second_run_changes_function :
  ¬ (∀ b1 st1 b2 st2,
       runOnFunction 10 sample_add_call = Some (b1, st1) →
       runOnFunction 10 st1 = Some (b2, st2) →
       ¬ modified st1 st2).
Proof.
  intros H.
  assert (Hc : holdsAfter (runOnFunction 10 sample_add_call) (λ _ st1,
                 holdsAfter (runOnFunction 10 st1) (λ _ st2,
                   bool_decide (instructionsOf (func st2) ≠ instructionsOf (func st1))))
               = true) by (vm_compute; reflexivity).
  apply holdsAfter_Some in Hc. destruct Hc as (b1 & st1 & E1 & Hc).
  apply holdsAfter_Some in Hc. destruct Hc as (b2 & st2 & E2 & Hc).
  apply bool_decide_eq_true in Hc.
  exact (H b1 st1 b2 st2 E1 E2 Hc).
Qed.

(** ** Extractelement and recovery *)

Lemma keeps_recoverNonScalarizableInst_code id : keeps code (recoverNonScalarizableInst id).
Proof. unfold recoverNonScalarizableInst. keeps_tac. Qed.

Lemma keeps_mapM'_getLane {B : Type} (f : State → B) l idx : keeps f (mapM' idx (getLane l)).
Proof. keeps_tac. Qed.

(** Resolving the lanes of a value whose lanes the SCM holds, or of a
    constant, changes nothing. *)
Lemma obtainScalarizedValues_known r v d st res st' :
  hasLanes st v || isConstant v = true →
  obtainScalarizedValues r v d st = Some (res, st') → st' = st.
Proof.
  intros Hk H. apply orb_prop in Hk. destruct Hk as [Hk|Hk].
  2:{ destruct v as [i|t n|c]; try discriminate Hk.
      exact (keeps_obtainScalarizedValues_constant id _ _ _ _ _ _ H). }
  unfold hasLanes in Hk. unfold obtainScalarizedValues in H.
  apply bind_Some in H. destruct H as (t & z1 & Ht & H). run_inv Ht.
  apply bind_Some in H. destruct H as ([elt w] & z1 & Hw & H). run_inv Hw.
  destruct (match d with
            | Some d0 => (d0, r)
            | None => (0, resize w r)
            end) as [d' r0].
  apply bind_Some in H. destruct H as (cur & z1 & Hcur & H). run_inv Hcur.
  apply bind_Some in H. destruct H as (found & z1 & Hfound & H).
  destruct (m_SCM st !! v) as [p|] eqn:Hp; [|discriminate]. simpl in Hfound.
  apply bind_Some in Hfound. destruct Hfound as (e & z2 & He & Hfound). run_inv He.
  rewrite Hopt0 in Hk.
  destruct (scalarValues e) as [|[lane0|] rest] eqn:Hlanes; try discriminate.
  run_inv Hfound. simpl in Hopt1. injection Hopt1 as <-.
  apply bind_Some in H. destruct H as (lanes & z1 & Hl & H).
  apply (keeps_mapM'_getLane id) in Hl. simpl in Hl. subst z1.
  apply bind_Some in H. destruct H as (r2 & z1 & Hs & H).
  apply (keeps_storeLanes id) in Hs. simpl in Hs. subst z1.
  apply ret_inv in H. by destruct H as [_ ->].
Qed.

(** What recovery registers: every operand of vector type ends up in the
    used-whole set, and nothing leaves the set. *)
Lemma registerOperands_spec (ops : list Value) (st st' : State) :
  forM ops (λ operand,
    getType operand ≫= λ t,
    if isVectorTy t then obtainVectorValueWhichMightBeScalarized operand
    else mret tt) st = Some (tt, st') →
  insts st' = insts st ∧
  (∀ v, v ∈ m_usedVectors st → v ∈ m_usedVectors st') ∧
  (∀ v t, v ∈ ops → typeOf (insts st) v = Some t → isVectorTy t = true →
          v ∈ m_usedVectors st').
Proof.
  revert st. induction ops as [|x ops IH]; intros st H; simpl in H.
  - apply ret_inv in H. destruct H as [_ ->].
    split; [reflexivity|]. split; [auto|]. intros v t Hv. inversion Hv.
  - apply bind_Some in H. destruct H as ([] & s & Hx & H).
    apply IH in H. destruct H as (Hi & Hmono & Hreg).
    assert (Hs : insts s = insts st ∧
                 (∀ v, v ∈ m_usedVectors st → v ∈ m_usedVectors s) ∧
                 (∀ t, typeOf (insts st) x = Some t → isVectorTy t = true →
                       x ∈ m_usedVectors s)).
    { run_inv Hx. destruct (isVectorTy a) eqn:Hvec.
      - unfold obtainVectorValueWhichMightBeScalarized in Hx. run_inv Hx. simpl.
        split; [reflexivity|].
        destruct (decide (x ∈ m_usedVectors st)); [auto|].
        split; intros; apply elem_of_app; [left; assumption | right; left].
      - run_inv Hx. split; [reflexivity|]. split; [auto|].
        intros t Ht. rewrite Ht in Hx0. injection Hx0 as ->. congruence. }
    destruct Hs as (Hi' & Hmono' & Hx').
    split; [congruence|]. split; [auto|].
    intros v t Hv Ht Hvec. apply elem_of_cons in Hv. destruct Hv as [->|Hv].
    + apply Hmono. eapply Hx'; eassumption.
    + eapply Hreg; [exact Hv | rewrite Hi'; exact Ht | exact Hvec].
Qed.

Lemma recoverNonScalarizableInst_spec (Inst : positive) (I : Instruction) (st st' : State) :
  insts st !! Inst = Some I →
  recoverNonScalarizableInst Inst st = Some (tt, st') →
  code st' = code st ∧
  (∀ v, v ∈ m_usedVectors st → v ∈ m_usedVectors st') ∧
  (∀ v t, v ∈ recoveredOperands I → typeOf (insts st) v = Some t →
          isVectorTy t = true → v ∈ m_usedVectors st').
Proof.
  intros HI H.
  split; [exact (keeps_recoverNonScalarizableInst_code _ _ _ _ H)|].
  unfold recoverNonScalarizableInst in H.
  apply bind_Some in H. destruct H as (I' & s & HI' & H).
  apply getInst_inv in HI'. destruct HI' as [HI' ->].
  rewrite HI in HI'. injection HI' as <-.
  apply bind_Some in H. destruct H as ([] & s & Hentry & H).
  assert (Hs : insts s = insts st ∧ m_usedVectors s = m_usedVectors st).
  { destruct (isVectorTy (type I)).
    - apply bind_Some in Hentry. destruct Hentry as (p & s1 & Hp & Hentry).
      apply ret_inv in Hentry. destruct Hentry as [_ ->].
      split.
      + pose proof (keeps_getSCMEntry_code _ _ _ _ Hp) as Hc. by injection Hc.
      + revert Hp. apply (ltac:(unfold getSCMEntry; keeps_tac) :
          keeps m_usedVectors (getSCMEntry (VInst Inst))).
    - apply ret_inv in Hentry. by destruct Hentry as [_ ->]. }
  destruct Hs as [Hi Hu].
  apply registerOperands_spec in H. destruct H as (_ & Hmono & Hreg).
  split.
  - intros v Hv. apply Hmono. by rewrite Hu.
  - intros v t Hv Ht. apply (Hreg v t); [exact Hv | by rewrite Hi].
Qed.

Lemma replaceUses_not_elem (old new : Value) (i : Instruction) :
  new ≠ old → old ∉ operands (replaceUses old new i).
Proof.
  intros Hne Hin. unfold replaceUses in Hin. simpl in Hin.
  apply list_elem_of_fmap in Hin. destruct Hin as (v & Hv & _).
  destruct (decide (v = old)); congruence.
Qed.

Lemma use_empty_replaceUses (old new : Value) (m : gmap positive Instruction) :
  new ≠ old → use_empty (replaceUses old new <$> m) old = true.
Proof.
  intros Hne. unfold use_empty. apply bool_decide_eq_true.
  intros k i Hk. apply lookup_fmap_Some in Hk. destruct Hk as (i0 & <- & _).
  by apply replaceUses_not_elem.
Qed.

(** C4, amended.  An extractelement with a constant index is eliminated: it
    is marked for removal and every use of it is replaced by the indexed lane
    of what [obtainScalarizedValues] resolves for the source vector; no
    instruction is created when the SCM already holds the lanes of the source
    or the source is a constant (otherwise resolving the lanes creates
    extractions or placeholders).  With any other index the instruction is
    recovered: the code is left as it is and the source vector joins the
    used-whole set. *)
Theorem extractelement_rule (st : State) (EI : positive) (I : Instruction)
    (vectorValue scalarIndexVal : Value) (st' : State) :
  insts st !! EI = Some I →
  opcode I = ExtractElement →
  operands I !! 0 = Some vectorValue →
  operands I !! 1 = Some scalarIndexVal →
  scalarizeInstruction_ExtractElementInst EI st = Some (tt, st') →
  match getZExtValue scalarIndexVal with
  | Some scalarIndex =>
      ∃ operand c st1 lane,
        obtainScalarizedValues [] vectorValue None st = Some ((operand, c), st1) ∧
        operand !! toUnsigned scalarIndex = Some (Some lane) ∧
        (hasLanes st vectorValue || isConstant vectorValue = true → st1 = st) ∧
        insts st' = replaceUses (VInst EI) lane <$> insts st1 ∧
        use_empty (insts st') (VInst EI) = true ∧
        m_removedInsts st' = {[EI]} ∪ m_removedInsts st1 ∧
        func st' = func st1 ∧ nextId st' = nextId st1
  | None =>
      code st' = code st ∧
      (∀ t, typeOf (insts st) vectorValue = Some t → isVectorTy t = true →
            vectorValue ∈ m_usedVectors st')
  end.
Proof.
  intros HI Hop H0 H1 H. unfold scalarizeInstruction_ExtractElementInst in H.
  apply bind_Some in H. destruct H as (I' & s & HI' & H).
  apply getInst_inv in HI'. destruct HI' as [HI' ->].
  rewrite HI in HI'. injection HI' as <-.
  apply bind_Some in H. destruct H as (v0 & s & Hv0 & H).
  run_inv Hv0. rewrite H0 in Hopt. injection Hopt as <-.
  apply bind_Some in H. destruct H as (v1 & s & Hv1 & H).
  run_inv Hv1. rewrite H1 in Hopt. injection Hopt as <-.
  destruct (getZExtValue scalarIndexVal) as [scalarIndex|].
  - apply bind_Some in H. destruct H as ([operand c] & st1 & Hobtain & H).
    apply bind_Some in H. destruct H as (lane & s & Hlane & H).
    run_inv Hlane.
    apply bind_Some in H. destruct H as ([] & s & Hrauw & H).
    unfold replaceAllUsesWith in Hrauw. run_inv Hrauw.
    unfold markRemoved in H. run_inv H.
    apply bool_decide_eq_true in Hreq.
    exists operand, c, st1, lane. split; [exact Hobtain|].
    split; [by rewrite Hopt, Hopt0|].
    split; [intros Hk; exact (obtainScalarizedValues_known _ _ _ _ _ _ Hk Hobtain)|].
    simpl. split; [reflexivity|].
    split; [by apply use_empty_replaceUses | auto].
  - apply (recoverNonScalarizableInst_spec EI I st st' HI) in H.
    destruct H as (Hcode & _ & Hreg). split; [exact Hcode|].
    intros t Ht Hvec. apply (Hreg vectorValue t); [|exact Ht|exact Hvec].
    unfold recoveredOperands. rewrite Hop.
    apply list_elem_of_lookup. by exists 0.
Qed.

Lemma extractelement_rule_witness :
  ∃ st' operand c st1 lane,
    scalarizeInstruction_ExtractElementInst 1 sample_extract = Some (tt, st') ∧
    obtainScalarizedValues [] (VArg v4i32 0) None sample_extract
    = Some ((operand, c), st1) ∧
    operand !! 2 = Some (Some lane) ∧
    insts st' = replaceUses (VInst 1) lane <$> insts st1 ∧
    m_removedInsts st' = {[1%positive]} ∪ m_removedInsts st1.
Proof.
  assert (Hc : holdsAfter (scalarizeInstruction_ExtractElementInst 1 sample_extract)
                 (λ _ _, true) = true) by (vm_compute; reflexivity).
  apply holdsAfter_Some in Hc. destruct Hc as ([] & st' & E & _).
  pose proof (extractelement_rule sample_extract 1
                (plainInst ExtractElement i32 [VArg v4i32 0; VConst (ConstantInt i32 2)])
                (VArg v4i32 0) (VConst (ConstantInt i32 2)) st'
                eq_refl eq_refl eq_refl eq_refl E) as H.
  simpl in H. destruct H as (operand & c & st1 & lane & Ho & Hl & _ & Hi & _ & Hr & _).
  exists st', operand, c, st1, lane. auto.
Defined.

(** C4, as stated, fails: the source of the extractelement of
    [sample_extract] is an argument, whose lanes are not known; resolving them
    puts four extractions at the head of the function. *)
Lemma extract_of_argument_emits_instructions :
  ¬ (∀ st', scalarizeInstruction_ExtractElementInst 1 sample_extract = Some (tt, st') →
            instructionsOf (func st') = instructionsOf (func sample_extract)).
Proof.
  intros H.
  assert (Hc : holdsAfter (scalarizeInstruction_ExtractElementInst 1 sample_extract)
                 (λ _ st', bool_decide (instructionsOf (func st')
                                        ≠ instructionsOf (func sample_extract)))
               = true) by (vm_compute; reflexivity).
  apply holdsAfter_Some in Hc. destruct Hc as ([] & st' & E & Hc).
  apply bool_decide_eq_true in Hc. exact (Hc (H st' E)).
Qed.

(** ** The lane invariant of the SCM *)

Lemma typeOf_types (m m' : gmap positive Instruction) (v : Value) :
  type <$> m' = type <$> m → typeOf m' v = typeOf m v.
Proof.
  intros H. destruct v as [i| |]; simpl; try reflexivity.
  rewrite <- !lookup_fmap. by rewrite H.
Qed.

Lemma types_stripped (st st' : State) : stripped st' = stripped st → types st' = types st.
Proof.
  unfold stripped, types. intros H. apply map_eq. intros i.
  apply (f_equal (λ m, type <$> m !! i)) in H.
  rewrite !lookup_fmap in H. rewrite !lookup_fmap.
  destruct (insts st' !! i), (insts st !! i); simpl in *; congruence.
Qed.

Lemma typeOf_stripped (st st' : State) (v : Value) :
  stripped st' = stripped st → typeOf (insts st') v = typeOf (insts st) v.
Proof. intros H. apply typeOf_types. exact (types_stripped _ _ H). Qed.

Lemma keeps_SetDebugLocBy_stripped a b : keeps stripped (SetDebugLocBy a b).
Proof.
  intros st [] st' H. unfold SetDebugLocBy in H. run_inv H.
  destruct (debugLoc a0); run_inv H; [reflexivity|].
  unfold stripped. simpl. rewrite fmap_insert. apply insert_id.
  rewrite lookup_fmap, H0. reflexivity.
Qed.
#[export] Hint Resolve keeps_SetDebugLocBy_stripped : keeps.

(** What the first loop of [updateSCMEntryWithValues] leaves in the lanes. *)
Lemma fillLanes_spec (values : list (option Value)) (idx : list nat)
    (lanes lanes' : list (option Value)) (st st' : State) :
  fillLanes values idx lanes st = Some (lanes', st') →
  st' = st ∧ length lanes' = length lanes ∧
  (∀ i, i ∈ idx → ∃ x, values !! i = Some (Some x) ∧ lanes' !! i = Some (Some x)) ∧
  (∀ i, i ∉ idx → lanes' !! i = lanes !! i).
Proof.
  revert lanes. induction idx as [|j idx IH]; intros lanes H; simpl in H.
  - apply ret_inv in H. destruct H as [-> ->].
    split; [reflexivity|]. split; [reflexivity|]. split; [|reflexivity].
    intros i Hi. inversion Hi.
  - apply bind_Some in H. destruct H as (v & s & Hv & H). run_inv Hv.
    apply bind_Some in H. destruct H as (l1 & s & Hl1 & H). run_inv Hl1.
    apply bool_decide_eq_true in Hreq.
    apply IH in H. destruct H as (-> & Hlen & Hin & Hout).
    split; [reflexivity|]. rewrite length_insert in Hlen. split; [exact Hlen|].
    split.
    + intros i Hi. destruct (decide (i ∈ idx)) as [Hi'|Hi']; [by apply Hin|].
      apply elem_of_cons in Hi. destruct Hi as [->|Hi]; [|contradiction].
      exists v. split; [by rewrite Hopt, Hopt0|].
      rewrite (Hout j Hi'). by apply list_lookup_insert_eq.
    + intros i Hi. apply not_elem_of_cons in Hi. destruct Hi as [Hne Hi].
      rewrite (Hout i Hi). by apply list_lookup_insert_ne.
Qed.

Lemma length_resize {A : Type} (n : nat) (l : list (option A)) : length (resize n l) = n.
Proof. unfold resize. rewrite length_app, length_take, length_replicate. lia. Qed.

Lemma fillLanes_full (values lanes lanes' : list (option Value)) (w : nat) (st st' : State) :
  fillLanes values (seq 0 w) lanes st = Some (lanes', st') →
  length lanes = w →
  st' = st ∧ length lanes' = w ∧ Forall is_Some lanes' ∧
  (∀ i, i < w → lanes' !! i = values !! i).
Proof.
  intros H Hlen. apply fillLanes_spec in H. destruct H as (-> & Hlen' & Hin & _).
  split; [reflexivity|]. split; [congruence|]. split.
  - apply Forall_lookup. intros i x Hi.
    assert (Hlt : i < w) by (apply lookup_lt_Some in Hi; lia).
    destruct (Hin i) as (y & _ & Hy); [apply elem_of_seq; lia|].
    rewrite Hy in Hi. injection Hi as <-. by eexists.
  - intros i Hi. destruct (Hin i) as (y & Hv & Hy); [apply elem_of_seq; lia|].
    by rewrite Hv, Hy.
Qed.

Lemma keeps_fillLanes {B : Type} (f : State → B) vals idx lanes :
  keeps f (fillLanes vals idx lanes).
Proof. revert lanes. induction idx as [|i idx IH]; intros lanes; simpl; keeps_tac. Qed.
#[export] Hint Resolve keeps_fillLanes : keeps.

Lemma keeps_updateSCMEntryWithValues_stripped p vals v rm dbg :
  keeps stripped (updateSCMEntryWithValues p vals v rm dbg).
Proof. unfold updateSCMEntryWithValues. keeps_tac. Qed.

Lemma keeps_updateSCMEntryWithValues_outside p vals v rm dbg :
  keeps outsideSCM (updateSCMEntryWithValues p vals v rm dbg).
Proof. unfold updateSCMEntryWithValues. keeps_tac. Qed.

Lemma keeps_updateSCMEntryWithValues_shape p vals v rm dbg :
  keeps scmShape (updateSCMEntryWithValues p vals v rm dbg).
Proof. unfold updateSCMEntryWithValues. keeps_tac. Qed.

#[export] Hint Resolve keeps_updateSCMEntryWithValues_stripped
  keeps_updateSCMEntryWithValues_outside keeps_updateSCMEntryWithValues_shape : keeps.

(** What [updateSCMEntryWithValues] writes: the entry gets as many lanes as
    the vector type of [origValue] has elements, the first values of
    [values], none of them null. *)
Lemma updateSCMEntryWithValues_entry p vals v rm dbg st st' :
  updateSCMEntryWithValues p vals v rm dbg st = Some (tt, st') →
  ∃ elt w arr lanes,
    typeOf (insts st) v = Some (VectorTy elt w) ∧
    m_SCMArrays st !! p.1 = Some arr ∧ p.2 < length arr ∧
    length lanes = Pos.to_nat w ∧ Forall is_Some lanes ∧
    (∀ i, i < Pos.to_nat w → lanes !! i = vals !! i) ∧
    m_SCMArrays st' = <[p.1 := <[p.2 := mkSCMEntry lanes rm]> arr]> (m_SCMArrays st).
Proof.
  intros H. unfold updateSCMEntryWithValues in H.
  apply bind_Some in H. destruct H as (t & s & Ht & H). run_inv Ht.
  apply bind_Some in H. destruct H as ([elt w] & s & Hw & H). run_inv Hw.
  destruct t; try discriminate Hopt. simpl in Hopt. injection Hopt as -> <-.
  apply bind_Some in H. destruct H as (e & s & He & H). run_inv He.
  apply bind_Some in H. destruct H as (lanes & s & Hfill & H).
  apply fillLanes_full in Hfill; [|apply length_resize].
  destruct Hfill as (-> & Hlen & Hall & Hvals).
  apply bind_Some in H. destruct H as ([] & s & Hwrite & H).
  unfold writeEntry in Hwrite. run_inv Hwrite. apply bool_decide_eq_true in Hreq.
  exists elt, num, a, lanes.
  assert (Harrays : m_SCMArrays st' =
            <[p.1 := <[p.2 := mkSCMEntry lanes rm]> a]> (m_SCMArrays st)).
  { assert (Hk : keeps m_SCMArrays
              (if dbg
               then match v with
                    | VInst origInst =>
                        forM (seq 0 (Pos.to_nat num)) (λ i,
                          getLane vals i ≫= λ v0,
                          match v0 with
                          | VInst scalarInst => SetDebugLocBy scalarInst origInst
                          | _ => mret tt
                          end)
                    | _ => mret tt
                    end
               else mret tt)).
    { unfold SetDebugLocBy. keeps_tac. }
    rewrite (Hk _ _ _ H). reflexivity. }
  repeat split; try assumption.
Qed.

Lemma keeps_getSCMEntry_insts v : keeps insts (getSCMEntry v).
Proof. unfold getSCMEntry. keeps_tac. Qed.

Lemma keeps_getSCMEntry_outside v : keeps outsideSCM (getSCMEntry v).
Proof. unfold getSCMEntry. keeps_tac. Qed.

#[export] Hint Resolve keeps_getSCMEntry_insts keeps_getSCMEntry_outside : keeps.

(** What [getSCMEntry] does: it returns the entry of the value, or hands out
    the next entry of the allocation arrays, emptied, and records it. *)
Lemma getSCMEntry_spec (v : Value) (p : SCMEntryPtr) (st st' : State) :
  getSCMEntry v st = Some (p, st') →
  (m_SCM st !! v = Some p ∧ st' = st) ∨
  (m_SCM st !! v = None ∧
   ∃ arrays1 alloc1 loc1 arr e,
     (if decide (m_SCMArrayLocation st = ESTIMATED_INST_NUM st)
      then arrays1 = m_SCMArrays st ++ [replicate (ESTIMATED_INST_NUM st) emptySCMEntry] ∧
           alloc1 = length (m_SCMArrays st) ∧ loc1 = 0
      else arrays1 = m_SCMArrays st ∧ alloc1 = m_SCMAllocationArray st ∧
           loc1 = m_SCMArrayLocation st) ∧
     p = (alloc1, loc1) ∧
     arrays1 !! alloc1 = Some arr ∧ arr !! loc1 = Some e ∧
     m_SCM st' = <[v := p]> (m_SCM st) ∧
     m_SCMAllocationArray st' = alloc1 ∧
     m_SCMArrayLocation st' = S loc1 ∧
     ESTIMATED_INST_NUM st' = ESTIMATED_INST_NUM st ∧
     m_SCMArrays st' =
       <[alloc1 := <[loc1 := mkSCMEntry (None :: tail (scalarValues e)) false]> arr]> arrays1).
Proof.
  intros H. unfold getSCMEntry in H.
  apply bind_Some in H. destruct H as ([] & s & Hu & H). run_inv Hu.
  apply bind_Some in H. destruct H as (scm & s & Hscm & H). run_inv Hscm.
  destruct (m_SCM st !! v) as [q|] eqn:Hq.
  { apply ret_inv in H. destruct H as [-> ->]. left. auto. }
  right. split; [reflexivity|].
  apply bind_Some in H. destruct H as (loc & s & Hloc & H). run_inv Hloc.
  apply bind_Some in H. destruct H as (est & s & Hest & H). run_inv Hest.
  apply bind_Some in H. destruct H as ([] & s1 & Hgrow & H).
  set (arrays1 := if decide (m_SCMArrayLocation st = ESTIMATED_INST_NUM st)
                  then m_SCMArrays st ++ [replicate (ESTIMATED_INST_NUM st) emptySCMEntry]
                  else m_SCMArrays st).
  set (alloc1 := if decide (m_SCMArrayLocation st = ESTIMATED_INST_NUM st)
                 then length (m_SCMArrays st) else m_SCMAllocationArray st).
  set (loc1 := if decide (m_SCMArrayLocation st = ESTIMATED_INST_NUM st)
               then 0 else m_SCMArrayLocation st).
  assert (Hs1 : m_SCMArrays s1 = arrays1 ∧ m_SCMAllocationArray s1 = alloc1 ∧
                m_SCMArrayLocation s1 = loc1 ∧ m_SCM s1 = m_SCM st ∧
                ESTIMATED_INST_NUM s1 = ESTIMATED_INST_NUM st).
  { subst arrays1 alloc1 loc1.
    destruct (decide (m_SCMArrayLocation st = ESTIMATED_INST_NUM st));
      run_inv Hgrow; simpl; auto. }
  destruct Hs1 as (Harr1 & Halloc1 & Hloc1 & Hscm1 & Hest1).
  run_inv H. simpl in *.
  rewrite Harr1 in Hopt, Hopt0. rewrite Halloc1, Hloc1 in *.
  rewrite Hopt0 in Hopt. simpl in Hopt.
  exists arrays1, alloc1, loc1, a2, a0.
  split.
  { subst arrays1 alloc1 loc1.
    destruct (decide (m_SCMArrayLocation st = ESTIMATED_INST_NUM st)); auto. }
  rewrite Harr1, Hscm1.
  repeat split; try reflexivity; try assumption.
  do 2 f_equal. f_equal. destruct (scalarValues a0); reflexivity.
Qed.

Lemma lookup_insert_entry (arrays : list (list SCMEntry)) (a o : nat)
    (arr : list SCMEntry) (e : SCMEntry) (q : SCMEntryPtr) :
  arrays !! a = Some arr → o < length arr →
  (<[a := <[o := e]> arr]> arrays) !! q.1 ≫= (λ r, r !! q.2)
  = if decide (q = (a, o)) then Some e else arrays !! q.1 ≫= (λ r, r !! q.2).
Proof.
  intros Ha Ho. destruct q as [qa qo]. simpl.
  destruct (decide (qa = a)) as [->|Hne].
  - rewrite list_lookup_insert_eq by (by apply lookup_lt_Some in Ha). simpl.
    rewrite Ha. simpl.
    destruct (decide (qo = o)) as [->|Hno].
    + rewrite list_lookup_insert_eq by exact Ho. by rewrite decide_True.
    + rewrite list_lookup_insert_ne by congruence. by rewrite decide_False by congruence.
  - rewrite list_lookup_insert_ne by congruence. by rewrite decide_False by congruence.
Qed.

Lemma isResolved_full (lanes : list (option Value)) (rm : bool) (w : positive) :
  length lanes = Pos.to_nat w → Forall is_Some lanes →
  isResolved (mkSCMEntry lanes rm) = true.
Proof.
  intros Hlen Hall. destruct lanes as [|[x|] rest]; simpl in *.
  - lia.
  - reflexivity.
  - apply Forall_cons in Hall. destruct Hall as [[? Habs] _]. discriminate.
Qed.

Lemma updateSCMEntryWithValues_invariant (st : State) p vals v rm dbg st' :
  scmWf st → laneInvariant st →
  m_SCM st !! v = Some p →
  updateSCMEntryWithValues p vals v rm dbg st = Some (tt, st') →
  scmWf st' ∧ laneInvariant st' ∧
  ∃ e, lookupEntry st' p = Some e ∧ isResolved e = true ∧
       lanesFit (typeOf (insts st') v) e.
Proof.
  intros (Hlast & Hlens & Hloc & Halloc & Hinj) Hinv Hv H.
  pose proof (keeps_updateSCMEntryWithValues_stripped _ _ _ _ _ _ _ _ H) as Hstr.
  pose proof (keeps_updateSCMEntryWithValues_shape _ _ _ _ _ _ _ _ H) as Hshape.
  unfold scmShape in Hshape. injection Hshape as Hscm Ha Hl Hest.
  apply updateSCMEntryWithValues_entry in H.
  destruct H as (elt & w & arr & lanes & Hty & Harr & Ho & Hlen & Hall & _ & Harrays).
  assert (Hlook : ∀ q, lookupEntry st' q =
            if decide (q = p) then Some (mkSCMEntry lanes rm) else lookupEntry st q).
  { intros q. unfold lookupEntry. rewrite Harrays.
    rewrite (lookup_insert_entry _ _ _ _ _ q Harr Ho).
    destruct p as [pa po]. reflexivity. }
  assert (Hfit : lanesFit (typeOf (insts st') v) (mkSCMEntry lanes rm)).
  { exists elt, w. rewrite (typeOf_stripped _ _ _ Hstr). auto. }
  split; [|split].
  - unfold scmWf, allocated. rewrite Hscm, Ha, Hl, Hest, Harrays.
    split; [by rewrite length_insert|]. split; [|auto].
    apply Forall_insert; [exact Hlens|]. rewrite length_insert.
    rewrite Forall_lookup in Hlens. exact (Hlens _ _ Harr).
  - intros k q e Hk He Hres. rewrite Hscm in Hk. rewrite Hlook in He.
    destruct (decide (q = p)) as [->|Hne].
    + injection He as <-. rewrite (Hinj k v p Hk Hv). exact Hfit.
    + rewrite (typeOf_stripped _ _ _ Hstr). exact (Hinv k q e Hk He Hres).
  - exists (mkSCMEntry lanes rm). rewrite Hlook.
    destruct (decide (p = p)); [|contradiction].
    split; [reflexivity|]. split; [exact (isResolved_full _ _ _ Hlen Hall) | exact Hfit].
Qed.

Lemma getSCMEntry_invariant (st : State) v p st' :
  scmWf st → laneInvariant st →
  getSCMEntry v st = Some (p, st') →
  scmWf st' ∧ laneInvariant st' ∧ m_SCM st' !! v = Some p.
Proof.
  intros Hwf Hinv H.
  pose proof (keeps_getSCMEntry_insts _ _ _ _ H) as Hinsts.
  apply getSCMEntry_spec in H. destruct H as [[Hv ->]|[Hv H]]; [auto|].
  destruct Hwf as (Hlast & Hlens & Hloc & Halloc & Hinj).
  destruct H as (arrays1 & alloc1 & loc1 & arr & e & Hcase & -> & Harr & He &
                 Hscm & Ha & Hl & Hest & Harrays).
  assert (Ho : loc1 < length arr) by (by apply lookup_lt_Some in He).
  assert (Hfresh : ¬ allocated st (alloc1, loc1)).
  { unfold allocated. simpl.
    destruct (decide (m_SCMArrayLocation st = ESTIMATED_INST_NUM st));
      destruct Hcase as (_ & -> & ->); lia. }
  assert (Hmono : ∀ q, allocated st q → allocated st' q ∧ q ≠ (alloc1, loc1)).
  { intros q Hq. split; [|intros ->; contradiction].
    unfold allocated in *. rewrite Ha, Hl.
    destruct (decide (m_SCMArrayLocation st = ESTIMATED_INST_NUM st));
      destruct Hcase as (_ & -> & ->); lia. }
  assert (Hlens1 : Forall (λ r, length r = ESTIMATED_INST_NUM st) arrays1).
  { destruct (decide (m_SCMArrayLocation st = ESTIMATED_INST_NUM st));
      destruct Hcase as (-> & _ & _); [|exact Hlens].
    apply Forall_app. split; [exact Hlens|].
    constructor; [apply length_replicate | constructor]. }
  assert (Hold : ∀ q, allocated st q →
            arrays1 !! q.1 ≫= (λ r, r !! q.2) = lookupEntry st q).
  { intros q Hq. unfold lookupEntry.
    destruct (decide (m_SCMArrayLocation st = ESTIMATED_INST_NUM st));
      destruct Hcase as (-> & _ & _); [|reflexivity].
    rewrite lookup_app_l; [reflexivity|]. unfold allocated in Hq. lia. }
  assert (Hlook : ∀ q, allocated st q → lookupEntry st' q = lookupEntry st q).
  { intros q Hq. unfold lookupEntry at 1. rewrite Harrays.
    rewrite (lookup_insert_entry _ _ _ _ _ q Harr Ho).
    destruct (decide (q = (alloc1, loc1))) as [->|_]; [contradiction|].
    by apply Hold. }
  split; [|split].
  - unfold scmWf. rewrite Ha, Hl, Hest, Harrays, Hscm.
    split; [|split; [|split; [|split]]].
    + rewrite length_insert.
      destruct (decide (m_SCMArrayLocation st = ESTIMATED_INST_NUM st));
        destruct Hcase as (-> & -> & _); [rewrite length_app; simpl; lia | exact Hlast].
    + apply Forall_insert; [exact Hlens1|]. rewrite length_insert.
      rewrite Forall_lookup in Hlens1. exact (Hlens1 _ _ Harr).
    + rewrite Forall_lookup in Hlens1. rewrite <- (Hlens1 _ _ Harr). lia.
    + intros k q Hk. apply lookup_insert_Some in Hk.
      destruct Hk as [[_ <-]|[_ Hk]].
      * unfold allocated. rewrite Ha, Hl. simpl. lia.
      * apply Hmono. by apply (Halloc k).
    + intros k1 k2 q Hk1 Hk2.
      apply lookup_insert_Some in Hk1. apply lookup_insert_Some in Hk2.
      destruct Hk1 as [[<- <-]|[Hn1 Hk1]], Hk2 as [[<- Hq]|[Hn2 Hk2]];
        try reflexivity.
      * apply Halloc in Hk2. apply Hmono in Hk2. destruct Hk2. contradiction.
      * apply Halloc in Hk1. apply Hmono in Hk1. destruct Hk1. congruence.
      * by apply (Hinj k1 k2 q).
  - intros k q e' Hk He' Hres. rewrite Hscm in Hk. rewrite Hinsts.
    apply lookup_insert_Some in Hk. destruct Hk as [[<- <-]|[Hn Hk]].
    + unfold lookupEntry in He'. rewrite Harrays in He'.
      rewrite (lookup_insert_entry _ _ _ _ _ (alloc1, loc1) Harr Ho) in He'.
      rewrite decide_True in He' by reflexivity.
      injection He' as <-. discriminate Hres.
    + rewrite (Hlook q (Halloc k q Hk)) in He'. exact (Hinv k q e' Hk He' Hres).
  - rewrite Hscm. apply lookup_insert_eq.
Qed.

(** The pass object starts with the invariants: the constructor leaves an
    empty SCM and one allocation array. *)
Lemma ScalarizeFunction_invariant (b : bool) (s : State) :
  scmWf (ScalarizeFunction b s) ∧ laneInvariant (ScalarizeFunction b s).
Proof.
  split.
  - unfold scmWf. simpl. split; [reflexivity|]. split.
    + constructor; [apply length_replicate | constructor].
    + split; [lia|]. split; intros; simplify_map_eq.
  - intros v p e Hv. simpl in Hv. simplify_map_eq.
Qed.

(** C2: the lane invariant.  In a state where every resolved entry of the
    SCM has as many lanes as the vector type of its owner has elements, none
    of them null, both operations that write an SCM entry keep it so:
    [getSCMEntry], which may hand out an emptied entry, and
    [updateSCMEntryWithValues] on the entry of the value it is called for,
    which leaves that entry resolved with the lanes of that type. *)
Theorem lane_invariant (st : State) :
  scmWf st → laneInvariant st →
  (∀ v p st', getSCMEntry v st = Some (p, st') →
     scmWf st' ∧ laneInvariant st' ∧ m_SCM st' !! v = Some p) ∧
  (∀ p vals v rm dbg st',
     m_SCM st !! v = Some p →
     updateSCMEntryWithValues p vals v rm dbg st = Some (tt, st') →
     scmWf st' ∧ laneInvariant st' ∧
     ∃ e, lookupEntry st' p = Some e ∧ isResolved e = true ∧
          lanesFit (typeOf (insts st') v) e).
Proof.
  intros Hwf Hinv. split.
  - intros v p st'. by apply getSCMEntry_invariant.
  - intros p vals v rm dbg st'. by apply updateSCMEntryWithValues_invariant.
Qed.

Lemma lane_invariant_witness :
  scmWf sample_add_call ∧ laneInvariant sample_add_call ∧
  ∃ p st1 st2 e,
    getSCMEntry (VInst 1) sample_add_call = Some (p, st1) ∧
    updateSCMEntryWithValues p [Some (VArg i32 0); Some (VArg i32 1)]
      (VInst 1) true false st1 = Some (tt, st2) ∧
    laneInvariant st2 ∧
    lookupEntry st2 p = Some e ∧ isResolved e = true ∧ length (scalarValues e) = 2.
Proof.
  destruct (ScalarizeFunction_invariant false
              (mkState (insts sample_add_call) 4 (func sample_add_call)
                 4 false false sampleLayout ∅ [] 0 0 [] [] ∅)) as [Hwf Hinv].
  change (scmWf sample_add_call) in Hwf. change (laneInvariant sample_add_call) in Hinv.
  split; [exact Hwf|]. split; [exact Hinv|].
  assert (Hc : holdsAfter (getSCMEntry (VInst 1) sample_add_call) (λ p st1,
                 holdsAfter (updateSCMEntryWithValues p
                               [Some (VArg i32 0); Some (VArg i32 1)]
                               (VInst 1) true false st1) (λ _ _, true)) = true)
    by (vm_compute; reflexivity).
  apply holdsAfter_Some in Hc. destruct Hc as (p & st1 & E1 & Hc).
  apply holdsAfter_Some in Hc. destruct Hc as ([] & st2 & E2 & _).
  destruct (lane_invariant sample_add_call Hwf Hinv) as [Hget _].
  destruct (Hget _ _ _ E1) as (Hwf1 & Hinv1 & Hp).
  destruct (lane_invariant st1 Hwf1 Hinv1) as [_ Hupd].
  destruct (Hupd _ _ _ _ _ _ Hp E2) as (_ & Hinv2 & e & He & Hres & elt & w & Hty & Hlen & _).
  exists p, st1, st2, e. repeat split; try assumption.
  assert (Ht1 : typeOf (insts st2) (VInst 1) = Some v2i32).
  { rewrite (typeOf_stripped _ _ _ (keeps_updateSCMEntryWithValues_stripped _ _ _ _ _ _ _ _ E2)).
    rewrite (keeps_getSCMEntry_insts _ _ _ _ E1). reflexivity. }
  rewrite Ht1 in Hty. injection Hty as _ <-. exact Hlen.
Defined.

(** [getSCMEntry] leaves the entries that were handed out before as they are
    and records the entry that it returns. *)
Lemma getSCMEntry_old (v : Value) (p : SCMEntryPtr) (st st' : State) :
  scmWf st → getSCMEntry v st = Some (p, st') →
  m_SCM st' = <[v := p]> (m_SCM st) ∧
  ∀ q, allocated st q → lookupEntry st' q = lookupEntry st q.
Proof.
  intros Hwf H. apply getSCMEntry_spec in H. destruct H as [[Hv ->]|[Hv H]].
  { split; [by rewrite insert_id | reflexivity]. }
  destruct Hwf as (Hlast & Hlens & Hloc & Halloc & Hinj).
  destruct H as (arrays1 & alloc1 & loc1 & arr & e & Hcase & -> & Harr & He &
                 Hscm & Ha & Hl & Hest & Harrays).
  split; [exact Hscm|].
  assert (Ho : loc1 < length arr) by (by apply lookup_lt_Some in He).
  intros q Hq. unfold lookupEntry at 1. rewrite Harrays.
  rewrite (lookup_insert_entry _ _ _ _ _ q Harr Ho).
  destruct (decide (q = (alloc1, loc1))) as [->|_].
  { exfalso. unfold allocated in Hq. simpl in Hq.
    destruct (decide (m_SCMArrayLocation st = ESTIMATED_INST_NUM st));
      destruct Hcase as (_ & -> & ->); lia. }
  unfold lookupEntry.
  destruct (decide (m_SCMArrayLocation st = ESTIMATED_INST_NUM st));
    destruct Hcase as (-> & _ & _); [|reflexivity].
  rewrite lookup_app_l; [reflexivity|]. unfold allocated in Hq. lia.
Qed.

Lemma scmWfb_correct (st : State) : scmWfb st = true → scmWf st.
Proof.
  unfold scmWfb. intros H.
  apply andb_true_iff in H. destruct H as [H H5].
  apply andb_true_iff in H. destruct H as [H H4].
  apply andb_true_iff in H. destruct H as [H H3].
  apply andb_true_iff in H. destruct H as [H1 H2].
  apply bool_decide_eq_true in H1, H3, H4, H5.
  split; [exact H1|]. split.
  { apply Forall_forall. intros arr Harr.
    rewrite List.forallb_forall in H2. apply list_elem_of_In, H2 in Harr.
    by apply bool_decide_eq_true in Harr. }
  split; [exact H3|]. split.
  { intros v p Hv. exact (H4 v p Hv). }
  intros v1 v2 p Hv1 Hv2.
  apply elem_of_map_to_list in Hv1, Hv2.
  apply list_elem_of_lookup in Hv1, Hv2. destruct Hv1 as [i Hi], Hv2 as [j Hj].
  assert (Hij : i = j).
  { apply (NoDup_lookup _ i j p H5); rewrite list_lookup_fmap; [by rewrite Hi | by rewrite Hj]. }
  subst j. rewrite Hi in Hj. by injection Hj as ->.
Qed.

(** ** Closure of the DRL *)

Lemma stripped_lookup (st st' : State) (id : positive) :
  stripped st' = stripped st →
  match insts st' !! id, insts st !! id with
  | Some i', Some i =>
      opcode i' = opcode i ∧ type i' = type i ∧ operands i' = operands i
  | None, None => True
  | _, _ => False
  end.
Proof.
  intros H. apply (f_equal (λ m, m !! id)) in H. unfold stripped in H.
  rewrite !lookup_fmap in H.
  destruct (insts st' !! id) as [i'|], (insts st !! id) as [i|]; simpl in H;
    try discriminate; [|exact I].
  injection H as Hop Hty Hops _ _ _ _ _. auto.
Qed.

Lemma isDummyInst_ext (i i' : Instruction) :
  opcode i' = opcode i → operands i' = operands i → isDummyInst i' = isDummyInst i.
Proof. unfold isDummyInst. by intros -> ->. Qed.

Section ClosureInv.
Context (T : gmap positive Ty) (P D : list positive).
Context (HP : ∀ d, d ∈ P → is_Some (T !! d)) (HD : ∀ d, d ∈ D → d ∈ P).

(** The invariant only looks at the instructions up to their debug locations
    and at the allocator. *)
Lemma closureInv_ext (st st' : State) :
  stripped st' = stripped st → nextId st' = nextId st →
  closureInv T P D st → closureInv T P D st'.
Proof.
  intros Hs Hn (Hfresh & HT & HPd & HDd).
  assert (Hlook : ∀ id i', insts st' !! id = Some i' →
            ∃ i, insts st !! id = Some i ∧ opcode i' = opcode i ∧
                 type i' = type i ∧ operands i' = operands i).
  { intros id i' Hi'. pose proof (stripped_lookup st st' id Hs) as H.
    rewrite Hi' in H. destruct (insts st !! id) as [i|]; [eauto | contradiction]. }
  repeat split.
  - intros id i' Hi'. rewrite Hn. destruct (Hlook _ _ Hi') as (i & Hi & _). eauto.
  - rewrite Hn. by apply (HT id t).
  - intros i' Hi'. destruct (Hlook _ _ Hi') as (i & Hi & _ & Ht & _).
    rewrite Ht. by apply (HT id t).
  - intros d Hd i' Hi'. destruct (Hlook _ _ Hi') as (i & Hi & Ho & _ & Hops).
    rewrite (isDummyInst_ext i i' Ho Hops). eauto.
  - pose proof (stripped_lookup st st' d Hs) as Hl.
    destruct (HDd d H) as [Hnone _]. rewrite Hnone in Hl.
    destruct (insts st' !! d); [contradiction | reflexivity].
  - intros k i' Hi'. destruct (Hlook _ _ Hi') as (i & Hi & _ & _ & Hops).
    rewrite Hops. destruct (HDd d H) as [_ Hun]. eauto.
Qed.

Lemma closureInv_newInst (st : State) (i : Instruction) :
  (∀ d, d ∈ D → VInst d ∉ operands i) →
  closureInv T P D st →
  closureInv T P D (set_insts <[nextId st := i]> (set_nextId Pos.succ st)).
Proof.
  intros Hops (Hfresh & HT & HPd & HDd).
  assert (Hne : ∀ d, d ∈ P → d ≠ nextId st).
  { intros d Hd ->. destruct (HP _ Hd) as [t Ht]. destruct (HT _ _ Ht) as [Hlt _]. lia. }
  unfold closureInv, storeFresh, unused, set_insts, set_nextId; simpl.
  repeat split.
  - intros id i0 Hi0. apply lookup_insert_Some in Hi0.
    destruct Hi0 as [[<- _]|[_ Hi0]]; [lia|]. apply Hfresh in Hi0. lia.
  - destruct (HT _ _ H) as [Hlt _]. lia.
  - intros i0 Hi0. destruct (HT _ _ H) as [Hlt Hty].
    apply lookup_insert_Some in Hi0. destruct Hi0 as [[<- _]|[_ Hi0]]; [lia | eauto].
  - intros d Hd i0 Hi0. apply lookup_insert_Some in Hi0.
    destruct Hi0 as [[<- _]|[_ Hi0]]; [by destruct (Hne _ Hd) | eauto].
  - rewrite lookup_insert_ne; [by apply HDd | apply not_eq_sym, Hne, HD, H].
  - intros k i0 Hi0. apply lookup_insert_Some in Hi0.
    destruct Hi0 as [[_ <-]|[_ Hi0]]; [by apply Hops|].
    destruct (HDd d H) as [_ Hun]. eauto.
Qed.

Lemma isDummyInst_replaceUses (d0 : positive) (new : Value) (i : Instruction) :
  isDummyInst i = true → isDummyInst (replaceUses (VInst d0) new i) = true.
Proof.
  unfold isDummyInst. simpl. intros H. apply andb_prop in H. destruct H as [-> H].
  simpl. destruct (operands i) as [|[| |[]] rest]; try discriminate H. reflexivity.
Qed.

Lemma closureInv_replaceUses (st : State) (d0 : positive) (new : Value) :
  (∀ d, d ∈ D → new ≠ VInst d) →
  closureInv T P D st →
  closureInv T P D (set_insts (fmap (replaceUses (VInst d0) new)) st).
Proof.
  intros Hnew (Hfresh & HT & HPd & HDd).
  unfold closureInv, storeFresh, unused, set_insts, set_nextId; simpl.
  repeat split.
  - intros id i Hi. apply lookup_fmap_Some in Hi. destruct Hi as (i0 & _ & Hi0). eauto.
  - by destruct (HT _ _ H).
  - intros i Hi. apply lookup_fmap_Some in Hi. destruct Hi as (i0 & <- & Hi0).
    destruct (HT _ _ H) as [_ Hty]. simpl. eauto.
  - intros d Hd i Hi. apply lookup_fmap_Some in Hi. destruct Hi as (i0 & <- & Hi0).
    apply isDummyInst_replaceUses. eauto.
  - rewrite lookup_fmap. destruct (HDd d H) as [-> _]. reflexivity.
  - intros k i Hi. apply lookup_fmap_Some in Hi. destruct Hi as (i0 & <- & Hi0).
    simpl. intros Hin. apply list_elem_of_fmap in Hin. destruct Hin as (v & Hv & Hin).
    destruct (decide (v = VInst d0)).
    + by apply (Hnew d H).
    + subst v. destruct (HDd d H) as [_ Hun]. by apply (Hun k i0 Hi0).
Qed.
End ClosureInv.

Lemma closureInv_delete (T : gmap positive Ty) (P D : list positive) (st : State)
    (d0 : positive) :
  unused (insts st) (VInst d0) →
  closureInv T P D st →
  closureInv T P (d0 :: D) (set_insts (delete d0) st).
Proof.
  intros Hun0 (Hfresh & HT & HPd & HDd).
  unfold closureInv, storeFresh, unused, set_insts, set_nextId; simpl.
  repeat split.
  - intros id i Hi. apply lookup_delete_Some in Hi. destruct Hi as [_ Hi]. eauto.
  - by destruct (HT _ _ H).
  - intros i Hi. apply lookup_delete_Some in Hi. destruct Hi as [_ Hi].
    destruct (HT _ _ H) as [_ Hty]. eauto.
  - intros d Hd i Hi. apply lookup_delete_Some in Hi. destruct Hi as [_ Hi]. eauto.
  - apply elem_of_cons in H. destruct H as [->|H]; [apply lookup_delete_eq|].
    apply lookup_delete_None. right. by apply HDd.
  - intros k i Hi. apply lookup_delete_Some in Hi. destruct Hi as [_ Hi].
    apply elem_of_cons in H. destruct H as [->|H]; [eauto|].
    destruct (HDd d H) as [_ Hun]. eauto.
Qed.

Lemma keeps_isDummyValue {B : Type} (f : State → B) v : keeps f (isDummyValue v).
Proof. unfold isDummyValue. keeps_tac. Qed.
#[export] Hint Resolve keeps_isDummyValue : keeps.

Lemma keeps_hasDummyLoadIn {B : Type} (f : State → B) lanes idx :
  keeps f (hasDummyLoadIn lanes idx).
Proof. induction idx as [|i idx IH]; simpl; keeps_tac. Qed.
#[export] Hint Resolve keeps_hasDummyLoadIn : keeps.

(** A value that [isDummyValue] rejects is none of the placeholders. *)
Lemma isDummyValue_false (T : gmap positive Ty) (P D : list positive)
    (x : Value) (st st' : State) :
  closureInv T P D st →
  isDummyValue x st = Some (false, st') → notAmong P x.
Proof.
  intros (_ & _ & HPd & _) H d Hd ->. simpl in H. run_inv H.
  rewrite (HPd d Hd a H0) in H1. discriminate.
Qed.

Lemma hasDummyLoadIn_false (T : gmap positive Ty) (P D : list positive)
    (lanes : list (option Value)) (idx : list nat) (st st' : State) :
  closureInv T P D st →
  hasDummyLoadIn lanes idx st = Some (false, st') →
  ∀ i, i ∈ idx → ∃ x, lanes !! i = Some (Some x) ∧ notAmong P x.
Proof.
  intros Hinv. induction idx as [|j idx IH]; intros H i Hi; [inversion Hi|].
  simpl in H.
  apply bind_Some in H. destruct H as (v & s & Hv & H). run_inv Hv.
  apply bind_Some in H. destruct H as (b & s & Hb & H).
  pose proof (keeps_isDummyValue id _ _ _ _ Hb) as Hs. simpl in Hs. subst s.
  destruct b; [apply ret_inv in H; destruct H; discriminate|].
  apply elem_of_cons in Hi. destruct Hi as [->|Hi]; [|by apply IH].
  exists v. split; [by rewrite Hopt, Hopt0|].
  exact (isDummyValue_false T P D v st st Hinv Hb).
Qed.

Lemma createBefore_inv (i : Instruction) (loc : option positive) (id : positive)
    (st st' : State) :
  createBefore i loc st = Some (id, st') →
  id = nextId st ∧ insts st' = <[nextId st := i]> (insts st) ∧
  nextId st' = Pos.succ (nextId st) ∧
  (m_SCM st', m_SCMArrays st', scmShape st') = (m_SCM st, m_SCMArrays st, scmShape st) ∧
  (m_DRL st', m_usedVectors st', m_removedInsts st')
  = (m_DRL st, m_usedVectors st, m_removedInsts st).
Proof.
  intros H. unfold createBefore in H.
  apply bind_Some in H. destruct H as (id' & s & Hnew & H). run_inv Hnew.
  destruct loc as [l|]; run_inv H; simpl; auto.
Qed.

Section Resolve.
Context (T : gmap positive Ty) (P : list positive).
Context (HP : ∀ d, d ∈ P → is_Some (T !! d)).

Lemma createBefore_closure (D : list positive) (i : Instruction) (loc : option positive)
    (id : positive) (st st' : State) :
  (∀ d, d ∈ D → d ∈ P) →
  (∀ d, d ∈ D → VInst d ∉ operands i) →
  closureInv T P D st →
  createBefore i loc st = Some (id, st') →
  closureInv T P D st' ∧ notAmong P (VInst id).
Proof.
  intros HD Hops Hinv H. apply createBefore_inv in H.
  destruct H as (-> & Hi & Hn & _ & _). split.
  - apply (closureInv_ext T P D
             (set_insts <[nextId st := i]> (set_nextId Pos.succ st)) st').
    + unfold stripped. simpl. by rewrite Hi.
    + simpl. exact Hn.
    + by apply closureInv_newInst.
  - intros d Hd [= Heq]. destruct (HP d Hd) as [t Ht].
    destruct Hinv as (_ & HT & _). destruct (HT _ _ Ht) as [Hlt _]. lia.
Qed.

(** The second loop of the branch that extracts the lanes anew: every lane
    it yields is a new extraction or a lane that is no placeholder. *)
Lemma newLanes_spec (D : list positive) (b : bool) (e : SCMEntry) (elt : Ty)
    (vectorInst : positive) (loc : positive) (idx : list nat)
    (newInsts : list (option Value)) (st st' : State) :
  (∀ d, d ∈ D → d ∈ P) →
  closureInv T P D st → is_Some (insts st !! vectorInst) →
  mapM' idx (λ i,
    (if b then getLane (scalarValues e) i ≫= isDummyValue else mret true) ≫= λ fresh,
    if (fresh : bool) then
      createBefore (plainInst ExtractElement elt [VInst vectorInst; constIndex i])
                   (Some loc) ≫= λ EE, mret (Some (VInst EE))
    else mret (scalarValues e !! i ≫= id)) st = Some (newInsts, st') →
  closureInv T P D st' ∧ is_Some (insts st' !! vectorInst) ∧
  (m_SCM st', m_SCMArrays st', scmShape st') = (m_SCM st, m_SCMArrays st, scmShape st) ∧
  Forall2 (λ (_ : nat) r, ∃ x, r = Some x ∧ notAmong P x) idx newInsts.
Proof.
  intros HD. revert newInsts st.
  induction idx as [|j idx IH]; intros newInsts st Hinv Halive H; simpl in H.
  - apply ret_inv in H. destruct H as [-> ->].
    split; [exact Hinv|]. split; [exact Halive|]. split; [reflexivity | constructor].
  - apply bind_Some in H. destruct H as (r & s1 & Hr & H).
    apply bind_Some in H. destruct H as (rs & s2 & Hrs & H).
    apply ret_inv in H. destruct H as [-> ->].
    assert (Hstep : closureInv T P D s1 ∧ is_Some (insts s1 !! vectorInst) ∧
              (m_SCM s1, m_SCMArrays s1, scmShape s1)
              = (m_SCM st, m_SCMArrays st, scmShape st) ∧
              ∃ x, r = Some x ∧ notAmong P x).
    { apply bind_Some in Hr. destruct Hr as (fresh & s0 & Hfresh & Hr).
      assert (Hs0 : s0 = st).
      { revert Hfresh. apply (ltac:(destruct b; keeps_tac) :
          keeps id (if b then getLane (scalarValues e) j ≫= isDummyValue else mret true)). }
      subst s0. destruct fresh.
      - apply bind_Some in Hr. destruct Hr as (EE & s0 & HEE & Hr).
        apply ret_inv in Hr. destruct Hr as [-> ->].
        assert (Hops : ∀ d, d ∈ D → VInst d ∉ operands
                  (plainInst ExtractElement elt [VInst vectorInst; constIndex j])).
        { intros d Hd Hin. simpl in Hin.
          apply elem_of_cons in Hin. destruct Hin as [[= <-]|Hin].
          - destruct Hinv as (_ & _ & _ & HDd). destruct (HDd d Hd) as [Hnone _].
            rewrite Hnone in Halive. by destruct Halive.
          - apply elem_of_cons in Hin. destruct Hin as [Hin|Hin]; [discriminate Hin|].
            inversion Hin. }
        destruct (createBefore_closure D _ _ _ _ _ HD Hops Hinv HEE) as [Hinv1 Hgood].
        apply createBefore_inv in HEE. destruct HEE as (_ & Hi & _ & Hscm & _).
        split; [exact Hinv1|]. split.
        { rewrite Hi. destruct (decide (nextId st = vectorInst)) as [->|Hne].
          - rewrite lookup_insert_eq. eauto.
          - by rewrite lookup_insert_ne. }
        split; [exact Hscm | eauto].
      - apply ret_inv in Hr. destruct Hr as [-> ->].
        split; [exact Hinv|]. split; [exact Halive|]. split; [reflexivity|].
        destruct b; [|apply ret_inv in Hfresh; destruct Hfresh; discriminate].
        apply bind_Some in Hfresh. destruct Hfresh as (x & s0 & Hx & Hfresh).
        run_inv Hx. exists x. rewrite Hopt, Hopt0. split; [reflexivity|].
        exact (isDummyValue_false T P D x _ _ Hinv Hfresh). }
    destruct Hstep as (Hinv1 & Halive1 & Hscm1 & Hr1).
    destruct (IH rs s1 Hinv1 Halive1 Hrs) as (Hinv2 & Halive2 & Hscm2 & Hall).
    split; [exact Hinv2|]. split; [exact Halive2|]. split; [congruence|].
    by constructor.
Qed.

Lemma getSCMEntry_closure (D : list positive) (v : Value) (p : SCMEntryPtr)
    (st st' : State) :
  closureInv T P D st → getSCMEntry v st = Some (p, st') →
  closureInv T P D st' ∧ insts st' = insts st.
Proof.
  intros Hinv H. pose proof (keeps_getSCMEntry_insts _ _ _ _ H) as Hi.
  pose proof (keeps_getSCMEntry_outside _ _ _ _ H) as Ho.
  split; [|exact Hi]. apply (closureInv_ext T P D st st'); [| |exact Hinv].
  - unfold stripped. by rewrite Hi.
  - unfold outsideSCM in Ho. by injection Ho.
Qed.

(** The block that extracts lanes anew leaves an entry none of whose lanes
    is a placeholder. *)
Lemma scalarizeNow_spec (D : list positive) (vectorInst : positive) (elt : Ty)
    (w : positive) (p : SCMEntryPtr) (e : SCMEntry) (b : bool) (st st' : State) :
  (∀ d, d ∈ D → d ∈ P) →
  closureInv T P D st →
  is_Some (insts st !! vectorInst) →
  T !! vectorInst = Some (VectorTy elt w) →
  scalarizeNow vectorInst elt (Pos.to_nat w) p e b st = Some (tt, st') →
  closureInv T P D st' ∧
  ∃ e2, lookupEntry st' p = Some e2 ∧
        ∀ i, i ∈ seq 0 (Pos.to_nat w) →
             ∃ x, scalarValues e2 !! i = Some (Some x) ∧ notAmong P x.
Proof.
  intros HD Hinv Halive HT H. unfold scalarizeNow in H.
  apply bind_Some in H. destruct H as (f & z1 & Hf & H). run_inv Hf.
  apply bind_Some in H. destruct H as (bb & z1 & Hbb & H). run_inv Hbb.
  apply bind_Some in H. destruct H as (next & z1 & Hnext & H). run_inv Hnext.
  apply bind_Some in H. destruct H as (m & z1 & Hm & H). run_inv Hm.
  apply bind_Some in H. destruct H as (loc & z1 & Hloc & H).
  assert (z1 = st) as ->.
  { revert Hloc. apply (ltac:(keeps_tac) :
      keeps id (if isPHI (insts st) next then fromOption (getFirstNonPHI (insts st) bb)
                else mret next)). }
  apply bind_Some in H. destruct H as (newInsts & s3 & Hnew & Hupd).
  destruct (newLanes_spec D b e elt vectorInst loc _ _ _ _ HD Hinv Halive Hnew)
    as (Hinv3 & _ & Hscm3 & Hall).
  split.
  { apply (closureInv_ext T P D s3 st'); [| |exact Hinv3].
    - exact (keeps_updateSCMEntryWithValues_stripped _ _ _ _ _ _ _ _ Hupd).
    - pose proof (keeps_updateSCMEntryWithValues_outside _ _ _ _ _ _ _ _ Hupd) as Ho.
      unfold outsideSCM in Ho. by injection Ho. }
  apply updateSCMEntryWithValues_entry in Hupd.
  destruct Hupd as (elt' & w' & arr & lanes & Hty' & Harr & Ho & Hlen' & _ &
                    Hvals & Harrays).
  assert (Hw' : w' = w).
  { simpl in Hty'. destruct (insts s3 !! vectorInst) as [I3|] eqn:HI3;
      [|discriminate]. simpl in Hty'. injection Hty' as Hty'.
    destruct Hinv3 as (_ & HTs & _). destruct (HTs _ _ HT) as [_ Hty3].
    rewrite (Hty3 _ HI3) in Hty'. by injection Hty'. }
  subst w'.
  exists (mkSCMEntry lanes false). split.
  { unfold lookupEntry. rewrite Harrays.
    rewrite (lookup_insert_entry _ _ _ _ _ p Harr Ho).
    destruct p. by rewrite decide_True. }
  intros i Hi. simpl. apply elem_of_seq in Hi.
  rewrite Hvals by lia.
  destruct (Forall2_lookup_l _ _ _ i i Hall) as (r & Hr & x & -> & Hgood).
  { apply lookup_seq. lia. }
  exists x. by rewrite Hr.
Qed.

End Resolve.

Lemma drlWfb_correct (st : State) : drlWfb st = true → drlWf st.
Proof.
  unfold drlWfb, drlWf. intros H. rewrite List.forallb_forall in H.
  apply Forall_forall. intros entry Hentry. rewrite list_elem_of_In in Hentry.
  specialize (H entry Hentry).
  destruct (typeOf (insts st) (unresolvedInst entry)) as [[| | | |elt w|]|];
    try discriminate H.
  apply andb_prop in H. destruct H as [Hlen Hall].
  apply bool_decide_eq_true in Hlen. exists elt, w.
  split; [reflexivity|]. split; [exact Hlen|].
  rewrite List.forallb_forall in Hall.
  apply Forall_forall. intros v Hv. rewrite list_elem_of_In in Hv.
  specialize (Hall v Hv). destruct v as [d| |]; try discriminate Hall.
  destruct (insts st !! d) as [i|] eqn:Hd; [|discriminate Hall]. eauto.
Qed.

Lemma storeFresh_decide (st : State) :
  bool_decide (map_Forall (λ id _, (id < nextId st)%positive) (insts st)) = true →
  storeFresh st.
Proof. intros H. apply bool_decide_eq_true in H. exact H. Qed.

(** ** What the resolution substitutes *)

Lemma resolve_insert (R : gmap positive Value) (d0 : positive) (x o : Value) :
  R !! d0 = None → (∀ d y, R !! d = Some y → y ≠ VInst d0) →
  (if decide (resolve R o = VInst d0) then x else resolve R o)
  = resolve (<[d0 := x]> R) o.
Proof.
  intros Hd0 Hvals. destruct o as [d| |]; simpl;
    try reflexivity.
  destruct (decide (d = d0)) as [->|Hne].
  - rewrite Hd0, lookup_insert_eq. simpl. by rewrite decide_True.
  - rewrite lookup_insert_ne by congruence.
    destruct (R !! d) as [y|] eqn:Hy; simpl.
    + rewrite decide_False; [reflexivity | by apply (Hvals d)].
    + rewrite decide_False by congruence. reflexivity.
Qed.

Lemma resolve_fresh (R : gmap positive Value) (d : positive) :
  R !! d = None → resolve R (VInst d) = VInst d.
Proof. intros H. simpl. by rewrite H. Qed.

Lemma carried_refl (s : State) : carried s s.
Proof. intros id I HI. eauto. Qed.

Lemma carried_trans (s1 s2 s3 : State) : carried s1 s2 → carried s2 s3 → carried s1 s3.
Proof.
  intros H12 H23 id I HI. destruct (H12 _ _ HI) as (I2 & HI2 & Ho2 & Ht2 & Hops2).
  destruct (H23 _ _ HI2) as (I3 & HI3 & Ho3 & Ht3 & Hops3).
  exists I3. rewrite Ho3, Ht3, Hops3. auto.
Qed.

Lemma newLane_carry (st0 s s' : State) (R : gmap positive Value) (v : Value)
    (i : nat) (x : Value) :
  carried s s' →
  newLane st0 s R v i x → newLane st0 s' R v i x.
Proof.
  intros H (EE & ee & -> & Hn & He & Ho & Hops).
  destruct (H _ _ He) as (I' & HI' & Ho' & _ & Hops').
  exists EE, I'. rewrite Ho', Hops'. auto.
Qed.

Lemma resolvedLane_carry (st0 s s' : State) (R : gmap positive Value) (v : Value)
    (i : nat) (x : Value) :
  carried s s' →
  resolvedLane st0 s R v i x → resolvedLane st0 s' R v i x.
Proof.
  intros H [Hk|Hn]; [by left | right]. exact (newLane_carry _ _ _ _ _ _ _ H Hn).
Qed.

Lemma resolvedLane_substituted (st0 s : State) (R : gmap positive Value)
    (d0 : positive) (x0 : Value) (v : Value) (i : nat) (x : Value) :
  is_Some (insts st0 !! d0) → R !! d0 = None →
  (∀ d y, R !! d = Some y → y ≠ VInst d0) →
  resolvedLane st0 s R v i x →
  resolvedLane st0 (substituted d0 x0 s) (<[d0 := x0]> R) v i x.
Proof.
  intros Hd0 HR Hvals [Hk|(EE & ee & -> & Hn & He & Ho & Hops)]; [by left | right].
  exists EE, (replaceUses (VInst d0) x0 ee).
  split; [reflexivity|]. split; [exact Hn|].
  assert (Hne : d0 ≠ EE) by (intros ->; rewrite Hn in Hd0; by destruct Hd0).
  split.
  { unfold substituted. simpl. rewrite lookup_delete_ne by exact Hne.
    by rewrite lookup_fmap, He. }
  split; [exact Ho|]. simpl. rewrite Hops. simpl.
  by rewrite (resolve_insert R d0 x0 v HR Hvals).
Qed.

Lemma scmWf_shape (s s' : State) :
  (m_SCMArrays s', scmShape s') = (m_SCMArrays s, scmShape s) → scmWf s → scmWf s'.
Proof.
  unfold scmShape. intros [= Harr Hscm Ha Hl Hest].
  unfold scmWf, allocated. by rewrite Harr, Hscm, Ha, Hl, Hest.
Qed.

Lemma lookupEntry_arrays (s s' : State) (p : SCMEntryPtr) :
  m_SCMArrays s' = m_SCMArrays s → lookupEntry s' p = lookupEntry s p.
Proof. unfold lookupEntry. by intros ->. Qed.

(** The invariant looks at the instructions up to what [carried] keeps and at
    the SCM. *)
Lemma substInv_carry (st0 : State) (P : list positive) (R : gmap positive Value)
    (s s' : State) :
  carried s s' →
  (m_SCMArrays s', scmShape s') = (m_SCMArrays s, scmShape s) →
  substInv st0 P R s → substInv st0 P R s'.
Proof.
  intros Hc Hshape (Hwf & HR & Hi & Hl).
  split; [exact (scmWf_shape _ _ Hshape Hwf)|]. split; [exact HR|]. split.
  - intros id I HI Hid. destruct (Hi _ _ HI Hid) as (I1 & HI1 & Ho1 & Ht1 & Hops1).
    destruct (Hc _ _ HI1) as (I2 & HI2 & Ho2 & Ht2 & Hops2).
    exists I2. rewrite Ho2, Ht2, Hops2. auto.
  - intros v p e i x Hv He Hres Hx.
    unfold scmShape in Hshape. injection Hshape as Harr Hscm _ _ _.
    rewrite Hscm in Hv. rewrite (lookupEntry_arrays _ _ _ Harr) in He.
    exact (resolvedLane_carry _ _ _ _ _ _ _ Hc (Hl _ _ _ _ _ Hv He Hres Hx)).
Qed.

Lemma carried_stripped (s s' : State) :
  stripped s' = stripped s → carried s s'.
Proof.
  intros Hs id I HI. pose proof (stripped_lookup s s' id Hs) as H. rewrite HI in H.
  destruct (insts s' !! id) as [I'|]; [|contradiction]. exists I'. tauto.
Qed.

Lemma carried_insert (s s' : State) (I0 : Instruction) :
  storeFresh s → insts s' = <[nextId s := I0]> (insts s) → carried s s'.
Proof.
  intros Hfresh Hi id I HI. exists I. rewrite Hi.
  rewrite lookup_insert_ne; [auto|]. intros <-. apply Hfresh in HI. lia.
Qed.

(** [getSCMEntry] keeps the discipline of the allocation arrays and the
    entries that were handed out; an entry that it hands out is empty. *)
Lemma getSCMEntry_discipline (v : Value) (p : SCMEntryPtr) (st st' : State) :
  scmWf st → getSCMEntry v st = Some (p, st') →
  scmWf st' ∧ m_SCM st' = <[v := p]> (m_SCM st) ∧
  (∀ q, allocated st q → lookupEntry st' q = lookupEntry st q) ∧
  (m_SCM st !! v = Some p ∨
   m_SCM st !! v = None ∧ ∃ e, lookupEntry st' p = Some e ∧ isResolved e = false).
Proof.
  intros Hwf H. destruct (getSCMEntry_old _ _ _ _ Hwf H) as [Hscm' Hold].
  apply getSCMEntry_spec in H. destruct H as [[Hv ->]|[Hnone H]].
  { split; [exact Hwf|]. split; [exact Hscm'|]. split; [exact Hold|]. by left. }
  destruct Hwf as (Hlast & Hlens & Hloc & Halloc & Hinj).
  destruct H as (arrays1 & alloc1 & loc1 & arr & e & Hcase & -> & Harr & He &
                 Hscm & Ha & Hl & Hest & Harrays).
  assert (Hlens1 : Forall (λ r, length r = ESTIMATED_INST_NUM st) arrays1).
  { destruct (decide (m_SCMArrayLocation st = ESTIMATED_INST_NUM st));
      destruct Hcase as (-> & _ & _); [|exact Hlens].
    apply Forall_app. split; [exact Hlens|].
    constructor; [apply length_replicate | constructor]. }
  assert (Hfresh : ¬ allocated st (alloc1, loc1)).
  { unfold allocated. simpl.
    destruct (decide (m_SCMArrayLocation st = ESTIMATED_INST_NUM st));
      destruct Hcase as (_ & -> & ->); lia. }
  assert (Hmono : ∀ q, allocated st q → allocated st' q).
  { intros q Hq. unfold allocated in *. rewrite Ha, Hl.
    destruct (decide (m_SCMArrayLocation st = ESTIMATED_INST_NUM st));
      destruct Hcase as (_ & -> & ->); lia. }
  split; [|split; [exact Hscm'|split; [exact Hold|]]].
  - unfold scmWf. rewrite Ha, Hl, Hest, Harrays, Hscm.
    split; [|split; [|split; [|split]]].
    + rewrite length_insert.
      destruct (decide (m_SCMArrayLocation st = ESTIMATED_INST_NUM st));
        destruct Hcase as (-> & -> & _); [rewrite length_app; simpl; lia | exact Hlast].
    + apply Forall_insert; [exact Hlens1|]. rewrite length_insert.
      rewrite Forall_lookup in Hlens1. exact (Hlens1 _ _ Harr).
    + rewrite Forall_lookup in Hlens1. rewrite <- (Hlens1 _ _ Harr).
      apply lookup_lt_Some in He. lia.
    + intros k q Hk. apply lookup_insert_Some in Hk.
      destruct Hk as [[_ <-]|[_ Hk]].
      * unfold allocated. rewrite Ha, Hl. simpl. lia.
      * apply Hmono. by apply (Halloc k).
    + intros k1 k2 q Hk1 Hk2.
      apply lookup_insert_Some in Hk1. apply lookup_insert_Some in Hk2.
      destruct Hk1 as [[<- <-]|[Hne1 Hk1]], Hk2 as [[<- Heq]|[Hne2 Hk2]].
      * reflexivity.
      * exfalso. apply Hfresh. by apply (Halloc k2).
      * exfalso. apply Hfresh. rewrite Heq. by apply (Halloc k1).
      * by apply (Hinj k1 k2 q).
  - right. split; [exact Hnone|]. eexists. split.
    + unfold lookupEntry. rewrite Harrays. simpl.
      rewrite list_lookup_insert_eq by (by apply lookup_lt_Some in Harr). simpl.
      apply list_lookup_insert_eq. by apply lookup_lt_Some in He.
    + reflexivity.
Qed.

Lemma updateSCMEntryWithValues_discipline p vals v rm dbg st st' :
  scmWf st → updateSCMEntryWithValues p vals v rm dbg st = Some (tt, st') →
  scmWf st'.
Proof.
  intros (Hlast & Hlens & Hloc & Halloc & Hinj) H.
  pose proof (keeps_updateSCMEntryWithValues_shape _ _ _ _ _ _ _ _ H) as Hshape.
  unfold scmShape in Hshape. injection Hshape as Hscm Ha Hl Hest.
  apply updateSCMEntryWithValues_entry in H.
  destruct H as (elt & w & arr & lanes & Hty & Harr & Ho & Hlen & Hall & _ & Harrays).
  unfold scmWf, allocated. rewrite Hscm, Ha, Hl, Hest, Harrays.
  split; [by rewrite length_insert|]. split; [|auto].
  apply Forall_insert; [exact Hlens|]. rewrite length_insert.
  rewrite Forall_lookup in Hlens. exact (Hlens _ _ Harr).
Qed.


Lemma substInv_getSCMEntry (st0 : State) (P : list positive) (R : gmap positive Value)
    (v : Value) (p : SCMEntryPtr) (s s' : State) :
  substInv st0 P R s → getSCMEntry v s = Some (p, s') →
  substInv st0 P R s' ∧ m_SCM s' !! v = Some p ∧ insts s' = insts s.
Proof.
  intros (Hwf & HR & Hi & Hl) H.
  pose proof (keeps_getSCMEntry_insts _ _ _ _ H) as Hinsts.
  destruct (getSCMEntry_discipline _ _ _ _ Hwf H) as (Hwf' & Hscm & Hold & Hnew).
  split; [|split; [rewrite Hscm; apply lookup_insert_eq | exact Hinsts]].
  split; [exact Hwf'|]. split; [exact HR|]. split.
  - intros id I HI Hid. rewrite Hinsts. eauto.
  - intros v' p' e i x Hv' He Hres Hx.
    assert (Hcarry : carried s s').
    { intros id I HI. exists I. rewrite Hinsts. auto. }
    apply (resolvedLane_carry st0 s s' R v' i x Hcarry).
    assert (Hcase : m_SCM s !! v' = Some p' ∨
              (v' = v ∧ p' = p ∧ m_SCM s !! v = None)).
    { rewrite Hscm in Hv'. apply lookup_insert_Some in Hv'.
      destruct Hv' as [[<- <-]|[_ Hv']]; [|by left].
      destruct Hnew as [Hp|[Hnone _]]; [by left | by right]. }
    destruct Hcase as [Hold'|(-> & -> & Hnone)].
    + destruct Hwf as (_ & _ & _ & Halloc & _).
      rewrite (Hold p' (Halloc _ _ Hold')) in He.
      exact (Hl _ _ _ _ _ Hold' He Hres Hx).
    + destruct Hnew as [Hp|(_ & e0 & He0 & Hres0)]; [congruence|].
      rewrite He0 in He. injection He as <-. congruence.
Qed.

Lemma substInv_update (st0 : State) (P : list positive) (R : gmap positive Value)
    (p : SCMEntryPtr) (vals : list (option Value)) (v : Value) (rm dbg : bool)
    (s s' : State) :
  substInv st0 P R s → m_SCM s !! v = Some p →
  (∀ i x, vals !! i = Some (Some x) → resolvedLane st0 s R v i x) →
  updateSCMEntryWithValues p vals v rm dbg s = Some (tt, s') →
  substInv st0 P R s' ∧ carried s s' ∧ m_SCM s' = m_SCM s.
Proof.
  intros (Hwf & HR & Hi & Hl) Hv Hvals H.
  pose proof (updateSCMEntryWithValues_discipline _ _ _ _ _ _ _ Hwf H) as Hwf'.
  pose proof (carried_stripped _ _
    (keeps_updateSCMEntryWithValues_stripped _ _ _ _ _ _ _ _ H)) as Hcarry.
  pose proof (keeps_updateSCMEntryWithValues_shape _ _ _ _ _ _ _ _ H) as Hshape.
  unfold scmShape in Hshape. injection Hshape as Hscm _ _ _.
  apply updateSCMEntryWithValues_entry in H.
  destruct H as (elt & w & arr & lanes & Hty & Harr & Ho & Hlen & Hall & Hlanes & Harrays).
  assert (Hlook : ∀ q, lookupEntry s' q =
            if decide (q = p) then Some (mkSCMEntry lanes rm) else lookupEntry s q).
  { intros q. unfold lookupEntry. rewrite Harrays.
    rewrite (lookup_insert_entry _ _ _ _ _ q Harr Ho).
    destruct p as [pa po]. reflexivity. }
  split; [|split; [exact Hcarry | exact Hscm]].
  split; [exact Hwf'|]. split; [exact HR|]. split.
  - intros id I HI Hid. destruct (Hi _ _ HI Hid) as (I1 & HI1 & Ho1 & Ht1 & Hops1).
    destruct (Hcarry _ _ HI1) as (I2 & HI2 & Ho2 & Ht2 & Hops2).
    exists I2. rewrite Ho2, Ht2, Hops2. auto.
  - intros v' p' e i x Hv' He Hres Hx.
    apply (resolvedLane_carry st0 s s' R v' i x Hcarry).
    rewrite Hscm in Hv'. rewrite Hlook in He.
    destruct (decide (p' = p)) as [->|Hne].
    + injection He as <-. simpl in Hx.
      destruct Hwf as (_ & _ & _ & _ & Hinj).
      rewrite (Hinj v' v p Hv' Hv). apply Hvals.
      rewrite <- Hlanes; [exact Hx|].
      apply lookup_lt_Some in Hx. lia.
    + exact (Hl _ _ _ _ _ Hv' He Hres Hx).
Qed.

Lemma substInv_substituted (st0 : State) (P : list positive) (R : gmap positive Value)
    (d0 : positive) (x0 : Value) (s : State) :
  is_Some (insts st0 !! d0) → d0 ∈ P → R !! d0 = None → notAmong P x0 →
  substInv st0 P R s → substInv st0 P (<[d0 := x0]> R) (substituted d0 x0 s).
Proof.
  intros Hd0 HdP HRd Hx0 (Hwf & HR & Hi & Hl).
  assert (Hvals : ∀ d y, R !! d = Some y → y ≠ VInst d0).
  { intros d y Hy. destruct (HR _ _ Hy) as [_ Hgood]. by apply Hgood. }
  split; [exact (scmWf_shape s _ eq_refl Hwf)|]. split; [|split].
  - intros d x Hx. apply lookup_insert_Some in Hx.
    destruct Hx as [[<- <-]|[_ Hx]]; [auto | eauto].
  - intros id I HI Hid. apply lookup_insert_None in Hid. destruct Hid as [Hid Hne].
    destruct (Hi _ _ HI Hid) as (I1 & HI1 & Ho1 & Ht1 & Hops1).
    exists (replaceUses (VInst d0) x0 I1). split.
    { unfold substituted. simpl. rewrite lookup_delete_ne by exact Hne.
      by rewrite lookup_fmap, HI1. }
    split; [exact Ho1|]. split; [exact Ht1|]. simpl. rewrite Hops1.
    rewrite <- list_fmap_compose. apply list_fmap_ext. intros k o _. simpl.
    exact (resolve_insert R d0 x0 o HRd Hvals).
  - intros v p e i x Hv He Hres Hx.
    apply (resolvedLane_substituted st0 s R d0 x0 v i x Hd0 HRd Hvals).
    exact (Hl _ _ _ _ _ Hv He Hres Hx).
Qed.

Lemma isResolved_lane0 (e : SCMEntry) :
  isResolved e = true ↔ ∃ x, scalarValues e !! 0 = Some (Some x).
Proof.
  unfold isResolved. destruct (scalarValues e) as [|[x|] rest]; simpl; split;
    try discriminate; eauto; intros (y & Hy); discriminate.
Qed.

Section Substitution.
Context (st0 : State) (P : list positive).
Context (HP : ∀ d, d ∈ P → is_Some (types st0 !! d)).

Let T := types st0.

Lemma placeholder_in_st0 (d : positive) : d ∈ P → is_Some (insts st0 !! d).
Proof.
  intros Hd. destruct (HP d Hd) as [t Ht]. unfold types in Ht.
  rewrite lookup_fmap in Ht. destruct (insts st0 !! d); [eauto | discriminate].
Qed.

Lemma unresolved_alive (D : list positive) (R : gmap positive Value) (s : State)
    (d : positive) :
  closureInv T P D s → (∀ d, is_Some (R !! d) → d ∈ D) →
  is_Some (insts s !! d) → R !! d = None.
Proof.
  intros (_ & _ & _ & HDd) Hdom Halive.
  destruct (R !! d) as [x|] eqn:Hx; [|reflexivity].
  destruct (HDd d (Hdom d ltac:(eauto))) as [Hnone _].
  rewrite Hnone in Halive. by destruct Halive.
Qed.

(** The second loop of the block that extracts the lanes anew: a lane it
    yields is a new extraction of that lane or the lane the entry had. *)
Lemma newLanes_subst (D : list positive) (R : gmap positive Value) (b : bool)
    (e : SCMEntry) (elt : Ty) (vectorInst : positive) (loc : positive) (idx : list nat)
    (newInsts : list (option Value)) (st st' : State) :
  (∀ d, d ∈ D → d ∈ P) →
  closureInv T P D st → is_Some (insts st !! vectorInst) →
  substInv st0 P R st → (∀ d, is_Some (R !! d) → d ∈ D) →
  (b = true → ∀ i x, scalarValues e !! i = Some (Some x) →
              resolvedLane st0 st R (VInst vectorInst) i x) →
  mapM' idx (λ i,
    (if b then getLane (scalarValues e) i ≫= isDummyValue else mret true) ≫= λ fresh,
    if (fresh : bool) then
      createBefore (plainInst ExtractElement elt [VInst vectorInst; constIndex i])
                   (Some loc) ≫= λ EE, mret (Some (VInst EE))
    else mret (scalarValues e !! i ≫= id)) st = Some (newInsts, st') →
  substInv st0 P R st' ∧ carried st st' ∧ m_SCM st' = m_SCM st ∧
  Forall2 (λ i r, ∃ x, r = Some x ∧ resolvedLane st0 st' R (VInst vectorInst) i x)
          idx newInsts.
Proof.
  intros HD. revert newInsts st.
  induction idx as [|j idx IH]; intros newInsts st Hinv Halive Hsub Hdom Hold H;
    simpl in H.
  - apply ret_inv in H. destruct H as [-> ->].
    split; [exact Hsub|]. split; [apply carried_refl|]. split; [reflexivity|constructor].
  - apply bind_Some in H. destruct H as (r & s1 & Hr & H).
    apply bind_Some in H. destruct H as (rs & s2 & Hrs & H).
    apply ret_inv in H. destruct H as [-> ->].
    assert (Hstep : closureInv T P D s1 ∧ is_Some (insts s1 !! vectorInst) ∧
              substInv st0 P R s1 ∧ carried st s1 ∧ m_SCM s1 = m_SCM st ∧
              ∃ x, r = Some x ∧ resolvedLane st0 s1 R (VInst vectorInst) j x).
    { apply bind_Some in Hr. destruct Hr as (fresh & s0 & Hfresh & Hr).
      assert (Hs0 : s0 = st).
      { revert Hfresh. apply (ltac:(destruct b; keeps_tac) :
          keeps id (if b then getLane (scalarValues e) j ≫= isDummyValue else mret true)). }
      subst s0. destruct fresh.
      - apply bind_Some in Hr. destruct Hr as (EE & s0 & HEE & Hr).
        apply ret_inv in Hr. destruct Hr as [-> ->].
        assert (Hops : ∀ d, d ∈ D → VInst d ∉ operands
                  (plainInst ExtractElement elt [VInst vectorInst; constIndex j])).
        { intros d Hd Hin. simpl in Hin.
          apply elem_of_cons in Hin. destruct Hin as [[= <-]|Hin].
          - destruct Hinv as (_ & _ & _ & HDd). destruct (HDd d Hd) as [Hnone _].
            rewrite Hnone in Halive. by destruct Halive.
          - apply elem_of_cons in Hin. destruct Hin as [Hin|Hin]; [discriminate Hin|].
            inversion Hin. }
        destruct (createBefore_closure T P HP D _ _ _ _ _ HD Hops Hinv HEE)
          as [Hinv1 Hgood].
        apply createBefore_inv in HEE. destruct HEE as (-> & Hi & _ & Hscm & _).
        assert (Hcarry : carried st s0).
        { apply (carried_insert st s0 _ (proj1 Hinv) Hi). }
        assert (Hshape : (m_SCMArrays s0, scmShape s0) = (m_SCMArrays st, scmShape st)).
        { congruence. }
        split; [exact Hinv1|]. split.
        { rewrite Hi. destruct (decide (nextId st = vectorInst)) as [->|Hne].
          - rewrite lookup_insert_eq. eauto.
          - by rewrite lookup_insert_ne. }
        split; [exact (substInv_carry st0 P R st s0 Hcarry Hshape Hsub)|].
        split; [exact Hcarry|]. split; [congruence|].
        exists (VInst (nextId st)). split; [reflexivity|]. right.
        exists (nextId st), (plainInst ExtractElement elt [VInst vectorInst; constIndex j]).
        split; [reflexivity|]. split.
        { destruct (insts st0 !! nextId st) as [I0|] eqn:HI0; [|reflexivity].
          destruct Hinv as (_ & HT & _).
          destruct (HT (nextId st) (type I0)) as [Hlt _]; [|lia].
          unfold T, types. by rewrite lookup_fmap, HI0. }
        split; [rewrite Hi; apply lookup_insert_eq|]. split; [reflexivity|].
        simpl. by rewrite (unresolved_alive D R st vectorInst Hinv Hdom Halive).
      - apply ret_inv in Hr. destruct Hr as [-> ->].
        split; [exact Hinv|]. split; [exact Halive|]. split; [exact Hsub|].
        split; [apply carried_refl|]. split; [reflexivity|].
        destruct b; [|apply ret_inv in Hfresh; destruct Hfresh; discriminate].
        apply bind_Some in Hfresh. destruct Hfresh as (x & s0 & Hx & Hfresh).
        run_inv Hx. exists x. rewrite Hopt, Hopt0. split; [reflexivity|].
        apply (Hold eq_refl). by rewrite Hopt, Hopt0. }
    destruct Hstep as (Hinv1 & Halive1 & Hsub1 & Hcarry1 & Hscm1 & x & -> & Hx).
    assert (Hold1 : b = true → ∀ i y, scalarValues e !! i = Some (Some y) →
              resolvedLane st0 s1 R (VInst vectorInst) i y).
    { intros Hb i y Hy. apply (resolvedLane_carry st0 st s1 R _ i y Hcarry1). eauto. }
    destruct (IH rs s1 Hinv1 Halive1 Hsub1 Hdom Hold1 Hrs)
      as (Hsub2 & Hcarry2 & Hscm2 & Hall).
    split; [exact Hsub2|]. split; [exact (carried_trans _ _ _ Hcarry1 Hcarry2)|].
    split; [congruence|]. constructor; [|exact Hall].
    exists x. split; [reflexivity|].
    exact (resolvedLane_carry st0 s1 s2 R _ j x Hcarry2 Hx).
Qed.

Lemma scalarizeNow_subst (D : list positive) (R : gmap positive Value)
    (vectorInst : positive) (elt : Ty) (w : positive) (p : SCMEntryPtr) (e : SCMEntry)
    (b : bool) (st st' : State) :
  (∀ d, d ∈ D → d ∈ P) →
  closureInv T P D st → is_Some (insts st !! vectorInst) →
  substInv st0 P R st → (∀ d, is_Some (R !! d) → d ∈ D) →
  m_SCM st !! VInst vectorInst = Some p →
  lookupEntry st p = Some e → (b = true → isResolved e = true) →
  scalarizeNow vectorInst elt (Pos.to_nat w) p e b st = Some (tt, st') →
  substInv st0 P R st' ∧ carried st st' ∧ m_SCM st' = m_SCM st.
Proof.
  intros HD Hinv Halive Hsub Hdom Hp He Hres H. unfold scalarizeNow in H.
  apply bind_Some in H. destruct H as (f & z1 & Hf & H). run_inv Hf.
  apply bind_Some in H. destruct H as (bb & z1 & Hbb & H). run_inv Hbb.
  apply bind_Some in H. destruct H as (next & z1 & Hnext & H). run_inv Hnext.
  apply bind_Some in H. destruct H as (m & z1 & Hm & H). run_inv Hm.
  apply bind_Some in H. destruct H as (loc & z1 & Hloc & H).
  assert (z1 = st) as ->.
  { revert Hloc. apply (ltac:(keeps_tac) :
      keeps id (if isPHI (insts st) next then fromOption (getFirstNonPHI (insts st) bb)
                else mret next)). }
  apply bind_Some in H. destruct H as (newInsts & s3 & Hnew & Hupd).
  assert (Hold : b = true → ∀ i x, scalarValues e !! i = Some (Some x) →
            resolvedLane st0 st R (VInst vectorInst) i x).
  { intros Hb i x Hx. destruct Hsub as (_ & _ & _ & Hl).
    exact (Hl _ _ _ _ _ Hp He (Hres Hb) Hx). }
  destruct (newLanes_subst D R b e elt vectorInst loc _ _ _ _ HD Hinv Halive Hsub
              Hdom Hold Hnew) as (Hsub3 & Hcarry3 & Hscm3 & Hall).
  assert (Hvals : ∀ i x, newInsts !! i = Some (Some x) →
            resolvedLane st0 s3 R (VInst vectorInst) i x).
  { intros i x Hx.
    destruct (Forall2_lookup_r _ _ _ i _ Hall Hx) as (j & Hj & y & [= <-] & Hy).
    apply lookup_seq in Hj. destruct Hj as [Hj _]. simpl in Hj. by subst j. }
  rewrite <- Hscm3 in Hp.
  destruct (substInv_update st0 P R p newInsts _ _ _ s3 st' Hsub3 Hp Hvals Hupd)
    as (Hsub' & Hcarry' & Hscm').
  split; [exact Hsub'|]. split; [exact (carried_trans _ _ _ Hcarry3 Hcarry')|].
  congruence.
Qed.

(** The last loop of [resolveDeferredInstruction]: each placeholder of the
    entry is alive when its turn comes, its uses become the lane of the
    entry, and it is deleted. *)
Lemma connectDummies_subst (current : DRLEntry) (v : Value) (p : SCMEntryPtr)
    (e2 : SCMEntry) (idx : list nat) :
  (∀ x, x ∈ dummyVals current → ∃ d, x = VInst d ∧ d ∈ P) →
  isResolved e2 = true →
  (∀ i, i ∈ idx → ∃ x, scalarValues e2 !! i = Some (Some x) ∧ notAmong P x) →
  ∀ (D : list positive) (R : gmap positive Value) (st st' : State),
    (∀ d, d ∈ D → d ∈ P) →
    closureInv T P D st → substInv st0 P R st → (∀ d, is_Some (R !! d) → d ∈ D) →
    m_SCM st !! v = Some p → lookupEntry st p = Some e2 →
    connectDummies current p idx st = Some (tt, st') →
    ∃ ds R',
      Forall2 (λ i d, dummyVals current !! i = Some (VInst d) ∧
                      ∃ x, R' !! d = Some x ∧ resolvedLane st0 st' R' v i x) idx ds ∧
      closureInv T P (reverse ds ++ D) st' ∧
      NoDup ds ∧ (∀ d, d ∈ ds → (d ∉ D) ∧ (d ∈ P)) ∧
      substInv st0 P R' st' ∧ (∀ d, is_Some (R' !! d) → d ∈ reverse ds ++ D) ∧
      R ⊆ R' ∧
      (∀ v' i x, resolvedLane st0 st R v' i x → resolvedLane st0 st' R' v' i x).
Proof.
  intros Hdummies Hres2. unfold connectDummies.
  induction idx as [|i idx IH]; intros Hlanes D R st st' HD Hinv Hsub Hdom Hv He2 H;
    simpl in H.
  - apply ret_inv in H. destruct H as [_ ->]. exists [], R. simpl.
    split; [constructor|]. split; [exact Hinv|]. split; [constructor|].
    split; [intros d Hd; inversion Hd|]. split; [exact Hsub|]. split; [exact Hdom|].
    split; [reflexivity | auto].
  - apply bind_Some in H. destruct H as ([] & s2 & Hstep & H).
    apply bind_Some in Hstep. destruct Hstep as (dummyVal & s & Hdv & Hstep).
    run_inv Hdv.
    destruct (Hdummies dummyVal) as (d0 & -> & Hd0P).
    { apply list_elem_of_lookup. eauto. }
    apply bind_Some in Hstep. destruct Hstep as (I0 & s & Halive & Hstep).
    run_inv Halive.
    apply bind_Some in Hstep. destruct Hstep as (e' & s & He' & Hstep).
    run_inv He'. pose proof He2 as He2'. unfold lookupEntry in He2'.
    rewrite He2' in Hopt0. injection Hopt0 as <-.
    apply bind_Some in Hstep. destruct Hstep as (x & s & Hx & Hstep). run_inv Hx.
    destruct (Hlanes i) as (x' & Hx' & Hgood); [left|].
    subst a. rewrite Hopt0 in Hx'. injection Hx' as <-.
    apply bind_Some in Hstep. destruct Hstep as ([] & s1 & Hrauw & Hdel).
    run_inv Hrauw. apply bool_decide_eq_true in Hreq.
    run_inv Hdel.
    change (set_insts (delete d0) (set_insts (fmap (replaceUses (VInst d0) x)) st))
      with (substituted d0 x st) in *.
    assert (Hd0D : d0 ∉ D).
    { intros Hin. destruct Hinv as (_ & _ & _ & HDd).
      destruct (HDd d0 Hin) as [Hnone _]. congruence. }
    assert (HRd0 : R !! d0 = None).
    { apply (unresolved_alive D R st d0 Hinv Hdom). eauto. }
    assert (Hinv1 : closureInv T P D
              (set_insts (fmap (replaceUses (VInst d0) x)) st)).
    { apply (closureInv_replaceUses T P D); [|exact Hinv].
      intros d Hd. apply Hgood. by apply HD. }
    assert (Hun : unused (insts (set_insts (fmap (replaceUses (VInst d0) x)) st))
                    (VInst d0)).
    { intros k i0 Hk. simpl in Hk. apply lookup_fmap_Some in Hk.
      destruct Hk as (i1 & <- & _). by apply replaceUses_not_elem. }
    pose proof (closureInv_delete T P D _ d0 Hun Hinv1) as Hinv2.
    change (closureInv T P (d0 :: D) (substituted d0 x st)) in Hinv2.
    assert (Hvals : ∀ d y, R !! d = Some y → y ≠ VInst d0).
    { intros d y Hy. destruct Hsub as (_ & HR & _).
      destruct (HR _ _ Hy) as [_ Hg]. by apply Hg. }
    pose proof (substInv_substituted st0 P R d0 x st (placeholder_in_st0 d0 Hd0P)
                  Hd0P HRd0 Hgood Hsub) as Hsub2.
    assert (Hstab : ∀ v' k y, resolvedLane st0 st R v' k y →
              resolvedLane st0 (substituted d0 x st) (<[d0 := x]> R) v' k y).
    { intros v' k y. apply resolvedLane_substituted;
        [exact (placeholder_in_st0 d0 Hd0P) | exact HRd0 | exact Hvals]. }
    assert (Hhead : resolvedLane st0 st R v i x).
    { destruct Hsub as (_ & _ & _ & Hl). exact (Hl _ _ _ _ _ Hv He2 Hres2 Hopt0). }
    assert (Hdom2 : ∀ d, is_Some (<[d0 := x]> R !! d) → d ∈ d0 :: D).
    { intros d Hd. destruct (decide (d = d0)) as [->|Hne]; [left|].
      rewrite lookup_insert_ne in Hd by congruence. right. by apply Hdom. }
    destruct (IH (λ j Hj, Hlanes j (list_elem_of_further _ _ _ Hj)) (d0 :: D)
                (<[d0 := x]> R) _ st'
                ltac:(intros d Hd; apply elem_of_cons in Hd; destruct Hd as [->|Hd]; auto)
                Hinv2 Hsub2 Hdom2 Hv He2 H)
      as (ds & R' & Hall & Hinv' & Hnd & Hnot & Hsub' & Hdom' & Hsubset & Hstab').
    exists (d0 :: ds), R'. split.
    { constructor; [|exact Hall]. split; [exact Hopt|]. exists x. split.
      - apply (lookup_weaken _ _ _ _ (lookup_insert_eq R d0 x) Hsubset).
      - apply Hstab', Hstab, Hhead. }
    split.
    { rewrite reverse_cons, <- app_assoc. exact Hinv'. }
    split.
    { constructor; [|exact Hnd]. intros Hin. destruct (Hnot d0 Hin) as [Hn _].
      apply Hn. left. }
    split.
    { intros d Hd. apply elem_of_cons in Hd. destruct Hd as [->|Hd]; [auto|].
      destruct (Hnot d Hd) as [Hn HdP]. split; [|exact HdP].
      intros Hin. apply Hn. by right. }
    split; [exact Hsub'|]. split.
    { intros d Hd. rewrite reverse_cons, <- app_assoc. by apply Hdom'. }
    split.
    { etrans; [|exact Hsubset]. by apply insert_subseteq. }
    intros v' k y Hy. apply Hstab', Hstab, Hy.
Qed.

(** One entry of the DRL: its placeholders are distinct, alive before and
    gone after, nothing refers to them any more, and what referred to the
    placeholder of a lane refers to that lane of the target. *)
Lemma resolveDeferredInstruction_subst (D : list positive) (R : gmap positive Value)
    (current : DRLEntry) (st st' : State) :
  (∀ d, d ∈ D → d ∈ P) →
  closureInv T P D st → substInv st0 P R st → (∀ d, is_Some (R !! d) → d ∈ D) →
  (∀ vi, unresolvedInst current = VInst vi →
     ∃ elt w, T !! vi = Some (VectorTy elt w) ∧
              length (dummyVals current) = Pos.to_nat w) →
  (∀ v, v ∈ dummyVals current → ∃ d, v = VInst d ∧ d ∈ P) →
  resolveDeferredInstruction current st = Some (tt, st') →
  ∃ ds R', dummyVals current = VInst <$> ds ∧
        closureInv T P (reverse ds ++ D) st' ∧
        NoDup ds ∧ (∀ d, d ∈ ds → (d ∉ D) ∧ (d ∈ P)) ∧
        substInv st0 P R' st' ∧ (∀ d, is_Some (R' !! d) → d ∈ reverse ds ++ D) ∧
        R ⊆ R' ∧
        (∀ v' i x, resolvedLane st0 st R v' i x → resolvedLane st0 st' R' v' i x) ∧
        (∀ i d, dummyVals current !! i = Some (VInst d) →
           ∃ x, R' !! d = Some x ∧
                resolvedLane st0 st' R' (unresolvedInst current) i x).
Proof.
  intros HD Hinv Hsub Hdom Htarget Hdummies H. unfold resolveDeferredInstruction in H.
  destruct (unresolvedInst current) as [vectorInst| |] eqn:Hun;
    try (apply fail_Some in H; destruct H).
  destruct (Htarget vectorInst eq_refl) as (elt & w & HT & Hlen).
  apply bind_Some in H. destruct H as (I & z1 & HI & H). run_inv HI.
  assert (Hty : type I = VectorTy elt w).
  { destruct Hinv as (_ & HTs & _). destruct (HTs _ _ HT) as [_ Hty]. eauto. }
  rewrite Hty in H. simpl in H.
  apply bind_Some in H. destruct H as (ew & z1 & Hew & H).
  apply ret_inv in Hew. destruct Hew as [-> ->].
  apply bind_Some in H. destruct H as (p & s1 & Hp & H).
  destruct (getSCMEntry_closure T P D _ _ _ _ Hinv Hp) as [Hinv1 Hi1].
  destruct (substInv_getSCMEntry st0 P R _ _ _ _ Hsub Hp) as (Hsub1 & Hp1 & _).
  assert (Hcarry1 : carried st s1).
  { intros id I' HI'. exists I'. rewrite Hi1. auto. }
  apply bind_Some in H. destruct H as (e & z1 & He & H). run_inv He.
  apply bind_Some in H. destruct H as (lane0 & z1 & Hl0 & H). run_inv Hl0.
  apply bind_Some in H. destruct H as (hasDummyLoad & z1 & Hhas & H).
  assert (z1 = s1) as ->.
  { revert Hhas. apply (ltac:(destruct (bool_decide (is_Some lane0)); keeps_tac) :
      keeps id (if bool_decide (is_Some lane0)
                then hasDummyLoadIn (scalarValues e) (seq 0 (Pos.to_nat w))
                else mret false)). }
  apply bind_Some in H. destruct H as ([] & s2 & Hupd & H).
  assert (Halive : is_Some (insts s1 !! vectorInst)) by (rewrite Hi1; eauto).
  assert (Hinit : bool_decide (is_Some lane0) = true → isResolved e = true).
  { intros Hb. apply bool_decide_eq_true in Hb. destruct Hb as [x0 ->].
    apply isResolved_lane0. eauto. }
  (* the lanes of the entry before the placeholders are substituted *)
  assert (Hphase1 : closureInv T P D s2 ∧ substInv st0 P R s2 ∧ carried s1 s2 ∧
            m_SCM s2 = m_SCM s1 ∧
            ∃ e2, lookupEntry s2 p = Some e2 ∧
                  ∀ i, i ∈ seq 0 (Pos.to_nat w) →
                       ∃ x, scalarValues e2 !! i = Some (Some x) ∧ notAmong P x).
  { destruct (bool_decide (is_Some lane0)) eqn:Hb; simpl in Hupd.
    - destruct hasDummyLoad.
      + destruct (scalarizeNow_spec T P HP D _ _ _ _ _ _ _ _ HD Hinv1 Halive HT Hupd)
          as [Hc He2].
        destruct (scalarizeNow_subst D R _ _ _ _ _ _ _ _ HD Hinv1 Halive Hsub1 Hdom
                    Hp1 Hopt Hinit Hupd) as (Hs & Hca & Hscm).
        auto.
      + apply ret_inv in Hupd. destruct Hupd as [_ ->].
        split; [exact Hinv1|]. split; [exact Hsub1|]. split; [apply carried_refl|].
        split; [reflexivity|]. exists e. split; [exact Hopt|].
        exact (hasDummyLoadIn_false T P D _ _ _ _ Hinv1 Hhas).
    - destruct (scalarizeNow_spec T P HP D _ _ _ _ _ _ _ _ HD Hinv1 Halive HT Hupd)
        as [Hc He2].
      destruct (scalarizeNow_subst D R _ _ _ _ _ _ _ _ HD Hinv1 Halive Hsub1 Hdom
                  Hp1 Hopt Hinit Hupd) as (Hs & Hca & Hscm).
      auto. }
  destruct Hphase1 as (Hinv2 & Hsub2 & Hcarry2 & Hscm2 & e2 & He2 & Hlanes).
  assert (Hres2 : isResolved e2 = true).
  { apply isResolved_lane0. destruct (Hlanes 0) as (x & Hx & _); [|eauto].
    apply elem_of_seq. lia. }
  rewrite <- Hscm2 in Hp1.
  destruct (connectDummies_subst current (VInst vectorInst) p e2 (seq 0 (Pos.to_nat w))
              Hdummies Hres2 Hlanes D R s2 st' HD Hinv2 Hsub2 Hdom Hp1 He2 H)
    as (ds & R' & Hall & Hinv' & Hnd & Hnot & Hsub' & Hdom' & Hsubset & Hstab).
  exists ds, R'.
  assert (Hds : dummyVals current = VInst <$> ds).
  { apply list_eq. intros i. rewrite list_lookup_fmap.
    destruct (decide (i < Pos.to_nat w)) as [Hi|Hi].
    - destruct (Forall2_lookup_l _ _ _ i i Hall) as (d & Hd & Hcur & _).
      { apply lookup_seq. lia. }
      by rewrite Hd, Hcur.
    - rewrite (lookup_ge_None_2 (dummyVals current)) by lia.
      apply Forall2_length in Hall. rewrite length_seq in Hall.
      by rewrite (lookup_ge_None_2 ds) by lia. }
  split; [exact Hds|]. split; [exact Hinv'|]. split; [exact Hnd|].
  split; [exact Hnot|]. split; [exact Hsub'|]. split; [exact Hdom'|].
  split; [exact Hsubset|]. split.
  - intros v' i x Hx. apply Hstab.
    apply (resolvedLane_carry st0 s1 s2 R v' i x Hcarry2).
    exact (resolvedLane_carry st0 st s1 R v' i x Hcarry1 Hx).
  - intros i d Hd.
    assert (Hi : i < Pos.to_nat w) by (apply lookup_lt_Some in Hd; lia).
    destruct (Forall2_lookup_l _ _ _ i i Hall) as (d' & _ & Hcur & Hrec).
    { apply lookup_seq. lia. }
    rewrite Hd in Hcur. injection Hcur as <-. exact Hrec.
Qed.

Lemma resolveAll_subst (drl : list DRLEntry) :
  Forall (λ current,
    (∀ vi, unresolvedInst current = VInst vi →
       ∃ elt w, T !! vi = Some (VectorTy elt w) ∧
                length (dummyVals current) = Pos.to_nat w) ∧
    (∀ v, v ∈ dummyVals current → ∃ d, v = VInst d ∧ d ∈ P)) drl →
  ∀ (D : list positive) (R : gmap positive Value) (st st' : State),
    (∀ d, d ∈ D → d ∈ P) →
    closureInv T P D st → substInv st0 P R st → (∀ d, is_Some (R !! d) → d ∈ D) →
    forM drl resolveDeferredInstruction st = Some (tt, st') →
    ∃ ds R', mjoin (dummyVals <$> drl) = VInst <$> ds ∧
          closureInv T P (reverse ds ++ D) st' ∧
          NoDup ds ∧ (∀ d, d ∈ ds → (d ∉ D) ∧ (d ∈ P)) ∧
          substInv st0 P R' st' ∧ (∀ d, is_Some (R' !! d) → d ∈ reverse ds ++ D) ∧
          R ⊆ R' ∧
          (∀ v' i x, resolvedLane st0 st R v' i x → resolvedLane st0 st' R' v' i x) ∧
          (∀ current i d, current ∈ drl → dummyVals current !! i = Some (VInst d) →
             ∃ x, R' !! d = Some x ∧
                  resolvedLane st0 st' R' (unresolvedInst current) i x).
Proof.
  induction 1 as [|current drl [Htarget Hdummies] _ IH];
    intros D R st st' HD Hinv Hsub Hdom H; simpl in H.
  - apply ret_inv in H. destruct H as [_ ->]. exists [], R. simpl.
    split; [reflexivity|]. split; [exact Hinv|]. split; [constructor|].
    split; [intros d Hd; inversion Hd|]. split; [exact Hsub|]. split; [exact Hdom|].
    split; [reflexivity|]. split; [auto|].
    intros current i d Hc. inversion Hc.
  - apply bind_Some in H. destruct H as ([] & s1 & H1 & H).
    destruct (resolveDeferredInstruction_subst D R current st s1 HD Hinv Hsub Hdom
                Htarget Hdummies H1)
      as (ds1 & R1 & Hds1 & Hinv1 & Hnd1 & Hnot1 & Hsub1 & Hdom1 & Hsubset1 &
          Hstab1 & Hrec1).
    assert (HD1 : ∀ d, d ∈ reverse ds1 ++ D → d ∈ P).
    { intros d Hd. apply elem_of_app in Hd. destruct Hd as [Hd|Hd]; [|auto].
      rewrite elem_of_reverse in Hd. by destruct (Hnot1 d Hd). }
    destruct (IH (reverse ds1 ++ D) R1 s1 st' HD1 Hinv1 Hsub1 Hdom1 H)
      as (ds2 & R2 & Hds2 & Hinv2 & Hnd2 & Hnot2 & Hsub2 & Hdom2 & Hsubset2 &
          Hstab2 & Hrec2).
    exists (ds1 ++ ds2), R2. split; [|split; [|split; [|split]]].
    + rewrite fmap_cons, fmap_app. simpl. by rewrite Hds1, Hds2.
    + by rewrite reverse_app, <- app_assoc.
    + apply NoDup_app. split; [exact Hnd1|]. split; [|exact Hnd2].
      intros d Hd1 Hd2. destruct (Hnot2 d Hd2) as [Hn _]. apply Hn.
      apply elem_of_app. left. by rewrite elem_of_reverse.
    + intros d Hd. apply elem_of_app in Hd. destruct Hd as [Hd|Hd]; [auto|].
      destruct (Hnot2 d Hd) as [Hn HdP]. split; [|exact HdP].
      intros Hin. apply Hn. apply elem_of_app. by right.
    + split; [exact Hsub2|]. split.
      { intros d Hd. rewrite reverse_app, <- app_assoc. by apply Hdom2. }
      split; [by etrans|]. split; [by auto|].
      intros cur i d Hcur Hd. apply elem_of_cons in Hcur.
      destruct Hcur as [->|Hcur]; [|by eauto].
      destruct (Hrec1 i d Hd) as (x & Hx & Hlane). exists x. split.
      * exact (lookup_weaken _ _ _ _ Hx Hsubset2).
      * by apply Hstab2.
Qed.
End Substitution.

Lemma resolve_empty (v : Value) : resolve ∅ v = v.
Proof. destruct v; reflexivity. Qed.

Lemma substInv_start (st : State) (P : list positive) :
  scmWf st → substInv st P ∅ st.
Proof.
  intros Hwf. split; [exact Hwf|]. split; [|split].
  - intros d x Hx. by rewrite lookup_empty in Hx.
  - intros id I HI _. exists I. split; [exact HI|]. split; [reflexivity|].
    split; [reflexivity|]. symmetry. etrans; [|apply list_fmap_id].
    apply list_fmap_ext. intros k o _. apply resolve_empty.
  - intros v p e i x Hv He Hres Hx. left. exists p, e. auto.
Qed.



(** ** The lanes of a value *)

Lemma mapM'_length {A B : Type} (idx : list A) (body : A → M B) (st st' : State)
    (l : list B) :
  mapM' idx body st = Some (l, st') → length l = length idx.
Proof.
  revert st st' l. induction idx as [|x idx IH]; intros st st' l H; simpl in H.
  - apply ret_inv in H. by destruct H as [-> _].
  - apply bind_Some in H. destruct H as (y & s1 & _ & H).
    apply bind_Some in H. destruct H as (ys & s2 & Hys & H).
    apply ret_inv in H. destruct H as [-> _]. simpl. f_equal. eauto.
Qed.

(** [storeLanes] writes the lanes at [destIdx] and leaves the rest. *)
Lemma storeLanes_inv (lanes : list Value) (r r' : list (option Value)) (d : nat)
    (st st' : State) :
  storeLanes r d lanes st = Some (r', st') →
  st' = st ∧ length r' = length r ∧
  (lanes ≠ [] → d + length lanes ≤ length r) ∧
  ∀ i, r' !! i = if decide (d ≤ i < d + length lanes)
                 then Some <$> lanes !! (i - d) else r !! i.
Proof.
  revert r d. induction lanes as [|v lanes IH]; intros r d H; simpl in H.
  - apply ret_inv in H. destruct H as [-> ->]. split; [reflexivity|].
    split; [reflexivity|]. split; [done|].
    intros i. simpl. rewrite decide_False by lia. reflexivity.
  - apply bind_Some in H. destruct H as (r1 & s1 & Hr1 & H). run_inv Hr1.
    apply bool_decide_eq_true in Hreq.
    apply IH in H. destruct H as (-> & Hlen & Hle & Hlook).
    rewrite length_insert in Hlen, Hle.
    split; [reflexivity|]. split; [exact Hlen|]. split.
    + intros _. simpl. destruct lanes; [simpl; lia|].
      specialize (Hle ltac:(discriminate)). simpl in *. lia.
    + intros i. rewrite Hlook. simpl.
      destruct (decide (i = d)) as [->|Hne].
      * repeat case_decide; try lia.
        rewrite Nat.sub_diag. simpl. by apply list_lookup_insert_eq.
      * rewrite list_lookup_insert_ne by congruence.
        repeat case_decide; try lia; [|reflexivity].
        replace (i - d) with (S (i - S d)) by lia. reflexivity.
Qed.

Lemma storeLanes_run (lanes : list Value) (r : list (option Value)) (d : nat) (st : State) :
  d + length lanes ≤ length r →
  ∃ r', storeLanes r d lanes st = Some (r', st).
Proof.
  revert r d. induction lanes as [|v lanes IH]; intros r d Hle; simpl.
  - eauto.
  - simpl in Hle. destruct (IH (<[d := Some v]> r) (S d)) as (r' & Hr').
    { rewrite length_insert. lia. }
    exists r'. apply bind_Some. exists (<[d := Some v]> r), st. split; [|exact Hr'].
    unfold storeAt. apply bind_Some. exists tt, st. split; [|reflexivity].
    apply require_Some. split; [|reflexivity]. apply bool_decide_eq_true. lia.
Qed.

(** Only the values that the loops read matter to [updateSCMEntryWithValues]. *)
Lemma fillLanes_ext (vals vals' : list (option Value)) (idx : list nat)
    (lanes : list (option Value)) (st : State) :
  (∀ i, i ∈ idx → vals !! i = vals' !! i) →
  fillLanes vals idx lanes st = fillLanes vals' idx lanes st.
Proof.
  revert lanes st. induction idx as [|j idx IH]; intros lanes st Hext; simpl; [reflexivity|].
  unfold mbind, M_bind, getLane. unfold mbind, M_bind.
  rewrite (Hext j) by left.
  destruct (fromOption (vals' !! j) st) as [[a s]|]; [|reflexivity].
  destruct (fromOption a s) as [[v s']|]; [|reflexivity].
  destruct (storeAt lanes j (Some v) s') as [[l s'']|]; [|reflexivity].
  rewrite IH; [reflexivity|]. intros i Hi. apply Hext. by right.
Qed.

Lemma forM_ext {A : Type} (l : list A) (f g : A → M unit) (st : State) :
  (∀ x s, x ∈ l → f x s = g x s) → forM l f st = forM l g st.
Proof.
  revert st. induction l as [|x l IH]; intros st Hext; simpl; [reflexivity|].
  unfold mbind, M_bind. rewrite (Hext x st) by left.
  destruct (g x st) as [[[] s]|]; [|reflexivity].
  apply IH. intros y s' Hy. apply Hext. by right.
Qed.

Lemma bind_ext_run {A B : Type} (m m' : M A) (k k' : A → M B) (st : State) :
  m st = m' st →
  (∀ a s, m' st = Some (a, s) → k a s = k' a s) →
  (m ≫= k) st = (m' ≫= k') st.
Proof.
  intros Hm Hk. unfold mbind, M_bind. rewrite Hm.
  destruct (m' st) as [[a s]|]; [by apply Hk | reflexivity].
Qed.

Lemma updateSCMEntryWithValues_ext p vals vals' v rm dbg st :
  (∀ w elt, typeOf (insts st) v = Some (VectorTy elt w) →
            ∀ i, i < Pos.to_nat w → vals !! i = vals' !! i) →
  updateSCMEntryWithValues p vals v rm dbg st
  = updateSCMEntryWithValues p vals' v rm dbg st.
Proof.
  intros Hext. unfold updateSCMEntryWithValues.
  apply bind_ext_run; [reflexivity|]. intros t s Ht.
  apply getType_inv in Ht. destruct Ht as [Ht ->].
  apply bind_ext_run; [reflexivity|]. intros [elt n] s Hw.
  apply fromOption_inv in Hw. destruct Hw as [Hw ->].
  destruct t; try discriminate Hw. simpl in Hw. injection Hw as -> <-.
  specialize (Hext _ _ Ht).
  apply bind_ext_run; [reflexivity|]. intros e s _.
  apply bind_ext_run.
  { apply fillLanes_ext. intros i Hi. apply elem_of_seq in Hi. apply Hext. lia. }
  intros lanes s1 _.
  apply bind_ext_run; [reflexivity|]. intros [] s2 _.
  destruct dbg; [|reflexivity]. destruct v; try reflexivity.
  apply forM_ext. intros i s' Hi. apply elem_of_seq in Hi.
  unfold getLane. rewrite Hext by lia. reflexivity.
Qed.

Lemma storeLanes_fresh (ls : list Value) (st : State) :
  storeLanes (resize (length ls) []) 0 ls st = Some (Some <$> ls, st).
Proof.
  destruct (storeLanes_run ls (resize (length ls) []) 0 st) as (r' & Hr').
  { rewrite length_resize. lia. }
  rewrite Hr'. f_equal. f_equal.
  apply storeLanes_inv in Hr'. destruct Hr' as (_ & Hlen & _ & Hlook).
  rewrite length_resize in Hlen.
  apply list_eq. intros i. rewrite Hlook. rewrite list_lookup_fmap.
  case_decide.
  - by rewrite Nat.sub_0_r.
  - rewrite (lookup_ge_None_2 ls) by lia. simpl.
    apply lookup_ge_None_2. rewrite length_resize. lia.
Qed.

Lemma lookup_drop_stored (ls : list Value) (r r' : list (option Value)) (d : nat) :
  (∀ i, r' !! i = if decide (d ≤ i < d + length ls)
                  then Some <$> ls !! (i - d) else r !! i) →
  ∀ i, i < length ls → drop d r' !! i = (Some <$> ls) !! i.
Proof.
  intros Hlook i Hi. rewrite lookup_drop, Hlook, list_lookup_fmap.
  rewrite decide_True by lia. by replace (d + i - d) with i by lia.
Qed.

Lemma storeLanes_stateless (ls : list Value) (r r' : list (option Value)) (d : nat)
    (st st' s : State) :
  storeLanes r d ls st = Some (r', st') → storeLanes r d ls s = Some (r', s).
Proof.
  revert r d. induction ls as [|v ls IH]; intros r d H; simpl in *.
  - apply ret_inv in H. by destruct H as [-> _].
  - apply bind_Some in H. destruct H as (r1 & s1 & Hr1 & H). run_inv Hr1.
    apply bind_Some. exists (<[d := Some v]> r), s. split; [|by apply IH].
    unfold storeAt. apply bind_Some. exists tt, s. split; [|reflexivity].
    by apply require_Some.
Qed.

(** New instructions leave the instructions of a fresh store alone. *)
Lemma createBefore_frame (i : Instruction) (loc : option positive) (id : positive)
    (st st' : State) :
  storeFresh st → createBefore i loc st = Some (id, st') →
  storeFresh st' ∧ ∀ k i0, insts st !! k = Some i0 → insts st' !! k = Some i0.
Proof.
  intros Hfresh H. apply createBefore_inv in H. destruct H as (-> & Hi & Hn & _).
  split.
  - intros k i0 Hk. rewrite Hn. rewrite Hi in Hk. apply lookup_insert_Some in Hk.
    destruct Hk as [[<- _]|[_ Hk]]; [lia|]. apply Hfresh in Hk. lia.
  - intros k i0 Hk. rewrite Hi. rewrite lookup_insert_ne; [exact Hk|].
    intros <-. apply Hfresh in Hk. lia.
Qed.

Lemma createLoop_frame {A : Type} (idx : list A) (mk : A → Instruction)
    (loc : option positive) (ids : list positive) (st st' : State) :
  storeFresh st →
  mapM' idx (λ x, createBefore (mk x) loc) st = Some (ids, st') →
  storeFresh st' ∧ ∀ k i0, insts st !! k = Some i0 → insts st' !! k = Some i0.
Proof.
  revert ids st. induction idx as [|x idx IH]; intros ids st Hfresh H; simpl in H.
  - apply ret_inv in H. destruct H as [_ ->]. auto.
  - apply bind_Some in H. destruct H as (y & s1 & Hy & H).
    apply bind_Some in H. destruct H as (ys & s2 & Hys & H).
    apply ret_inv in H. destruct H as [_ ->].
    destruct (createBefore_frame _ _ _ _ _ Hfresh Hy) as [Hfresh1 Hkeep1].
    destruct (IH _ _ Hfresh1 Hys) as [Hfresh2 Hkeep2]. auto.
Qed.

(** [obtainScalarizedValues] computes the lanes that [resolveLanes] describes
    and writes them into its array at the destination index. *)
Lemma obtainScalarizedValues_resolveLanes (r : list (option Value)) (v : Value)
    (destIdx : option nat) (r' : list (option Value)) (c : bool) (st st' : State) :
  (is_Some destIdx → storeFresh st) →
  obtainScalarizedValues r v destIdx st = Some ((r', c), st') →
  ∃ ls elt w,
    typeOf (insts st) v = Some (VectorTy elt w) ∧
    resolveLanes v st = Some (ls, st') ∧
    length ls = Pos.to_nat w ∧ c = isConstant v ∧
    ∀ s, storeLanes (match destIdx with
                     | None => resize (Pos.to_nat w) r
                     | Some _ => r
                     end)
                    (default 0 destIdx) ls s = Some (r', s).
Proof.
  intros Hfresh H. unfold obtainScalarizedValues in H.
  apply bind_Some in H. destruct H as (t & z1 & Ht & H). run_inv Ht.
  apply bind_Some in H. destruct H as ([elt n] & z1 & Hw & H). run_inv Hw.
  destruct t as [| | | |elt' num|]; try discriminate Hopt.
  simpl in Hopt. injection Hopt as -> <-.
  set (r0 := match destIdx with
             | None => resize (Pos.to_nat num) r
             | Some _ => r
             end).
  set (d0 := default 0 destIdx).
  assert (Hdr : match destIdx with
                | Some d => (d, r)
                | None => (0, resize (Pos.to_nat num) r)
                end = (d0, r0)) by (subst d0 r0; by destruct destIdx).
  rewrite Hdr in H. clear Hdr.
  apply bind_Some in H. destruct H as (currEntry & z1 & Hcur & H). run_inv Hcur.
  apply bind_Some in H. destruct H as (found & s1 & Hfound & H).
  cut (∃ ls, lanesBy v elt (Pos.to_nat num) (m_SCM st !! v) found s1 = Some (ls, st') ∧
             length ls = Pos.to_nat num ∧ c = isConstant v ∧
             ∀ s, storeLanes r0 d0 ls s = Some (r', s)).
  { intros (ls & Hls & Hlen & Hc & Hstore). exists ls, elt, num.
    split; [exact Ht|]. split; [|auto].
    unfold resolveLanes.
    apply bind_Some. exists (VectorTy elt num), st. split; [by apply getType_typeOf|].
    apply bind_Some. exists (elt, Pos.to_nat num), st. split; [reflexivity|].
    apply bind_Some. exists (m_SCM st !! v), st. split; [reflexivity|].
    apply bind_Some. exists found, s1. split; [exact Hfound | exact Hls]. }
  unfold lanesBy. destruct found as [e|].
  { (* (a) *)
    apply bind_Some in H. destruct H as (ls & s2 & Hls & H).
    apply bind_Some in H. destruct H as (r2 & s3 & Hst & H).
    apply ret_inv in H. destruct H as [Hres ->]. injection Hres as -> ->.
    pose proof (mapM'_length _ _ _ _ _ Hls) as Hlen. rewrite length_seq in Hlen.
    pose proof (proj1 (storeLanes_inv _ _ _ _ _ _ Hst)) as ->.
    exists ls. split; [exact Hls|]. split; [exact Hlen|]. split; [reflexivity|].
    intros s. exact (storeLanes_stateless _ _ _ _ _ _ s Hst). }
  destruct (isUndefValue v) eqn:Hundef.
  { (* (b) *)
    apply bind_Some in H. destruct H as (r2 & s3 & Hst & H).
    apply ret_inv in H. destruct H as [Hres ->]. injection Hres as -> ->.
    pose proof (proj1 (storeLanes_inv _ _ _ _ _ _ Hst)) as ->.
    eexists. split; [reflexivity|]. split; [apply length_replicate|].
    split; [reflexivity|].
    intros s. exact (storeLanes_stateless _ _ _ _ _ _ s Hst). }
  assert (Hbreak :
            (breakdownLocation v ≫= λ locationInst,
             mapM' (seq 0 (Pos.to_nat num)) (λ i,
               createBefore (plainInst ExtractElement elt [v; constIndex i])
                            locationInst) ≫= λ extracts,
             storeLanes r0 d0 (VInst <$> extracts) ≫= λ r1,
             getSCMEntry v ≫= λ newEntry,
             updateSCMEntryWithValues newEntry (drop d0 r1) v false true ;;
             mret (r1, isConstant v)) s1 = Some (r', c, st') →
            s1 = st →
            ∃ ls,
              (breakdownLocation v ≫= λ locationInst,
               mapM' (seq 0 (Pos.to_nat num)) (λ i,
                 createBefore (plainInst ExtractElement elt [v; constIndex i])
                              locationInst) ≫= λ extracts,
               getSCMEntry v ≫= λ newEntry,
               updateSCMEntryWithValues newEntry (Some <$> (VInst <$> extracts))
                                        v false true ;;
               mret (VInst <$> extracts)) s1 = Some (ls, st') ∧
              length ls = Pos.to_nat num ∧ c = isConstant v ∧
              ∀ s, storeLanes r0 d0 ls s = Some (r', s)).
  { intros He ->. clear H.
    apply bind_Some in He. destruct He as (loc & s2 & Hloc & H).
    apply bind_Some in H. destruct H as (extracts & s3 & Hex & H).
    apply bind_Some in H. destruct H as (r2 & s4 & Hst & H).
    apply bind_Some in H. destruct H as (newEntry & s5 & Hnew & H).
    apply bind_Some in H. destruct H as ([] & s6 & Hupd & H).
    apply ret_inv in H. destruct H as [Hres ->]. injection Hres as -> ->.
    pose proof (mapM'_length _ _ _ _ _ Hex) as Hlen. rewrite length_seq in Hlen.
    pose proof (storeLanes_inv _ _ _ _ _ _ Hst) as (-> & Hlen2 & Hle & Hlook).
    exists (VInst <$> extracts).
    split; [|split; [by rewrite length_fmap|split; [reflexivity|]]].
    2:{ intros s. exact (storeLanes_stateless _ _ _ _ _ _ s Hst). }
    apply bind_Some. exists loc, s2. split; [exact Hloc|].
    apply bind_Some. exists extracts, s3. split; [exact Hex|].
    apply bind_Some. exists newEntry, s5. split; [exact Hnew|].
    apply bind_Some. exists tt, s6. split; [|reflexivity].
    rewrite <- Hupd. symmetry. apply updateSCMEntryWithValues_ext.
    intros w elt0 Hty i Hi.
    destruct destIdx as [d|].
    - (* written in the middle of an array: the width is that of the type *)
      apply (lookup_drop_stored _ _ _ _ Hlook). rewrite length_fmap, Hlen.
      assert (Hty0 : typeOf (insts s5) v = typeOf (insts st) v).
      { destruct v as [vi| |]; try reflexivity. simpl.
        simpl in Ht. destruct (insts st !! vi) as [i0|] eqn:Hvi; [|discriminate].
        assert (Hs2 : insts s2 = insts st ∧ nextId s2 = nextId st).
        { revert Hloc. unfold breakdownLocation. intros Hloc.
          split.
          - revert Hloc. apply (ltac:(keeps_tac) : keeps insts
              (gets func ≫= λ f,
               fromOption (inst_begin f) ≫= λ locationInst,
               fromOption (getParent vi f) ≫= λ bb,
               fromOption (nextIn vi (bb_insts bb)) ≫= λ locationInst0,
               gets insts ≫= λ m,
               if isPHI m locationInst0 then mret (getFirstNonPHI m bb)
               else mret (Some locationInst0))).
          - revert Hloc. apply (ltac:(keeps_tac) : keeps nextId
              (gets func ≫= λ f,
               fromOption (inst_begin f) ≫= λ locationInst,
               fromOption (getParent vi f) ≫= λ bb,
               fromOption (nextIn vi (bb_insts bb)) ≫= λ locationInst0,
               gets insts ≫= λ m,
               if isPHI m locationInst0 then mret (getFirstNonPHI m bb)
               else mret (Some locationInst0))). }
        destruct Hs2 as [Hi2 Hn2].
        assert (Hfresh2 : storeFresh s2).
        { intros k i1 Hk. rewrite Hn2. rewrite Hi2 in Hk.
          exact (Hfresh ltac:(eauto) k i1 Hk). }
        destruct (createLoop_frame _ _ _ _ _ _ Hfresh2 Hex) as [_ Hkeep].
        rewrite (keeps_getSCMEntry_insts _ _ _ _ Hnew).
        rewrite (Hkeep vi i0) by (by rewrite Hi2). reflexivity. }
      rewrite Hty0, Ht in Hty. injection Hty as _ <-. exact Hi.
    - (* written over the whole array *)
      simpl in *. replace (drop 0 r2) with r2 by reflexivity.
      f_equal. apply list_eq. intros j. rewrite Hlook.
      subst r0 d0. simpl in *. rewrite length_resize in Hlen2.
      rewrite length_fmap in *.
      case_decide; [rewrite Nat.sub_0_r; symmetry; apply list_lookup_fmap|].
      rewrite (lookup_ge_None_2 (Some <$> (VInst <$> extracts)))
        by (rewrite !length_fmap; lia).
      apply lookup_ge_None_2. rewrite length_resize. lia. }
  destruct v as [vi|ta na|vc].
  - destruct (m_SCM st !! VInst vi) as [q|] eqn:Hq.
    + (* (e), an instruction with an empty entry *)
      apply Hbreak; [exact H |].
      revert Hfound. apply (keeps_filledEntry id).
    + (* (d) *)
      apply ret_inv in Hfound. destruct Hfound as [_ ->].
      apply bind_Some in H. destruct H as (dummies & s2 & Hd & H).
      apply bind_Some in H. destruct H as (r2 & s3 & Hst & H).
      apply bind_Some in H. destruct H as ([] & s4 & Hdrl & H).
      apply ret_inv in H. destruct H as [Hres ->]. injection Hres as -> ->.
      pose proof (mapM'_length _ _ _ _ _ Hd) as Hlen. rewrite length_seq in Hlen.
      pose proof (proj1 (storeLanes_inv _ _ _ _ _ _ Hst)) as ->.
      exists (VInst <$> dummies).
      split; [|split; [by rewrite length_fmap|split; [reflexivity|]]].
      2:{ intros s. exact (storeLanes_stateless _ _ _ _ _ _ s Hst). }
      apply bind_Some. exists dummies, s2. split; [exact Hd|].
      apply bind_Some. exists tt, s4. split; [exact Hdrl | reflexivity].
  - (* (e), an argument *)
    apply Hbreak; [exact H |].
    revert Hfound. apply (keeps_filledEntry id).
  - (* (c) *)
    apply bind_Some in H. destruct H as (r2 & s3 & Hst & H).
    apply ret_inv in H. destruct H as [Hres ->]. injection Hres as -> ->.
    pose proof (proj1 (storeLanes_inv _ _ _ _ _ _ Hst)) as ->.
    eexists. split; [reflexivity|].
    split; [by rewrite length_fmap, length_seq|]. split; [reflexivity|].
    intros s. exact (storeLanes_stateless _ _ _ _ _ _ s Hst).
Qed.

(** ** Growth of the store *)

Lemma grows_refl (st : State) : grows st st.
Proof. intros H. auto. Qed.

Lemma grows_trans (a b c : State) : grows a b → grows b c → grows a c.
Proof.
  intros H1 H2 Ha. destruct (H1 Ha) as [Hb H1']. destruct (H2 Hb) as [Hc H2'].
  split; [exact Hc|]. by transitivity (stripped b).
Qed.

(** In a store that has grown the typed values have kept their types. *)
Lemma grows_typeOf (st st' : State) :
  grows st st' → storeFresh st →
  storeFresh st' ∧ ∀ v t, typeOf (insts st) v = Some t → typeOf (insts st') v = Some t.
Proof.
  intros Hg Hfresh. destruct (Hg Hfresh) as [Hfresh' Hsub]. split; [exact Hfresh'|].
  intros v t Ht. destruct v as [k| |]; simpl in *; try exact Ht.
  destruct (insts st !! k) as [i|] eqn:Hk; [|discriminate]. injection Ht as <-.
  assert (Hs : stripped st !! k = Some (setDebugLoc None i))
    by (unfold stripped; by rewrite lookup_fmap, Hk).
  apply (lookup_weaken _ _ _ _ Hs) in Hsub.
  unfold stripped in Hsub. rewrite lookup_fmap in Hsub.
  destruct (insts st' !! k) as [i'|]; [|discriminate]. simpl in *.
  injection Hsub as _ Hty. by rewrite Hty.
Qed.

Lemma grows_stripped (st st' : State) :
  stripped st' = stripped st → nextId st' = nextId st → grows st st'.
Proof.
  intros Hs Hn Hfresh. split.
  - intros id i Hi. rewrite Hn.
    pose proof (stripped_lookup st st' id Hs) as Hl. rewrite Hi in Hl.
    destruct (insts st !! id) as [i0|] eqn:Hi0; [|contradiction].
    exact (Hfresh id i0 Hi0).
  - by rewrite Hs.
Qed.

Lemma grows_insts (st st' : State) :
  insts st' = insts st → nextId st' = nextId st → grows st st'.
Proof. intros Hi Hn. apply grows_stripped; [|exact Hn]. unfold stripped. by rewrite Hi. Qed.

Lemma grows_newInst (i : Instruction) (id : positive) (st st' : State) :
  newInst i st = Some (id, st') → grows st st'.
Proof.
  intros H Hfresh. unfold newInst in H. run_inv H. simpl. split.
  - intros k i0 Hk. unfold storeFresh in Hfresh. simpl in *.
    apply lookup_insert_Some in Hk.
    destruct Hk as [[<- _]|[_ Hk]]; [lia|]. apply Hfresh in Hk. lia.
  - unfold stripped. simpl. rewrite fmap_insert. apply insert_subseteq.
    rewrite lookup_fmap.
    destruct (insts st !! nextId st) as [i0|] eqn:Hk; [|reflexivity].
    apply Hfresh in Hk. lia.
Qed.

Lemma grows_createBefore (i : Instruction) (loc : option positive) (id : positive)
    (st st' : State) :
  createBefore i loc st = Some (id, st') → grows st st'.
Proof.
  intros H Hfresh. destruct (createBefore_frame _ _ _ _ _ Hfresh H) as [Hf _].
  split; [exact Hf|].
  apply createBefore_inv in H. destruct H as (_ & Hi & _).
  unfold stripped. rewrite Hi, fmap_insert. apply insert_subseteq.
  rewrite lookup_fmap.
  destruct (insts st !! nextId st) as [i0|] eqn:Hk; [|reflexivity].
  apply Hfresh in Hk. lia.
Qed.

Lemma grows_mapM' {A B : Type} (idx : list A) (body : A → M B) (l : list B)
    (st st' : State) :
  (∀ x y s s', body x s = Some (y, s') → grows s s') →
  mapM' idx body st = Some (l, st') → grows st st'.
Proof.
  intros Hbody. revert l st. induction idx as [|x idx IH]; intros l st H; simpl in H.
  - apply ret_inv in H. destruct H as [_ ->]. apply grows_refl.
  - apply bind_Some in H. destruct H as (y & s1 & Hy & H).
    apply bind_Some in H. destruct H as (ys & s2 & Hys & H).
    apply ret_inv in H. destruct H as [_ ->].
    exact (grows_trans _ _ _ (Hbody _ _ _ _ Hy) (IH _ _ Hys)).
Qed.

Lemma keeps_breakdownLocation {B : Type} (f : State → B) v : keeps f (breakdownLocation v).
Proof. unfold breakdownLocation. destruct v; keeps_tac. Qed.

(** Resolving the lanes of a value leaves the typed values as they are. *)
Lemma grows_resolveLanes (v : Value) (ls : list Value) (st st' : State) :
  resolveLanes v st = Some (ls, st') → grows st st'.
Proof.
  intros H. unfold resolveLanes in H.
  apply bind_Some in H. destruct H as (t & z1 & Ht & H). run_inv Ht.
  apply bind_Some in H. destruct H as ([elt n] & z1 & Hw & H). run_inv Hw.
  apply bind_Some in H. destruct H as (cur & z1 & Hc & H). run_inv Hc.
  apply bind_Some in H. destruct H as (found & s1 & Hfound & H).
  pose proof (keeps_filledEntry id _ _ _ _ Hfound) as Hs1. simpl in Hs1. subst s1.
  unfold lanesBy in H. destruct found as [e|].
  { pose proof (keeps_mapM'_getLane id _ _ _ _ _ H) as E. simpl in E. subst st'.
    apply grows_refl. }
  destruct (isUndefValue v).
  { apply ret_inv in H. destruct H as [_ ->]. apply grows_refl. }
  assert (Hbreak :
    (breakdownLocation v ≫= λ locationInst,
     mapM' (seq 0 n) (λ i,
       createBefore (plainInst ExtractElement elt [v; constIndex i])
                    locationInst) ≫= λ extracts,
     getSCMEntry v ≫= λ newEntry,
     updateSCMEntryWithValues newEntry (Some <$> (VInst <$> extracts))
                              v false true ;;
     mret (VInst <$> extracts)) st = Some (ls, st') → grows st st').
  { clear H. intros H.
    apply bind_Some in H. destruct H as (loc & s2 & Hloc & H).
    apply bind_Some in H. destruct H as (extracts & s3 & Hex & H).
    apply bind_Some in H. destruct H as (newEntry & s5 & Hnew & H).
    apply bind_Some in H. destruct H as ([] & s6 & Hupd & H).
    apply ret_inv in H. destruct H as [_ ->].
    pose proof (keeps_breakdownLocation id _ _ _ _ Hloc) as E. simpl in E. subst s2.
    eapply grows_trans.
    { eapply grows_mapM'; [|exact Hex]. intros x y s s'. apply grows_createBefore. }
    eapply grows_trans.
    { apply grows_insts.
      - exact (keeps_getSCMEntry_insts _ _ _ _ Hnew).
      - exact (f_equal (λ x, x.1.1.1.1) (keeps_getSCMEntry_outside _ _ _ _ Hnew)). }
    apply grows_stripped.
    - exact (keeps_updateSCMEntryWithValues_stripped _ _ _ _ _ _ _ _ Hupd).
    - exact (f_equal (λ x, x.1.1.1.1)
               (keeps_updateSCMEntryWithValues_outside _ _ _ _ _ _ _ _ Hupd)). }
  destruct v as [vi|ta na|vc].
  - destruct (m_SCM st !! VInst vi) as [q|]; [exact (Hbreak H)|].
    apply bind_Some in H. destruct H as (dummies & s2 & Hd & H).
    apply bind_Some in H. destruct H as ([] & s4 & Hdrl & H).
    apply ret_inv in H. destruct H as [_ ->].
    apply modify_inv in Hdrl. subst s4.
    eapply grows_trans.
    { eapply grows_mapM'; [|exact Hd]. intros x y s s'. apply grows_newInst. }
    apply grows_insts; reflexivity.
  - exact (Hbreak H).
  - apply ret_inv in H. destruct H as [_ ->]. apply grows_refl.
Qed.

(** ** The shuffle *)

Lemma mapM'_pure {A B : Type} (P : A → B → Prop) (idx : list A) (body : A → M B)
    (l : list B) (st st' : State) :
  (∀ a b s s', body a s = Some (b, s') → s' = s ∧ P a b) →
  mapM' idx body st = Some (l, st') → st' = st ∧ Forall2 P idx l.
Proof.
  intros Hbody. revert l st. induction idx as [|x idx IH]; intros l st H; simpl in H.
  - apply ret_inv in H. destruct H as [-> ->]. split; [reflexivity | constructor].
  - apply bind_Some in H. destruct H as (y & s1 & Hy & H).
    apply bind_Some in H. destruct H as (ys & s2 & Hys & H).
    apply ret_inv in H. destruct H as [-> ->].
    apply Hbody in Hy. destruct Hy as [-> Hy].
    apply IH in Hys. destruct Hys as [-> Hys].
    split; [reflexivity | by constructor].
Qed.

Lemma shuffleLane_selected (allValues : list (option Value)) (undef : Value) (m : Z)
    (x : Value) (st st' : State) :
  shuffleLane allValues undef m st = Some (x, st') →
  st' = st ∧ x = selected allValues undef m.
Proof.
  unfold shuffleLane, selected. intros H. case_bool_decide.
  - rewrite bool_decide_eq_false_2 by lia.
    apply bind_Some in H. destruct H as (v & s1 & Hv & H).
    apply fromOption_inv in Hv. destruct Hv as [-> ->].
    destruct v; apply ret_inv in H; destruct H as [-> ->]; auto.
  - rewrite bool_decide_eq_true_2 by lia.
    apply ret_inv in H. destruct H as [-> ->]. auto.
Qed.

(** One input of a shuffle: its lanes are written at [d], or nothing is
    written for an undefined vector. *)
Lemma shuffleInput_spec (r r' : list (option Value)) (v : Value) (d : nat)
    (elt : Ty) (w : positive) (st st' : State) :
  storeFresh st → typeOf (insts st) v = Some (VectorTy elt w) →
  (if isUndefValue v then mret r
   else obtainScalarizedValues r v (Some d) ≫= λ '(r, _), mret r) st = Some (r', st') →
  ∃ ins, inputLanes v (Pos.to_nat w) st = Some (ins, st') ∧
         length ins = Pos.to_nat w ∧ grows st st' ∧ length r' = length r ∧
         (∀ i, d ≤ i < d + Pos.to_nat w → r !! i = Some None → r' !! i = ins !! (i - d)) ∧
         (∀ i, ¬ d ≤ i < d + Pos.to_nat w → r' !! i = r !! i).
Proof.
  intros Hfresh Hty H. unfold inputLanes. destruct (isUndefValue v).
  - apply ret_inv in H. destruct H as [-> ->].
    exists (replicate (Pos.to_nat w) None).
    split; [reflexivity|]. split; [apply length_replicate|].
    split; [apply grows_refl|]. split; [reflexivity|]. split; [|reflexivity].
    intros i Hi Hr. rewrite Hr. symmetry. apply lookup_replicate_2. lia.
  - apply bind_Some in H. destruct H as ([r1 c] & s1 & Ho & H).
    apply ret_inv in H. destruct H as [-> ->].
    apply obtainScalarizedValues_resolveLanes in Ho; [|auto].
    destruct Ho as (ls & elt' & w' & Hty' & Hres & Hlen & _ & Hstore).
    rewrite Hty in Hty'. injection Hty' as <- <-.
    simpl in Hstore. specialize (Hstore st).
    apply storeLanes_inv in Hstore. destruct Hstore as (_ & Hlen' & _ & Hlook).
    exists (Some <$> ls).
    split; [|split; [by rewrite length_fmap|split; [exact (grows_resolveLanes _ _ _ _ Hres)|]]].
    { apply bind_Some. exists ls, s1. split; [exact Hres | reflexivity]. }
    split; [exact Hlen'|]. split.
    + intros i Hi _. rewrite Hlook, decide_True by lia. symmetry. apply list_lookup_fmap.
    + intros i Hi. rewrite Hlook, decide_False by lia. reflexivity.
Qed.

Lemma lookup_resize_nil {A : Type} (n i : nat) :
  i < n → resize (A := A) n [] !! i = Some None.
Proof.
  intros Hi. unfold resize. rewrite take_nil, Nat.sub_0_r. simpl.
  by apply lookup_replicate_2.
Qed.

(** C5: the decomposition of a shufflevector.  The lanes of the two inputs
    are resolved, the first input first; an input that is an undefined vector
    brings null entries.  Lane [i] of the entry that the SCM holds for the
    shuffle afterwards is the entry of the concatenation that [mask[i]]
    selects, or the undefined scalar when [mask[i]] is negative or selects a
    null entry.  The shuffle is marked as removed, in its entry and in the
    set of the instructions to erase. *)
Theorem shufflevector_rule (SI : positive) (I : Instruction) (v0 v1 : Value)
    (st st' : State) :
  storeFresh st →
  insts st !! SI = Some I →
  operands I !! 0 = Some v0 → operands I !! 1 = Some v1 →
  scalarizeInstruction_ShuffleVectorInst SI st = Some (tt, st') →
  ∃ elt w eltR width lanes0 lanes1 s1 s2 p e,
    typeOf (insts st) v0 = Some (VectorTy elt w) ∧
    type I = VectorTy eltR width ∧
    inputLanes v0 (Pos.to_nat w) st = Some (lanes0, s1) ∧
    inputLanes v1 (Pos.to_nat w) s1 = Some (lanes1, s2) ∧
    stripped st' = stripped s2 ∧ func st' = func s2 ∧
    m_SCM st' !! VInst SI = Some p ∧ lookupEntry st' p = Some e ∧
    isOriginalVectorRemoved e = true ∧
    SI ∈ m_removedInsts st' ∧
    length (scalarValues e) = Pos.to_nat width ∧
    ∀ i, i < Pos.to_nat width →
      ∃ m, mask I !! i = Some m ∧
           scalarValues e !! i
           = Some (Some (selected (lanes0 ++ lanes1) (VConst (UndefValue elt)) m)).
Proof.
  intros Hfresh HI Hv0 Hv1 H. unfold scalarizeInstruction_ShuffleVectorInst in H.
  apply bind_Some in H. destruct H as (I' & z & HI' & H).
  apply getInst_inv in HI'. destruct HI' as [HI' ->].
  rewrite HI in HI'. injection HI' as <-.
  apply bind_Some in H. destruct H as (v0' & z & Ho & H).
  apply fromOption_inv in Ho. destruct Ho as [Ho ->].
  rewrite Hv0 in Ho. injection Ho as <-.
  apply bind_Some in H. destruct H as (v1' & z & Ho & H).
  apply fromOption_inv in Ho. destruct Ho as [Ho ->].
  rewrite Hv1 in Ho. injection Ho as <-.
  apply bind_Some in H. destruct H as (t0 & z & Ht0 & H).
  apply getType_inv in Ht0. destruct Ht0 as [Ht0 ->].
  apply bind_Some in H. destruct H as (t1 & z & Ht1 & H).
  apply getType_inv in Ht1. destruct Ht1 as [Ht1 ->].
  apply bind_Some in H. destruct H as ([elt n] & z & Hw & H).
  apply fromOption_inv in Hw. destruct Hw as [Hw ->].
  destruct t0 as [| | | |elt' w|]; try discriminate Hw.
  simpl in Hw. injection Hw as -> <-.
  apply bind_Some in H. destruct H as ([] & z & Heq & H).
  apply require_inv in Heq. destruct Heq as [Heq ->].
  apply bool_decide_eq_true in Heq. subst t1.
  apply bind_Some in H. destruct H as (all1 & s1 & Hin0 & H).
  apply bind_Some in H. destruct H as (all2 & s2 & Hin1 & H).
  apply bind_Some in H. destruct H as ([eltR' widthN] & z & Hw & H).
  apply fromOption_inv in Hw. destruct Hw as [Hw ->].
  destruct (type I) as [| | | |eltR width|] eqn:HtI; try discriminate Hw.
  simpl in Hw. injection Hw as <- <-.
  apply bind_Some in H. destruct H as (newVector & z & Hnew & H).
  apply (mapM'_pure (λ i x, ∃ m, mask I !! i = Some m ∧
           x = Some (selected all2 (VConst (UndefValue elt)) m))) in Hnew.
  2:{ intros a b s s' Hb.
      apply bind_Some in Hb. destruct Hb as (m & z1 & Hm & Hb).
      apply fromOption_inv in Hm. destruct Hm as [Hm ->].
      apply bind_Some in Hb. destruct Hb as (x & z1 & Hx & Hb).
      apply shuffleLane_selected in Hx. destruct Hx as [-> ->].
      apply ret_inv in Hb. destruct Hb as [-> ->]. eauto. }
  destruct Hnew as [-> Hnew].
  apply bind_Some in H. destruct H as (p & s3 & Hentry & H).
  apply bind_Some in H. destruct H as ([] & s4 & Hupd & H).
  apply modify_inv in H. subst st'.
  (* the inputs *)
  destruct (shuffleInput_spec _ _ _ _ _ _ _ _ Hfresh Ht0 Hin0)
    as (lanes0 & Hl0 & Hlen0 & Hg0 & Hlen1 & Hin0' & Hout0).
  destruct (grows_typeOf _ _ Hg0 Hfresh) as [Hfresh1 Hty1].
  destruct (shuffleInput_spec _ _ _ _ _ _ _ _ Hfresh1 (Hty1 _ _ Ht1) Hin1)
    as (lanes1 & Hl1 & Hlen1' & Hg1 & Hlen2 & Hin1' & Hout1).
  destruct (grows_typeOf _ _ Hg1 Hfresh1) as [Hfresh2 Hty2].
  rewrite length_resize in Hlen1.
  assert (Hall : all2 = lanes0 ++ lanes1).
  { apply list_eq. intros i.
    destruct (decide (i < Pos.to_nat w)) as [Hi|Hi].
    - rewrite lookup_app_l by lia. rewrite Hout1 by lia.
      rewrite Hin0' by (try apply lookup_resize_nil; lia). by rewrite Nat.sub_0_r.
    - rewrite lookup_app_r by lia. rewrite Hlen0.
      destruct (decide (i < 2 * Pos.to_nat w)) as [Hi2|Hi2].
      + rewrite Hin1'; [reflexivity | lia |].
        rewrite Hout0 by lia. apply lookup_resize_nil. lia.
      + rewrite lookup_ge_None_2 by lia. symmetry. apply lookup_ge_None_2. lia. }
  subst all2.
  (* the entry *)
  assert (HtSI : typeOf (insts s3) (VInst SI) = Some (VectorTy eltR width)).
  { rewrite (keeps_getSCMEntry_insts _ _ _ _ Hentry).
    apply Hty2, Hty1. simpl. by rewrite HI, <- HtI. }
  assert (Hp : m_SCM s3 !! VInst SI = Some p).
  { apply getSCMEntry_spec in Hentry.
    destruct Hentry as [[Hp ->]|(_ & a1 & l1 & o1 & arr & e & _ & _ & _ & _ & Hm & _)];
      [exact Hp|].
    rewrite Hm. apply lookup_insert_eq. }
  pose proof (keeps_updateSCMEntryWithValues_shape _ _ _ _ _ _ _ _ Hupd) as Hshape.
  pose proof (keeps_updateSCMEntryWithValues_stripped _ _ _ _ _ _ _ _ Hupd) as Hstr.
  pose proof (keeps_updateSCMEntryWithValues_outside _ _ _ _ _ _ _ _ Hupd) as Hout4.
  pose proof (keeps_getSCMEntry_outside _ _ _ _ Hentry) as Hout3.
  pose proof (keeps_getSCMEntry_insts _ _ _ _ Hentry) as Hi3.
  apply updateSCMEntryWithValues_entry in Hupd.
  destruct Hupd as (elt2 & w2 & arr & lanes & Hty & Harr & Hlt & Hlen & _ & Hlanes & Harrs).
  rewrite HtSI in Hty. injection Hty as <- <-.
  exists elt, w, eltR, width, lanes0, lanes1, s1, s2, p, (mkSCMEntry lanes true).
  split; [exact Ht0|]. split; [reflexivity|]. split; [exact Hl0|]. split; [exact Hl1|].
  split.
  { change (stripped s4 = stripped s2). rewrite Hstr. unfold stripped. by rewrite Hi3. }
  split.
  { change (func s4 = func s2).
    transitivity (func s3).
    - exact (f_equal (λ x, x.1.1.1.2) Hout4).
    - exact (f_equal (λ x, x.1.1.1.2) Hout3). }
  split.
  { simpl. injection Hshape as -> _ _ _. exact Hp. }
  split.
  { unfold lookupEntry. simpl. rewrite Harrs.
    rewrite list_lookup_insert_eq by (by apply lookup_lt_Some in Harr). simpl.
    by apply list_lookup_insert_eq. }
  split; [reflexivity|]. split; [simpl; apply elem_of_union; left; by apply elem_of_singleton|]. split; [exact Hlen|].
  intros i Hi. simpl. rewrite (Hlanes i Hi).
  destruct (Forall2_lookup_l _ _ _ i i Hnew) as (x & Hx & m & Hm & ->).
  { apply lookup_seq. lia. }
  exists m. split; [exact Hm|]. by rewrite Hx.
Qed.

Lemma shufflevector_rule_witness :
  ∃ st' p e,
    scalarizeInstruction_ShuffleVectorInst 2 sample_shuffle_traversed = Some (tt, st') ∧
    m_SCM st' !! VInst 2 = Some p ∧ lookupEntry st' p = Some e ∧
    isOriginalVectorRemoved e = true ∧ 2%positive ∈ m_removedInsts st' ∧
    length (scalarValues e) = 4 ∧
    scalarValues e !! 2 = Some (Some (VConst (UndefValue i32))).
Proof.
  assert (Hc : holdsAfter (scalarizeInstruction_ShuffleVectorInst 2 sample_shuffle_traversed)
                 (λ _ _, true) = true) by (vm_compute; reflexivity).
  apply holdsAfter_Some in Hc. destruct Hc as ([] & st' & E & _).
  assert (HI : insts sample_shuffle_traversed !! 2%positive
               = Some (mkInst ShuffleVector v4i32 [VInst 1; VConst (UndefValue v2i32)]
                         0%N noFlags [] [0; 1; -1; -1]%Z None None))
    by (vm_compute; reflexivity).
  assert (Hf : storeFresh sample_shuffle_traversed)
    by (apply storeFresh_decide; vm_compute; reflexivity).
  destruct (shufflevector_rule 2 _ (VInst 1) (VConst (UndefValue v2i32))
              sample_shuffle_traversed st' Hf HI eq_refl eq_refl E)
    as (elt & w & eltR & width & lanes0 & lanes1 & s1 & s2 & p & e
        & Ht0 & HtI & _ & _ & _ & _ & Hp & He & Hrm & Hin & Hlen & Hlanes).
  vm_compute in Ht0. injection Ht0 as <- <-.
  simpl in HtI. injection HtI as <- <-.
  exists st', p, e. split; [exact E|]. split; [exact Hp|]. split; [exact He|].
  split; [exact Hrm|]. split; [exact Hin|]. split; [exact Hlen|].
  destruct (Hlanes 2) as (m & Hm & Hl); [simpl; lia|].
  simpl in Hm. injection Hm as <-. exact Hl.
Defined.

(** ** Reassembly of the vectors that are used as a whole *)

Lemma insertBeforeIn_notin (x loc : positive) (l : list positive) :
  loc ∉ l → insertBeforeIn x loc l = l.
Proof.
  induction l as [|y l IH]; intros Hn; simpl; [reflexivity|].
  apply not_elem_of_cons in Hn. destruct Hn as [Hne Hn].
  rewrite decide_False by congruence. by rewrite IH.
Qed.

Lemma insertBeforeIn_split (x loc : positive) (l1 l2 : list positive) :
  loc ∉ l1 → insertBeforeIn x loc (l1 ++ loc :: l2) = l1 ++ x :: loc :: l2.
Proof.
  induction l1 as [|y l1 IH]; intros Hn; simpl.
  - by rewrite decide_True.
  - apply not_elem_of_cons in Hn. destruct Hn as [Hne Hn].
    rewrite decide_False by congruence. by rewrite IH.
Qed.

Lemma insertBeforeIn_app (x loc : positive) (l r : list positive) :
  insertBeforeIn x loc (l ++ r)
  = if decide (loc ∈ l) then insertBeforeIn x loc l ++ r
    else l ++ insertBeforeIn x loc r.
Proof.
  induction l as [|y l IH]; simpl.
  - reflexivity.
  - destruct (decide (y = loc)) as [->|Hne].
    + rewrite decide_True by (apply elem_of_cons; auto). reflexivity.
    + rewrite IH. destruct (decide (loc ∈ l)) as [Hin|Hin].
      * rewrite decide_True by (apply elem_of_cons; auto). reflexivity.
      * rewrite decide_False; [reflexivity|].
        intros Hc. apply elem_of_cons in Hc. destruct Hc; congruence.
Qed.

(** Placing an instruction before [loc] in the blocks places it before [loc]
    in the list of the instructions of the function. *)
Lemma instructionsOf_insertBefore (x loc : positive) (bbs : list BasicBlock) :
  NoDup (concat (bb_insts <$> bbs)) →
  concat (bb_insts <$> (insertBeforeInBlock x loc <$> bbs))
  = insertBeforeIn x loc (concat (bb_insts <$> bbs)).
Proof.
  induction bbs as [|b bbs IH]; intros Hnd; [reflexivity|].
  rewrite !fmap_cons, !concat_cons in *.
  apply NoDup_app in Hnd. destruct Hnd as (_ & Hdisj & Hnd).
  rewrite insertBeforeIn_app. rewrite (IH Hnd). simpl.
  destruct (decide (loc ∈ bb_insts b)) as [Hin|Hin]; [|by rewrite insertBeforeIn_notin].
  by rewrite (insertBeforeIn_notin x loc (concat _)) by (by apply Hdisj).
Qed.

Lemma createBefore_func (i : Instruction) (loc : option positive) (id : positive)
    (st st' : State) :
  createBefore i loc st = Some (id, st') →
  match loc with
  | Some l => l ∈ instructionsOf (func st) ∧
              blocks (func st') = insertBeforeInBlock id l <$> blocks (func st)
  | None => func st' = func st
  end.
Proof.
  intros H. unfold createBefore in H.
  apply bind_Some in H. destruct H as (id' & s & Hnew & H). run_inv Hnew.
  destruct loc as [l|]; run_inv H; simpl; [|reflexivity].
  apply bool_decide_eq_true in Hreq. auto.
Qed.

(** A new instruction that is placed before [loc] stands right before it. *)
Lemma createBefore_position (i : Instruction) (loc id : positive) (st st' : State)
    (l1 l2 : list positive) :
  NoDup (instructionsOf (func st)) →
  instructionsOf (func st) = l1 ++ loc :: l2 →
  createBefore i (Some loc) st = Some (id, st') →
  instructionsOf (func st') = l1 ++ id :: loc :: l2.
Proof.
  intros Hnd Hsplit H. apply createBefore_func in H. destruct H as [_ Hb].
  unfold instructionsOf in *. rewrite Hb.
  rewrite instructionsOf_insertBefore by exact Hnd.
  rewrite Hsplit. apply insertBeforeIn_split.
  rewrite Hsplit in Hnd. apply NoDup_app in Hnd. destruct Hnd as (_ & Hdisj & _).
  intros Hin. apply (Hdisj _ Hin). left.
Qed.

Lemma createBefore_linked (i : Instruction) (loc : option positive) (id : positive)
    (st st' : State) :
  NoDup (instructionsOf (func st)) →
  (∀ x, x ∈ instructionsOf (func st) → (x < nextId st)%positive) →
  createBefore i loc st = Some (id, st') →
  NoDup (instructionsOf (func st')) ∧
  (∀ x, x ∈ instructionsOf (func st') → (x < nextId st')%positive).
Proof.
  intros Hnd Hlt H.
  pose proof (createBefore_inv _ _ _ _ _ H) as (-> & _ & Hn & _).
  destruct loc as [l|].
  - pose proof (createBefore_func _ _ _ _ _ H) as [Hl _].
    apply list_elem_of_split in Hl. destruct Hl as (l1 & l2 & Hsplit).
    rewrite (createBefore_position _ _ _ _ _ _ _ Hnd Hsplit H).
    rewrite Hsplit in Hnd, Hlt. rewrite Hn. split.
    + rewrite <- Permutation_middle. apply NoDup_cons. split; [|exact Hnd].
      intros Hin. apply Hlt in Hin. lia.
    + intros x Hx. rewrite <- Permutation_middle in Hx.
      apply elem_of_cons in Hx. destruct Hx as [->|Hx]; [lia|].
      apply Hlt in Hx. lia.
  - pose proof (createBefore_func _ _ _ _ _ H) as Hf. simpl in Hf.
    rewrite Hf, Hn. split; [exact Hnd|].
    intros x Hx. apply Hlt in Hx. lia.
Qed.

Lemma SetDebugLocBy_inv (a b : positive) (st st' : State) :
  SetDebugLocBy a b st = Some (tt, st') →
  stripped st' = stripped st ∧ nextId st' = nextId st ∧ func st' = func st ∧
  (∀ i, insts st !! a = Some i → ∃ i', insts st' !! a = Some i' ∧ type i' = type i) ∧
  (m_SCM st', m_SCMArrays st', scmShape st') = (m_SCM st, m_SCMArrays st, scmShape st) ∧
  (m_DRL st', m_usedVectors st', m_removedInsts st')
  = (m_DRL st, m_usedVectors st, m_removedInsts st).
Proof.
  intros H. pose proof (keeps_SetDebugLocBy_stripped _ _ _ _ _ H) as Hs.
  unfold SetDebugLocBy in H. run_inv H.
  destruct (debugLoc a0); run_inv H; simpl.
  - repeat split; try reflexivity. intros i Hi. rewrite Hi. eauto.
  - repeat split; try exact Hs; try reflexivity.
    intros i Hi. rewrite lookup_insert_eq. eexists. split; [reflexivity|].
    rewrite H0 in Hi. by injection Hi as <-.
Qed.

Lemma chainEnd_cons (prev : Value) (id : positive) (i : Instruction)
    (c : list (positive * Instruction)) :
  chainEnd prev ((id, i) :: c) = chainEnd (VInst id) c.
Proof.
  unfold chainEnd. destruct c as [|[id' i'] c]; [reflexivity|].
  rewrite last_cons_cons, last_cons. by destruct (last c) as [[]|].
Qed.

Lemma chain_ids (t : Ty) (lanes : list Value) (prev : Value) (id : positive) (k : nat)
    (x : positive) :
  x ∈ (chain t prev id k lanes).*1 → (id ≤ x)%positive.
Proof.
  revert prev id k. induction lanes as [|lane lanes IH]; intros prev id k Hx; simpl in Hx.
  - by apply not_elem_of_nil in Hx.
  - apply elem_of_cons in Hx. destruct Hx as [->|Hx]; [lia|].
    apply IH in Hx. lia.
Qed.

(** The loop of the reassembly builds the chain of the lanes of the entry. *)
Lemma assembleVector_spec (t : Ty) (vi : positive) (loc : option positive)
    (p : SCMEntryPtr) (e : SCMEntry) (n : nat) :
  ∀ (k : nat) (prev : Value) (st : State) (v : Value) (st' : State),
    storeFresh st →
    NoDup (instructionsOf (func st)) →
    (∀ x, x ∈ instructionsOf (func st) → (x < nextId st)%positive) →
    lookupEntry st p = Some e →
    assembleVector t vi loc p prev (seq k n) st = Some (v, st') →
    ∃ lanes,
      length lanes = n ∧ take n (drop k (scalarValues e)) = Some <$> lanes ∧
      v = chainEnd prev (chain t prev (nextId st) k lanes) ∧
      stripped st' = list_to_map (chain t prev (nextId st) k lanes) ∪ stripped st ∧
      storeFresh st' ∧ (nextId st ≤ nextId st')%positive ∧
      (typeOf (insts st) prev = Some t → typeOf (insts st') v = Some t) ∧
      (0 < n → ∀ l, loc = Some l → l ∈ instructionsOf (func st)) ∧
      match loc with
      | Some l => ∀ l1 l2, instructionsOf (func st) = l1 ++ l :: l2 →
                   instructionsOf (func st')
                   = l1 ++ (chain t prev (nextId st) k lanes).*1 ++ l :: l2
      | None => func st' = func st
      end ∧
      (m_SCM st', m_SCMArrays st', scmShape st') = (m_SCM st, m_SCMArrays st, scmShape st) ∧
      (m_DRL st', m_usedVectors st', m_removedInsts st')
      = (m_DRL st, m_usedVectors st, m_removedInsts st).
Proof.
  induction n as [|n IH]; intros k prev st v st' Hfresh Hnd Hlt He H; simpl in H.
  - apply ret_inv in H. destruct H as [-> ->]. exists []. simpl.
    split; [reflexivity|]. split; [reflexivity|]. split; [reflexivity|].
    split; [by rewrite (left_id ∅ (∪))|]. split; [exact Hfresh|]. split; [lia|].
    split; [auto|]. split; [lia|]. split; [|auto].
    destruct loc as [l|]; [|reflexivity]. intros l1 l2 Hs. exact Hs.
  - apply bind_Some in H. destruct H as (e0 & z & Hr & H).
    unfold readEntry in Hr. run_inv Hr.
    unfold lookupEntry in He. rewrite He in Hopt. injection Hopt as <-.
    apply bind_Some in H. destruct H as (lane & z & Hlane & H).
    unfold getLane in Hlane. run_inv Hlane.
    apply bind_Some in H. destruct H as (id0 & s1 & Hc & H).
    apply bind_Some in H. destruct H as ([] & s2 & Hd & H).
    pose proof (createBefore_inv _ _ _ _ _ Hc) as (-> & Hi1 & Hn1 & Hscm1 & Hrest1).
    pose proof (createBefore_linked _ _ _ _ _ Hnd Hlt Hc) as [Hnd1 Hlt1].
    pose proof (createBefore_frame _ _ _ _ _ Hfresh Hc) as [Hfresh1 _].
    pose proof (SetDebugLocBy_inv _ _ _ _ Hd) as (Hs2 & Hn2 & Hf2 & Hty2 & Hscm2 & Hrest2).
    assert (Hfresh2 : storeFresh s2).
    { exact (proj1 (grows_stripped _ _ Hs2 Hn2 Hfresh1)). }
    apply IH in H.
    + destruct H as (lanes & Hlen & Htake & Hv & Hstr & Hfresh' & Hle & Hlast & _ & Hpos
                     & Hscm' & Hrest').
      exists (lane :: lanes). rewrite Hn2, Hn1 in *.
      split; [simpl; by rewrite Hlen|].
      split.
      { subst a. rewrite (drop_S _ _ _ Hopt). simpl. by rewrite Htake. }
      split; [simpl; by rewrite chainEnd_cons|].
      assert (Hs1 : stripped s2
                    = <[nextId st := plainInst InsertElement t [prev; lane; constIndex k]]>
                        (stripped st)).
      { rewrite Hs2. unfold stripped. by rewrite Hi1, fmap_insert. }
      split.
      { rewrite Hstr, Hs1. simpl.
        rewrite <- insert_union_l. symmetry. apply insert_union_r.
        apply not_elem_of_list_to_map_1. intros Hin. apply chain_ids in Hin. lia. }
      split; [exact Hfresh'|]. split; [lia|].
      split.
      { intros _. apply Hlast. simpl.
        destruct (Hty2 (plainInst InsertElement t [prev; lane; constIndex k]))
          as (i' & Hi' & Hti').
        - rewrite Hi1. apply lookup_insert_eq.
        - rewrite Hi'. simpl. by rewrite Hti'. }
      split.
      { intros _ l ->. exact (proj1 (createBefore_func _ _ _ _ _ Hc)). }
      split.
      { destruct loc as [l|].
        - intros l1 l2 Hsplit.
          pose proof (createBefore_position _ _ _ _ _ _ _ Hnd Hsplit Hc) as Hp1.
          rewrite <- Hf2 in Hp1.
          rewrite (Hpos (l1 ++ [nextId st]) l2) by (by rewrite <- app_assoc).
          simpl. by rewrite <- app_assoc.
        - rewrite Hpos, Hf2. exact (createBefore_func _ _ _ _ _ Hc). }
      split; [congruence | congruence].
    + exact Hfresh2.
    + by rewrite Hf2.
    + rewrite Hf2, Hn2. exact Hlt1.
    + unfold lookupEntry.
      injection Hscm2 as _ -> _. injection Hscm1 as _ -> _. exact He.
Qed.
Lemma stripped_replaceUses (old new : Value) (m : gmap positive Instruction) :
  setDebugLoc None <$> (replaceUses old new <$> m)
  = replaceUses old new <$> (setDebugLoc None <$> m).
Proof. rewrite <- !map_fmap_compose. apply map_fmap_ext. intros k i _. reflexivity. Qed.

(** C7: putting a vector together again.  Nothing is done for a value that
    has no entry in the SCM, that is an undefined vector, or whose entry
    does not say that the original was removed.  Otherwise a chain of as
    many insertelement instructions as the vector has elements is made,
    which starts from the undefined vector and inserts the lanes of the
    entry in the order of their indices; the chain is placed before the
    original instruction, or before the first instruction after the PHI
    nodes of its block when the original is a PHI node; every use of the
    original becomes a use of the end of the chain; and the end of the chain
    gets an entry in the SCM with the same lanes, which does not say that
    the original was removed. *)
Theorem reassembly (v : Value) (st st' : State) :
  storeFresh st → scmWf st → linked st → NoDup (instructionsOf (func st)) →
  obtainVectorValueWhichMightBeScalarizedImpl v st = Some (tt, st') →
  match m_SCM st !! v ≫= lookupEntry st with
  | None => st' = st
  | Some e =>
      if isUndefValue v || negb (isOriginalVectorRemoved e) then st' = st
      else
        ∃ vectorInst elt w lanes p',
          v = VInst vectorInst ∧
          typeOf (insts st) v = Some (VectorTy elt w) ∧
          length lanes = Pos.to_nat w ∧
          take (Pos.to_nat w) (scalarValues e) = Some <$> lanes ∧
          let undef := VConst (UndefValue (VectorTy elt w)) in
          let c := chain (VectorTy elt w) undef (nextId st) 0 lanes in
          let assembled := chainEnd undef c in
          stripped st' = replaceUses v assembled <$> (list_to_map c ∪ stripped st) ∧
          unused (insts st') v ∧
          match reassemblyLocation st vectorInst with
          | Some loc => ∃ l1 l2, instructionsOf (func st) = l1 ++ loc :: l2 ∧
                                 instructionsOf (func st') = l1 ++ c.*1 ++ loc :: l2
          | None => func st' = func st
          end ∧
          m_SCM st' = <[assembled := p']> (m_SCM st) ∧
          lookupEntry st' p' = Some (mkSCMEntry (Some <$> lanes) false)
  end.
Proof.
  intros Hfresh Hwf Hlinked Hnd H.
  unfold obtainVectorValueWhichMightBeScalarizedImpl in H.
  apply bind_Some in H. destruct H as (t & z & Ht & H).
  apply getType_inv in Ht. destruct Ht as [Ht ->].
  apply bind_Some in H. destruct H as ([elt0 n] & z & Hw & H).
  apply fromOption_inv in Hw. destruct Hw as [Hw ->].
  destruct t as [| | | |elt w|]; try discriminate Hw.
  simpl in Hw. injection Hw as <- <-.
  destruct (isUndefValue v) eqn:Hundef.
  { apply ret_inv in H. destruct H as [_ ->].
    by destruct (m_SCM st !! v ≫= lookupEntry st). }
  apply bind_Some in H. destruct H as (scm & z & Hscm & H).
  apply gets_inv in Hscm. destruct Hscm as [-> ->].
  destruct (m_SCM st !! v) as [p|] eqn:Hp; simpl.
  2:{ apply ret_inv in H. by destruct H as [_ ->]. }
  apply bind_Some in H. destruct H as (e & z & He & H).
  unfold readEntry in He. run_inv He. fold (lookupEntry st p) in Hopt.
  rewrite Hopt. simpl.
  destruct (isOriginalVectorRemoved e) eqn:Hrm; simpl.
  2:{ apply ret_inv in H. by destruct H as [_ ->]. }
  destruct v as [vi|ta na|vc]; try discriminate H.
  apply bind_Some in H. destruct H as (m & z & Hm & H).
  apply gets_inv in Hm. destruct Hm as [-> ->].
  apply bind_Some in H. destruct H as (f & z & Hf & H).
  apply gets_inv in Hf. destruct Hf as [-> ->].
  apply bind_Some in H. destruct H as (loc & z & Hloc & H).
  assert (Hloc' : loc = reassemblyLocation st vi ∧ z = st).
  { unfold reassemblyLocation. destruct (isPHI (insts st) vi).
    - apply bind_Some in Hloc. destruct Hloc as (bb & z1 & Hbb & Hloc).
      apply fromOption_inv in Hbb. destruct Hbb as [-> ->].
      apply ret_inv in Hloc. destruct Hloc as [-> ->]. auto.
    - apply ret_inv in Hloc. destruct Hloc as [-> ->]. auto. }
  destruct Hloc' as [-> ->]. clear Hloc.
  apply bind_Some in H. destruct H as (a & s1 & Hasm & H).
  apply bind_Some in H. destruct H as ([] & s2 & Hrepl & H).
  apply bind_Some in H. destruct H as (p' & s3 & Hentry & H).
  apply bind_Some in H. destruct H as (e' & z & He' & H).
  unfold readEntry in He'. run_inv He'. fold (lookupEntry s3 p) in Hopt0.
  rename H into Hupd.
  (* the chain *)
  assert (Hlt : ∀ x, x ∈ instructionsOf (func st) → (x < nextId st)%positive).
  { intros x Hx. destruct (Hlinked x Hx) as [i Hi]. exact (Hfresh x i Hi). }
  destruct (assembleVector_spec _ _ _ _ _ _ _ _ _ _ _ Hfresh Hnd Hlt Hopt Hasm)
    as (lanes & Hlen & Htake & Ha & Hstr & Hfresh1 & _ & Hty1 & Hin & Hpos & Hscm1 & Hrest1).
  rewrite drop_0 in Htake.
  specialize (Hty1 eq_refl).
  (* the uses *)
  unfold replaceAllUsesWith in Hrepl.
  apply bind_Some in Hrepl. destruct Hrepl as ([] & z & Hne & Hrepl).
  apply require_inv in Hne. destruct Hne as [Hne ->].
  apply bool_decide_eq_true in Hne.
  apply modify_inv in Hrepl.
  (* the entry *)
  assert (Hwf2 : scmWf s2).
  { subst s2. unfold scmWf, allocated, scmShape in *. simpl.
    injection Hscm1 as -> -> _ -> -> ->. exact Hwf. }
  assert (Hq : allocated s2 p).
  { destruct Hwf2 as (_ & _ & _ & Halloc & _). apply (Halloc (VInst vi)).
    subst s2. simpl. injection Hscm1 as -> _. exact Hp. }
  destruct (getSCMEntry_old _ _ _ _ Hwf2 Hentry) as [Hscm3 Hold].
  rewrite (Hold p Hq) in Hopt0.
  assert (He2 : lookupEntry s2 p = Some e).
  { subst s2. unfold lookupEntry. simpl. injection Hscm1 as _ -> _. exact Hopt. }
  rewrite He2 in Hopt0. injection Hopt0 as <-.
  pose proof (keeps_updateSCMEntryWithValues_shape _ _ _ _ _ _ _ _ Hupd) as Hshape.
  pose proof (keeps_updateSCMEntryWithValues_stripped _ _ _ _ _ _ _ _ Hupd) as Hstr4.
  pose proof (keeps_updateSCMEntryWithValues_outside _ _ _ _ _ _ _ _ Hupd) as Hout4.
  pose proof (keeps_getSCMEntry_outside _ _ _ _ Hentry) as Hout3.
  pose proof (keeps_getSCMEntry_insts _ _ _ _ Hentry) as Hi3.
  apply updateSCMEntryWithValues_entry in Hupd.
  destruct Hupd as (elt2 & w2 & arr & lanes' & Hty & Harr & Hlt' & Hlen' & _ & Hlanes & Harrs).
  assert (Hty3 : typeOf (insts s3) a = Some (VectorTy elt w)).
  { rewrite Hi3. subst s2. simpl. destruct a as [ai| |]; try exact Hty1.
    simpl in *. rewrite lookup_fmap.
    destruct (insts s1 !! ai) as [i|]; [|discriminate]. exact Hty1. }
  rewrite Hty3 in Hty. injection Hty as <- <-.
  assert (Hsame : lanes' = Some <$> lanes).
  { apply list_eq. intros i. destruct (decide (i < Pos.to_nat w)) as [Hi|Hi].
    - rewrite (Hlanes i Hi), <- Htake. symmetry. by apply lookup_take_lt.
    - rewrite !lookup_ge_None_2; [reflexivity | rewrite length_fmap; lia | lia]. }
  subst lanes'.
  assert (Hstr' : stripped st'
                  = replaceUses (VInst vi) a <$>
                      (list_to_map (chain (VectorTy elt w)
                                      (VConst (UndefValue (VectorTy elt w)))
                                      (nextId st) 0 lanes) ∪ stripped st)).
  { rewrite Hstr4. unfold stripped at 1. rewrite Hi3. subst s2. simpl.
    rewrite stripped_replaceUses. f_equal. exact Hstr. }
  exists vi, elt, w, lanes, p'.
  split; [reflexivity|]. split; [exact Ht|]. split; [exact Hlen|]. split; [exact Htake|].
  simpl. rewrite <- Ha.
  split; [exact Hstr'|].
  split.
  { intros k i Hk.
    assert (Hs : stripped st' !! k = Some (setDebugLoc None i))
      by (unfold stripped; by rewrite lookup_fmap, Hk).
    rewrite Hstr' in Hs. apply lookup_fmap_Some in Hs. destruct Hs as (i0 & Hi0 & _).
    change (operands i) with (operands (setDebugLoc None i)). rewrite <- Hi0.
    by apply replaceUses_not_elem. }
  assert (Hfunc : func st' = func s1).
  { transitivity (func s3); [exact (f_equal (λ x, x.1.1.1.2) Hout4)|].
    transitivity (func s2); [exact (f_equal (λ x, x.1.1.1.2) Hout3)|].
    subst s2. reflexivity. }
  split.
  { destruct (reassemblyLocation st vi) as [l|].
    - destruct (list_elem_of_split (instructionsOf (func st)) l) as (l1 & l2 & Hsplit).
      { apply Hin; [lia | reflexivity]. }
      exists l1, l2. split; [exact Hsplit|]. rewrite Hfunc. by apply Hpos.
    - by rewrite Hfunc. }
  split.
  { injection Hshape as -> _ _ _. rewrite Hscm3. subst s2. simpl.
    injection Hscm1 as -> _. reflexivity. }
  unfold lookupEntry. rewrite Harrs.
  rewrite list_lookup_insert_eq by (by apply lookup_lt_Some in Harr). simpl.
  by apply list_lookup_insert_eq.
Qed.

Lemma reassembly_witness :
  ∃ st', obtainVectorValueWhichMightBeScalarizedImpl (VInst 1) sample_add_call_traversed
         = Some (tt, st') ∧
         unused (insts st') (VInst 1) ∧
         ∃ l1 l2, instructionsOf (func st') = l1 ++ [10; 11; 1]%positive ++ l2.
Proof.
  assert (Hc : holdsAfter (obtainVectorValueWhichMightBeScalarizedImpl (VInst 1)
                             sample_add_call_traversed) (λ _ _, true) = true)
    by (vm_compute; reflexivity).
  apply holdsAfter_Some in Hc. destruct Hc as ([] & st' & E & _).
  exists st'. split; [exact E|].
  assert (Hf : storeFresh sample_add_call_traversed)
    by (apply storeFresh_decide; vm_compute; reflexivity).
  assert (Hwf : scmWf sample_add_call_traversed)
    by (apply scmWfb_correct; vm_compute; reflexivity).
  assert (Hl : linked sample_add_call_traversed).
  { intros id Hid.
    assert (Hb : forallb (λ id, bool_decide (is_Some (insts sample_add_call_traversed !! id)))
                   (instructionsOf (func sample_add_call_traversed)) = true)
      by (vm_compute; reflexivity).
    rewrite List.forallb_forall in Hb. apply list_elem_of_In, Hb in Hid.
    by apply bool_decide_eq_true in Hid. }
  assert (Hnd : NoDup (instructionsOf (func sample_add_call_traversed))).
  { apply (bool_decide_eq_true _). vm_compute. reflexivity. }
  pose proof (reassembly (VInst 1) sample_add_call_traversed st' Hf Hwf Hl Hnd E) as H.
  assert (He : m_SCM sample_add_call_traversed !! VInst 1
               ≫= lookupEntry sample_add_call_traversed
               = Some (mkSCMEntry [Some (VInst 8); Some (VInst 9)] true))
    by (vm_compute; reflexivity).
  assert (Hn : nextId sample_add_call_traversed = 10%positive)
    by (vm_compute; reflexivity).
  assert (Hloc : reassemblyLocation sample_add_call_traversed 1 = Some 1%positive)
    by (vm_compute; reflexivity).
  rewrite He, Hn in H. cbn [isUndefValue orb negb isOriginalVectorRemoved scalarValues] in H.
  destruct H as (vi & elt & w & lanes & p' & [= <-] & Hty & Hlen & Htake & _ & Hun & Hpos & _).
  split; [exact Hun|].
  rewrite Hloc in Hpos. destruct Hpos as (l1 & l2 & _ & Hpos).
  vm_compute in Hty. injection Hty as <- <-.
  destruct lanes as [|a0 [|a1 [|]]]; try discriminate Hlen.
  exists l1, l2. exact Hpos.
Defined.

(** ** The vector PHI node *)

Lemma getLane_Some (ls : list Value) (i : nat) (v : Value) (st st' : State) :
  getLane (Some <$> ls) i st = Some (v, st') → ls !! i = Some v ∧ st' = st.
Proof.
  intros H. unfold getLane in H.
  apply bind_Some in H. destruct H as (o & z & Ho & H).
  apply fromOption_inv in Ho. destruct Ho as [Ho ->].
  apply fromOption_inv in H. destruct H as [-> ->].
  rewrite list_lookup_fmap in Ho. destruct (ls !! i); [|discriminate].
  by injection Ho as ->.
Qed.

(** Writing as many lanes as the array has elements leaves the lanes. *)
Lemma storeLanes_full (ls : list Value) (r r' : list (option Value)) (st st' : State) :
  length r = length ls → storeLanes r 0 ls st = Some (r', st') → r' = Some <$> ls.
Proof.
  intros Hlen H. apply storeLanes_inv in H. destruct H as (_ & Hlen' & _ & Hlook).
  apply list_eq. intros i. rewrite Hlook, list_lookup_fmap.
  case_decide.
  - by rewrite Nat.sub_0_r.
  - rewrite (lookup_ge_None_2 ls) by lia. simpl. apply lookup_ge_None_2. lia.
Qed.

Lemma mapM'_fmap {A B C : Type} (f : B → C) (idx : list A) (body : A → M B)
    (r : list C) (st st' : State) :
  mapM' idx (λ x, body x ≫= λ y, mret (f y)) st = Some (r, st') →
  ∃ ys, mapM' idx body st = Some (ys, st') ∧ r = f <$> ys.
Proof.
  revert r st. induction idx as [|x idx IH]; intros r st H; simpl in H.
  - apply ret_inv in H. destruct H as [-> ->]. by exists [].
  - apply bind_Some in H. destruct H as (c & s1 & Hc & H).
    apply bind_Some in Hc. destruct Hc as (y & s0 & Hy & Hc).
    apply ret_inv in Hc. destruct Hc as [-> ->].
    apply bind_Some in H. destruct H as (cs & s2 & Hcs & H).
    apply ret_inv in H. destruct H as [-> ->].
    apply IH in Hcs. destruct Hcs as (ys & Hys & ->).
    exists (y :: ys). split; [|reflexivity].
    simpl. apply bind_Some. exists y, s0. split; [exact Hy|].
    apply bind_Some. exists ys, s2. split; [exact Hys | reflexivity].
Qed.

(** The loop over the new PHI nodes adds the lanes node by node. *)
Lemma addIncoming_loop (pre tl : list positive) (ls : list Value) (bb : N)
    (st st' : State) :
  forM (seq (length pre) (length tl)) (λ i,
    getLane (Some <$> (VInst <$> (pre ++ tl))) i ≫= λ phi,
    getLane (Some <$> ls) i ≫= λ v,
    addIncoming phi v bb) st = Some (tt, st') →
  forM (zip (seq (length pre) (length tl)) tl) (λ '(n, phi),
    fromOption (ls !! n) ≫= λ lane,
    addIncoming (VInst phi) lane bb) st = Some (tt, st').
Proof.
  revert pre st. induction tl as [|phi tl IH]; intros pre st H; simpl in *; [exact H|].
  apply bind_Some in H. destruct H as ([] & s1 & Hb & H).
  apply bind_Some in Hb. destruct Hb as (p & z & Hp & Hb).
  apply getLane_Some in Hp. destruct Hp as [Hp ->].
  rewrite list_lookup_fmap, lookup_app_r, Nat.sub_diag in Hp by lia.
  simpl in Hp. injection Hp as <-.
  apply bind_Some in Hb. destruct Hb as (v & z & Hv & Hb).
  apply getLane_Some in Hv. destruct Hv as [Hv ->].
  apply bind_Some. exists tt, s1. split.
  - apply bind_Some. exists v, st. split; [by rewrite Hv | exact Hb].
  - specialize (IH (pre ++ [phi]) s1).
    rewrite length_app, Nat.add_1_r, <- app_assoc in IH. apply IH. exact H.
Qed.

(** The second loop of the rule resolves the lanes of the incoming values in
    turn and adds them to the new PHI nodes. *)
Lemma fillScalarPHIs_collect (I : Instruction) (ids : list positive) (n : nat) :
  ∀ (k : nat) (operand : list (option Value)) (st st' : State),
    k + n = length (operands I) →
    fillScalarPHIs I (Some <$> (VInst <$> ids)) (length ids) operand (seq k n) st
    = Some (tt, st') →
    ∃ X, collectLanes ids (zip (drop k (operands I)) (drop k (incomingBlocks I))) st
         = Some (X, st') ∧ length X = n.
Proof.
  induction n as [|n IH]; intros k operand st st' Hk H; simpl in H.
  - apply ret_inv in H. destruct H as [_ ->].
    rewrite (drop_ge (operands I)) by lia. by exists [].
  - apply bind_Some in H. destruct H as (vj & z & Hvj & H).
    apply fromOption_inv in Hvj. destruct Hvj as [Hvj ->].
    apply bind_Some in H. destruct H as ([operand' c] & s1 & Ho & H).
    apply bind_Some in H. destruct H as (bb & z & Hbb & H).
    apply fromOption_inv in Hbb. destruct Hbb as [Hbb ->].
    apply bind_Some in H. destruct H as ([] & s2 & Hadd & H).
    apply obtainScalarizedValues_resolveLanes in Ho.
    2:{ intros [? Habs]. discriminate. }
    destruct Ho as (ls & elt & w & _ & Hres & Hlen & _ & Hstore).
    simpl in Hstore. specialize (Hstore st).
    apply storeLanes_full in Hstore; [|by rewrite length_resize, Hlen]. subst operand'.
    apply (addIncoming_loop [] ids) in Hadd.
    apply IH in H; [|lia]. destruct H as (X & HX & HlenX).
    exists (ls :: X). split; [|simpl; by rewrite HlenX].
    rewrite (drop_S _ _ _ Hvj), (drop_S _ _ _ Hbb). simpl.
    apply bind_Some. exists ls, s1. split; [exact Hres|].
    apply bind_Some. exists tt, s2. split; [exact Hadd|].
    apply bind_Some. exists X, st'. split; [exact HX | reflexivity].
Qed.

Lemma set_insts_same (st : State) : set_insts (λ _, insts st) st = st.
Proof. by destruct st. Qed.

(** What [addLanes] does to the store: the new PHI nodes get one more
    incoming value each, the other objects are left alone. *)
Lemma addLanes_loop (ls : list Value) (bb : N) (tl : list positive) :
  ∀ (k : nat) (st st' : State),
    NoDup tl →
    forM (zip (seq k (length tl)) tl) (λ '(n, phi),
      fromOption (ls !! n) ≫= λ lane,
      addIncoming (VInst phi) lane bb) st = Some (tt, st') →
    ∃ m', st' = set_insts (λ _, m') st ∧
          (∀ x, x ∉ tl → m' !! x = insts st !! x) ∧
          (∀ n phi, tl !! n = Some phi →
             ∃ i lane, insts st !! phi = Some i ∧ opcode i = PHI ∧
                       ls !! (k + n) = Some lane ∧
                       m' !! phi = Some (addIncomingTo lane bb i)).
Proof.
  induction tl as [|phi tl IH]; intros k st st' Hnd H; simpl in H.
  - apply ret_inv in H. destruct H as [_ ->]. exists (insts st).
    split; [by rewrite set_insts_same|]. split; [reflexivity|].
    intros n phi Hn. discriminate.
  - apply NoDup_cons in Hnd. destruct Hnd as [Hphi Hnd].
    apply bind_Some in H. destruct H as ([] & s1 & Hb & H).
    apply bind_Some in Hb. destruct Hb as (lane & z & Hlane & Hb).
    apply fromOption_inv in Hlane. destruct Hlane as [Hlane ->].
    unfold addIncoming in Hb.
    apply bind_Some in Hb. destruct Hb as (i & z & Hi & Hb).
    apply getInst_inv in Hi. destruct Hi as [Hi ->].
    apply bind_Some in Hb. destruct Hb as ([] & z & Hop & Hb).
    apply require_inv in Hop. destruct Hop as [Hop ->].
    apply bool_decide_eq_true in Hop.
    apply modify_inv in Hb. subst s1.
    apply IH in H; [|exact Hnd]. destruct H as (m' & -> & Hout & Hin).
    exists m'. split; [reflexivity|]. split.
    + intros x Hx. apply not_elem_of_cons in Hx. destruct Hx as [Hne Hx].
      rewrite (Hout x Hx). simpl. by rewrite lookup_insert_ne.
    + intros n phi' Hn. destruct n as [|n]; simpl in Hn.
      * injection Hn as <-. exists i, lane.
        split; [exact Hi|]. split; [exact Hop|].
        split; [by rewrite Nat.add_0_r|].
        rewrite (Hout phi Hphi). simpl. by rewrite lookup_insert_eq.
      * destruct (Hin n phi' Hn) as (i' & lane' & Hi' & Hop' & Hl' & Hm').
        assert (Hne : phi ≠ phi').
        { intros <-. apply Hphi. by apply list_elem_of_lookup_2 in Hn. }
        simpl in Hi'. rewrite lookup_insert_ne in Hi' by exact Hne.
        exists i', lane'. split; [exact Hi'|]. split; [exact Hop'|].
        split; [by rewrite Nat.add_succ_r | exact Hm'].
Qed.

Lemma keeps_resolveLanes_removed v : keeps m_removedInsts (resolveLanes v).
Proof. unfold resolveLanes, lanesBy. keeps_tac. Qed.

Lemma keeps_createBefore_SCM i loc : keeps m_SCM (createBefore i loc).
Proof. unfold createBefore, newInst. keeps_tac. Qed.

Lemma getSCMEntry_SCM (v : Value) (p : SCMEntryPtr) (st st' : State) :
  getSCMEntry v st = Some (p, st') → m_SCM st ⊆ m_SCM st' ∧ m_SCM st' !! v = Some p.
Proof.
  intros H. apply getSCMEntry_spec in H.
  destruct H as [[Hp ->]|(Hnone & a1 & l1 & o1 & arr & e & _ & _ & _ & _ & Hm & _)];
    [auto|].
  rewrite Hm. split; [by apply insert_subseteq | apply lookup_insert_eq].
Qed.

(** Resolving the lanes of a value takes no entry out of the SCM. *)
Lemma resolveLanes_SCM (v : Value) (ls : list Value) (st st' : State) :
  resolveLanes v st = Some (ls, st') → m_SCM st ⊆ m_SCM st'.
Proof.
  intros H. unfold resolveLanes in H.
  apply bind_Some in H. destruct H as (t & z1 & Ht & H). run_inv Ht.
  apply bind_Some in H. destruct H as ([elt n] & z1 & Hw & H). run_inv Hw.
  apply bind_Some in H. destruct H as (cur & z1 & Hc & H). run_inv Hc.
  apply bind_Some in H. destruct H as (found & s1 & Hfound & H).
  pose proof (keeps_filledEntry id _ _ _ _ Hfound) as Hs1. simpl in Hs1. subst s1.
  unfold lanesBy in H. destruct found as [e|].
  { pose proof (keeps_mapM'_getLane id _ _ _ _ _ H) as E. simpl in E. by subst st'. }
  destruct (isUndefValue v).
  { apply ret_inv in H. by destruct H as [_ ->]. }
  assert (Hbreak :
    (breakdownLocation v ≫= λ locationInst,
     mapM' (seq 0 n) (λ i,
       createBefore (plainInst ExtractElement elt [v; constIndex i])
                    locationInst) ≫= λ extracts,
     getSCMEntry v ≫= λ newEntry,
     updateSCMEntryWithValues newEntry (Some <$> (VInst <$> extracts))
                              v false true ;;
     mret (VInst <$> extracts)) st = Some (ls, st') → m_SCM st ⊆ m_SCM st').
  { clear H. intros H.
    apply bind_Some in H. destruct H as (loc & s2 & Hloc & H).
    apply bind_Some in H. destruct H as (extracts & s3 & Hex & H).
    apply bind_Some in H. destruct H as (newEntry & s5 & Hnew & H).
    apply bind_Some in H. destruct H as ([] & s6 & Hupd & H).
    apply ret_inv in H. destruct H as [_ ->].
    pose proof (keeps_breakdownLocation id _ _ _ _ Hloc) as E. simpl in E. subst s2.
    assert (H3 : m_SCM s3 = m_SCM st).
    { revert Hex. apply keeps_mapM'. intros x. apply keeps_createBefore_SCM. }
    pose proof (keeps_updateSCMEntryWithValues_shape _ _ _ _ _ _ _ _ Hupd) as Hshape.
    injection Hshape as -> _ _ _. rewrite <- H3.
    exact (proj1 (getSCMEntry_SCM _ _ _ _ Hnew)). }
  destruct v as [vi|ta na|vc].
  - destruct (m_SCM st !! VInst vi) as [q|]; [exact (Hbreak H)|].
    assert (Hk : m_SCM st' = m_SCM st); [|by rewrite Hk].
    revert H. apply (ltac:(unfold newInst; keeps_tac) : keeps m_SCM
      (mapM' (seq 0 n) (λ _, newInst (dummyLoad elt)) ≫= λ dummies,
       modify (set_DRL (λ drl, drl ++ [mkDRLEntry (VInst vi) (VInst <$> dummies)])) ;;
       mret (VInst <$> dummies))).
  - exact (Hbreak H).
  - apply ret_inv in H. by destruct H as [_ ->].
Qed.

Lemma column_cons (n : nat) (ls : list Value) (lane : Value) (X : list (list Value)) :
  ls !! n = Some lane → column n (ls :: X) = lane :: column n X.
Proof. intros H. unfold column. simpl. by rewrite H. Qed.

(** The new PHI nodes after [collectLanes]: node [n] has got lane [n] of
    every incoming value, with its block; the other objects are as they
    were, up to their debug locations. *)
Lemma collectLanes_spec (ids : list positive) (incoming : list (Value * N)) :
  ∀ (st : State) (X : list (list Value)) (st' : State),
    NoDup ids → storeFresh st →
    collectLanes ids incoming st = Some (X, st') →
    storeFresh st' ∧ length X = length incoming ∧
    m_SCM st ⊆ m_SCM st' ∧
    m_removedInsts st' = m_removedInsts st ∧
    (∀ k i, k ∉ ids → stripped st !! k = Some i → stripped st' !! k = Some i) ∧
    (∀ n phi i, ids !! n = Some phi → insts st !! phi = Some i →
       ∃ i', insts st' !! phi = Some i' ∧ opcode i' = opcode i ∧ type i' = type i ∧
             operands i' = operands i ++ column n X ∧
             incomingBlocks i' = incomingBlocks i ++ incoming.*2).
Proof.
  induction incoming as [|[v bb] rest IH]; intros st X st' Hnd Hfresh H; simpl in H.
  - apply ret_inv in H. destruct H as [-> ->].
    split; [exact Hfresh|]. split; [reflexivity|]. split; [reflexivity|].
    split; [reflexivity|]. split; [auto|].
    intros n phi i _ Hi. exists i. rewrite !app_nil_r. auto.
  - apply bind_Some in H. destruct H as (ls & s1 & Hres & H).
    apply bind_Some in H. destruct H as ([] & s2 & Hadd & H).
    apply bind_Some in H. destruct H as (X' & s3 & HX & H).
    apply ret_inv in H. destruct H as [-> ->].
    destruct (grows_resolveLanes _ _ _ _ Hres Hfresh) as [Hfresh1 Hsub1].
    pose proof (resolveLanes_SCM _ _ _ _ Hres) as Hscm1.
    pose proof (keeps_resolveLanes_removed _ _ _ _ Hres) as Hrm1.
    apply (addLanes_loop ls bb ids 0) in Hadd; [|exact Hnd].
    destruct Hadd as (m2 & -> & Hout2 & Hin2).
    assert (Hfresh2 : storeFresh (set_insts (λ _, m2) s1)).
    { intros k i Hk. simpl in *.
      destruct (decide (k ∈ ids)) as [Hin|Hin].
      - apply list_elem_of_lookup in Hin. destruct Hin as [n Hn].
        destruct (Hin2 n k Hn) as (i0 & _ & Hi0 & _). exact (Hfresh1 k i0 Hi0).
      - rewrite (Hout2 k Hin) in Hk. exact (Hfresh1 k i Hk). }
    apply IH in HX; [|exact Hnd|exact Hfresh2].
    destruct HX as (Hfresh3 & HlenX & Hscm3 & Hrm3 & Hout3 & Hin3).
    split; [exact Hfresh3|]. split; [simpl; by rewrite HlenX|].
    split; [by transitivity (m_SCM s1)|]. split; [by rewrite Hrm3|].
    split.
    + intros k i Hk Hi. apply (Hout3 k i Hk).
      unfold stripped. simpl. rewrite lookup_fmap, (Hout2 k Hk), <- lookup_fmap.
      exact (lookup_weaken _ _ _ _ Hi Hsub1).
    + intros n phi i Hn Hi.
      destruct (Hin2 n phi Hn) as (i1 & lane & Hi1 & _ & Hlane & Hm2).
      assert (Hs : stripped st !! phi = Some (setDebugLoc None i))
        by (unfold stripped; by rewrite lookup_fmap, Hi).
      apply (lookup_weaken _ _ _ _ Hs) in Hsub1.
      unfold stripped in Hsub1. rewrite lookup_fmap, Hi1 in Hsub1.
      simpl in Hsub1. injection Hsub1 as Hop Hty Hops _ _ Hbbs _ _.
      destruct (Hin3 n phi _ Hn Hm2) as (i' & Hi' & Hop' & Hty' & Hops' & Hbbs').
      exists i'. split; [exact Hi'|].
      rewrite (column_cons _ _ _ _ Hlane). simpl in *.
      split; [congruence|]. split; [congruence|].
      split.
      * rewrite Hops', Hops, <- app_assoc. reflexivity.
      * rewrite Hbbs', Hbbs, <- app_assoc. reflexivity.
Qed.

(** The objects that a loop of [createBefore] makes. *)
Lemma createLoop_new {A : Type} (idx : list A) (mk : A → Instruction)
    (loc : option positive) (ids : list positive) (st st' : State) :
  storeFresh st →
  mapM' idx (λ x, createBefore (mk x) loc) st = Some (ids, st') →
  NoDup ids ∧ (∀ id, id ∈ ids → (nextId st ≤ id)%positive) ∧
  Forall2 (λ x id, insts st' !! id = Some (mk x)) idx ids.
Proof.
  revert ids st. induction idx as [|x idx IH]; intros ids st Hfresh H; simpl in H.
  - apply ret_inv in H. destruct H as [-> _].
    split; [constructor|]. split; [|constructor].
    intros id Hid. by apply not_elem_of_nil in Hid.
  - apply bind_Some in H. destruct H as (y & s1 & Hy & H).
    apply bind_Some in H. destruct H as (ys & s2 & Hys & H).
    apply ret_inv in H. destruct H as [-> ->].
    destruct (createBefore_frame _ _ _ _ _ Hfresh Hy) as [Hfresh1 _].
    pose proof (createBefore_inv _ _ _ _ _ Hy) as (-> & Hi1 & Hn1 & _).
    destruct (IH _ _ Hfresh1 Hys) as (Hnd & Hge & Hall).
    destruct (createLoop_frame _ _ _ _ _ _ Hfresh1 Hys) as [_ Hkeep].
    rewrite Hn1 in Hge.
    split; [|split].
    + apply NoDup_cons. split; [|exact Hnd]. intros Hin. apply Hge in Hin. lia.
    + intros id Hid. apply elem_of_cons in Hid. destruct Hid as [->|Hid]; [lia|].
      apply Hge in Hid. lia.
    + constructor; [|exact Hall]. apply Hkeep. rewrite Hi1. apply lookup_insert_eq.
Qed.

Lemma snd_zip_take {A B : Type} (l : list A) (k : list B) :
  (zip l k).*2 = take (length l) k.
Proof.
  revert k. induction l as [|x l IH]; intros [|y k]; simpl; try reflexivity.
  by rewrite IH.
Qed.

(** C8: the rule of the vector PHI node.  When an incoming value is the
    result of a VME send intrinsic, the PHI node is recovered: the code is
    left as it is, and the operands of vector type are in the used-whole set
    afterwards.  Otherwise as many new PHI nodes as the vector has elements
    are made, of the element type; the lanes of the incoming values are
    resolved in turn, and new node [n] gets lane [n] of every incoming value,
    with the incoming blocks of the vector PHI node; the SCM holds the new
    nodes as the lanes of the vector PHI node, which is marked as removed. *)
Theorem vector_phi_rule (PI : positive) (I : Instruction) (elt : Ty) (w : positive)
    (st st' : State) :
  storeFresh st →
  insts st !! PI = Some I → opcode I = PHI → type I = VectorTy elt w →
  scalarizeInstruction_PHINode PI st = Some (tt, st') →
  if existsb (isVmeSend (insts st)) (operands I) then
    code st' = code st ∧
    ∀ v t, v ∈ operands I → typeOf (insts st) v = Some t → isVectorTy t = true →
           v ∈ m_usedVectors st'
  else
    ∃ newEntry s1 phis s2 X s3,
      getSCMEntry (VInst PI) st = Some (newEntry, s1) ∧
      mapM' (seq 0 (Pos.to_nat w))
            (λ _, createBefore (plainInst PHI elt []) (Some PI)) s1 = Some (phis, s2) ∧
      length phis = Pos.to_nat w ∧
      (∀ phi, phi ∈ phis → insts st !! phi = None) ∧
      collectLanes phis (zip (operands I) (incomingBlocks I)) s2 = Some (X, s3) ∧
      length X = length (operands I) ∧
      (∀ n phi, phis !! n = Some phi →
         ∃ i, insts st' !! phi = Some i ∧ opcode i = PHI ∧ type i = elt ∧
              operands i = column n X ∧
              incomingBlocks i = take (length (operands I)) (incomingBlocks I)) ∧
      stripped st' = stripped s3 ∧ func st' = func s3 ∧
      m_SCM st' !! VInst PI = Some newEntry ∧
      lookupEntry st' newEntry = Some (mkSCMEntry (Some <$> (VInst <$> phis)) true) ∧
      PI ∈ m_removedInsts st'.
Proof.
  intros Hfresh HI Hop HtI H. unfold scalarizeInstruction_PHINode in H.
  apply bind_Some in H. destruct H as (I' & z & HI' & H).
  apply getInst_inv in HI'. destruct HI' as [HI' ->].
  rewrite HI in HI'. injection HI' as <-.
  rewrite HtI in H. simpl in H.
  apply bind_Some in H. destruct H as (m & z & Hm & H).
  apply gets_inv in Hm. destruct Hm as [-> ->].
  destruct (existsb (isVmeSend (insts st)) (operands I)).
  { destruct (recoverNonScalarizableInst_spec _ _ _ _ HI H) as (Hcode & _ & Hreg).
    split; [exact Hcode|].
    intros v t Hv. apply Hreg. unfold recoveredOperands. by rewrite Hop. }
  apply bind_Some in H. destruct H as (newEntry & s1 & Hentry & H).
  apply bind_Some in H. destruct H as (newScalarizedPHI & s2 & Hnew & H).
  apply bind_Some in H. destruct H as ([] & s3 & Hfill & H).
  apply bind_Some in H. destruct H as ([] & s4 & Hupd & H).
  apply modify_inv in H. subst st'.
  apply (mapM'_fmap (λ id, Some (VInst id))) in Hnew.
  destruct Hnew as (phis & Hnew & ->).
  rewrite (list_fmap_compose VInst Some) in Hfill, Hupd.
  pose proof (mapM'_length _ _ _ _ _ Hnew) as Hlen. rewrite length_seq in Hlen.
  (* the new nodes *)
  pose proof (keeps_getSCMEntry_insts _ _ _ _ Hentry) as Hi1.
  pose proof (keeps_getSCMEntry_outside _ _ _ _ Hentry) as Hout1.
  assert (Hn1 : nextId s1 = nextId st) by exact (f_equal (λ x, x.1.1.1.1) Hout1).
  assert (Hfresh1 : storeFresh s1).
  { intros k i Hk. rewrite Hn1. rewrite Hi1 in Hk. exact (Hfresh k i Hk). }
  destruct (createLoop_frame _ _ _ _ _ _ Hfresh1 Hnew) as [Hfresh2 Hkeep2].
  destruct (createLoop_new _ _ _ _ _ _ Hfresh1 Hnew) as (Hnd & Hge & Hall).
  rewrite Hn1 in Hge.
  assert (HnotPI : PI ∉ phis).
  { intros Hin. apply Hge in Hin. apply Hfresh in HI. lia. }
  (* the lanes *)
  rewrite <- Hlen in Hfill.
  apply (fillScalarPHIs_collect I phis (length (operands I)) 0) in Hfill; [|lia].
  rewrite !drop_0 in Hfill. destruct Hfill as (X & HX & HlenX).
  destruct (collectLanes_spec _ _ _ _ _ Hnd Hfresh2 HX)
    as (Hfresh3 & _ & Hscm3 & Hrm3 & Hout3 & Hin3).
  (* the entry *)
  pose proof (keeps_updateSCMEntryWithValues_shape _ _ _ _ _ _ _ _ Hupd) as Hshape.
  pose proof (keeps_updateSCMEntryWithValues_stripped _ _ _ _ _ _ _ _ Hupd) as Hstr4.
  pose proof (keeps_updateSCMEntryWithValues_outside _ _ _ _ _ _ _ _ Hupd) as Hout4.
  apply updateSCMEntryWithValues_entry in Hupd.
  destruct Hupd as (elt2 & w2 & arr & lanes & Hty & Harr & Hlt & Hlen' & _ & Hlanes & Harrs).
  assert (Hty3 : typeOf (insts s3) (VInst PI) = Some (VectorTy elt w)).
  { assert (Hs : stripped s3 !! PI = Some (setDebugLoc None I)).
    { apply (Hout3 PI _ HnotPI). unfold stripped. rewrite lookup_fmap.
      rewrite (Hkeep2 PI I); [reflexivity|]. by rewrite Hi1. }
    unfold stripped in Hs. rewrite lookup_fmap in Hs. simpl.
    destruct (insts s3 !! PI) as [i3|]; [|discriminate]. simpl in *.
    injection Hs as _ Hty3. by rewrite Hty3, HtI. }
  rewrite Hty3 in Hty. injection Hty as <- <-.
  assert (Hsame : lanes = Some <$> (VInst <$> phis)).
  { apply list_eq. intros i. destruct (decide (i < Pos.to_nat w)) as [Hi|Hi].
    - exact (Hlanes i Hi).
    - rewrite !lookup_ge_None_2; [reflexivity | rewrite !length_fmap; lia | lia]. }
  subst lanes.
  exists newEntry, s1, phis, s2, X, s3.
  split; [exact Hentry|]. split; [exact Hnew|]. split; [exact Hlen|].
  split.
  { intros phi Hphi. apply Hge in Hphi.
    destruct (insts st !! phi) as [i|] eqn:Hi; [|reflexivity].
    apply Hfresh in Hi. lia. }
  split; [exact HX|]. split; [exact HlenX|].
  split.
  { intros n phi Hn.
    assert (Hphi2 : insts s2 !! phi = Some (plainInst PHI elt [])).
    { destruct (Forall2_lookup_r _ _ _ _ _ Hall Hn) as (x & _ & Hx). exact Hx. }
    destruct (Hin3 n phi _ Hn Hphi2) as (i3 & Hi3 & Hop3 & Hty3' & Hops3 & Hbbs3).
    pose proof (stripped_lookup s3 s4 phi Hstr4) as Hl. rewrite Hi3 in Hl.
    destruct (insts s4 !! phi) as [i4|] eqn:Hi4; [|contradiction].
    assert (Hs : stripped s4 !! phi = stripped s3 !! phi) by (by rewrite Hstr4).
    unfold stripped in Hs. rewrite !lookup_fmap, Hi3, Hi4 in Hs. simpl in Hs.
    injection Hs as Hop4 Hty4 Hops4 _ _ Hbbs4 _ _.
    exists i4. split; [exact Hi4|]. simpl in *.
    split; [congruence|]. split; [congruence|]. split; [congruence|].
    rewrite Hbbs4, Hbbs3. apply snd_zip_take. }
  split; [exact Hstr4|].
  split; [exact (f_equal (λ x, x.1.1.1.2) Hout4)|].
  split.
  { change (m_SCM s4 !! VInst PI = Some newEntry).
    injection Hshape as -> _ _ _.
    apply (lookup_weaken (m_SCM s2)); [|exact Hscm3].
    assert (H2 : m_SCM s2 = m_SCM s1).
    { revert Hnew. apply keeps_mapM'. intros x. apply keeps_createBefore_SCM. }
    rewrite H2. exact (proj2 (getSCMEntry_SCM _ _ _ _ Hentry)). }
  split.
  { unfold lookupEntry. simpl. rewrite Harrs.
    rewrite list_lookup_insert_eq by (by apply lookup_lt_Some in Harr). simpl.
    by apply list_lookup_insert_eq. }
  simpl. apply elem_of_union. left. by apply elem_of_singleton.
Qed.

Lemma vector_phi_rule_witness :
  (∃ st', scalarizeInstruction_PHINode 3 sample_vme_phi = Some (tt, st') ∧
          code st' = code sample_vme_phi ∧ VInst 1 ∈ m_usedVectors st') ∧
  (∃ st' phis, scalarizeInstruction_PHINode 2 sample_loop = Some (tt, st') ∧
               length phis = 2 ∧
               (∀ phi, phi ∈ phis → ∃ i, insts st' !! phi = Some i ∧ opcode i = PHI ∧
                                         type i = i32 ∧ incomingBlocks i = [0; 1]%N) ∧
               2%positive ∈ m_removedInsts st').
Proof.
  split.
  - assert (Hc : holdsAfter (scalarizeInstruction_PHINode 3 sample_vme_phi)
                   (λ _ _, true) = true) by (vm_compute; reflexivity).
    apply holdsAfter_Some in Hc. destruct Hc as ([] & st' & E & _).
    exists st'. split; [exact E|].
    assert (Hf : storeFresh sample_vme_phi)
      by (apply storeFresh_decide; vm_compute; reflexivity).
    pose proof (vector_phi_rule 3
                  (mkInst PHI v4i32 [VInst 1] 0%N noFlags [0%N] [] None None)
                  i32 4 sample_vme_phi st' Hf eq_refl eq_refl eq_refl E) as H.
    assert (Hb : existsb (isVmeSend (insts sample_vme_phi)) [VInst 1] = true)
      by (vm_compute; reflexivity).
    change (operands (mkInst PHI v4i32 [VInst 1] 0%N noFlags [0%N] [] None None))
      with [VInst 1] in H.
    rewrite Hb in H. destruct H as [Hcode Hreg].
    split; [exact Hcode|].
    apply (Hreg (VInst 1) v4i32); [left | reflexivity | reflexivity].
  - assert (Hc : holdsAfter (scalarizeInstruction_PHINode 2 sample_loop)
                   (λ _ _, true) = true) by (vm_compute; reflexivity).
    apply holdsAfter_Some in Hc. destruct Hc as ([] & st' & E & _).
    assert (Hf : storeFresh sample_loop)
      by (apply storeFresh_decide; vm_compute; reflexivity).
    pose proof (vector_phi_rule 2
                  (mkInst PHI v2i32 [VConst (ConstantData v2i32 10); VInst 3]
                     0%N noFlags [0; 1]%N [] None None)
                  i32 2 sample_loop st' Hf eq_refl eq_refl eq_refl E) as H.
    assert (Hb : existsb (isVmeSend (insts sample_loop))
                   [VConst (ConstantData v2i32 10); VInst 3] = false)
      by (vm_compute; reflexivity).
    change (operands (mkInst PHI v2i32 [VConst (ConstantData v2i32 10); VInst 3]
                        0%N noFlags [0; 1]%N [] None None))
      with [VConst (ConstantData v2i32 10); VInst 3] in H.
    rewrite Hb in H.
    destruct H as (newEntry & s1 & phis & s2 & X & s3 & _ & _ & Hlen & _ & _ & _
                   & Hphis & _ & _ & _ & _ & Hrm).
    exists st', phis. split; [exact E|]. split; [exact Hlen|]. split; [|exact Hrm].
    intros phi Hphi. apply list_elem_of_lookup in Hphi. destruct Hphi as [n Hn].
    destruct (Hphis n phi Hn) as (i & Hi & Hop & Hty & _ & Hbbs).
    exists i. auto.
Defined.

(** * Further properties of the pass *)

(** ** The entries of the SCM *)

(** X1: the entry that [getSCMEntry] returns for a value is the entry that
    every later lookup of the value finds: [getScalarizedValues] returns
    it, and asking [getSCMEntry] again returns it without handing out
    another entry or changing anything. *)
Theorem getSCMEntry_then_lookup (v : Value) (p : SCMEntryPtr) (st st' : State) :
  getSCMEntry v st = Some (p, st') →
  getScalarizedValues v st' = Some (Some p, st') ∧
  getSCMEntry v st' = Some (p, st').
Proof.
  intros H. pose proof (proj2 (getSCMEntry_SCM _ _ _ _ H)) as Hp.
  assert (Hu : isUndefValue v = false).
  { unfold getSCMEntry in H. apply bind_Some in H. destruct H as ([] & z & Hr & _).
    apply require_inv in Hr. destruct Hr as [Hr _]. by apply negb_true_iff in Hr. }
  split.
  - unfold getScalarizedValues. apply bind_Some. exists (m_SCM st'), st'.
    split; [reflexivity|]. by rewrite Hp.
  - unfold getSCMEntry. apply bind_Some. exists tt, st'. split.
    + apply require_Some. rewrite Hu. auto.
    + apply bind_Some. exists (m_SCM st'), st'. split; [reflexivity|]. by rewrite Hp.
Qed.

Lemma getSCMEntry_then_lookup_witness :
  ∃ p st', getSCMEntry (VInst 1) sample_add_call = Some (p, st') ∧
           getScalarizedValues (VInst 1) st' = Some (Some p, st') ∧
           getSCMEntry (VInst 1) st' = Some (p, st').
Proof.
  assert (Hc : holdsAfter (getSCMEntry (VInst 1) sample_add_call) (λ _ _, true) = true)
    by (vm_compute; reflexivity).
  apply holdsAfter_Some in Hc. destruct Hc as (p & st' & E & _).
  exists p, st'. split; [exact E|]. exact (getSCMEntry_then_lookup _ _ _ _ E).
Defined.

(** X2: a value that has no entry yet gets an entry that was not handed out
    before and that no value of the SCM has; the entry is empty (its first
    lane is null) and does not say that the original was removed.  It is the
    next entry of the current allocation array, or the first entry of a new
    array, which is pushed when the current one is used up; every other
    entry that was handed out is left as it was. *)
Theorem getSCMEntry_new_entry (v : Value) (p : SCMEntryPtr) (st st' : State) :
  scmWf st → m_SCM st !! v = None →
  getSCMEntry v st = Some (p, st') →
  ¬ allocated st p ∧ allocated st' p ∧
  (∀ v', m_SCM st !! v' ≠ Some p) ∧
  (∃ e, lookupEntry st' p = Some e ∧ scalarValues e !! 0 = Some None ∧
        isOriginalVectorRemoved e = false) ∧
  (if decide (m_SCMArrayLocation st = ESTIMATED_INST_NUM st)
   then p = (length (m_SCMArrays st), 0) ∧
        length (m_SCMArrays st') = S (length (m_SCMArrays st))
   else p = (m_SCMAllocationArray st, m_SCMArrayLocation st) ∧
        length (m_SCMArrays st') = length (m_SCMArrays st)) ∧
  (∀ q, allocated st q → lookupEntry st' q = lookupEntry st q) ∧
  scmWf st'.
Proof.
  intros Hwf Hnone H.
  pose proof (getSCMEntry_old _ _ _ _ Hwf H) as [_ Hold].
  assert (Hwf' : scmWf st').
  { (* the discipline is kept whatever the entries hold *)
    pose proof H as H0. apply getSCMEntry_spec in H0.
    destruct H0 as [[Hv _]|[_ H0]]; [congruence|].
    destruct Hwf as (Hlast & Hlens & Hloc & Halloc & Hinj).
    destruct H0 as (arrays1 & alloc1 & loc1 & arr & e & Hcase & -> & Harr & He &
                    Hscm & Ha & Hl & Hest & Harrays).
    assert (Hlens1 : Forall (λ r, length r = ESTIMATED_INST_NUM st) arrays1).
    { destruct (decide (m_SCMArrayLocation st = ESTIMATED_INST_NUM st));
        destruct Hcase as (-> & _ & _); [|exact Hlens].
      apply Forall_app. split; [exact Hlens|].
      constructor; [apply length_replicate | constructor]. }
    assert (Hfresh : ¬ allocated st (alloc1, loc1)).
    { unfold allocated. simpl.
      destruct (decide (m_SCMArrayLocation st = ESTIMATED_INST_NUM st));
        destruct Hcase as (_ & -> & ->); lia. }
    assert (Hmono : ∀ q, allocated st q → allocated st' q).
    { intros q Hq. unfold allocated in *. rewrite Ha, Hl.
      destruct (decide (m_SCMArrayLocation st = ESTIMATED_INST_NUM st));
        destruct Hcase as (_ & -> & ->); lia. }
    unfold scmWf. rewrite Ha, Hl, Hest, Harrays, Hscm.
    split; [|split; [|split; [|split]]].
    - rewrite length_insert.
      destruct (decide (m_SCMArrayLocation st = ESTIMATED_INST_NUM st));
        destruct Hcase as (-> & -> & _); [rewrite length_app; simpl; lia | exact Hlast].
    - apply Forall_insert; [exact Hlens1|]. rewrite length_insert.
      rewrite Forall_lookup in Hlens1. exact (Hlens1 _ _ Harr).
    - rewrite Forall_lookup in Hlens1. rewrite <- (Hlens1 _ _ Harr).
      apply lookup_lt_Some in He. lia.
    - intros k q Hk. apply lookup_insert_Some in Hk.
      destruct Hk as [[_ <-]|[_ Hk]].
      + unfold allocated. rewrite Ha, Hl. simpl. lia.
      + apply Hmono. by apply (Halloc k).
    - intros k1 k2 q Hk1 Hk2.
      apply lookup_insert_Some in Hk1. apply lookup_insert_Some in Hk2.
      destruct Hk1 as [[<- <-]|[Hne1 Hk1]], Hk2 as [[<- Heq]|[Hne2 Hk2]].
      + reflexivity.
      + exfalso. apply Hfresh. by apply (Halloc k2).
      + exfalso. apply Hfresh. rewrite Heq. by apply (Halloc k1).
      + by apply (Hinj k1 k2 q). }
  apply getSCMEntry_spec in H. destruct H as [[Hv _]|[_ H]]; [congruence|].
  destruct Hwf as (Hlast & Hlens & Hloc & Halloc & Hinj).
  destruct H as (arrays1 & alloc1 & loc1 & arr & e & Hcase & -> & Harr & He &
                 Hscm & Ha & Hl & Hest & Harrays).
  assert (Ho : loc1 < length arr) by (by apply lookup_lt_Some in He).
  assert (Hfresh : ¬ allocated st (alloc1, loc1)).
  { unfold allocated. simpl.
    destruct (decide (m_SCMArrayLocation st = ESTIMATED_INST_NUM st));
      destruct Hcase as (_ & -> & ->); lia. }
  split; [exact Hfresh|]. split.
  { unfold allocated. rewrite Ha, Hl. simpl. lia. }
  split.
  { intros v' Hv'. apply Hfresh. by apply (Halloc v'). }
  split.
  { eexists. split.
    - unfold lookupEntry. rewrite Harrays. simpl.
      rewrite list_lookup_insert_eq by (by apply lookup_lt_Some in Harr). simpl.
      by apply list_lookup_insert_eq.
    - simpl. by destruct (scalarValues e). }
  split; [|split; [exact Hold | exact Hwf']].
  rewrite Harrays, length_insert.
  destruct (decide (m_SCMArrayLocation st = ESTIMATED_INST_NUM st));
    destruct Hcase as (-> & -> & ->).
  - split; [reflexivity|]. rewrite length_app. simpl. lia.
  - auto.
Qed.

Lemma getSCMEntry_new_entry_witness :
  ∃ p st', getSCMEntry (VInst 1) sample_add_call = Some (p, st') ∧
           ¬ allocated sample_add_call p ∧ allocated st' p ∧ scmWf st'.
Proof.
  assert (Hc : holdsAfter (getSCMEntry (VInst 1) sample_add_call) (λ _ _, true) = true)
    by (vm_compute; reflexivity).
  apply holdsAfter_Some in Hc. destruct Hc as (p & st' & E & _).
  exists p, st'. split; [exact E|].
  destruct (getSCMEntry_new_entry (VInst 1) p sample_add_call st') as (H1 & H2 & _ & _ & _ & _ & H3).
  - apply scmWfb_correct. vm_compute. reflexivity.
  - reflexivity.
  - exact E.
  - auto.
Defined.

Lemma getLanes_run (lanes : list Value) (rest : list (option Value)) (k : nat)
    (pre : list (option Value)) (st : State) :
  length pre = k →
  mapM' (seq k (length lanes)) (getLane (pre ++ (Some <$> lanes) ++ rest)) st
  = Some (lanes, st).
Proof.
  revert k pre. induction lanes as [|x lanes IH]; intros k pre Hk; simpl; [reflexivity|].
  apply bind_Some. exists x, st. split.
  - unfold getLane. apply bind_Some. exists (Some x), st. split; [|reflexivity].
    rewrite lookup_app_r, Hk, Nat.sub_diag by lia. reflexivity.
  - apply bind_Some. exists lanes, st. split; [|reflexivity].
    specialize (IH (S k) (pre ++ [Some x])).
    rewrite <- app_assoc in IH. apply IH. rewrite length_app. simpl. lia.
Qed.

(** The lanes that the SCM holds for a value are the lanes that
    [obtainScalarizedValues] returns for it, and the state is left alone. *)
Lemma obtainScalarizedValues_hit (r : list (option Value)) (v : Value) (p : SCMEntryPtr)
    (lanes : list Value) (rm : bool) (elt : Ty) (w : positive) (st : State) :
  typeOf (insts st) v = Some (VectorTy elt w) →
  m_SCM st !! v = Some p →
  lookupEntry st p = Some (mkSCMEntry (Some <$> lanes) rm) →
  length lanes = Pos.to_nat w →
  obtainScalarizedValues r v None st = Some ((Some <$> lanes, isConstant v), st).
Proof.
  intros Hty Hp He Hlen. unfold obtainScalarizedValues.
  apply bind_Some. exists (VectorTy elt w), st. split; [by apply getType_typeOf|].
  apply bind_Some. exists (elt, Pos.to_nat w), st. split; [reflexivity|]. simpl.
  apply bind_Some. exists (Some p), st. split.
  { unfold getScalarizedValues. apply bind_Some. exists (m_SCM st), st.
    split; [reflexivity|]. by rewrite Hp. }
  destruct lanes as [|x lanes]; [simpl in Hlen; lia|].
  apply bind_Some. exists (Some (mkSCMEntry (Some <$> x :: lanes) rm)), st. split.
  { unfold filledEntry. apply bind_Some. eexists _, st. split.
    - unfold readEntry. apply bind_Some. exists (m_SCMArrays st), st.
      split; [reflexivity|]. unfold lookupEntry in He. rewrite He. reflexivity.
    - reflexivity. }
  apply bind_Some. exists (x :: lanes), st. split.
  { rewrite <- Hlen.
    pose proof (getLanes_run (x :: lanes) [] 0 [] st eq_refl) as Hrun.
    rewrite app_nil_r in Hrun. exact Hrun. }
  apply bind_Some. exists (Some <$> x :: lanes), st. split; [|reflexivity].
  destruct (storeLanes_run (x :: lanes) (resize (Pos.to_nat w) r) 0 st) as (r' & Hr').
  { rewrite length_resize. lia. }
  rewrite Hr'. apply storeLanes_full in Hr'; [by subst r'|].
  by rewrite length_resize.
Qed.

Lemma update_then_obtain_lanes (p : SCMEntryPtr) (vals r : list (option Value)) (v : Value)
    (rm dbg : bool) (st st' : State) :
  m_SCM st !! v = Some p →
  updateSCMEntryWithValues p vals v rm dbg st = Some (tt, st') →
  ∃ elt w lanes,
    typeOf (insts st) v = Some (VectorTy elt w) ∧
    length lanes = Pos.to_nat w ∧ take (Pos.to_nat w) vals = Some <$> lanes ∧
    obtainScalarizedValues r v None st' = Some ((Some <$> lanes, isConstant v), st').
Proof.
  intros Hp H.
  pose proof (keeps_updateSCMEntryWithValues_shape _ _ _ _ _ _ _ _ H) as Hshape.
  pose proof (keeps_updateSCMEntryWithValues_stripped _ _ _ _ _ _ _ _ H) as Hstr.
  apply updateSCMEntryWithValues_entry in H.
  destruct H as (elt & w & arr & lanes' & Hty & Harr & Hlt & Hlen & Hall & Hlanes & Harrs).
  assert (Hex : ∃ lanes, lanes' = Some <$> lanes).
  { clear -Hall. induction lanes' as [|[x|] l IH].
    - by exists [].
    - apply Forall_cons in Hall. destruct Hall as [_ Hall].
      destruct (IH Hall) as (lanes & ->). by exists (x :: lanes).
    - apply Forall_cons in Hall. destruct Hall as [[? Hx] _]. discriminate. }
  destruct Hex as (lanes & ->). rewrite length_fmap in Hlen.
  exists elt, w, lanes. split; [exact Hty|]. split; [exact Hlen|]. split.
  { apply list_eq. intros i. destruct (decide (i < Pos.to_nat w)) as [Hi|Hi].
    - rewrite lookup_take_lt by exact Hi. symmetry. by apply Hlanes.
    - rewrite lookup_take_ge by lia. symmetry. apply lookup_ge_None_2.
      rewrite length_fmap. lia. }
  apply (obtainScalarizedValues_hit r v p lanes rm elt w).
  - by rewrite (typeOf_stripped _ _ v Hstr).
  - injection Hshape as -> _ _ _. exact Hp.
  - unfold lookupEntry. rewrite Harrs.
    rewrite list_lookup_insert_eq by (by apply lookup_lt_Some in Harr). simpl.
    by apply list_lookup_insert_eq.
  - exact Hlen.
Qed.

(** X3: what is written to the entry of a value is what is read back.  After
    [updateSCMEntryWithValues] has written the values to the entry of
    [origValue], [obtainScalarizedValues] returns for [origValue] the first
    values, as many as its vector type has elements, and changes nothing. *)
Theorem update_then_obtain (p : SCMEntryPtr) (vals r : list (option Value)) (v : Value)
    (rm dbg : bool) (st st' : State) :
  m_SCM st !! v = Some p →
  updateSCMEntryWithValues p vals v rm dbg st = Some (tt, st') →
  ∃ elt w lanes,
    typeOf (insts st) v = Some (VectorTy elt w) ∧
    length lanes = Pos.to_nat w ∧ take (Pos.to_nat w) vals = Some <$> lanes ∧
    obtainScalarizedValues r v None st' = Some ((Some <$> lanes, isConstant v), st').
Proof. apply update_then_obtain_lanes. Qed.

Lemma update_then_obtain_witness :
  ∃ p st1 st2,
    getSCMEntry (VInst 1) sample_add_call = Some (p, st1) ∧
    updateSCMEntryWithValues p [Some (VArg i32 0); Some (VArg i32 1)]
      (VInst 1) true false st1 = Some (tt, st2) ∧
    obtainScalarizedValues [] (VInst 1) None st2
    = Some (([Some (VArg i32 0); Some (VArg i32 1)], false), st2).
Proof.
  assert (Hc : holdsAfter (getSCMEntry (VInst 1) sample_add_call) (λ p st1,
                 holdsAfter (updateSCMEntryWithValues p
                               [Some (VArg i32 0); Some (VArg i32 1)]
                               (VInst 1) true false st1) (λ _ _, true)) = true)
    by (vm_compute; reflexivity).
  apply holdsAfter_Some in Hc. destruct Hc as (p & st1 & E1 & Hc).
  apply holdsAfter_Some in Hc. destruct Hc as ([] & st2 & E2 & _).
  exists p, st1, st2. split; [exact E1|]. split; [exact E2|].
  pose proof (proj2 (getSCMEntry_SCM _ _ _ _ E1)) as Hp.
  destruct (update_then_obtain p _ [] (VInst 1) true false st1 st2 Hp E2)
    as (elt & w & lanes & Hty & Hlen & Htake & Hob).
  rewrite (keeps_getSCMEntry_insts _ _ _ _ E1) in Hty.
  vm_compute in Hty. injection Hty as <- <-.
  destruct lanes as [|a [|b [|]]]; try discriminate Hlen.
  simpl in Htake. injection Htake as <- <-. exact Hob.
Defined.
(** ** The branches of the lane resolution *)

Lemma obtainScalarizedValues_lanes (r r' : list (option Value)) (v : Value) (c : bool)
    (st st' : State) :
  obtainScalarizedValues r v None st = Some ((r', c), st') →
  ∃ ls elt w,
    typeOf (insts st) v = Some (VectorTy elt w) ∧
    resolveLanes v st = Some (ls, st') ∧
    length ls = Pos.to_nat w ∧ c = isConstant v ∧ r' = Some <$> ls.
Proof.
  intros H. apply obtainScalarizedValues_resolveLanes in H.
  2:{ intros [? Habs]. discriminate. }
  destruct H as (ls & elt & w & Hty & Hres & Hlen & Hc & Hstore).
  exists ls, elt, w. repeat (split; [assumption|]).
  specialize (Hstore st). simpl in Hstore.
  apply storeLanes_full in Hstore; [exact Hstore|]. by rewrite length_resize.
Qed.

Lemma createBefore_None (i : Instruction) (st : State) :
  createBefore i None st = newInst i st.
Proof.
  unfold createBefore. cbv [mbind M_bind mret M_ret].
  by destruct (newInst i st) as [[id s]|].
Qed.

Lemma mapM'_ext {A B : Type} (l : list A) (f g : A → M B) (st : State) :
  (∀ x s, f x s = g x s) → mapM' l f st = mapM' l g st.
Proof.
  intros Hfg. revert st. induction l as [|x l IH]; intros st; simpl; [reflexivity|].
  cbv [mbind M_bind]. rewrite Hfg. destruct (g x st) as [[y s]|]; [|reflexivity].
  by rewrite IH.
Qed.

(** The five ways in which the lanes of a value are resolved. *)
Lemma resolveLanes_cases (v : Value) (ls : list Value) (st st' : State) :
  resolveLanes v st = Some (ls, st') →
  ∃ elt w,
    typeOf (insts st) v = Some (VectorTy elt w) ∧
    ((∃ e, filledEntry (m_SCM st !! v) st = Some (Some e, st) ∧
           mapM' (seq 0 (Pos.to_nat w)) (getLane (scalarValues e)) st = Some (ls, st) ∧
           st' = st) ∨
     (filledEntry (m_SCM st !! v) st = Some (None, st) ∧
      ((isUndefValue v = true ∧
        ls = replicate (Pos.to_nat w) (VConst (UndefValue elt)) ∧ st' = st) ∨
       (isUndefValue v = false ∧
        ((∃ c, v = VConst c ∧
               ls = (λ i, VConst (getExtractElement c i)) <$> seq 0 (Pos.to_nat w) ∧
               st' = st) ∨
         (∃ vi ids s1, v = VInst vi ∧ m_SCM st !! v = None ∧
                       mapM' (seq 0 (Pos.to_nat w)) (λ _, newInst (dummyLoad elt)) st
                       = Some (ids, s1) ∧
                       ls = VInst <$> ids ∧
                       st' = set_DRL (λ drl, drl ++ [mkDRLEntry v (VInst <$> ids)]) s1) ∨
         ((∀ c, v ≠ VConst c) ∧ (∀ vi, v = VInst vi → is_Some (m_SCM st !! v)) ∧
          ∃ loc ids s1 p s2,
            breakdownLocation v st = Some (loc, st) ∧
            mapM' (seq 0 (Pos.to_nat w)) (λ i,
              createBefore (plainInst ExtractElement elt [v; constIndex i]) loc) st
            = Some (ids, s1) ∧
            getSCMEntry v s1 = Some (p, s2) ∧
            updateSCMEntryWithValues p (Some <$> (VInst <$> ids)) v false true s2
            = Some (tt, st') ∧
            ls = VInst <$> ids)))))).
Proof.
  intros H. unfold resolveLanes in H.
  apply bind_Some in H. destruct H as (t & z1 & Ht & H).
  apply getType_inv in Ht. destruct Ht as [Ht ->].
  apply bind_Some in H. destruct H as ([elt n] & z1 & Hw & H).
  apply fromOption_inv in Hw. destruct Hw as [Hw ->].
  destruct t as [| | | |elt' w|]; try discriminate Hw.
  simpl in Hw. injection Hw as -> <-.
  apply bind_Some in H. destruct H as (cur & z1 & Hc & H).
  unfold getScalarizedValues in Hc.
  apply bind_Some in Hc. destruct Hc as (scm & z2 & Hscm & Hc).
  apply gets_inv in Hscm. destruct Hscm as [-> ->].
  apply ret_inv in Hc. destruct Hc as [-> ->].
  apply bind_Some in H. destruct H as (found & s1 & Hfound & H).
  pose proof (keeps_filledEntry id _ _ _ _ Hfound) as Hs1. simpl in Hs1. subst s1.
  exists elt, w. split; [exact Ht|].
  unfold lanesBy in H. destruct found as [e|].
  { left. exists e. split; [exact Hfound|].
    pose proof (keeps_mapM'_getLane id _ _ _ _ _ H) as E. simpl in E. subst st'. auto. }
  right. split; [exact Hfound|].
  destruct (isUndefValue v) eqn:Hundef.
  { left. apply ret_inv in H. destruct H as [-> ->]. auto. }
  right. split; [reflexivity|].
  assert (Hbreak :
    (breakdownLocation v ≫= λ locationInst,
     mapM' (seq 0 (Pos.to_nat w)) (λ i,
       createBefore (plainInst ExtractElement elt [v; constIndex i])
                    locationInst) ≫= λ extracts,
     getSCMEntry v ≫= λ newEntry,
     updateSCMEntryWithValues newEntry (Some <$> (VInst <$> extracts))
                              v false true ;;
     mret (VInst <$> extracts)) st = Some (ls, st') →
    ∃ loc ids s1 p s2,
      breakdownLocation v st = Some (loc, st) ∧
      mapM' (seq 0 (Pos.to_nat w)) (λ i,
        createBefore (plainInst ExtractElement elt [v; constIndex i]) loc) st
      = Some (ids, s1) ∧
      getSCMEntry v s1 = Some (p, s2) ∧
      updateSCMEntryWithValues p (Some <$> (VInst <$> ids)) v false true s2
      = Some (tt, st') ∧
      ls = VInst <$> ids).
  { clear H. intros H.
    apply bind_Some in H. destruct H as (loc & s2 & Hloc & H).
    pose proof (keeps_breakdownLocation id _ _ _ _ Hloc) as E. simpl in E. subst s2.
    apply bind_Some in H. destruct H as (extracts & s3 & Hex & H).
    apply bind_Some in H. destruct H as (newEntry & s5 & Hnew & H).
    apply bind_Some in H. destruct H as ([] & s6 & Hupd & H).
    apply ret_inv in H. destruct H as [-> ->].
    exists loc, extracts, s3, newEntry, s5. auto. }
  destruct v as [vi|ta na|vc].
  - destruct (m_SCM st !! VInst vi) as [q|] eqn:Hq.
    + right. right. split; [discriminate|]. split; [intros ? _; eauto|].
      exact (Hbreak H).
    + right. left.
      apply bind_Some in H. destruct H as (dummies & s2 & Hd & H).
      apply bind_Some in H. destruct H as ([] & s4 & Hdrl & H).
      apply ret_inv in H. destruct H as [-> ->].
      apply modify_inv in Hdrl. subst s4.
      exists vi, dummies, s2. auto.
  - right. right. split; [discriminate|]. split; [discriminate|].
    exact (Hbreak H).
  - left. apply ret_inv in H. destruct H as [-> ->]. eauto.
Qed.

Lemma createLoop_frames {A : Type} (idx : list A) (mk : A → Instruction)
    (loc : option positive) (ids : list positive) (st st' : State) :
  mapM' idx (λ x, createBefore (mk x) loc) st = Some (ids, st') →
  (m_SCM st', m_SCMArrays st', scmShape st') = (m_SCM st, m_SCMArrays st, scmShape st) ∧
  (m_DRL st', m_usedVectors st', m_removedInsts st')
  = (m_DRL st, m_usedVectors st, m_removedInsts st) ∧
  (loc = None → func st' = func st).
Proof.
  revert ids st. induction idx as [|x idx IH]; intros ids st H; simpl in H.
  - apply ret_inv in H. destruct H as [_ ->]. auto.
  - apply bind_Some in H. destruct H as (y & s1 & Hy & H).
    apply bind_Some in H. destruct H as (ys & s2 & Hys & H).
    apply ret_inv in H. destruct H as [_ ->].
    pose proof (createBefore_inv _ _ _ _ _ Hy) as (_ & _ & _ & Hscm & Hrest).
    pose proof (createBefore_func _ _ _ _ _ Hy) as Hf.
    destruct (IH _ _ Hys) as (Hscm' & Hrest' & Hf').
    split; [congruence|]. split; [congruence|].
    intros ->. rewrite (Hf' eq_refl). exact Hf.
Qed.

(** The placeholders that a loop of [new LoadInst(dummyPtr)] makes. *)
Lemma newLoop_new {A : Type} (idx : list A) (i : Instruction) (ids : list positive)
    (st st' : State) :
  storeFresh st →
  mapM' idx (λ _, newInst i) st = Some (ids, st') →
  storeFresh st' ∧ NoDup ids ∧ length ids = length idx ∧
  (∀ id, id ∈ ids → insts st !! id = None ∧ insts st' !! id = Some i) ∧
  (∀ k i0, insts st !! k = Some i0 → insts st' !! k = Some i0) ∧
  func st' = func st ∧
  (m_SCM st', m_SCMArrays st', scmShape st') = (m_SCM st, m_SCMArrays st, scmShape st) ∧
  (m_DRL st', m_usedVectors st', m_removedInsts st')
  = (m_DRL st, m_usedVectors st, m_removedInsts st).
Proof.
  intros Hfresh H.
  rewrite (mapM'_ext idx _ (λ _, createBefore i None)) in H
    by (intros; symmetry; apply createBefore_None).
  destruct (createLoop_frame _ _ _ _ _ _ Hfresh H) as [Hfresh' Hkeep].
  destruct (createLoop_new _ _ _ _ _ _ Hfresh H) as (Hnd & Hge & Hall).
  destruct (createLoop_frames _ _ _ _ _ _ H) as (Hscm & Hrest & Hf).
  split; [exact Hfresh'|]. split; [exact Hnd|].
  split; [exact (mapM'_length _ _ _ _ _ H)|].
  split; [|split; [exact Hkeep|split; [by apply Hf|split; assumption]]].
  intros id Hid. split.
  - apply Hge in Hid. destruct (insts st !! id) as [i0|] eqn:Hi; [|reflexivity].
    apply Hfresh in Hi. lia.
  - apply list_elem_of_lookup in Hid. destruct Hid as [n Hn].
    destruct (Forall2_lookup_r _ _ _ _ _ Hall Hn) as (x & _ & Hx). exact Hx.
Qed.

Lemma isDummyInst_stripped (i i' : Instruction) :
  setDebugLoc None i' = setDebugLoc None i → isDummyInst i' = isDummyInst i.
Proof.
  intros H. injection H as Hop _ Hops _ _ _ _ _. unfold isDummyInst.
  by rewrite Hop, Hops.
Qed.

(** A well-formed DRL stays well-formed when the store grows. *)
Lemma drlWf_grows (l : list DRLEntry) (st st' : State) :
  stripped st ⊆ stripped st' →
  Forall (λ entry,
    ∃ elt w,
      typeOf (insts st) (unresolvedInst entry) = Some (VectorTy elt w) ∧
      length (dummyVals entry) = Pos.to_nat w ∧
      Forall (λ v, ∃ d i, v = VInst d ∧ insts st !! d = Some i ∧ isDummyInst i = true)
             (dummyVals entry)) l →
  Forall (λ entry,
    ∃ elt w,
      typeOf (insts st') (unresolvedInst entry) = Some (VectorTy elt w) ∧
      length (dummyVals entry) = Pos.to_nat w ∧
      Forall (λ v, ∃ d i, v = VInst d ∧ insts st' !! d = Some i ∧ isDummyInst i = true)
             (dummyVals entry)) l.
Proof.
  intros Hsub Hl. apply (Forall_impl _ _ _ Hl). clear Hl.
  intros entry (elt & w & Hty & Hlen & Hall).
  assert (Hlook : ∀ k i, insts st !! k = Some i →
            ∃ i', insts st' !! k = Some i' ∧ setDebugLoc None i' = setDebugLoc None i).
  { intros k i Hk.
    assert (Hs : stripped st !! k = Some (setDebugLoc None i))
      by (unfold stripped; by rewrite lookup_fmap, Hk).
    apply (lookup_weaken _ _ _ _ Hs) in Hsub.
    unfold stripped in Hsub. rewrite lookup_fmap in Hsub.
    destruct (insts st' !! k) as [i'|]; [|discriminate].
    exists i'. split; [reflexivity|]. simpl in Hsub. congruence. }
  exists elt, w. split; [|split; [exact Hlen|]].
  - destruct (unresolvedInst entry) as [k| |]; simpl in *; try exact Hty.
    destruct (insts st !! k) as [i|] eqn:Hk; [|discriminate].
    destruct (Hlook k i Hk) as (i' & -> & Hi'). simpl in *.
    injection Hi' as _ Hty' _. by rewrite Hty'.
  - apply (Forall_impl _ _ _ Hall). intros x (d & i & -> & Hd & Hdummy).
    destruct (Hlook d i Hd) as (i' & Hi' & Hs).
    exists d, i'. split; [reflexivity|]. split; [exact Hi'|].
    by rewrite (isDummyInst_stripped _ _ Hs).
Qed.

(** X4: the DRL that [obtainScalarizedValues] builds is well-formed.  Every
    call keeps the store fresh and leaves every entry of the DRL with one
    placeholder for each element of the vector type of its target, each
    placeholder a dummy load among the instruction objects. *)
Theorem obtainScalarizedValues_keeps_drlWf (r : list (option Value)) (v : Value)
    (destIdx : option nat) (res : list (option Value) * bool) (st st' : State) :
  storeFresh st → drlWf st →
  obtainScalarizedValues r v destIdx st = Some (res, st') →
  storeFresh st' ∧ drlWf st'.
Proof.
  intros Hfresh Hwf H. destruct res as [r' c].
  apply obtainScalarizedValues_resolveLanes in H; [|auto].
  destruct H as (ls & elt0 & w0 & _ & Hres & _).
  destruct (grows_resolveLanes _ _ _ _ Hres Hfresh) as [Hfresh' Hsub].
  split; [exact Hfresh'|].
  pose proof (drlWf_grows _ _ _ Hsub Hwf) as Hwf'.
  apply resolveLanes_cases in Hres.
  destruct Hres as (elt & w & Hty &
    [(e & _ & _ & ->)|(_ & [(_ & _ & ->)|(_ & [(c0 & _ & _ & ->)|
       [(vi & ids & s1 & -> & Hnone & Hnew & -> & ->)|
        (_ & _ & loc & ids & s1 & p & s2 & _ & Hex & Hentry & Hupd & _)]])])]);
    try exact Hwf.
  - (* placeholders *)
    destruct (newLoop_new _ _ _ _ _ Hfresh Hnew)
      as (_ & _ & Hlen & Hids & Hkeep & _ & _ & Hrest).
    rewrite length_seq in Hlen.
    unfold drlWf in *. simpl in *.
    assert (Hd : m_DRL s1 = m_DRL st) by (by injection Hrest).
    rewrite Hd. apply Forall_app. split; [exact Hwf'|].
    constructor; [|constructor]. simpl.
    exists elt, w. split; [|split; [by rewrite length_fmap|]].
    + destruct (insts st !! vi) as [i|] eqn:Hi; [|discriminate].
      by rewrite (Hkeep vi i Hi).
    + apply Forall_fmap, Forall_forall. intros id Hid.
      exists id, (dummyLoad elt). split; [reflexivity|].
      split; [exact (proj2 (Hids id Hid)) | reflexivity].
  - (* extractions *)
    unfold drlWf in *.
    assert (Hd : m_DRL st' = m_DRL st); [|by rewrite Hd].
    destruct (createLoop_frames _ _ _ _ _ _ Hex) as (_ & Hrest & _).
    transitivity (m_DRL s2).
    { exact (f_equal (λ x, x.1.1.2) (keeps_updateSCMEntryWithValues_outside _ _ _ _ _ _ _ _ Hupd)). }
    transitivity (m_DRL s1).
    { exact (f_equal (λ x, x.1.1.2) (keeps_getSCMEntry_outside _ _ _ _ Hentry)). }
    by injection Hrest.
Qed.

Lemma obtainScalarizedValues_keeps_drlWf_witness :
  ∃ res st', obtainScalarizedValues [] (VInst 3) None sample_loop = Some (res, st') ∧
             storeFresh st' ∧ drlWf st' ∧ length (m_DRL st') = 1.
Proof.
  assert (Hc : holdsAfter (obtainScalarizedValues [] (VInst 3) None sample_loop)
                 (λ _ st', bool_decide (length (m_DRL st') = 1)) = true)
    by (vm_compute; reflexivity).
  apply holdsAfter_Some in Hc. destruct Hc as (res & st' & E & Hl).
  apply bool_decide_eq_true in Hl.
  exists res, st'. split; [exact E|].
  destruct (obtainScalarizedValues_keeps_drlWf [] (VInst 3) None res sample_loop st')
    as [Hf Hwf].
  - apply storeFresh_decide. vm_compute. reflexivity.
  - apply drlWfb_correct. vm_compute. reflexivity.
  - exact E.
  - auto.
Defined.

(** X5: a forward reference.  For an instruction that has no entry in the
    SCM, [obtainScalarizedValues] returns new placeholders, one for each
    element: dummy loads that are objects of the store but stand in no block
    of the function.  The function, the SCM and the instructions that were
    there are left alone, and one entry that pairs the instruction with the
    placeholders is put at the end of the DRL. *)
Theorem forward_reference_gets_placeholders (r r' : list (option Value)) (vi : positive)
    (c : bool) (st st' : State) :
  storeFresh st → linked st →
  m_SCM st !! VInst vi = None →
  obtainScalarizedValues r (VInst vi) None st = Some ((r', c), st') →
  ∃ elt w ids,
    typeOf (insts st) (VInst vi) = Some (VectorTy elt w) ∧
    length ids = Pos.to_nat w ∧ NoDup ids ∧
    r' = Some <$> (VInst <$> ids) ∧ c = false ∧
    (∀ id, id ∈ ids → insts st !! id = None ∧ insts st' !! id = Some (dummyLoad elt) ∧
                      id ∉ instructionsOf (func st')) ∧
    (∀ k i, insts st !! k = Some i → insts st' !! k = Some i) ∧
    func st' = func st ∧ m_SCM st' = m_SCM st ∧
    m_DRL st' = m_DRL st ++ [mkDRLEntry (VInst vi) (VInst <$> ids)].
Proof.
  intros Hfresh Hlinked Hnone H.
  apply obtainScalarizedValues_lanes in H.
  destruct H as (ls & elt0 & w0 & Hty0 & Hres & _ & -> & ->).
  apply resolveLanes_cases in Hres.
  destruct Hres as (elt & w & Hty & Hcases).
  assert (Hf : filledEntry (m_SCM st !! VInst vi) st = Some (None, st))
    by (by rewrite Hnone).
  destruct Hcases as [(e & He & _)|(_ & [(Hu & _)|(_ & [(c0 & Hc & _)|
       [(vi' & ids & s1 & Hv & _ & Hnew & -> & ->)|
        (_ & Hsome & _)]])])].
  - rewrite Hf in He. discriminate.
  - discriminate.
  - discriminate.
  - destruct (newLoop_new _ _ _ _ _ Hfresh Hnew)
      as (_ & Hnd & Hlen & Hids & Hkeep & Hfunc & Hscm & Hrest).
    rewrite length_seq in Hlen.
    exists elt, w, ids. split; [exact Hty|]. split; [exact Hlen|]. split; [exact Hnd|].
    split; [reflexivity|]. split; [reflexivity|]. simpl.
    split; [|split; [exact Hkeep|split; [exact Hfunc|split]]].
    + intros id Hid. destruct (Hids id Hid) as [Hn Hs]. split; [exact Hn|].
      split; [exact Hs|]. rewrite Hfunc. intros Hin.
      destruct (Hlinked id Hin) as [i Hi]. congruence.
    + by injection Hscm.
    + f_equal. by injection Hrest.
  - destruct (Hsome vi eq_refl) as [p Hp]. congruence.
Qed.

Lemma forward_reference_gets_placeholders_witness :
  ∃ r' st', obtainScalarizedValues [] (VInst 3) None sample_loop = Some ((r', false), st') ∧
            func st' = func sample_loop ∧ length r' = 2.
Proof.
  assert (Hc : holdsAfter (obtainScalarizedValues [] (VInst 3) None sample_loop)
                 (λ res _, negb res.2) = true)
    by (vm_compute; reflexivity).
  apply holdsAfter_Some in Hc. destruct Hc as ([r' c] & st' & E & Hc).
  apply negb_true_iff in Hc. simpl in Hc. subst c.
  exists r', st'. split; [exact E|].
  destruct (forward_reference_gets_placeholders [] r' 3 false sample_loop st')
    as (elt & w & ids & Hty & Hlen & _ & -> & _ & _ & _ & Hfunc & _).
  - apply storeFresh_decide. vm_compute. reflexivity.
  - intros id Hid.
    assert (Hb : forallb (λ id, bool_decide (is_Some (insts sample_loop !! id)))
                   (instructionsOf (func sample_loop)) = true)
      by (vm_compute; reflexivity).
    rewrite List.forallb_forall in Hb. apply list_elem_of_In, Hb in Hid.
    by apply bool_decide_eq_true in Hid.
  - reflexivity.
  - exact E.
  - split; [exact Hfunc|]. vm_compute in Hty. injection Hty as <- <-.
    by rewrite !length_fmap, Hlen.
Defined.
(** ** Loops that create instructions *)

(** A loop that creates one instruction before [l] in each iteration, from
    what a step that leaves the state alone computes: the new instructions
    stand before [l] in the order of their creation, and nothing else is
    touched. *)
Lemma createLoop_pre {A X : Type} (idx : list A) (pre : A → M X)
    (mk : A → X → Instruction) (l : positive) :
  (∀ a x s s', pre a s = Some (x, s') → s' = s) →
  ∀ (ids : list positive) (st st' : State) (l1 l2 : list positive),
    storeFresh st → NoDup (instructionsOf (func st)) →
    (∀ x, x ∈ instructionsOf (func st) → (x < nextId st)%positive) →
    instructionsOf (func st) = l1 ++ l :: l2 →
    mapM' idx (λ a, pre a ≫= λ x, createBefore (mk a x) (Some l)) st = Some (ids, st') →
    storeFresh st' ∧ NoDup ids ∧
    (∀ id, id ∈ ids → (nextId st ≤ id)%positive) ∧
    (∀ k i, insts st !! k = Some i → insts st' !! k = Some i) ∧
    instructionsOf (func st') = l1 ++ ids ++ l :: l2 ∧
    NoDup (instructionsOf (func st')) ∧
    (∀ x, x ∈ instructionsOf (func st') → (x < nextId st')%positive) ∧
    Forall2 (λ a id, ∃ x s, pre a s = Some (x, s) ∧
                            (∀ k i, insts st !! k = Some i → insts s !! k = Some i) ∧
                            (∀ k i, insts s !! k = Some i → insts st' !! k = Some i) ∧
                            insts st' !! id = Some (mk a x)) idx ids ∧
    (m_SCM st', m_SCMArrays st', scmShape st') = (m_SCM st, m_SCMArrays st, scmShape st) ∧
    (m_DRL st', m_usedVectors st', m_removedInsts st')
    = (m_DRL st, m_usedVectors st, m_removedInsts st).
Proof.
  intros Hpre. induction idx as [|a idx IH];
    intros ids st st' l1 l2 Hfresh Hnd Hlt Hsplit H; simpl in H.
  - apply ret_inv in H. destruct H as [-> ->].
    split; [exact Hfresh|]. split; [constructor|].
    split; [intros id Hid; by apply not_elem_of_nil in Hid|].
    split; [auto|]. split; [exact Hsplit|]. split; [exact Hnd|]. split; [exact Hlt|].
    split; [constructor|]. auto.
  - apply bind_Some in H. destruct H as (y & s1 & Hy & H).
    apply bind_Some in Hy. destruct Hy as (x & s0 & Hx & Hy).
    pose proof (Hpre _ _ _ _ Hx) as ->.
    apply bind_Some in H. destruct H as (ys & s2 & Hys & H).
    apply ret_inv in H. destruct H as [-> ->].
    destruct (createBefore_frame _ _ _ _ _ Hfresh Hy) as [Hfresh1 Hkeep1].
    pose proof (createBefore_inv _ _ _ _ _ Hy) as (-> & Hi1 & Hn1 & Hscm1 & Hrest1).
    pose proof (createBefore_linked _ _ _ _ _ Hnd Hlt Hy) as [Hnd1 Hlt1].
    pose proof (createBefore_position _ _ _ _ _ _ _ Hnd Hsplit Hy) as Hpos1.
    destruct (IH ys s1 s2 (l1 ++ [nextId st]) l2 Hfresh1 Hnd1 Hlt1) as
      (Hfresh2 & Hnd2 & Hge2 & Hkeep2 & Hpos2 & Hndf2 & Hlt2 & Hall2 & Hscm2 & Hrest2).
    { by rewrite <- app_assoc. }
    { exact Hys. }
    rewrite Hn1 in Hge2.
    split; [exact Hfresh2|]. split.
    { apply NoDup_cons. split; [|exact Hnd2]. intros Hin. apply Hge2 in Hin. lia. }
    split.
    { intros id Hid. apply elem_of_cons in Hid. destruct Hid as [->|Hid]; [lia|].
      apply Hge2 in Hid. lia. }
    split; [auto|]. split; [by rewrite Hpos2, <- app_assoc|].
    split; [exact Hndf2|]. split; [exact Hlt2|]. split.
    { constructor.
      - exists x, st. split; [exact Hx|]. split; [auto|]. split; [auto|].
        apply Hkeep2. rewrite Hi1. apply lookup_insert_eq.
      - apply (Forall2_impl _ _ _ _ Hall2).
        intros a' id (x' & s & Hx' & Hk1 & Hk2 & Hid). exists x', s. auto. }
    split; congruence.
Qed.

Lemma linked_bound (st : State) :
  storeFresh st → linked st →
  ∀ x, x ∈ instructionsOf (func st) → (x < nextId st)%positive.
Proof. intros Hfresh Hl x Hx. destruct (Hl x Hx) as [i Hi]. exact (Hfresh x i Hi). Qed.

(** A loop of [createBefore] at one place. *)
Lemma createLoop_position {A : Type} (idx : list A) (mk : A → Instruction)
    (l : positive) (ids : list positive) (st st' : State) (l1 l2 : list positive) :
  storeFresh st → NoDup (instructionsOf (func st)) → linked st →
  instructionsOf (func st) = l1 ++ l :: l2 →
  mapM' idx (λ a, createBefore (mk a) (Some l)) st = Some (ids, st') →
  instructionsOf (func st') = l1 ++ ids ++ l :: l2 ∧
  NoDup (instructionsOf (func st')) ∧ linked st' ∧
  Forall2 (λ a id, insts st' !! id = Some (mk a)) idx ids.
Proof.
  intros Hfresh Hnd Hl Hsplit H.
  rewrite (mapM'_ext idx _ (λ a, (mret tt : M unit) ≫= λ _, createBefore (mk a) (Some l)))
    in H by reflexivity.
  destruct (createLoop_pre idx (λ _, mret tt) (λ a _, mk a) l
              ltac:(intros a x s s' Hr; apply ret_inv in Hr; tauto)
              ids st st' l1 l2 Hfresh Hnd (linked_bound _ Hfresh Hl) Hsplit H)
    as (Hfresh' & Hndi & Hge & Hkeep & Hpos & Hnd' & Hlt' & Hall & _).
  split; [exact Hpos|]. split; [exact Hnd'|]. split.
  - intros id Hid. rewrite Hpos in Hid.
    apply elem_of_app in Hid. destruct Hid as [Hid|Hid].
    + destruct (Hl id) as [i Hi]; [rewrite Hsplit; apply elem_of_app; by left|]. eauto.
    + apply elem_of_app in Hid. destruct Hid as [Hid|Hid].
      * apply list_elem_of_lookup in Hid. destruct Hid as [n Hn].
        destruct (Forall2_lookup_r _ _ _ _ _ Hall Hn) as (a & _ & x & s & _ & _ & _ & Hx).
        eauto.
      * destruct (Hl id) as [i Hi]; [rewrite Hsplit; apply elem_of_app; by right|]. eauto.
  - apply (Forall2_impl _ _ _ _ Hall). intros a id (x & s & _ & _ & _ & Hid). exact Hid.
Qed.
Lemma createLoop_location {A : Type} (a : A) (idx : list A) (mk : A → Instruction)
    (l : positive) (ids : list positive) (st st' : State) :
  mapM' (a :: idx) (λ a, createBefore (mk a) (Some l)) st = Some (ids, st') →
  l ∈ instructionsOf (func st).
Proof.
  intros H. simpl in H. apply bind_Some in H. destruct H as (y & s1 & Hy & _).
  exact (proj1 (createBefore_func _ _ _ _ _ Hy)).
Qed.

Lemma lookup_seq_Forall2 {B : Type} (P : nat → B → Prop) (n : nat) (l : list B) :
  Forall2 P (seq 0 n) l → ∀ i b, l !! i = Some b → P i b.
Proof.
  intros H i b Hb. destruct (Forall2_lookup_r _ _ _ _ _ H Hb) as (a & Ha & Hp).
  apply lookup_seq in Ha. destruct Ha as [-> _]. exact Hp.
Qed.

Lemma nextIn_Some (x y : positive) (l : list positive) :
  nextIn x l = Some y → ∃ pre post, l = pre ++ x :: y :: post.
Proof.
  induction l as [|z l IH]; simpl; [discriminate|].
  destruct (decide (z = x)) as [->|Hne].
  - intros Hh. destruct l as [|y' l]; [discriminate|]. simpl in Hh. injection Hh as ->.
    by exists [], l.
  - intros Hn. destruct (IH Hn) as (pre & post & ->). by exists (z :: pre), post.
Qed.

Lemma head_filter_Some {A : Type} (P : A → Prop) `{∀ x, Decision (P x)} (l : list A) (x : A) :
  head (filter P l) = Some x →
  ∃ l1 l2, l = l1 ++ x :: l2 ∧ Forall (λ y, ¬ P y) l1 ∧ P x.
Proof.
  induction l as [|z l IH]; [discriminate|].
  rewrite filter_cons. destruct (decide (P z)) as [Hz|Hz].
  - simpl. intros [= ->]. exists [], l. split; [reflexivity|]. split; [constructor | exact Hz].
  - intros Hh. destruct (IH Hh) as (l1 & l2 & -> & Hall & Hx).
    exists (z :: l1), l2. split; [reflexivity|]. split; [by constructor | exact Hx].
Qed.

Lemma head_filter_None {A : Type} (P : A → Prop) `{∀ x, Decision (P x)} (l : list A) :
  head (filter P l) = None → Forall (λ y, ¬ P y) l.
Proof.
  induction l as [|z l IH]; [constructor|].
  rewrite filter_cons. destruct (decide (P z)) as [Hz|Hz]; [discriminate|].
  intros Hh. constructor; [exact Hz | by apply IH].
Qed.

Lemma breakdownLocation_place (v : Value) (loc : option positive) (st st' : State) :
  breakdownLocation v st = Some (loc, st') → extractionPlace st v loc.
Proof.
  intros H. unfold breakdownLocation in H.
  apply bind_Some in H. destruct H as (f & z & Hf & H).
  apply gets_inv in Hf. destruct Hf as [-> ->].
  apply bind_Some in H. destruct H as (l0 & z & Hl0 & H).
  apply fromOption_inv in Hl0. destruct Hl0 as [Hl0 ->].
  destruct v as [vi|t n|c].
  2,3: apply ret_inv in H; destruct H as [-> _]; simpl; by rewrite <- Hl0.
  apply bind_Some in H. destruct H as (bb & z & Hbb & H).
  apply fromOption_inv in Hbb. destruct Hbb as [Hbb ->].
  apply bind_Some in H. destruct H as (next & z & Hnext & H).
  apply fromOption_inv in Hnext. destruct Hnext as [Hnext ->].
  apply bind_Some in H. destruct H as (m & z & Hm & H).
  apply gets_inv in Hm. destruct Hm as [-> ->].
  unfold getParent in Hbb. apply head_filter_Some in Hbb.
  destruct Hbb as (b1 & b2 & Hblocks & _ & _).
  destruct (nextIn_Some _ _ _ Hnext) as (pre & post & Hinsts).
  simpl. exists bb, pre, next, post.
  split; [rewrite Hblocks; apply elem_of_app; right; left|].
  split; [exact Hinsts|].
  destruct (isPHI (insts st) next).
  - apply ret_inv in H. destruct H as [-> _].
    unfold getFirstNonPHI. destruct (head _) as [l|] eqn:Hh.
    + apply head_filter_Some in Hh. destruct Hh as (phis & rest & Hsplit & Hall & Hl).
      exists phis, rest. split; [exact Hsplit|]. split; [|exact Hl].
      eapply Forall_impl; [exact Hall|].
      intros x Hx. simpl in Hx. by destruct (isPHI (insts st) x).
    + apply head_filter_None in Hh. eapply Forall_impl; [exact Hh|].
      intros x Hx. simpl in Hx. by destruct (isPHI (insts st) x).
  - apply ret_inv in H. by destruct H as [-> _].
Qed.

(** X6: the lanes of a value that is neither a constant nor resolved yet (an
    argument, or an instruction whose entry is empty) are extractelement
    instructions, one for each element in the order of the indices.  For an
    argument they are placed at the head of the function.  For an
    instruction they are placed before the instruction that follows it in
    its block; when that instruction is a PHI node, they are placed before
    the first instruction of the block that is no PHI node, and in no block
    when there is none.  The SCM holds them as the lanes of the value, which
    is not marked as removed. *)
Theorem breakdown_places_extractions (r r' : list (option Value)) (v : Value) (c : bool)
    (st st' : State) :
  storeFresh st → linked st → NoDup (instructionsOf (func st)) →
  isConstant v = false → hasLanes st v = false →
  (∀ vi, v = VInst vi → is_Some (m_SCM st !! v)) →
  obtainScalarizedValues r v None st = Some ((r', c), st') →
  ∃ elt w ids loc p,
    typeOf (insts st) v = Some (VectorTy elt w) ∧
    length ids = Pos.to_nat w ∧ r' = Some <$> (VInst <$> ids) ∧ c = false ∧
    extractionPlace st v loc ∧
    match loc with
    | Some l => ∃ l1 l2, instructionsOf (func st) = l1 ++ l :: l2 ∧
                         instructionsOf (func st') = l1 ++ ids ++ l :: l2
    | None => func st' = func st
    end ∧
    (∀ t n, v = VArg t n → instructionsOf (func st') = ids ++ instructionsOf (func st)) ∧
    (∀ n id, ids !! n = Some id →
       insts st !! id = None ∧
       stripped st' !! id = Some (plainInst ExtractElement elt [v; constIndex n])) ∧
    m_SCM st' !! v = Some p ∧
    lookupEntry st' p = Some (mkSCMEntry (Some <$> (VInst <$> ids)) false).
Proof.
  intros Hfresh Hlinked Hnd Hconst Hlanes Hentry H.
  apply obtainScalarizedValues_lanes in H.
  destruct H as (ls & elt0 & w0 & Hty0 & Hres & _ & -> & ->).
  apply resolveLanes_cases in Hres.
  destruct Hres as (elt & w & Hty & Hcases).
  destruct Hcases as [(e & He & _)|(_ & [(Hu & _)|(_ & [(c0 & -> & _)|
       [(vi & ids & s1 & -> & Hnone & _)|
        (_ & _ & loc & ids & s1 & p & s2 & Hloc & Hex & Hget & Hupd & ->)]])])].
  - (* the SCM holds no lanes of [v] *)
    exfalso. unfold hasLanes in Hlanes. unfold filledEntry in He.
    destruct (m_SCM st !! v) as [q|]; [|by apply ret_inv in He; destruct He].
    apply bind_Some in He. destruct He as (e0 & z & Hr & He).
    unfold readEntry in Hr. run_inv Hr. rewrite Hopt in Hlanes.
    apply bind_Some in He. destruct He as (lane0 & z & Hl0 & He).
    apply fromOption_inv in Hl0. destruct Hl0 as [Hl0 ->].
    apply ret_inv in He. destruct He as [He _].
    destruct (scalarValues e0) as [|[x|] rest]; simpl in *; try discriminate.
    injection Hl0 as <-. discriminate.
  - by destruct v as [| |[]].
  - discriminate.
  - destruct (Hentry vi eq_refl) as [q Hq]. congruence.
  - pose proof (mapM'_length _ _ _ _ _ Hex) as Hlen. rewrite length_seq in Hlen.
    destruct (createLoop_frame _ _ _ _ _ _ Hfresh Hex) as [Hfresh1 Hkeep1].
    destruct (createLoop_new _ _ _ _ _ _ Hfresh Hex) as (Hndi & Hge & Hall).
    destruct (createLoop_frames _ _ _ _ _ _ Hex) as (Hscm1 & _ & Hfnone).
    pose proof (keeps_getSCMEntry_insts _ _ _ _ Hget) as Hi2.
    pose proof (keeps_getSCMEntry_outside _ _ _ _ Hget) as Hout2.
    pose proof (proj2 (getSCMEntry_SCM _ _ _ _ Hget)) as Hp2.
    pose proof (keeps_updateSCMEntryWithValues_shape _ _ _ _ _ _ _ _ Hupd) as Hshape.
    pose proof (keeps_updateSCMEntryWithValues_stripped _ _ _ _ _ _ _ _ Hupd) as Hstr.
    pose proof (keeps_updateSCMEntryWithValues_outside _ _ _ _ _ _ _ _ Hupd) as Hout3.
    assert (Hfunc : func st' = func s1).
    { transitivity (func s2); [exact (f_equal (λ x, x.1.1.1.2) Hout3)|].
      exact (f_equal (λ x, x.1.1.1.2) Hout2). }
    apply updateSCMEntryWithValues_entry in Hupd.
    destruct Hupd as (elt2 & w2 & arr & lanes & Hty2 & Harr & Hlt & Hlen2 & _ & Hlanes2 & Harrs).
    assert (Hty' : typeOf (insts s2) v = Some (VectorTy elt w)).
    { rewrite Hi2. destruct v as [vi| |]; try exact Hty. simpl in *.
      destruct (insts st !! vi) as [i|] eqn:Hi; [|discriminate].
      by rewrite (Hkeep1 vi i Hi). }
    rewrite Hty' in Hty2. injection Hty2 as <- <-.
    assert (Hsame : lanes = Some <$> (VInst <$> ids)).
    { apply list_eq. intros i. destruct (decide (i < Pos.to_nat w)) as [Hi|Hi].
      - exact (Hlanes2 i Hi).
      - rewrite !lookup_ge_None_2; [reflexivity | rewrite !length_fmap; lia | lia]. }
    subst lanes.
    assert (Hpos : match loc with
                   | Some l => ∃ l1 l2, instructionsOf (func st) = l1 ++ l :: l2 ∧
                                        instructionsOf (func s1) = l1 ++ ids ++ l :: l2
                   | None => func s1 = func st
                   end).
    { destruct loc as [l|]; [|by apply Hfnone].
      assert (Hin : l ∈ instructionsOf (func st)).
      { destruct (Pos.to_nat w) as [|n] eqn:Hw; [lia|].
        simpl in Hex. exact (createLoop_location _ _ _ _ _ _ _ Hex). }
      apply list_elem_of_split in Hin. destruct Hin as (l1 & l2 & Hsplit).
      exists l1, l2. split; [exact Hsplit|].
      exact (proj1 (createLoop_position _ _ _ _ _ _ _ _ Hfresh Hnd Hlinked Hsplit Hex)). }
    exists elt, w, ids, loc, p.
    split; [exact Hty|]. split; [exact Hlen|]. split; [reflexivity|].
    split; [by destruct v|]. split; [exact (breakdownLocation_place _ _ _ _ Hloc)|].
    split.
    { destruct loc as [l|]; rewrite Hfunc; exact Hpos. }
    split.
    { intros t n ->. unfold breakdownLocation in Hloc.
      apply bind_Some in Hloc. destruct Hloc as (f & z & Hf & Hloc).
      apply gets_inv in Hf. destruct Hf as [-> ->].
      apply bind_Some in Hloc. destruct Hloc as (l & z & Hl & Hloc).
      apply fromOption_inv in Hl. destruct Hl as [Hl ->].
      apply ret_inv in Hloc. destruct Hloc as [-> _].
      destruct Hpos as (l1 & l2 & Hsplit & Hpos). rewrite Hfunc, Hpos.
      unfold inst_begin in Hl.
      destruct l1 as [|x l1]; [by rewrite Hsplit|].
      exfalso. rewrite Hsplit in Hl, Hnd. simpl in Hl. injection Hl as ->.
      apply NoDup_cons in Hnd. destruct Hnd as [Hnot _]. apply Hnot.
      apply elem_of_app. right. left. }
    split.
    { intros n id Hn. split.
      - assert (Hid : id ∈ ids) by (by apply list_elem_of_lookup_2 in Hn).
        apply Hge in Hid. destruct (insts st !! id) as [i|] eqn:Hi; [|reflexivity].
        apply Hfresh in Hi. lia.
      - rewrite Hstr. unfold stripped. rewrite lookup_fmap, Hi2.
        rewrite (lookup_seq_Forall2 _ _ _ Hall n id Hn). reflexivity. }
    split.
    { injection Hshape as -> _ _ _. exact Hp2. }
    unfold lookupEntry. rewrite Harrs.
    rewrite list_lookup_insert_eq by (by apply lookup_lt_Some in Harr). simpl.
    by apply list_lookup_insert_eq.
Qed.
Lemma breakdown_places_extractions_witness :
  ∃ r' st' ids,
    obtainScalarizedValues [] (VInst 3) None sample_recovered_phi_traversed
    = Some ((r', false), st') ∧
    length ids = 2 ∧ r' = Some <$> (VInst <$> ids) ∧
    instructionsOf (func st') = [1; 2; 3; 4]%positive ++ ids ++ [5; 6]%positive.
Proof.
  assert (Hc : holdsAfter (obtainScalarizedValues [] (VInst 3) None
                             sample_recovered_phi_traversed)
                 (λ res st',
                    negb res.2 &&
                    bool_decide (instructionsOf (func st')
                                 = [1; 2; 3; 4]%positive
                                   ++ omap (λ o, o ≫= asInstruction) res.1
                                   ++ [5; 6]%positive)) = true)
    by (vm_compute; reflexivity).
  apply holdsAfter_Some in Hc. destruct Hc as ([r' c] & st' & E & Hc).
  apply andb_prop in Hc. destruct Hc as [Hc Hf].
  apply negb_true_iff in Hc. simpl in Hc. subst c.
  apply bool_decide_eq_true in Hf.
  assert (Hb : bool_decide (map_Forall (λ id _, (id < nextId sample_recovered_phi_traversed)
                                                %positive)
                              (insts sample_recovered_phi_traversed)) &&
               forallb (λ id, bool_decide
                                (is_Some (insts sample_recovered_phi_traversed !! id)))
                       (instructionsOf (func sample_recovered_phi_traversed)) &&
               bool_decide (NoDup (instructionsOf (func sample_recovered_phi_traversed))) &&
               negb (hasLanes sample_recovered_phi_traversed (VInst 3)) &&
               bool_decide (is_Some (m_SCM sample_recovered_phi_traversed !! VInst 3))
               = true) by (vm_compute; reflexivity).
  apply andb_prop in Hb. destruct Hb as [Hb Hentry].
  apply andb_prop in Hb. destruct Hb as [Hb Hlanes].
  apply andb_prop in Hb. destruct Hb as [Hb Hnd].
  apply andb_prop in Hb. destruct Hb as [Hfresh Hlinked].
  apply bool_decide_eq_true in Hentry. apply negb_true_iff in Hlanes.
  apply bool_decide_eq_true in Hnd. apply bool_decide_eq_true in Hfresh.
  destruct (breakdown_places_extractions [] r' (VInst 3) false
              sample_recovered_phi_traversed st')
    as (elt & w & ids & loc & p & Hty & Hlen & Hr & _).
  - intros id i Hi. exact (Hfresh id i Hi).
  - intros id Hid. rewrite List.forallb_forall in Hlinked.
    apply list_elem_of_In, Hlinked in Hid. by apply bool_decide_eq_true in Hid.
  - exact Hnd.
  - reflexivity.
  - exact Hlanes.
  - intros vi Hvi. exact Hentry.
  - exact E.
  - assert (Hw : typeOf (insts sample_recovered_phi_traversed) (VInst 3) = Some v2i32)
      by (vm_compute; reflexivity).
    rewrite Hw in Hty. injection Hty as <- <-.
    exists r', st', ids. split; [exact E|]. split; [exact Hlen|]. split; [exact Hr|].
    assert (Hids : omap (λ o, o ≫= asInstruction) (Some <$> (VInst <$> ids)) = ids).
    { clear. induction ids as [|x ids IH]; [reflexivity|]. simpl. f_equal. exact IH. }
    change ((r', false).1) with r' in Hf. rewrite Hr, Hids in Hf. exact Hf.
Defined.

(** The lanes that [resolveLanes] describes are what [obtainScalarizedValues]
    returns in a fresh array. *)
Lemma resolveLanes_obtainScalarizedValues (r : list (option Value)) (v : Value)
    (ls : list Value) (st st' : State) :
  resolveLanes v st = Some (ls, st') →
  obtainScalarizedValues r v None st = Some ((Some <$> ls, isConstant v), st').
Proof.
  intros H. unfold resolveLanes in H. unfold obtainScalarizedValues.
  apply bind_Some in H. destruct H as (t & z1 & Ht & H).
  apply bind_Some. exists t, z1. split; [exact Ht|].
  apply bind_Some in H. destruct H as ([elt n] & z2 & Hw & H).
  apply bind_Some. exists (elt, n), z2. split; [exact Hw|]. simpl.
  apply bind_Some in H. destruct H as (cur & z3 & Hc & H).
  apply bind_Some. exists cur, z3. split; [exact Hc|].
  apply bind_Some in H. destruct H as (found & z4 & Hfound & H).
  apply bind_Some. exists found, z4. split; [exact Hfound|].
  assert (Hstore : ∀ (lanes : list Value) s, length lanes = n →
            (storeLanes (resize n r) 0 lanes ≫= λ r0, mret (r0, isConstant v)) s
            = Some ((Some <$> lanes, isConstant v), s)).
  { intros lanes s Hlen. apply bind_Some. exists (Some <$> lanes), s.
    split; [|reflexivity].
    destruct (storeLanes_run lanes (resize n r) 0 s) as (r1 & Hr1).
    { rewrite length_resize. lia. }
    rewrite Hr1. apply storeLanes_full in Hr1; [by subst r1|].
    by rewrite length_resize. }
  unfold lanesBy in H. destruct found as [e|].
  { apply bind_Some. exists ls, st'. split; [exact H|]. apply Hstore.
    apply mapM'_length in H. by rewrite length_seq in H. }
  destruct (isUndefValue v).
  { apply ret_inv in H. destruct H as [-> ->]. apply Hstore. apply length_replicate. }
  assert (Hbreak :
    (breakdownLocation v ≫= λ locationInst,
     mapM' (seq 0 n) (λ i,
       createBefore (plainInst ExtractElement elt [v; constIndex i])
                    locationInst) ≫= λ extracts,
     getSCMEntry v ≫= λ newEntry,
     updateSCMEntryWithValues newEntry (Some <$> (VInst <$> extracts))
                              v false true ;;
     mret (VInst <$> extracts)) z4 = Some (ls, st') →
    (breakdownLocation v ≫= λ locationInst,
     mapM' (seq 0 n) (λ i,
       createBefore (plainInst ExtractElement elt [v; constIndex i])
                    locationInst) ≫= λ extracts,
     storeLanes (resize n r) 0 (VInst <$> extracts) ≫= λ r0,
     getSCMEntry v ≫= λ newEntry,
     updateSCMEntryWithValues newEntry (drop 0 r0) v false true ;;
     mret (r0, isConstant v)) z4 = Some ((Some <$> ls, isConstant v), st')).
  { clear H. intros H.
    apply bind_Some in H. destruct H as (loc & s2 & Hloc & H).
    apply bind_Some. exists loc, s2. split; [exact Hloc|].
    apply bind_Some in H. destruct H as (extracts & s3 & Hex & H).
    apply bind_Some. exists extracts, s3. split; [exact Hex|].
    apply bind_Some in H. destruct H as (newEntry & s5 & Hnew & H).
    apply bind_Some in H. destruct H as ([] & s6 & Hupd & H).
    apply ret_inv in H. destruct H as [-> ->].
    pose proof (mapM'_length _ _ _ _ _ Hex) as Hlen. rewrite length_seq in Hlen.
    apply bind_Some. exists (Some <$> (VInst <$> extracts)), s3. split.
    { destruct (storeLanes_run (VInst <$> extracts) (resize n r) 0 s3) as (r1 & Hr1).
      { rewrite length_resize, length_fmap. lia. }
      rewrite Hr1. apply storeLanes_full in Hr1; [by subst r1|].
      by rewrite length_resize, length_fmap. }
    apply bind_Some. exists newEntry, s5. split; [exact Hnew|].
    apply bind_Some. exists tt, s6. split; [exact Hupd | reflexivity]. }
  destruct v as [vi|ta na|vc].
  - destruct cur as [q|]; [exact (Hbreak H)|].
    apply bind_Some in H. destruct H as (dummies & s2 & Hd & H).
    apply bind_Some in H. destruct H as ([] & s4 & Hdrl & H).
    apply ret_inv in H. destruct H as [-> ->].
    pose proof (mapM'_length _ _ _ _ _ Hd) as Hlen. rewrite length_seq in Hlen.
    apply bind_Some. exists dummies, s2. split; [exact Hd|].
    apply bind_Some. exists (Some <$> (VInst <$> dummies)), s2. split.
    { destruct (storeLanes_run (VInst <$> dummies) (resize n r) 0 s2) as (r1 & Hr1).
      { rewrite length_resize, length_fmap. lia. }
      rewrite Hr1. apply storeLanes_full in Hr1; [by subst r1|].
      by rewrite length_resize, length_fmap. }
    apply bind_Some. exists tt, s4. split; [exact Hdrl | reflexivity].
  - exact (Hbreak H).
  - apply ret_inv in H. destruct H as [-> ->]. apply Hstore.
    by rewrite length_fmap, length_seq.
Qed.

(** X7: resolving the lanes of a value a second time is a lookup.  Unless the
    value is an instruction that has no entry in the SCM (a forward
    reference, which gets new placeholders each time), a second call of
    [obtainScalarizedValues] returns the same lanes and changes nothing. *)
Theorem second_resolution_is_lookup (r r' r2 : list (option Value)) (v : Value) (c : bool)
    (st st' : State) :
  storeFresh st →
  (∀ vi, v = VInst vi → is_Some (m_SCM st !! v)) →
  obtainScalarizedValues r v None st = Some ((r', c), st') →
  obtainScalarizedValues r2 v None st' = Some ((r', c), st').
Proof.
  intros Hfresh Hentry H.
  apply obtainScalarizedValues_lanes in H.
  destruct H as (ls & elt0 & w0 & Hty0 & Hres & Hlen0 & -> & ->).
  pose proof Hres as Hcases. apply resolveLanes_cases in Hcases.
  destruct Hcases as (elt & w & Hty & Hcases).
  rewrite Hty in Hty0. injection Hty0 as <- <-.
  destruct Hcases as [(e & _ & _ & ->)|(_ & [(_ & _ & ->)|(_ & [(c0 & _ & _ & ->)|
       [(vi & ids & s1 & -> & Hnone & _)|
        (_ & _ & loc & ids & s1 & p & s2 & Hloc & Hex & Hget & Hupd & ->)]])])];
    try exact (resolveLanes_obtainScalarizedValues r2 _ _ _ _ Hres).
  - destruct (Hentry vi eq_refl) as [q Hq]. congruence.
  - destruct (createLoop_frame _ _ _ _ _ _ Hfresh Hex) as [_ Hkeep1].
    pose proof (keeps_getSCMEntry_insts _ _ _ _ Hget) as Hi2.
    pose proof (proj2 (getSCMEntry_SCM _ _ _ _ Hget)) as Hp2.
    assert (Hty2 : typeOf (insts s2) v = Some (VectorTy elt w)).
    { rewrite Hi2. destruct v as [vi| |]; try exact Hty. simpl in *.
      destruct (insts st !! vi) as [i|] eqn:Hi; [|discriminate].
      by rewrite (Hkeep1 vi i Hi). }
    destruct (update_then_obtain_lanes p (Some <$> (VInst <$> ids)) r2 v false true s2 st'
                Hp2 Hupd) as (elt2 & w2 & lanes & Hty2' & Hlen2 & Htake & Hob).
    rewrite Hty2 in Hty2'. injection Hty2' as <- <-.
    rewrite take_ge in Htake by (rewrite !length_fmap; rewrite length_fmap in Hlen0; lia).
    rewrite Htake. exact Hob.
Qed.
(** ** Well-formed code *)

Lemma wellFormedb_correct (st : State) : wellFormedb st = true → wellFormed st.
Proof.
  unfold wellFormedb. intros H.
  apply andb_true_iff in H. destruct H as [H H3].
  apply andb_true_iff in H. destruct H as [H1 H2].
  apply bool_decide_eq_true in H1, H3.
  split; [exact H1|]. split; [|exact H3].
  intros id Hid. rewrite List.forallb_forall in H2.
  apply list_elem_of_In, H2 in Hid. by apply bool_decide_eq_true in Hid.
Qed.

Lemma wellFormed_stripped (st st' : State) :
  stripped st' = stripped st → nextId st' = nextId st → func st' = func st →
  wellFormed st → wellFormed st'.
Proof.
  intros Hs Hn Hf (Hfresh & Hl & Hnd).
  split; [exact (proj1 (grows_stripped _ _ Hs Hn Hfresh))|].
  split; [|by rewrite Hf].
  intros id Hid. rewrite Hf in Hid. destruct (Hl id Hid) as [i Hi].
  pose proof (stripped_lookup st st' id Hs) as Hlook. rewrite Hi in Hlook.
  destruct (insts st' !! id); [eauto | contradiction].
Qed.

Lemma wellFormed_getSCMEntry (v : Value) (p : SCMEntryPtr) (st st' : State) :
  getSCMEntry v st = Some (p, st') → wellFormed st → wellFormed st'.
Proof.
  intros H. pose proof (keeps_getSCMEntry_insts _ _ _ _ H) as Hi.
  pose proof (keeps_getSCMEntry_outside _ _ _ _ H) as Ho.
  apply wellFormed_stripped.
  - unfold stripped. by rewrite Hi.
  - exact (f_equal (λ x, x.1.1.1.1) Ho).
  - exact (f_equal (λ x, x.1.1.1.2) Ho).
Qed.

Lemma wellFormed_update p vals v rm dbg (st st' : State) :
  updateSCMEntryWithValues p vals v rm dbg st = Some (tt, st') →
  wellFormed st → wellFormed st'.
Proof.
  intros H.
  pose proof (keeps_updateSCMEntryWithValues_stripped _ _ _ _ _ _ _ _ H) as Hs.
  pose proof (keeps_updateSCMEntryWithValues_outside _ _ _ _ _ _ _ _ H) as Ho.
  apply wellFormed_stripped.
  - exact Hs.
  - exact (f_equal (λ x, x.1.1.1.1) Ho).
  - exact (f_equal (λ x, x.1.1.1.2) Ho).
Qed.

(** Resolving the lanes of a value keeps the code well-formed. *)
Lemma wellFormed_resolveLanes (v : Value) (ls : list Value) (st st' : State) :
  resolveLanes v st = Some (ls, st') → wellFormed st → wellFormed st'.
Proof.
  intros H Hwf. pose proof Hwf as (Hfresh & Hl & Hnd).
  apply resolveLanes_cases in H. destruct H as (elt & w & Hty & Hcases).
  destruct Hcases as [(e & _ & _ & ->)|(_ & [(_ & _ & ->)|(_ & [(c0 & _ & _ & ->)|
       [(vi & ids & s1 & -> & Hnone & Hnew & _ & ->)|
        (_ & _ & loc & ids & s1 & p & s2 & Hloc & Hex & Hget & Hupd & _)]])])];
    try exact Hwf.
  - destruct (newLoop_new _ _ _ _ _ Hfresh Hnew) as (Hfresh1 & _ & _ & _ & Hkeep & Hf & _).
    split; [exact Hfresh1|]. simpl. rewrite Hf. split; [|exact Hnd].
    intros id Hid. simpl in Hid. rewrite Hf in Hid.
    destruct (Hl id Hid) as [i Hi]. exists i. simpl. by apply Hkeep.
  - apply (wellFormed_update _ _ _ _ _ _ _ Hupd).
    apply (wellFormed_getSCMEntry _ _ _ _ Hget).
    destruct (createLoop_frame _ _ _ _ _ _ Hfresh Hex) as [Hfresh1 Hkeep1].
    destruct loc as [l|].
    + destruct (Pos.to_nat w) as [|n] eqn:Hw; [lia|].
      pose proof (createLoop_location _ _ _ _ _ _ _ Hex) as Hin.
      apply list_elem_of_split in Hin. destruct Hin as (l1 & l2 & Hsplit).
      destruct (createLoop_position _ _ _ _ _ _ _ _ Hfresh Hnd Hl Hsplit Hex)
        as (_ & Hnd1 & Hl1 & _).
      split; [exact Hfresh1|]. split; assumption.
    + destruct (createLoop_frames _ _ _ _ _ _ Hex) as (_ & _ & Hf).
      split; [exact Hfresh1|]. rewrite (Hf eq_refl). split; [|exact Hnd].
      intros id Hid. rewrite (Hf eq_refl) in Hid.
      destruct (Hl id Hid) as [i Hi]. exists i. by apply Hkeep1.
Qed.

Lemma wellFormed_obtainScalarizedValues r v res (st st' : State) :
  obtainScalarizedValues r v None st = Some (res, st') → wellFormed st → wellFormed st'.
Proof.
  destruct res as [r' c]. intros H. apply obtainScalarizedValues_lanes in H.
  destruct H as (ls & elt & w & _ & Hres & _). exact (wellFormed_resolveLanes _ _ _ _ Hres).
Qed.

(** ** The end of a decomposition rule *)

Lemma keeps_updateSCMEntryWithValues_insts p vals v rm :
  keeps insts (updateSCMEntryWithValues p vals v rm false).
Proof. unfold updateSCMEntryWithValues. keeps_tac. Qed.

Lemma fmap_Some_inj {A : Type} (l1 l2 : list A) : Some <$> l1 = Some <$> l2 → l1 = l2.
Proof.
  revert l2. induction l1 as [|x l1 IH]; intros [|y l2] H; simpl in H;
    try discriminate; [reflexivity|].
  injection H as -> H. f_equal. by apply IH.
Qed.

(** A rule ends by writing the new values to the entry of the instruction
    and marking the instruction as removed. *)
Lemma register_decomposition (X : positive) (p : SCMEntryPtr) (vals : list (option Value))
    (dbg : bool) (elt : Ty) (w : positive) (st st' : State) :
  typeOf (insts st) (VInst X) = Some (VectorTy elt w) →
  m_SCM st !! VInst X = Some p →
  (updateSCMEntryWithValues p vals (VInst X) true dbg ;; markRemoved X) st
  = Some (tt, st') →
  ∃ lanes,
    length lanes = Pos.to_nat w ∧ take (Pos.to_nat w) vals = Some <$> lanes ∧
    stripped st' = stripped st ∧ (dbg = false → insts st' = insts st) ∧
    nextId st' = nextId st ∧ func st' = func st ∧
    m_SCM st' !! VInst X = Some p ∧
    lookupEntry st' p = Some (mkSCMEntry (Some <$> lanes) true) ∧
    m_removedInsts st' = {[X]} ∪ m_removedInsts st ∧
    (m_DRL st', m_usedVectors st') = (m_DRL st, m_usedVectors st).
Proof.
  intros Hty Hp H.
  apply bind_Some in H. destruct H as ([] & s1 & Hupd & H).
  apply modify_inv in H. subst st'.
  pose proof (keeps_updateSCMEntryWithValues_shape _ _ _ _ _ _ _ _ Hupd) as Hshape.
  pose proof (keeps_updateSCMEntryWithValues_stripped _ _ _ _ _ _ _ _ Hupd) as Hstr.
  pose proof (keeps_updateSCMEntryWithValues_outside _ _ _ _ _ _ _ _ Hupd) as Hout.
  assert (Hins : dbg = false → insts s1 = insts st).
  { intros ->. exact (keeps_updateSCMEntryWithValues_insts _ _ _ _ _ _ _ Hupd). }
  apply updateSCMEntryWithValues_entry in Hupd.
  destruct Hupd as (elt2 & w2 & arr & lanes' & Hty2 & Harr & Hlt & Hlen2 & Hall & Hlanes & Harrs).
  rewrite Hty in Hty2. injection Hty2 as <- <-.
  assert (Hex : ∃ lanes, lanes' = Some <$> lanes).
  { clear -Hall. induction lanes' as [|[x|] l IH].
    - by exists [].
    - apply Forall_cons in Hall. destruct Hall as [_ Hall].
      destruct (IH Hall) as (lanes & ->). by exists (x :: lanes).
    - apply Forall_cons in Hall. destruct Hall as [[? Hx] _]. discriminate. }
  destruct Hex as (lanes & ->). rewrite length_fmap in Hlen2.
  exists lanes. split; [exact Hlen2|]. split.
  { apply list_eq. intros i. destruct (decide (i < Pos.to_nat w)) as [Hi|Hi].
    - rewrite lookup_take_lt by exact Hi. symmetry. by apply Hlanes.
    - rewrite lookup_take_ge by lia. symmetry. apply lookup_ge_None_2.
      rewrite length_fmap. lia. }
  split; [exact Hstr|]. split; [exact Hins|].
  split; [exact (f_equal (λ x, x.1.1.1.1) Hout)|].
  split; [exact (f_equal (λ x, x.1.1.1.2) Hout)|].
  split; [simpl; by injection Hshape as -> _ _ _|].
  split.
  { unfold lookupEntry. simpl. rewrite Harrs.
    rewrite list_lookup_insert_eq by (by apply lookup_lt_Some in Harr). simpl.
    by apply list_lookup_insert_eq. }
  split; [simpl; f_equal; exact (f_equal (λ x, x.2) Hout)|].
  simpl. f_equal; [exact (f_equal (λ x, x.1.1.2) Hout) | exact (f_equal (λ x, x.1.2) Hout)].
Qed.
(** ** The rule of the insertelement instruction *)

(** X8: the rule of the insertelement instruction.  With an index that is no
    integer constant the instruction is recovered.  With a constant index
    below the number of elements, the lanes of the instruction are the lanes
    of the source vector (undefined scalars for an undefined source) with the
    inserted scalar at the index; they are written to the entry of the
    instruction, which is marked as removed.  No instruction object is
    changed by this, and no instruction is made beyond what resolving the
    lanes of the source makes. *)
Theorem insertelement_rule (II : positive) (I : Instruction)
    (sourceVectorValue sourceScalarValue scalarIndexVal : Value) (st st' : State) :
  storeFresh st →
  insts st !! II = Some I → opcode I = InsertElement →
  operands I !! 0 = Some sourceVectorValue → operands I !! 1 = Some sourceScalarValue →
  operands I !! 2 = Some scalarIndexVal →
  scalarizeInstruction_InsertElementInst II st = Some (tt, st') →
  match getZExtValue scalarIndexVal with
  | None =>
      code st' = code st ∧
      ∀ v t, v ∈ operands I → typeOf (insts st) v = Some t → isVectorTy t = true →
             v ∈ m_usedVectors st'
  | Some scalarIndex =>
      ∃ elt w p s0 lanes s1,
        type I = VectorTy elt w ∧ (scalarIndex < Z.pos w)%Z ∧
        getSCMEntry (VInst II) st = Some (p, s0) ∧
        (if isUndefValue sourceVectorValue then
           ∃ elt' w', typeOf (insts st) sourceVectorValue = Some (VectorTy elt' w') ∧
                      lanes = replicate (Pos.to_nat w') (VConst (UndefValue elt')) ∧
                      s1 = s0
         else resolveLanes sourceVectorValue s0 = Some (lanes, s1)) ∧
        toUnsigned scalarIndex < length lanes ∧ Pos.to_nat w ≤ length lanes ∧
        insts st' = insts s1 ∧ func st' = func s1 ∧
        m_SCM st' !! VInst II = Some p ∧
        lookupEntry st' p
        = Some (mkSCMEntry (Some <$> take (Pos.to_nat w)
                                          (<[toUnsigned scalarIndex := sourceScalarValue]> lanes))
                           true) ∧
        m_removedInsts st' = {[II]} ∪ m_removedInsts s1
  end.
Proof.
  intros Hfresh HI Hop H0 H1 H2 H. unfold scalarizeInstruction_InsertElementInst in H.
  apply bind_Some in H. destruct H as (I' & z & HI' & H).
  apply getInst_inv in HI'. destruct HI' as [HI' ->].
  rewrite HI in HI'. injection HI' as <-.
  apply bind_Some in H. destruct H as (x0 & z & Ho & H).
  apply fromOption_inv in Ho. destruct Ho as [Ho ->].
  rewrite H0 in Ho. injection Ho as <-.
  apply bind_Some in H. destruct H as (x1 & z & Ho & H).
  apply fromOption_inv in Ho. destruct Ho as [Ho ->].
  rewrite H1 in Ho. injection Ho as <-.
  apply bind_Some in H. destruct H as (x2 & z & Ho & H).
  apply fromOption_inv in Ho. destruct Ho as [Ho ->].
  rewrite H2 in Ho. injection Ho as <-.
  destruct (getZExtValue scalarIndexVal) as [scalarIndex|].
  2:{ destruct (recoverNonScalarizableInst_spec _ _ _ _ HI H) as (Hcode & _ & Hreg).
      split; [exact Hcode|].
      intros v t Hv. apply Hreg. unfold recoveredOperands. by rewrite Hop. }
  apply bind_Some in H. destruct H as (p & s0 & Hentry & H).
  apply bind_Some in H. destruct H as ([elt0 n] & z & Hw & H).
  apply fromOption_inv in Hw. destruct Hw as [Hw ->].
  destruct (type I) as [| | | |elt w|] eqn:HtI; try discriminate Hw.
  simpl in Hw. injection Hw as <- <-.
  apply bind_Some in H. destruct H as ([] & z & Hlt & H).
  apply require_inv in Hlt. destruct Hlt as [Hlt ->].
  apply bool_decide_eq_true in Hlt.
  apply bind_Some in H. destruct H as (scalarValues & s1 & Hsrc & H).
  pose proof (keeps_getSCMEntry_insts _ _ _ _ Hentry) as Hi0.
  pose proof (keeps_getSCMEntry_outside _ _ _ _ Hentry) as Hout0.
  assert (Hfresh0 : storeFresh s0).
  { intros k i Hk. rewrite (f_equal (λ x, x.1.1.1.1) Hout0 : nextId s0 = nextId st).
    rewrite Hi0 in Hk. exact (Hfresh k i Hk). }
  assert (Hsrc' : ∃ lanes,
            (if isUndefValue sourceVectorValue then
               ∃ elt' w', typeOf (insts st) sourceVectorValue = Some (VectorTy elt' w') ∧
                          lanes = replicate (Pos.to_nat w') (VConst (UndefValue elt')) ∧
                          s1 = s0
             else resolveLanes sourceVectorValue s0 = Some (lanes, s1)) ∧
            toUnsigned scalarIndex < length lanes ∧
            scalarValues = Some <$> <[toUnsigned scalarIndex := sourceScalarValue]> lanes ∧
            grows s0 s1 ∧ m_SCM s0 ⊆ m_SCM s1).
  { destruct (isUndefValue sourceVectorValue).
    - apply bind_Some in Hsrc. destruct Hsrc as (t & z & Ht & Hsrc).
      apply getType_inv in Ht. destruct Ht as [Ht ->].
      apply bind_Some in Hsrc. destruct Hsrc as ([elt' n'] & z & Hw' & Hsrc).
      apply fromOption_inv in Hw'. destruct Hw' as [Hw' ->].
      destruct t as [| | | |elt2 w'|]; try discriminate Hw'.
      simpl in Hw'. injection Hw' as <- <-.
      unfold storeAt in Hsrc.
      apply bind_Some in Hsrc. destruct Hsrc as ([] & z & Hr & Hsrc).
      apply require_inv in Hr. destruct Hr as [Hr ->].
      apply bool_decide_eq_true in Hr. rewrite length_replicate in Hr.
      apply ret_inv in Hsrc. destruct Hsrc as [-> ->].
      exists (replicate (Pos.to_nat w') (VConst (UndefValue elt2))).
      split; [exists elt2, w'; rewrite <- Hi0; auto|].
      split; [by rewrite length_replicate|].
      split; [by rewrite list_fmap_insert, fmap_replicate|].
      split; [apply grows_refl | reflexivity].
    - apply bind_Some in Hsrc. destruct Hsrc as ([sv c] & s2 & Hob & Hsrc).
      apply obtainScalarizedValues_lanes in Hob.
      destruct Hob as (ls & elt' & w' & _ & Hres & _ & _ & ->).
      unfold storeAt in Hsrc.
      apply bind_Some in Hsrc. destruct Hsrc as ([] & z & Hr & Hsrc).
      apply require_inv in Hr. destruct Hr as [Hr ->].
      apply bool_decide_eq_true in Hr. rewrite length_fmap in Hr.
      apply ret_inv in Hsrc. destruct Hsrc as [-> ->].
      exists ls. split; [exact Hres|]. split; [exact Hr|].
      split; [by rewrite list_fmap_insert|].
      split; [exact (grows_resolveLanes _ _ _ _ Hres) | exact (resolveLanes_SCM _ _ _ _ Hres)]. }
  destruct Hsrc' as (lanes & Hlanes & Hk & -> & Hgrows & Hscm).
  destruct (grows_typeOf _ _ Hgrows Hfresh0) as [Hfresh1 Hty1].
  assert (HtII : typeOf (insts s1) (VInst II) = Some (VectorTy elt w)).
  { apply Hty1. simpl. by rewrite Hi0, HI, <- HtI. }
  assert (Hp1 : m_SCM s1 !! VInst II = Some p).
  { apply (lookup_weaken (m_SCM s0)); [|exact Hscm].
    exact (proj2 (getSCMEntry_SCM _ _ _ _ Hentry)). }
  destruct (register_decomposition _ _ _ _ _ _ _ _ HtII Hp1 H)
    as (lanes' & Hlen' & Htake & _ & Hins & _ & Hfunc & Hp' & He' & Hrm & _).
  rewrite <- fmap_take in Htake. apply fmap_Some_inj in Htake. subst lanes'.
  exists elt, w, p, s0, lanes, s1.
  split; [reflexivity|]. split; [lia|]. split; [exact Hentry|]. split; [exact Hlanes|].
  split; [exact Hk|].
  split.
  { rewrite length_take, length_insert in Hlen'. lia. }
  split; [by apply Hins|]. split; [exact Hfunc|]. split; [exact Hp'|].
  split; [exact He' | exact Hrm].
Qed.
(** ** The loop of a decomposition rule *)

(** The loop that makes the scalar instructions of a rule: one instruction
    for each element, placed before the instruction [l] that is decomposed. *)
Lemma decomposeLoop {X : Type} (w : positive) (pre : nat → M X)
    (mk : nat → X → Instruction) (l : positive) (body : nat → M (option Value))
    (news : list (option Value)) (st st' : State) :
  (∀ dup s, body dup s
            = (pre dup ≫= λ x, createBefore (mk dup x) (Some l)
                       ≫= λ id, mret (Some (VInst id))) s) →
  (∀ a x s s', pre a s = Some (x, s') → s' = s) →
  wellFormed st →
  mapM' (seq 0 (Pos.to_nat w)) body st = Some (news, st') →
  ∃ ids,
    news = Some <$> (VInst <$> ids) ∧ length ids = Pos.to_nat w ∧ NoDup ids ∧
    wellFormed st' ∧
    (∃ l1 l2, instructionsOf (func st) = l1 ++ l :: l2 ∧
              instructionsOf (func st') = l1 ++ ids ++ l :: l2) ∧
    (∀ k i, insts st !! k = Some i → insts st' !! k = Some i) ∧
    (∀ dup id, ids !! dup = Some id →
       insts st !! id = None ∧
       ∃ x s, pre dup s = Some (x, s) ∧
              (∀ k i, insts st !! k = Some i → insts s !! k = Some i) ∧
              (∀ k i, insts s !! k = Some i → insts st' !! k = Some i) ∧
              insts st' !! id = Some (mk dup x)) ∧
    (m_SCM st', m_SCMArrays st', scmShape st') = (m_SCM st, m_SCMArrays st, scmShape st) ∧
    (m_DRL st', m_usedVectors st', m_removedInsts st')
    = (m_DRL st, m_usedVectors st, m_removedInsts st).
Proof.
  intros Hbody Hpre (Hfresh & Hl & Hnd) H.
  rewrite (mapM'_ext _ _ (λ dup, (pre dup ≫= λ x, createBefore (mk dup x) (Some l))
                                  ≫= λ id, mret (Some (VInst id)))) in H.
  2:{ intros dup s. rewrite Hbody. cbv [mbind M_bind].
      destruct (pre dup s) as [[x s1]|]; reflexivity. }
  apply (mapM'_fmap (λ id, Some (VInst id))) in H. destruct H as (ids & H & ->).
  assert (Hin : l ∈ instructionsOf (func st)).
  { destruct (Pos.to_nat w) as [|n] eqn:Hw; [lia|]. simpl in H.
    apply bind_Some in H. destruct H as (y & s1 & Hy & _).
    apply bind_Some in Hy. destruct Hy as (x & s0 & Hx & Hy).
    rewrite (Hpre _ _ _ _ Hx) in Hy.
    exact (proj1 (createBefore_func _ _ _ _ _ Hy)). }
  apply list_elem_of_split in Hin. destruct Hin as (l1 & l2 & Hsplit).
  destruct (createLoop_pre _ pre mk l Hpre ids st st' l1 l2 Hfresh Hnd
              (linked_bound _ Hfresh Hl) Hsplit H)
    as (Hfresh' & Hndi & Hge & Hkeep & Hpos & Hnd' & Hlt' & Hall & Hscm & Hrest).
  exists ids. split; [by rewrite <- list_fmap_compose|].
  split; [apply mapM'_length in H; by rewrite length_seq in H|].
  split; [exact Hndi|]. split.
  { split; [exact Hfresh'|]. split; [|exact Hnd'].
    intros id Hid. rewrite Hpos in Hid.
    apply elem_of_app in Hid. destruct Hid as [Hid|Hid].
    - destruct (Hl id) as [i Hi]; [rewrite Hsplit; apply elem_of_app; by left|]. eauto.
    - apply elem_of_app in Hid. destruct Hid as [Hid|Hid].
      + apply list_elem_of_lookup in Hid. destruct Hid as [n Hn].
        destruct (Forall2_lookup_r _ _ _ _ _ Hall Hn) as (a & _ & x & s & _ & _ & _ & Hx).
        eauto.
      + destruct (Hl id) as [i Hi]; [rewrite Hsplit; apply elem_of_app; by right|]. eauto. }
  split; [eauto|]. split; [exact Hkeep|]. split; [|auto].
  intros dup id Hdup. split.
  - assert (Hid : id ∈ ids) by (by apply list_elem_of_lookup_2 in Hdup).
    apply Hge in Hid. destruct (insts st !! id) as [i|] eqn:Hi; [|reflexivity].
    apply Hfresh in Hi. lia.
  - exact (lookup_seq_Forall2 _ _ _ Hall dup id Hdup).
Qed.
(** ** The rules of the binary operator and of the compare instruction *)

Lemma binary_is_twoOperandRule (BI : positive) :
  scalarizeInstruction_BinaryOperator BI = twoOperandRule scalarBinaryOperator BI.
Proof. reflexivity. Qed.

Lemma cmp_is_twoOperandRule (CI : positive) :
  scalarizeInstruction_CmpInst CI = twoOperandRule scalarCmpInst CI.
Proof. reflexivity. Qed.

Lemma typeOf_keep (m m' : gmap positive Instruction) (v : Value) (t : Ty) :
  (∀ k i, m !! k = Some i → m' !! k = Some i) →
  typeOf m v = Some t → typeOf m' v = Some t.
Proof.
  intros Hk Ht. destruct v as [k| |]; simpl in *; try exact Ht.
  destruct (m !! k) as [i|] eqn:Hi; [|discriminate]. by rewrite (Hk k i Hi).
Qed.

Lemma stripped_keep (st st' : State) :
  (∀ k i, insts st !! k = Some i → insts st' !! k = Some i) →
  ∀ k i, stripped st !! k = Some i → stripped st' !! k = Some i.
Proof.
  intros Hk k i Hi. unfold stripped in *. rewrite lookup_fmap in *.
  destruct (insts st !! k) as [i0|] eqn:H0; [|discriminate].
  by rewrite (Hk k i0 H0).
Qed.

Lemma twoOperandRule_spec (mk : Instruction → Value → Value → Ty → Instruction)
    (X : positive) (I : Instruction) (elt : Ty) (w : positive) (v0 v1 : Value)
    (st st' : State) :
  wellFormed st →
  insts st !! X = Some I → type I = VectorTy elt w →
  operands I !! 0 = Some v0 → operands I !! 1 = Some v1 →
  twoOperandRule mk X st = Some (tt, st') →
  ∃ p s0 lanes0 s1 lanes1 s2,
    getSCMEntry (VInst X) st = Some (p, s0) ∧
    resolveLanes v0 s0 = Some (lanes0, s1) ∧
    resolveLanes v1 s1 = Some (lanes1, s2) ∧
    if isConstant v0 && isConstant v1 then st' = s2
    else
      ∃ ids,
        length ids = Pos.to_nat w ∧ NoDup ids ∧ wellFormed st' ∧
        (∃ l1 l2, instructionsOf (func s2) = l1 ++ X :: l2 ∧
                  instructionsOf (func st') = l1 ++ ids ++ X :: l2) ∧
        (∀ k i, stripped s2 !! k = Some i → stripped st' !! k = Some i) ∧
        (∀ n id, ids !! n = Some id →
           insts s2 !! id = None ∧
           ∃ a b t, lanes0 !! n = Some a ∧ lanes1 !! n = Some b ∧
                    typeOf (insts st') a = Some t ∧
                    stripped st' !! id = Some (setDebugLoc None (mk I a b t))) ∧
        m_SCM st' !! VInst X = Some p ∧
        lookupEntry st' p = Some (mkSCMEntry (Some <$> (VInst <$> ids)) true) ∧
        m_removedInsts st' = {[X]} ∪ m_removedInsts s2.
Proof.
  intros Hwf HI HtI H0 H1 H. unfold twoOperandRule in H.
  apply bind_Some in H. destruct H as (I' & z & HI' & H).
  apply getInst_inv in HI'. destruct HI' as [HI' ->].
  rewrite HI in HI'. injection HI' as <-.
  rewrite HtI in H. simpl in H.
  apply bind_Some in H. destruct H as (p & s0 & Hentry & H).
  apply bind_Some in H. destruct H as (x0 & z & Ho & H).
  apply fromOption_inv in Ho. destruct Ho as [Ho ->].
  rewrite H0 in Ho. injection Ho as <-.
  apply bind_Some in H. destruct H as ([operand0 c0] & s1 & Hob0 & H).
  apply bind_Some in H. destruct H as (x1 & z & Ho & H).
  apply fromOption_inv in Ho. destruct Ho as [Ho ->].
  rewrite H1 in Ho. injection Ho as <-.
  apply bind_Some in H. destruct H as ([operand1 c1] & s2 & Hob1 & H).
  pose proof (wellFormed_getSCMEntry _ _ _ _ Hentry Hwf) as Hwf0.
  pose proof (wellFormed_obtainScalarizedValues _ _ _ _ _ Hob0 Hwf0) as Hwf1.
  pose proof (wellFormed_obtainScalarizedValues _ _ _ _ _ Hob1 Hwf1) as Hwf2.
  apply obtainScalarizedValues_lanes in Hob0.
  destruct Hob0 as (lanes0 & e0 & w0 & _ & Hres0 & _ & -> & ->).
  apply obtainScalarizedValues_lanes in Hob1.
  destruct Hob1 as (lanes1 & e1 & w1 & _ & Hres1 & _ & -> & ->).
  exists p, s0, lanes0, s1, lanes1, s2.
  split; [exact Hentry|]. split; [exact Hres0|]. split; [exact Hres1|].
  destruct (isConstant v0 && isConstant v1).
  { apply ret_inv in H. by destruct H as [_ ->]. }
  apply bind_Some in H. destruct H as (news & s3 & Hloop & H).
  (* the state before the loop *)
  pose proof (keeps_getSCMEntry_insts _ _ _ _ Hentry) as Hi0.
  destruct (grows_typeOf _ _ (grows_resolveLanes _ _ _ _ Hres0) (proj1 Hwf0)) as [_ Hty1].
  destruct (grows_typeOf _ _ (grows_resolveLanes _ _ _ _ Hres1) (proj1 Hwf1)) as [_ Hty2].
  assert (HtX : typeOf (insts s2) (VInst X) = Some (VectorTy elt w)).
  { apply Hty2, Hty1. simpl. by rewrite Hi0, HI, <- HtI. }
  assert (Hp2 : m_SCM s2 !! VInst X = Some p).
  { apply (lookup_weaken (m_SCM s1)); [|exact (resolveLanes_SCM _ _ _ _ Hres1)].
    apply (lookup_weaken (m_SCM s0)); [|exact (resolveLanes_SCM _ _ _ _ Hres0)].
    exact (proj2 (getSCMEntry_SCM _ _ _ _ Hentry)). }
  (* the loop *)
  apply (decomposeLoop w
           (λ dup, getLane (Some <$> lanes0) dup ≫= λ a,
                   getLane (Some <$> lanes1) dup ≫= λ b,
                   getType a ≫= λ t, mret (a, b, t))
           (λ _ '(a, b, t), mk I a b t) X) in Hloop; [| | |exact Hwf2].
  2:{ intros dup s. cbv [mbind M_bind mret M_ret].
      destruct (getLane (Some <$> lanes0) dup s) as [[a sa]|]; [|reflexivity].
      destruct (getLane (Some <$> lanes1) dup sa) as [[b sb]|]; [|reflexivity].
      destruct (getType a sb) as [[t sc]|]; reflexivity. }
  2:{ intros dup x s s' Hx.
      apply bind_Some in Hx. destruct Hx as (a & z & Ha & Hx).
      apply getLane_Some in Ha. destruct Ha as [_ ->].
      apply bind_Some in Hx. destruct Hx as (b & z & Hb & Hx).
      apply getLane_Some in Hb. destruct Hb as [_ ->].
      apply bind_Some in Hx. destruct Hx as (t & z & Ht & Hx).
      apply getType_inv in Ht. destruct Ht as [_ ->].
      apply ret_inv in Hx. tauto. }
  destruct Hloop as (ids & -> & Hlen & Hnd & Hwf3 & Hpos & Hkeep & Hids & Hscm & Hrest).
  assert (HtX3 : typeOf (insts s3) (VInst X) = Some (VectorTy elt w))
    by exact (typeOf_keep _ _ _ _ Hkeep HtX).
  assert (Hp3 : m_SCM s3 !! VInst X = Some p) by (injection Hscm as -> _; exact Hp2).
  destruct (register_decomposition _ _ _ _ _ _ _ _ HtX3 Hp3 H)
    as (lanes & Hlen' & Htake & Hstr & _ & Hn & Hfunc & Hp' & He' & Hrm & _).
  rewrite take_ge in Htake by (rewrite !length_fmap; lia).
  apply fmap_Some_inj in Htake. subst lanes.
  exists ids. split; [exact Hlen|]. split; [exact Hnd|].
  split; [exact (wellFormed_stripped _ _ Hstr Hn Hfunc Hwf3)|].
  split; [by rewrite Hfunc|].
  split.
  { intros k i Hk. rewrite Hstr. exact (stripped_keep _ _ Hkeep k i Hk). }
  split.
  { intros n id Hn'. destruct (Hids n id Hn') as (Hnone & [[a b] t] & s & Hx & _ & Hk2 & Hid).
    split; [exact Hnone|].
    apply bind_Some in Hx. destruct Hx as (a' & z & Ha & Hx).
    apply getLane_Some in Ha. destruct Ha as [Ha ->].
    apply bind_Some in Hx. destruct Hx as (b' & z & Hb & Hx).
    apply getLane_Some in Hb. destruct Hb as [Hb ->].
    apply bind_Some in Hx. destruct Hx as (t' & z & Ht & Hx).
    apply getType_inv in Ht. destruct Ht as [Ht ->].
    apply ret_inv in Hx. destruct Hx as [[= <- <- <-] _].
    exists a, b, t. split; [exact Ha|]. split; [exact Hb|].
    split.
    - rewrite (typeOf_stripped _ _ a Hstr). exact (typeOf_keep _ _ _ _ Hk2 Ht).
    - rewrite Hstr. unfold stripped. by rewrite lookup_fmap, Hid. }
  split; [exact Hp'|]. split; [exact He'|].
  rewrite Hrm. f_equal. by injection Hrest.
Qed.

(** X9: the rule of the vector binary operator.  The lanes of the two
    operands are resolved, the first operand first.  Unless both operands are
    constants, one scalar operation is made for each element, of the opcode
    of the original and with its overflow, exact and fast-math flags where
    the opcode has them, on the two lanes of the element; the new operations
    stand before the original in the order of the elements, the SCM holds
    them as the lanes of the original, and the original is marked as
    removed.  No other instruction is touched. *)
Theorem binary_rule (BI : positive) (I : Instruction) (elt : Ty) (w : positive)
    (v0 v1 : Value) (st st' : State) :
  wellFormed st →
  insts st !! BI = Some I → type I = VectorTy elt w →
  operands I !! 0 = Some v0 → operands I !! 1 = Some v1 →
  scalarizeInstruction_BinaryOperator BI st = Some (tt, st') →
  ∃ p s0 lanes0 s1 lanes1 s2,
    getSCMEntry (VInst BI) st = Some (p, s0) ∧
    resolveLanes v0 s0 = Some (lanes0, s1) ∧
    resolveLanes v1 s1 = Some (lanes1, s2) ∧
    if isConstant v0 && isConstant v1 then st' = s2
    else
      ∃ ids,
        length ids = Pos.to_nat w ∧ NoDup ids ∧ wellFormed st' ∧
        (∃ l1 l2, instructionsOf (func s2) = l1 ++ BI :: l2 ∧
                  instructionsOf (func st') = l1 ++ ids ++ BI :: l2) ∧
        (∀ k i, stripped s2 !! k = Some i → stripped st' !! k = Some i) ∧
        (∀ n id, ids !! n = Some id →
           insts s2 !! id = None ∧
           ∃ a b t, lanes0 !! n = Some a ∧ lanes1 !! n = Some b ∧
                    typeOf (insts st') a = Some t ∧
                    stripped st' !! id = Some (scalarBinaryOperator I a b t)) ∧
        m_SCM st' !! VInst BI = Some p ∧
        lookupEntry st' p = Some (mkSCMEntry (Some <$> (VInst <$> ids)) true) ∧
        m_removedInsts st' = {[BI]} ∪ m_removedInsts s2.
Proof.
  intros Hwf HI HtI H0 H1 H. rewrite binary_is_twoOperandRule in H.
  exact (twoOperandRule_spec _ _ _ _ _ _ _ _ _ Hwf HI HtI H0 H1 H).
Qed.

Lemma binary_rule_witness :
  ∃ st' ids, scalarizeInstruction_BinaryOperator 1 sample_add_call = Some (tt, st') ∧
             length ids = 2 ∧ wellFormed st' ∧
             m_removedInsts st' = {[1%positive]} ∧
             ∃ l1, instructionsOf (func st') = l1 ++ ids ++ [1; 2; 3]%positive.
Proof.
  assert (Hc : holdsAfter (scalarizeInstruction_BinaryOperator 1 sample_add_call)
                 (λ _ _, true) = true) by (vm_compute; reflexivity).
  apply holdsAfter_Some in Hc. destruct Hc as ([] & st' & E & _).
  destruct (binary_rule 1 (plainInst (OpBinary Add) v2i32 [VArg v2i32 0; VArg v2i32 1])
              i32 2 (VArg v2i32 0) (VArg v2i32 1) sample_add_call st')
    as (p & s0 & lanes0 & s1 & lanes1 & s2 & Hentry & Hres0 & Hres1 & ids & Hlen & _ & Hwf
        & (l1 & l2 & Hs2 & Hpos) & _ & _ & _ & _ & Hrm).
  - apply wellFormedb_correct. vm_compute. reflexivity.
  - reflexivity.
  - reflexivity.
  - reflexivity.
  - reflexivity.
  - exact E.
  - exists st', ids. split; [exact E|]. split; [exact Hlen|]. split; [exact Hwf|].
    assert (Hrm2 : m_removedInsts s2 = ∅).
    { rewrite (keeps_resolveLanes_removed _ _ _ _ Hres1).
      rewrite (keeps_resolveLanes_removed _ _ _ _ Hres0).
      exact (f_equal (λ x, x.2) (keeps_getSCMEntry_outside _ _ _ _ Hentry)). }
    split; [by rewrite Hrm, Hrm2, (right_id_L ∅ (∪))|].
    assert (Hl2 : l2 = [2; 3]%positive).
    { assert (Hc : holdsAfter (getSCMEntry (VInst 1) sample_add_call) (λ _ t0,
                     holdsAfter (resolveLanes (VArg v2i32 0) t0) (λ _ t1,
                       holdsAfter (resolveLanes (VArg v2i32 1) t1) (λ _ t2,
                         bool_decide (drop 5 (instructionsOf (func t2)) = [2; 3]%positive
                                      ∧ instructionsOf (func t2) !! 4 = Some 1%positive))))
                   = true) by (vm_compute; reflexivity).
      apply holdsAfter_Some in Hc. destruct Hc as (p' & t0 & E0 & Hc).
      rewrite Hentry in E0. injection E0 as <- <-.
      apply holdsAfter_Some in Hc. destruct Hc as (x1 & t1 & E1 & Hc).
      rewrite Hres0 in E1. injection E1 as <- <-.
      apply holdsAfter_Some in Hc. destruct Hc as (x2 & t2 & E2 & Hc).
      rewrite Hres1 in E2. injection E2 as <- <-.
      apply bool_decide_eq_true in Hc. destruct Hc as [Hdrop Hat].
      rewrite Hs2 in Hdrop, Hat.
      destruct (wellFormed_resolveLanes _ _ _ _ Hres1
                  (wellFormed_resolveLanes _ _ _ _ Hres0
                     (wellFormed_getSCMEntry _ _ _ _ Hentry
                        (wellFormedb_correct sample_add_call eq_refl)))) as (_ & _ & Hnd).
      rewrite Hs2 in Hnd.
      assert (Hl1 : length l1 = 4).
      { destruct (decide (length l1 = 4)) as [|Hne]; [assumption|exfalso].
        apply NoDup_app in Hnd. destruct Hnd as (_ & Hdisj & Hnd2).
        destruct (decide (4 < length l1)).
        - rewrite lookup_app_l in Hat by lia.
          apply list_elem_of_lookup_2 in Hat. apply (Hdisj _ Hat). left.
        - rewrite lookup_app_r in Hat by lia.
          destruct (4 - length l1) as [|k] eqn:Hk; [lia|]. simpl in Hat.
          apply NoDup_cons in Hnd2. destruct Hnd2 as [Hn _]. apply Hn.
          by apply list_elem_of_lookup_2 in Hat. }
      rewrite drop_app_ge in Hdrop by lia. rewrite Hl1 in Hdrop. exact Hdrop. }
    subst l2. exists l1. exact Hpos.
Defined.
(** ** Instructions that are placed before an instruction *)

Lemma placedBefore_refl (l : positive) (st : State) :
  wellFormed st → placedBefore l [] st st.
Proof.
  intros Hwf. split; [exact Hwf|]. split; [constructor|].
  split; [intros id Hid; by apply not_elem_of_nil in Hid|].
  split; [auto|]. split; [|auto]. intros l1 l2 Hs. exact Hs.
Qed.

Lemma placedBefore_trans (l : positive) (ids1 ids2 : list positive) (a b c : State) :
  placedBefore l ids1 a b → placedBefore l ids2 b c → placedBefore l (ids1 ++ ids2) a c.
Proof.
  intros (_ & Hnd1 & Hnew1 & Hk1 & Hp1 & Hs1 & Hr1) (Hwf & Hnd2 & Hnew2 & Hk2 & Hp2 & Hs2 & Hr2).
  split; [exact Hwf|]. split.
  { apply NoDup_app. split; [exact Hnd1|]. split; [|exact Hnd2].
    intros id Hi1 Hi2. destruct (Hnew1 id Hi1) as [_ [i Hi]].
    destruct (Hnew2 id Hi2) as [Hn _]. congruence. }
  split.
  { intros id Hid. apply elem_of_app in Hid. destruct Hid as [Hid|Hid].
    - destruct (Hnew1 id Hid) as [Hn [i Hi]]. split; [exact Hn|]. exists i. by apply Hk2.
    - destruct (Hnew2 id Hid) as [Hn Hs]. split; [|exact Hs].
      destruct (insts a !! id) as [i|] eqn:Hi; [|reflexivity].
      apply Hk1 in Hi. congruence. }
  split; [auto|]. split; [|split; congruence].
  intros l1 l2 Hsplit. rewrite (Hp2 (l1 ++ ids1) l2).
  - by rewrite <- !app_assoc.
  - rewrite (Hp1 l1 l2 Hsplit). by rewrite <- app_assoc.
Qed.

Lemma placedBefore_createBefore (i : Instruction) (l id : positive) (st st' : State) :
  wellFormed st → createBefore i (Some l) st = Some (id, st') →
  placedBefore l [id] st st' ∧ insts st' !! id = Some i ∧ l ∈ instructionsOf (func st).
Proof.
  intros (Hfresh & Hl & Hnd) H.
  destruct (createBefore_frame _ _ _ _ _ Hfresh H) as [Hfresh' Hkeep].
  pose proof (createBefore_inv _ _ _ _ _ H) as (-> & Hi & Hn & Hscm & Hrest).
  pose proof (createBefore_func _ _ _ _ _ H) as [Hin _].
  pose proof (createBefore_linked _ _ _ _ _ Hnd (linked_bound _ Hfresh Hl) H) as [Hnd' Hlt'].
  assert (Hid : insts st' !! nextId st = Some i) by (rewrite Hi; apply lookup_insert_eq).
  assert (Hnone : insts st !! nextId st = None).
  { destruct (insts st !! nextId st) as [i0|] eqn:Hk; [|reflexivity].
    apply Hfresh in Hk. lia. }
  split; [|split; [exact Hid | exact Hin]].
  split.
  { split; [exact Hfresh'|]. split; [|exact Hnd'].
    intros k Hk. pose proof Hin as Hin'.
    apply list_elem_of_split in Hin'. destruct Hin' as (l1 & l2 & Hsplit).
    rewrite (createBefore_position _ _ _ _ _ _ _ Hnd Hsplit H) in Hk.
    apply elem_of_app in Hk. destruct Hk as [Hk|Hk].
    - destruct (Hl k) as [i0 Hi0]; [rewrite Hsplit; apply elem_of_app; by left|]. eauto.
    - apply elem_of_cons in Hk. destruct Hk as [->|Hk]; [eauto|].
      destruct (Hl k) as [i0 Hi0]; [rewrite Hsplit; apply elem_of_app; by right|]. eauto. }
  split; [apply NoDup_singleton|]. split.
  { intros k Hk. apply list_elem_of_singleton in Hk. subst k. eauto. }
  split; [exact Hkeep|]. split; [|auto].
  intros l1 l2 Hsplit. exact (createBefore_position _ _ _ _ _ _ _ Hnd Hsplit H).
Qed.

(** A loop whose iterations place instructions before [l] places the
    instructions of all the iterations before [l], in turn. *)
Lemma mapM'_placed {A B : Type} (l : positive) (P : A → B → list positive → State → Prop)
    (idx : list A) (body : A → M B) :
  (∀ a b s s', wellFormed s → body a s = Some (b, s') →
               ∃ ids, placedBefore l ids s s' ∧ P a b ids s') →
  (∀ a b ids s s', P a b ids s →
                   (∀ k i, insts s !! k = Some i → insts s' !! k = Some i) →
                   P a b ids s') →
  ∀ (bs : list B) (st st' : State),
    wellFormed st → mapM' idx body st = Some (bs, st') →
    ∃ idss, length idss = length idx ∧ length bs = length idx ∧
            placedBefore l (concat idss) st st' ∧
            ∀ n a b ids, idx !! n = Some a → bs !! n = Some b → idss !! n = Some ids →
                         P a b ids st'.
Proof.
  intros Hbody Hstable. induction idx as [|a idx IH]; intros bs st st' Hwf H; simpl in H.
  - apply ret_inv in H. destruct H as [-> ->]. exists [].
    split; [reflexivity|]. split; [reflexivity|].
    split; [by apply placedBefore_refl|]. intros n a b ids Hn. discriminate.
  - apply bind_Some in H. destruct H as (y & s1 & Hy & H).
    apply bind_Some in H. destruct H as (ys & s2 & Hys & H).
    apply ret_inv in H. destruct H as [-> ->].
    destruct (Hbody _ _ _ _ Hwf Hy) as (ids & Hpl & HP).
    pose proof Hpl as (Hwf1 & _).
    destruct (IH _ _ _ Hwf1 Hys) as (idss & Hlen & Hlenb & Hpl2 & Hall).
    exists (ids :: idss). split; [simpl; by rewrite Hlen|].
    split; [simpl; by rewrite Hlenb|].
    split; [exact (placedBefore_trans _ _ _ _ _ _ Hpl Hpl2)|].
    intros n a' b' ids' Hn Hb Hi. destruct n as [|n]; simpl in *.
    + injection Hn as <-. injection Hb as <-. injection Hi as <-.
      apply (Hstable _ _ _ _ _ HP). by destruct Hpl2 as (_ & _ & _ & Hk & _).
    + by apply (Hall n).
Qed.

Lemma forM_placed {A : Type} (l : positive) (P : A → list positive → State → Prop)
    (idx : list A) (body : A → M unit) :
  (∀ a s s', wellFormed s → body a s = Some (tt, s') →
             ∃ ids, placedBefore l ids s s' ∧ P a ids s') →
  (∀ a ids s s', P a ids s →
                 (∀ k i, insts s !! k = Some i → insts s' !! k = Some i) →
                 P a ids s') →
  ∀ (st st' : State),
    wellFormed st → forM idx body st = Some (tt, st') →
    ∃ idss, length idss = length idx ∧
            placedBefore l (concat idss) st st' ∧
            ∀ n a ids, idx !! n = Some a → idss !! n = Some ids → P a ids st'.
Proof.
  intros Hbody Hstable. induction idx as [|a idx IH]; intros st st' Hwf H; simpl in H.
  - apply ret_inv in H. destruct H as [_ ->]. exists [].
    split; [reflexivity|]. split; [by apply placedBefore_refl|].
    intros n a ids Hn. discriminate.
  - apply bind_Some in H. destruct H as ([] & s1 & Hy & H).
    destruct (Hbody _ _ _ Hwf Hy) as (ids & Hpl & HP).
    pose proof Hpl as (Hwf1 & _).
    destruct (IH _ _ Hwf1 H) as (idss & Hlen & Hpl2 & Hall).
    exists (ids :: idss). split; [simpl; by rewrite Hlen|].
    split; [exact (placedBefore_trans _ _ _ _ _ _ Hpl Hpl2)|].
    intros n a' ids' Hn Hi. destruct n as [|n]; simpl in *.
    + injection Hn as <-. injection Hi as <-.
      apply (Hstable _ _ _ _ HP). by destruct Hpl2 as (_ & _ & _ & Hk & _).
    + by apply (Hall n).
Qed.
(** X10: the rule of the vector compare.  As for the binary operator, with
    one scalar compare of the predicate of the original for each element,
    whose result is a single bit (or a vector of bits as wide as the lane,
    should the lane be a vector). *)
Theorem cmp_rule (CI : positive) (I : Instruction) (elt : Ty) (w : positive)
    (v0 v1 : Value) (st st' : State) :
  wellFormed st →
  insts st !! CI = Some I → type I = VectorTy elt w →
  operands I !! 0 = Some v0 → operands I !! 1 = Some v1 →
  scalarizeInstruction_CmpInst CI st = Some (tt, st') →
  ∃ p s0 lanes0 s1 lanes1 s2,
    getSCMEntry (VInst CI) st = Some (p, s0) ∧
    resolveLanes v0 s0 = Some (lanes0, s1) ∧
    resolveLanes v1 s1 = Some (lanes1, s2) ∧
    if isConstant v0 && isConstant v1 then st' = s2
    else
      ∃ ids,
        length ids = Pos.to_nat w ∧ NoDup ids ∧ wellFormed st' ∧
        (∃ l1 l2, instructionsOf (func s2) = l1 ++ CI :: l2 ∧
                  instructionsOf (func st') = l1 ++ ids ++ CI :: l2) ∧
        (∀ k i, stripped s2 !! k = Some i → stripped st' !! k = Some i) ∧
        (∀ n id, ids !! n = Some id →
           insts s2 !! id = None ∧
           ∃ a b t, lanes0 !! n = Some a ∧ lanes1 !! n = Some b ∧
                    typeOf (insts st') a = Some t ∧
                    stripped st' !! id = Some (scalarCmpInst I a b t)) ∧
        m_SCM st' !! VInst CI = Some p ∧
        lookupEntry st' p = Some (mkSCMEntry (Some <$> (VInst <$> ids)) true) ∧
        m_removedInsts st' = {[CI]} ∪ m_removedInsts s2.
Proof.
  intros Hwf HI HtI H0 H1 H. rewrite cmp_is_twoOperandRule in H.
  exact (twoOperandRule_spec _ _ _ _ _ _ _ _ _ Hwf HI HtI H0 H1 H).
Qed.

Lemma cmp_rule_witness :
  ∃ st' ids, scalarizeInstruction_CmpInst 1 sample_cmp = Some (tt, st') ∧
             length ids = 2 ∧
             ∀ id, id ∈ ids → ∃ i, stripped st' !! id = Some i ∧ opcode i = OpCmp ICmp ∧
                                   predicate i = 40%N.
Proof.
  assert (Hc : holdsAfter (scalarizeInstruction_CmpInst 1 sample_cmp)
                 (λ _ _, true) = true) by (vm_compute; reflexivity).
  apply holdsAfter_Some in Hc. destruct Hc as ([] & st' & E & _).
  destruct (cmp_rule 1 (mkInst (OpCmp ICmp) (VectorTy (IntTy 1) 2)
                          [VArg v2i32 0; VArg v2i32 1] 40%N noFlags [] [] None None)
              (IntTy 1) 2 (VArg v2i32 0) (VArg v2i32 1) sample_cmp st')
    as (p & s0 & lanes0 & s1 & lanes1 & s2 & Hentry & Hres0 & Hres1 & ids & Hlen & _ & Hwf
        & _ & _ & Hids & _).
  - apply wellFormedb_correct. vm_compute. reflexivity.
  - reflexivity.
  - reflexivity.
  - reflexivity.
  - reflexivity.
  - exact E.
  - exists st', ids. split; [exact E|]. split; [exact Hlen|].
    intros id Hid. apply list_elem_of_lookup in Hid. destruct Hid as [n Hn].
    destruct (Hids n id Hn) as (_ & a & b & t & _ & _ & _ & Hs).
    eexists. split; [exact Hs|]. split; reflexivity.
Defined.
(** ** The rule of the cast *)

(** X11: the rule of the cast.  A bitcast is left as it is (recovered) when
    its result is no vector or its operand is no vector of as many
    elements.  Another cast to a type that is no vector is skipped.  A cast
    of a vector resolves the lanes of its operand and, unless the operand is
    a constant, makes one scalar cast of the same opcode to the element type
    for each lane, before the original, in the order of the elements; the
    SCM holds the new casts as the lanes of the original, which is marked as
    removed. *)
Theorem cast_rule (CI : positive) (I : Instruction) (c : CastOps) (v0 : Value)
    (st st' : State) :
  wellFormed st →
  insts st !! CI = Some I → opcode I = OpCast c → operands I !! 0 = Some v0 →
  scalarizeInstruction_CastInst CI st = Some (tt, st') →
  if castIsRecovered I (typeOf (insts st) v0) then
    code st' = code st ∧
    ∀ v t, v ∈ operands I → typeOf (insts st) v = Some t → isVectorTy t = true →
           v ∈ m_usedVectors st'
  else
    match type I with
    | VectorTy elt w =>
        ∃ eltS p s0 lanes s1,
          typeOf (insts st) v0 = Some (VectorTy eltS w) ∧
          getSCMEntry (VInst CI) st = Some (p, s0) ∧
          resolveLanes v0 s0 = Some (lanes, s1) ∧
          if isConstant v0 then st' = s1
          else
            ∃ ids,
              length ids = Pos.to_nat w ∧ NoDup ids ∧ wellFormed st' ∧
              (∃ l1 l2, instructionsOf (func s1) = l1 ++ CI :: l2 ∧
                        instructionsOf (func st') = l1 ++ ids ++ CI :: l2) ∧
              (∀ k i, stripped s1 !! k = Some i → stripped st' !! k = Some i) ∧
              (∀ n id, ids !! n = Some id →
                 insts s1 !! id = None ∧
                 ∃ a, lanes !! n = Some a ∧
                      stripped st' !! id = Some (plainInst (OpCast c) elt [a])) ∧
              m_SCM st' !! VInst CI = Some p ∧
              lookupEntry st' p = Some (mkSCMEntry (Some <$> (VInst <$> ids)) true) ∧
              m_removedInsts st' = {[CI]} ∪ m_removedInsts s1
    | _ => st' = st
    end.
Proof.
  intros Hwf HI Hop H0 H. unfold scalarizeInstruction_CastInst in H.
  apply bind_Some in H. destruct H as (I' & z & HI' & H).
  apply getInst_inv in HI'. destruct HI' as [HI' ->].
  rewrite HI in HI'. injection HI' as <-.
  apply bind_Some in H. destruct H as (notScalarizable & z & Hns & H).
  assert (Hns' : notScalarizable = castIsRecovered I (typeOf (insts st) v0) ∧ z = st).
  { unfold castIsRecovered. destruct (bool_decide (opcode I = OpCast BitCast)).
    - destruct (asVectorType (type I)) as [[e n]|].
      + apply bind_Some in Hns. destruct Hns as (x0 & z1 & Ho & Hns).
        apply fromOption_inv in Ho. destruct Ho as [Ho ->].
        rewrite H0 in Ho. injection Ho as <-.
        apply bind_Some in Hns. destruct Hns as (t0 & z1 & Ht0 & Hns).
        apply getType_inv in Ht0. destruct Ht0 as [Ht0 ->].
        apply ret_inv in Hns. destruct Hns as [-> ->]. rewrite Ht0. simpl.
        by destruct (asVectorType t0) as [[]|].
      + apply ret_inv in Hns. by destruct Hns as [-> ->].
    - apply ret_inv in Hns. by destruct Hns as [-> ->]. }
  destruct Hns' as [-> ->].
  destruct (castIsRecovered I (typeOf (insts st) v0)).
  { destruct (recoverNonScalarizableInst_spec _ _ _ _ HI H) as (Hcode & _ & Hreg).
    split; [exact Hcode|].
    intros v t Hv. apply Hreg. unfold recoveredOperands. by rewrite Hop. }
  destruct (type I) as [| | | |elt w|] eqn:HtI; simpl in H;
    try (apply ret_inv in H; by destruct H as [_ ->]).
  apply bind_Some in H. destruct H as (p & s0 & Hentry & H).
  apply bind_Some in H. destruct H as (x0 & z & Ho & H).
  apply fromOption_inv in Ho. destruct Ho as [Ho ->].
  rewrite H0 in Ho. injection Ho as <-.
  apply bind_Some in H. destruct H as (t0 & z & Ht0 & H).
  apply getType_inv in Ht0. destruct Ht0 as [Ht0 ->].
  apply bind_Some in H. destruct H as ([] & z & Hreq & H).
  apply require_inv in Hreq. destruct Hreq as [Hreq ->].
  apply bool_decide_eq_true in Hreq.
  apply bind_Some in H. destruct H as ([operand0 c0] & s1 & Hob0 & H).
  pose proof (wellFormed_getSCMEntry _ _ _ _ Hentry Hwf) as Hwf0.
  pose proof (wellFormed_obtainScalarizedValues _ _ _ _ _ Hob0 Hwf0) as Hwf1.
  pose proof (keeps_getSCMEntry_insts _ _ _ _ Hentry) as Hi0.
  apply obtainScalarizedValues_lanes in Hob0.
  destruct Hob0 as (lanes & e0 & w0 & _ & Hres0 & _ & -> & ->).
  assert (HtS : ∃ eltS, typeOf (insts st) v0 = Some (VectorTy eltS w)).
  { rewrite <- Hi0, Ht0. destruct t0 as [| | | |eS wS|]; try discriminate Hreq.
    simpl in Hreq. injection Hreq as Hw. apply Pos2Nat.inj in Hw. subst wS. eauto. }
  destruct HtS as (eltS & HtS).
  exists eltS, p, s0, lanes, s1.
  split; [exact HtS|]. split; [exact Hentry|]. split; [exact Hres0|].
  destruct (isConstant v0).
  { apply ret_inv in H. by destruct H as [_ ->]. }
  apply bind_Some in H. destruct H as (news & s3 & Hloop & H).
  destruct (grows_typeOf _ _ (grows_resolveLanes _ _ _ _ Hres0) (proj1 Hwf0)) as [_ Hty1].
  assert (HtX : typeOf (insts s1) (VInst CI) = Some (VectorTy elt w)).
  { apply Hty1. simpl. by rewrite Hi0, HI, <- HtI. }
  assert (Hp1 : m_SCM s1 !! VInst CI = Some p).
  { apply (lookup_weaken (m_SCM s0)); [|exact (resolveLanes_SCM _ _ _ _ Hres0)].
    exact (proj2 (getSCMEntry_SCM _ _ _ _ Hentry)). }
  apply (decomposeLoop w (λ dup, getLane (Some <$> lanes) dup)
           (λ _ a, plainInst (opcode I) elt [a]) CI) in Hloop; [| | |exact Hwf1].
  2:{ intros dup s. reflexivity. }
  2:{ intros dup x s s' Hx. apply getLane_Some in Hx. tauto. }
  destruct Hloop as (ids & -> & Hlen & Hnd & Hwf3 & Hpos & Hkeep & Hids & Hscm & Hrest).
  assert (HtX3 : typeOf (insts s3) (VInst CI) = Some (VectorTy elt w))
    by exact (typeOf_keep _ _ _ _ Hkeep HtX).
  assert (Hp3 : m_SCM s3 !! VInst CI = Some p) by (injection Hscm as -> _; exact Hp1).
  destruct (register_decomposition _ _ _ _ _ _ _ _ HtX3 Hp3 H)
    as (lanes' & Hlen' & Htake & Hstr & _ & Hn & Hfunc & Hp' & He' & Hrm & _).
  rewrite take_ge in Htake by (rewrite !length_fmap; lia).
  apply fmap_Some_inj in Htake. subst lanes'.
  exists ids. split; [exact Hlen|]. split; [exact Hnd|].
  split; [exact (wellFormed_stripped _ _ Hstr Hn Hfunc Hwf3)|].
  split; [by rewrite Hfunc|].
  split.
  { intros k i Hk. rewrite Hstr. exact (stripped_keep _ _ Hkeep k i Hk). }
  split.
  { intros n id Hn'. destruct (Hids n id Hn') as (Hnone & a & s & Hx & _ & _ & Hid).
    split; [exact Hnone|].
    apply getLane_Some in Hx. destruct Hx as [Ha _].
    exists a. split; [exact Ha|].
    rewrite Hstr. unfold stripped. rewrite lookup_fmap, Hid, Hop. reflexivity. }
  split; [exact Hp'|]. split; [exact He'|].
  rewrite Hrm. f_equal. by injection Hrest.
Qed.

Lemma cast_rule_witness :
  ∃ st' ids, scalarizeInstruction_CastInst 1 sample_cast = Some (tt, st') ∧
             length ids = 2 ∧
             ∀ id, id ∈ ids → ∃ a, stripped st' !! id
                                   = Some (plainInst (OpCast ZExt) (IntTy 64) [a]).
Proof.
  assert (Hc : holdsAfter (scalarizeInstruction_CastInst 1 sample_cast)
                 (λ _ _, true) = true) by (vm_compute; reflexivity).
  apply holdsAfter_Some in Hc. destruct Hc as ([] & st' & E & _).
  pose proof (cast_rule 1 (plainInst (OpCast ZExt) (VectorTy (IntTy 64) 2) [VArg v2i32 0])
                ZExt (VArg v2i32 0) sample_cast st'
                (wellFormedb_correct sample_cast eq_refl) eq_refl eq_refl eq_refl E) as H.
  simpl in H.
  destruct H as (eltS & p & s0 & lanes & s1 & _ & _ & _ & ids & Hlen & _ & _ & _ & _ & Hids & _).
  exists st', ids. split; [exact E|]. split; [exact Hlen|].
  intros id Hid. apply list_elem_of_lookup in Hid. destruct Hid as [n Hn].
  destruct (Hids n id Hn) as (_ & a & _ & Hs). eauto.
Defined.
(** ** The rules of the load and of the store *)

Lemma createOperandBase_inv (GepPtr : Value) (elt : Ty) (l : positive) (base : Value)
    (t : Ty) (st st' : State) :
  wellFormed st →
  createOperandBase GepPtr elt l st = Some ((base, t), st') →
  ∃ pointee addrspace id,
    typeOf (insts st) GepPtr = Some (PointerTy pointee addrspace) ∧
    t = PointerTy elt addrspace ∧ base = VInst id ∧
    placedBefore l [id] st st' ∧
    insts st' !! id = Some (plainInst (OpCast BitCast) t [GepPtr]) ∧
    l ∈ instructionsOf (func st).
Proof.
  intros Hwf H. unfold createOperandBase in H.
  apply bind_Some in H. destruct H as (pt & z & Hpt & H).
  apply getType_inv in Hpt. destruct Hpt as [Hpt ->].
  destruct pt as [| | |pointee addrspace| |]; try discriminate H.
  apply bind_Some in H. destruct H as (id & s1 & Hc & H).
  apply ret_inv in H. destruct H as [Hres ->].
  injection Hres as Hb Ht. subst base t.
  destruct (placedBefore_createBefore _ _ _ _ _ Hwf Hc) as (Hpl & Hid & Hin).
  exists pointee, addrspace, id.
  split; [exact Hpt|]. split; [reflexivity|]. split; [reflexivity|].
  split; [exact Hpl|]. split; [exact Hid | exact Hin].
Qed.

Lemma elem_of_concat {A : Type} (x : A) (l : list A) (ls : list (list A)) :
  x ∈ l → l ∈ ls → x ∈ concat ls.
Proof.
  intros Hx Hl. induction ls as [|l0 ls IH]; [by apply elem_of_nil in Hl|].
  simpl. apply elem_of_app. apply elem_of_cons in Hl. destruct Hl as [<-|Hl]; auto.
Qed.

Lemma placedBefore_stripped (l : positive) (ids : list positive) (st st' : State) :
  placedBefore l ids st st' →
  ∀ k i, stripped st !! k = Some i → stripped st' !! k = Some i.
Proof. intros (_ & _ & _ & Hk & _). by apply stripped_keep. Qed.

(** X12: the rule of the load.  A load whose result is no vector, or any
    load when the pass was not made to scalarize loads and stores, is
    recovered.  Otherwise the pointer is cast to a pointer to the element
    type in its address space, and for each element a getelementptr of the
    cast pointer at the index of the element and a load from it are made;
    all of them stand before the original in this order, the SCM holds the
    new loads as the lanes of the original, and the original is marked as
    removed. *)
Theorem load_rule (LI : positive) (I : Instruction) (GepPtr : Value) (st st' : State) :
  wellFormed st →
  insts st !! LI = Some I → opcode I = Load → operands I !! 0 = Some GepPtr →
  scalarizeInstruction_LoadInst LI st = Some (tt, st') →
  match m_ScalarizingVectorLDSTType st, type I with
  | true, VectorTy elt w =>
      ∃ p pointee addrspace base idss lanes l1 l2,
        m_SCM st' !! VInst LI = Some p ∧
        typeOf (insts st) GepPtr = Some (PointerTy pointee addrspace) ∧
        instructionsOf (func st) = l1 ++ LI :: l2 ∧
        instructionsOf (func st') = l1 ++ (base :: concat idss) ++ LI :: l2 ∧
        insts st !! base = None ∧
        stripped st' !! base
        = Some (plainInst (OpCast BitCast) (PointerTy elt addrspace) [GepPtr]) ∧
        length idss = Pos.to_nat w ∧ length lanes = Pos.to_nat w ∧
        (∀ n ids, idss !! n = Some ids →
           ∃ gep ld,
             ids = [gep; ld] ∧ lanes !! n = Some (VInst ld) ∧
             insts st !! gep = None ∧ insts st !! ld = None ∧
             stripped st' !! gep
             = Some (plainInst GetElementPtr (PointerTy elt addrspace)
                               [VInst base; constIndex n]) ∧
             stripped st' !! ld = Some (plainInst Load elt [VInst gep])) ∧
        (∀ k i, stripped st !! k = Some i → stripped st' !! k = Some i) ∧
        wellFormed st' ∧
        lookupEntry st' p = Some (mkSCMEntry (Some <$> lanes) true) ∧
        m_removedInsts st' = {[LI]} ∪ m_removedInsts st
  | _, _ =>
      code st' = code st ∧
      ∀ v t, v ∈ operands I → typeOf (insts st) v = Some t → isVectorTy t = true →
             v ∈ m_usedVectors st'
  end.
Proof.
  intros Hwf HI Hop H0 H. unfold scalarizeInstruction_LoadInst in H.
  apply bind_Some in H. destruct H as (I' & z & HI' & H).
  apply getInst_inv in HI'. destruct HI' as [HI' ->].
  rewrite HI in HI'. injection HI' as <-.
  apply bind_Some in H. destruct H as (ok & z & Hok & H).
  unfold isScalarizableLoadStoreType in Hok.
  apply bind_Some in Hok. destruct Hok as (b & z1 & Hb & Hok).
  apply gets_inv in Hb. destruct Hb as [-> ->].
  apply ret_inv in Hok. destruct Hok as [-> ->].
  assert (Hrec : recoverNonScalarizableInst LI st = Some (tt, st') →
                 code st' = code st ∧
                 ∀ v t, v ∈ operands I → typeOf (insts st) v = Some t →
                        isVectorTy t = true → v ∈ m_usedVectors st').
  { intros Hr. destruct (recoverNonScalarizableInst_spec _ _ _ _ HI Hr) as (Hcode & _ & Hreg).
    split; [exact Hcode|].
    intros v t Hv. apply Hreg. unfold recoveredOperands. by rewrite Hop. }
  destruct (m_ScalarizingVectorLDSTType st); simpl in H.
  2:{ destruct (type I); by apply Hrec. }
  destruct (type I) as [| | | |elt w|] eqn:HtI; simpl in H; try by apply Hrec.
  apply bind_Some in H. destruct H as (p & s0 & Hentry & H).
  apply bind_Some in H. destruct H as ([] & z & Hsize & H).
  assert (z = s0) as ->.
  { revert Hsize. apply (ltac:(unfold checkVectorSize; keeps_tac) :
      keeps id (checkVectorSize (VectorTy elt w) elt)). }
  apply bind_Some in H. destruct H as (x0 & z & Ho & H).
  apply fromOption_inv in Ho. destruct Ho as [Ho ->].
  rewrite H0 in Ho. injection Ho as <-.
  apply bind_Some in H. destruct H as ([operandBase ptrType] & sB & Hbase & H).
  apply bind_Some in H. destruct H as (news & s3 & Hloop & H).
  pose proof (wellFormed_getSCMEntry _ _ _ _ Hentry Hwf) as Hwf0.
  pose proof (keeps_getSCMEntry_insts _ _ _ _ Hentry) as Hi0.
  pose proof (keeps_getSCMEntry_outside _ _ _ _ Hentry) as Hout0.
  destruct (createOperandBase_inv _ _ _ _ _ _ _ Hwf0 Hbase)
    as (pointee & addrspace & base & HtP & -> & -> & HplB & HiB & Hin).
  pose proof HplB as (HwfB & _).
  (* the loop *)
  apply (mapM'_placed LI
           (λ dup b ids s, ∃ gep ld,
              ids = [gep; ld] ∧ b = Some (VInst ld) ∧
              insts s !! gep = Some (plainInst GetElementPtr (PointerTy elt addrspace)
                                               [VInst base; constIndex dup]) ∧
              insts s !! ld = Some (plainInst Load elt [VInst gep]))) in Hloop;
    [| | |exact HwfB].
  2:{ intros dup b s s' Hs Hb.
      apply bind_Some in Hb. destruct Hb as (gep & t1 & Hg & Hb).
      apply bind_Some in Hb. destruct Hb as (ld & t2 & Hl & Hb).
      apply ret_inv in Hb. destruct Hb as [-> ->].
      destruct (placedBefore_createBefore _ _ _ _ _ Hs Hg) as (Hpl1 & Hi1 & _).
      pose proof Hpl1 as (Hwf1 & _).
      destruct (placedBefore_createBefore _ _ _ _ _ Hwf1 Hl) as (Hpl2 & Hi2 & _).
      exists [gep; ld]. split; [exact (placedBefore_trans _ [gep] [ld] _ _ _ Hpl1 Hpl2)|].
      exists gep, ld. split; [reflexivity|]. split; [reflexivity|].
      split; [|exact Hi2]. by destruct Hpl2 as (_ & _ & _ & Hk & _); apply Hk. }
  2:{ intros dup b ids s s' (gep & ld & -> & -> & Hg & Hl) Hk.
      exists gep, ld. auto. }
  destruct Hloop as (idss & Hlen & Hlenb & Hpl & Hall).
  rewrite length_seq in Hlen, Hlenb.
  pose proof (placedBefore_trans _ _ _ _ _ _ HplB Hpl) as Hpl3.
  destruct Hpl3 as (Hwf3 & Hnd3 & Hnew3 & Hkeep3 & Hpos3 & Hscm3 & Hrest3).
  (* the entry *)
  assert (HtX3 : typeOf (insts s3) (VInst LI) = Some (VectorTy elt w)).
  { simpl. rewrite (Hkeep3 LI I); [simpl; by rewrite HtI|]. by rewrite Hi0. }
  assert (Hp3 : m_SCM s3 !! VInst LI = Some p).
  { injection Hscm3 as -> _. exact (proj2 (getSCMEntry_SCM _ _ _ _ Hentry)). }
  destruct (register_decomposition _ _ _ _ _ _ _ _ HtX3 Hp3 H)
    as (lanes & Hlen' & Htake & Hstr & _ & Hn & Hfunc & Hp' & He' & Hrm & _).
  apply list_elem_of_split in Hin. destruct Hin as (l1 & l2 & Hsplit).
  assert (Hf0 : func s0 = func st) by exact (f_equal (λ x, x.1.1.1.2) Hout0).
  exists p, pointee, addrspace, base, idss, lanes, l1, l2.
  split; [exact Hp'|]. split; [by rewrite <- Hi0|].
  split; [by rewrite <- Hf0|].
  split; [rewrite Hfunc; by apply Hpos3|].
  split.
  { rewrite <- Hi0. apply Hnew3. left. }
  split.
  { rewrite Hstr. unfold stripped. rewrite lookup_fmap.
    destruct Hpl as (_ & _ & _ & Hk & _). by rewrite (Hk _ _ HiB). }
  split; [exact Hlen|]. split; [exact Hlen'|].
  split.
  { intros n ids Hn'.
    assert (Hlt : n < Pos.to_nat w) by (apply lookup_lt_Some in Hn'; lia).
    destruct (lookup_lt_is_Some_2 news n) as [b Hb]; [lia|].
    destruct (Hall n n b ids) as (gep & ld & -> & -> & Hg & Hl); try assumption.
    { apply lookup_seq. lia. }
    exists gep, ld. split; [reflexivity|].
    split.
    { assert (Hl' : (Some <$> lanes) !! n = Some (Some (VInst ld))).
      { rewrite <- Htake. rewrite lookup_take_lt by lia. exact Hb. }
      rewrite list_lookup_fmap in Hl'. destruct (lanes !! n); [|discriminate].
      simpl in Hl'. by injection Hl' as ->. }
    assert (Hmem : gep ∈ base :: concat idss ∧ ld ∈ base :: concat idss).
    { apply list_elem_of_lookup_2 in Hn'.
      split; right; apply (elem_of_concat _ [gep; ld]); try assumption.
      - left.
      - right. left. }
    destruct Hmem as [Hm1 Hm2].
    split; [rewrite <- Hi0; exact (proj1 (Hnew3 _ Hm1))|].
    split; [rewrite <- Hi0; exact (proj1 (Hnew3 _ Hm2))|].
    split; rewrite Hstr; unfold stripped; rewrite lookup_fmap.
    - by rewrite Hg.
    - by rewrite Hl. }
  split.
  { intros k i Hk. rewrite Hstr. apply (stripped_keep s0 s3 Hkeep3).
    unfold stripped in *. by rewrite Hi0. }
  split; [exact (wellFormed_stripped _ _ Hstr Hn Hfunc Hwf3)|].
  split; [exact He'|].
  rewrite Hrm. f_equal. transitivity (m_removedInsts s0); [by injection Hrest3|].
  exact (f_equal (λ x, x.2) Hout0).
Qed.
Lemma load_rule_witness :
  ∃ st' base gep0 ld0 gep1 ld1,
    scalarizeInstruction_LoadInst 1 sample_load_store = Some (tt, st') ∧
    instructionsOf (func st') = [base; gep0; ld0; gep1; ld1; 1; 2; 3]%positive ∧
    stripped st' !! ld1 = Some (plainInst Load i32 [VInst gep1]).
Proof.
  assert (Hc : holdsAfter (scalarizeInstruction_LoadInst 1 sample_load_store)
                 (λ _ _, true) = true) by (vm_compute; reflexivity).
  apply holdsAfter_Some in Hc. destruct Hc as ([] & st' & E & _).
  pose proof (load_rule 1 (plainInst Load v2i32 [VArg (PointerTy v2i32 1) 0])
                (VArg (PointerTy v2i32 1) 0) sample_load_store st'
                (wellFormedb_correct sample_load_store eq_refl) eq_refl eq_refl eq_refl E)
    as H.
  simpl in H.
  destruct H as (p & pointee & addrspace & base & idss & lanes & l1 & l2 & _ & _ & Hl & Hl'
                 & _ & _ & Hlen & _ & Hids & _).
  change (length idss = 2) in Hlen.
  destruct idss as [|ids0 [|ids1 [|]]]; try discriminate Hlen.
  destruct (Hids 0 ids0 eq_refl) as (gep0 & ld0 & -> & _).
  destruct (Hids 1 ids1 eq_refl) as (gep1 & ld1 & -> & _ & _ & _ & _ & Hld).
  unfold instructionsOf in Hl. simpl in Hl.
  destruct l1 as [|x [|y [|z l1]]]; simpl in Hl; simplify_eq; [|by destruct l1].
  exists st', base, gep0, ld0, gep1, ld1.
  split; [exact E|]. split; [exact Hl'|exact Hld].
Defined.

(** X13: the rule of the store.  A store whose data is no vector, or any
    store when the pass was not made to scalarize loads and stores, is
    recovered.  Otherwise the lanes of the data are resolved, the pointer is
    cast to a pointer to the element type in its address space, and for each
    element a getelementptr of the cast pointer at the index of the element
    and a store of the lane of the data to it are made; all of them stand
    before the original in this order, the objects that were there and the
    SCM are untouched by this, and the original is marked as removed. *)
Theorem store_rule (SI : positive) (I : Instruction) (data GepPtr : Value) (st st' : State) :
  wellFormed st →
  insts st !! SI = Some I → opcode I = Store →
  operands I !! 0 = Some data → operands I !! 1 = Some GepPtr →
  scalarizeInstruction_StoreInst SI st = Some (tt, st') →
  match m_ScalarizingVectorLDSTType st, typeOf (insts st) data with
  | true, Some (VectorTy elt w) =>
      ∃ lanes s1 pointee addrspace base idss l1 l2,
        resolveLanes data st = Some (lanes, s1) ∧
        typeOf (insts s1) GepPtr = Some (PointerTy pointee addrspace) ∧
        instructionsOf (func s1) = l1 ++ SI :: l2 ∧
        instructionsOf (func st') = l1 ++ (base :: concat idss) ++ SI :: l2 ∧
        insts s1 !! base = None ∧
        insts st' !! base
        = Some (plainInst (OpCast BitCast) (PointerTy elt addrspace) [GepPtr]) ∧
        length idss = Pos.to_nat w ∧ length lanes = Pos.to_nat w ∧
        (∀ n ids, idss !! n = Some ids →
           ∃ gep sto v,
             ids = [gep; sto] ∧ lanes !! n = Some v ∧
             insts s1 !! gep = None ∧ insts s1 !! sto = None ∧
             insts st' !! gep
             = Some (plainInst GetElementPtr (PointerTy elt addrspace)
                               [VInst base; constIndex n]) ∧
             insts st' !! sto = Some (plainInst Store VoidTy [v; VInst gep])) ∧
        (∀ k i, insts s1 !! k = Some i → insts st' !! k = Some i) ∧
        wellFormed st' ∧
        (m_SCM st', m_SCMArrays st') = (m_SCM s1, m_SCMArrays s1) ∧
        m_removedInsts st' = {[SI]} ∪ m_removedInsts s1
  | _, _ =>
      code st' = code st ∧
      ∀ v t, v ∈ operands I → typeOf (insts st) v = Some t → isVectorTy t = true →
             v ∈ m_usedVectors st'
  end.
Proof.
  intros Hwf HI Hop H0 H1 H. unfold scalarizeInstruction_StoreInst in H.
  apply bind_Some in H. destruct H as (I' & z & HI' & H).
  apply getInst_inv in HI'. destruct HI' as [HI' ->].
  rewrite HI in HI'. injection HI' as <-.
  apply bind_Some in H. destruct H as (x0 & z & Ho & H).
  apply fromOption_inv in Ho. destruct Ho as [Ho ->].
  simpl in Ho. rewrite H0 in Ho. injection Ho as <-.
  apply bind_Some in H. destruct H as (dt & z & Hdt & H).
  apply getType_inv in Hdt. destruct Hdt as [Hdt ->]. rewrite Hdt.
  apply bind_Some in H. destruct H as (ok & z & Hok & H).
  unfold isScalarizableLoadStoreType in Hok.
  apply bind_Some in Hok. destruct Hok as (b & z1 & Hb & Hok).
  apply gets_inv in Hb. destruct Hb as [-> ->].
  apply ret_inv in Hok. destruct Hok as [-> ->].
  assert (Hrec : recoverNonScalarizableInst SI st = Some (tt, st') →
                 code st' = code st ∧
                 ∀ v t, v ∈ operands I → typeOf (insts st) v = Some t →
                        isVectorTy t = true → v ∈ m_usedVectors st').
  { intros Hr. destruct (recoverNonScalarizableInst_spec _ _ _ _ HI Hr) as (Hcode & _ & Hreg).
    split; [exact Hcode|].
    intros v t Hv. apply Hreg. unfold recoveredOperands. by rewrite Hop. }
  destruct (m_ScalarizingVectorLDSTType st); simpl in H.
  2:{ destruct dt; by apply Hrec. }
  destruct dt as [| | | |elt w|]; simpl in H; try by apply Hrec.
  apply bind_Some in H. destruct H as ([] & z & Hsize & H).
  assert (z = st) as ->.
  { revert Hsize. apply (ltac:(unfold checkVectorSize; keeps_tac) :
      keeps id (checkVectorSize (VectorTy elt w) elt)). }
  apply bind_Some in H. destruct H as ([operand0 c0] & s1 & Hdata & H).
  apply bind_Some in H. destruct H as (x1 & z & Ho & H).
  apply fromOption_inv in Ho. destruct Ho as [Ho ->].
  rewrite H1 in Ho. injection Ho as <-.
  apply bind_Some in H. destruct H as ([operandBase ptrType] & sB & Hbase & H).
  apply bind_Some in H. destruct H as ([] & s3 & Hloop & H).
  apply modify_inv in H.
  pose proof (wellFormed_obtainScalarizedValues _ _ _ _ _ Hdata Hwf) as Hwf1.
  apply obtainScalarizedValues_lanes in Hdata.
  destruct Hdata as (lanes & elt' & w' & Hty' & Hres & Hlenl & _ & ->).
  rewrite Hdt in Hty'. injection Hty' as <- <-.
  destruct (createOperandBase_inv _ _ _ _ _ _ _ Hwf1 Hbase)
    as (pointee & addrspace & base & HtP & -> & -> & HplB & HiB & Hin).
  pose proof HplB as (HwfB & _).
  apply (forM_placed SI
           (λ dup ids s, ∃ gep sto v,
              ids = [gep; sto] ∧ lanes !! dup = Some v ∧
              insts s !! gep = Some (plainInst GetElementPtr (PointerTy elt addrspace)
                                               [VInst base; constIndex dup]) ∧
              insts s !! sto = Some (plainInst Store VoidTy [v; VInst gep]))) in Hloop;
    [| | |exact HwfB].
  2:{ intros dup s s' Hs Hb.
      apply bind_Some in Hb. destruct Hb as (gep & t1 & Hg & Hb).
      apply bind_Some in Hb. destruct Hb as (v & z & Hv & Hb).
      apply getLane_Some in Hv. destruct Hv as [Hv ->].
      apply bind_Some in Hb. destruct Hb as (sto & t2 & Hl & Hb).
      apply ret_inv in Hb. destruct Hb as [_ ->].
      destruct (placedBefore_createBefore _ _ _ _ _ Hs Hg) as (Hpl1 & Hi1 & _).
      pose proof Hpl1 as (Hwf1' & _).
      destruct (placedBefore_createBefore _ _ _ _ _ Hwf1' Hl) as (Hpl2 & Hi2 & _).
      exists [gep; sto]. split; [exact (placedBefore_trans _ [gep] [sto] _ _ _ Hpl1 Hpl2)|].
      exists gep, sto, v. split; [reflexivity|]. split; [exact Hv|].
      split; [|exact Hi2]. by destruct Hpl2 as (_ & _ & _ & Hk & _); apply Hk. }
  2:{ intros dup ids s s' (gep & sto & v & -> & Hv & Hg & Hl) Hk.
      exists gep, sto, v. auto. }
  destruct Hloop as (idss & Hlen & Hpl & Hall).
  rewrite length_seq in Hlen.
  pose proof (placedBefore_trans _ _ _ _ _ _ HplB Hpl) as Hpl3.
  destruct Hpl3 as (Hwf3 & Hnd3 & Hnew3 & Hkeep3 & Hpos3 & Hscm3 & Hrest3).
  apply list_elem_of_split in Hin. destruct Hin as (l1 & l2 & Hsplit).
  exists lanes, s1, pointee, addrspace, base, idss, l1, l2. subst st'.
  split; [exact Hres|]. split; [exact HtP|]. split; [exact Hsplit|].
  split; [by apply Hpos3|].
  split; [apply Hnew3; left|].
  split.
  { simpl. destruct Hpl as (_ & _ & _ & Hk & _). by apply Hk. }
  split; [exact Hlen|]. split; [exact Hlenl|].
  split.
  { intros n ids Hn'.
    assert (Hlt : n < Pos.to_nat w) by (apply lookup_lt_Some in Hn'; lia).
    destruct (Hall n n ids) as (gep & sto & v & -> & Hv & Hg & Hl); try assumption.
    { apply lookup_seq. lia. }
    exists gep, sto, v. split; [reflexivity|]. split; [exact Hv|].
    assert (Hmem : gep ∈ base :: concat idss ∧ sto ∈ base :: concat idss).
    { apply list_elem_of_lookup_2 in Hn'.
      split; right; apply (elem_of_concat _ [gep; sto]); try assumption.
      - left.
      - right. left. }
    destruct Hmem as [Hm1 Hm2].
    split; [exact (proj1 (Hnew3 _ Hm1))|].
    split; [exact (proj1 (Hnew3 _ Hm2))|].
    split; assumption. }
  split; [exact Hkeep3|].
  split; [exact Hwf3|].
  split; [simpl; by injection Hscm3 as -> -> _|].
  simpl. f_equal. by injection Hrest3.
Qed.

Lemma store_rule_witness :
  ∃ st' lanes base idss,
    scalarizeInstruction_StoreInst 2 sample_load_store = Some (tt, st') ∧
    length lanes = 2 ∧ length idss = 2 ∧
    ∀ n ids, idss !! n = Some ids →
      ∃ gep sto v, ids = [gep; sto] ∧ lanes !! n = Some v ∧
        insts st' !! gep
        = Some (plainInst GetElementPtr (PointerTy i32 1) [VInst base; constIndex n]) ∧
        insts st' !! sto = Some (plainInst Store VoidTy [v; VInst gep]).
Proof.
  assert (Hc : holdsAfter (scalarizeInstruction_StoreInst 2 sample_load_store)
                 (λ _ _, true) = true) by (vm_compute; reflexivity).
  apply holdsAfter_Some in Hc. destruct Hc as ([] & st' & E & _).
  pose proof (store_rule 2 (plainInst Store VoidTy [VInst 1; VArg (PointerTy v2i32 1) 1])
                (VInst 1) (VArg (PointerTy v2i32 1) 1) sample_load_store st'
                (wellFormedb_correct sample_load_store eq_refl) eq_refl eq_refl eq_refl
                eq_refl E) as H.
  simpl in H.
  destruct H as (lanes & s1 & pointee & addrspace & base & idss & l1 & l2 & _ & HtP & _ & _
                 & _ & _ & Hlen & Hlenl & Hids & _).
  assert (addrspace = 1%N) as -> by (simpl in HtP; congruence).
  exists st', lanes, (base), idss.
  split; [exact E|]. split; [exact Hlenl|]. split; [exact Hlen|].
  intros n ids Hn. destruct (Hids n ids Hn) as (gep & sto & v & -> & Hv & _ & _ & Hg & Hs).
  exists gep, sto, v. auto.
Defined.
(** ** The rule of the select *)

(** X14: the rule of the vector select.  The lanes of the true value, then
    of the false value, then of a vector condition are resolved; a scalar
    condition serves every element.  For an element whose true and false
    lanes are the same value no instruction is made and the lane is that
    value; for any other element one scalar select of the condition lane and
    the two lanes is made before the original.  The SCM holds these lanes for
    the original, which is marked as removed; a select that yields no vector
    is left alone, with nothing registered. *)
Theorem select_rule (SI : positive) (I : Instruction) (cond tv fv : Value)
    (st st' : State) :
  wellFormed st →
  insts st !! SI = Some I →
  operands I !! 0 = Some cond → operands I !! 1 = Some tv → operands I !! 2 = Some fv →
  scalarizeInstruction_SelectInst SI st = Some (tt, st') →
  match type I with
  | VectorTy elt w =>
      ∃ p s0 tl s1 fl s2 ct cl s3 idss lanes,
        getSCMEntry (VInst SI) st = Some (p, s0) ∧
        resolveLanes tv s0 = Some (tl, s1) ∧
        resolveLanes fv s1 = Some (fl, s2) ∧
        typeOf (insts s2) cond = Some ct ∧
        (if isVectorTy ct then resolveLanes cond s2 = Some (cl, s3)
         else cl = replicate (Pos.to_nat w) cond ∧ s3 = s2) ∧
        length idss = Pos.to_nat w ∧ length lanes = Pos.to_nat w ∧
        (∀ l1 l2, instructionsOf (func s3) = l1 ++ SI :: l2 →
                  instructionsOf (func st') = l1 ++ concat idss ++ SI :: l2) ∧
        (∀ n ids, idss !! n = Some ids →
           ∃ a b, tl !! n = Some a ∧ fl !! n = Some b ∧
             if decide (a = b) then ids = [] ∧ lanes !! n = Some a
             else ∃ id c t,
                 ids = [id] ∧ lanes !! n = Some (VInst id) ∧ cl !! n = Some c ∧
                 typeOf (insts st') a = Some t ∧ insts s3 !! id = None ∧
                 stripped st' !! id = Some (plainInst Select t [c; a; b])) ∧
        (∀ k i, stripped s3 !! k = Some i → stripped st' !! k = Some i) ∧
        wellFormed st' ∧
        m_SCM st' !! VInst SI = Some p ∧
        lookupEntry st' p = Some (mkSCMEntry (Some <$> lanes) true) ∧
        m_removedInsts st' = {[SI]} ∪ m_removedInsts s3
  | _ => st' = st
  end.
Proof.
  intros Hwf HI H0 H1 H2 H. unfold scalarizeInstruction_SelectInst in H.
  apply bind_Some in H. destruct H as (I' & z & HI' & H).
  apply getInst_inv in HI'. destruct HI' as [HI' ->].
  rewrite HI in HI'. injection HI' as <-.
  destruct (type I) as [| | | |elt w|] eqn:HtI; simpl in H;
    try (apply ret_inv in H; by destruct H as [_ ->]).
  apply bind_Some in H. destruct H as (p & s0 & Hentry & H).
  apply bind_Some in H. destruct H as (x1 & z & Ho & H).
  apply fromOption_inv in Ho. destruct Ho as [Ho ->].
  rewrite H1 in Ho. injection Ho as <-.
  apply bind_Some in H. destruct H as ([trueValOp c1] & s1 & Hob1 & H).
  apply bind_Some in H. destruct H as (x2 & z & Ho & H).
  apply fromOption_inv in Ho. destruct Ho as [Ho ->].
  rewrite H2 in Ho. injection Ho as <-.
  apply bind_Some in H. destruct H as ([falseValOp c2] & s2 & Hob2 & H).
  apply bind_Some in H. destruct H as (x0 & z & Ho & H).
  apply fromOption_inv in Ho. destruct Ho as [Ho ->].
  rewrite H0 in Ho. injection Ho as <-.
  apply bind_Some in H. destruct H as (ct & z & Hct & H).
  apply getType_inv in Hct. destruct Hct as [Hct ->].
  apply bind_Some in H. destruct H as (condOp & s3 & Hcond & H).
  apply bind_Some in H. destruct H as (news & s4 & Hloop & H).
  pose proof (wellFormed_getSCMEntry _ _ _ _ Hentry Hwf) as Hwf0.
  pose proof (wellFormed_obtainScalarizedValues _ _ _ _ _ Hob1 Hwf0) as Hwf1.
  pose proof (wellFormed_obtainScalarizedValues _ _ _ _ _ Hob2 Hwf1) as Hwf2.
  apply obtainScalarizedValues_lanes in Hob1.
  destruct Hob1 as (tl & e1 & w1 & _ & Hres1 & _ & _ & ->).
  apply obtainScalarizedValues_lanes in Hob2.
  destruct Hob2 as (fl & e2 & w2 & _ & Hres2 & _ & _ & ->).
  assert (Hc : ∃ cl, condOp = Some <$> cl ∧ wellFormed s3 ∧ grows s2 s3 ∧
                     m_SCM s2 ⊆ m_SCM s3 ∧
                     if isVectorTy ct then resolveLanes cond s2 = Some (cl, s3)
                     else cl = replicate (Pos.to_nat w) cond ∧ s3 = s2).
  { destruct (isVectorTy ct).
    - apply bind_Some in Hcond. destruct Hcond as ([condOp' c3] & z & Hob3 & Hcond).
      apply ret_inv in Hcond. destruct Hcond as [-> ->].
      pose proof (wellFormed_obtainScalarizedValues _ _ _ _ _ Hob3 Hwf2) as Hwf3.
      apply obtainScalarizedValues_lanes in Hob3.
      destruct Hob3 as (cl & e3 & w3 & _ & Hres3 & _ & _ & ->).
      exists cl. split; [reflexivity|]. split; [exact Hwf3|].
      split; [exact (grows_resolveLanes _ _ _ _ Hres3)|].
      split; [exact (resolveLanes_SCM _ _ _ _ Hres3) | exact Hres3].
    - apply ret_inv in Hcond. destruct Hcond as [-> ->].
      exists (replicate (Pos.to_nat w) cond).
      split; [by rewrite fmap_replicate|]. split; [exact Hwf2|].
      split; [apply grows_refl|]. split; [reflexivity | by split]. }
  destruct Hc as (cl & -> & Hwf3 & Hg3 & Hscm23 & Hcl).
  pose proof (keeps_getSCMEntry_insts _ _ _ _ Hentry) as Hi0.
  destruct (grows_typeOf _ _ (grows_resolveLanes _ _ _ _ Hres1) (proj1 Hwf0)) as [_ Hty1].
  destruct (grows_typeOf _ _ (grows_resolveLanes _ _ _ _ Hres2) (proj1 Hwf1)) as [_ Hty2].
  destruct (grows_typeOf _ _ Hg3 (proj1 Hwf2)) as [_ Hty3].
  assert (HtX : typeOf (insts s3) (VInst SI) = Some (VectorTy elt w)).
  { apply Hty3, Hty2, Hty1. simpl. rewrite Hi0, HI. simpl. by rewrite HtI. }
  assert (Hp3 : m_SCM s3 !! VInst SI = Some p).
  { apply (lookup_weaken (m_SCM s2)); [|exact Hscm23].
    apply (lookup_weaken (m_SCM s1)); [|exact (resolveLanes_SCM _ _ _ _ Hres2)].
    apply (lookup_weaken (m_SCM s0)); [|exact (resolveLanes_SCM _ _ _ _ Hres1)].
    exact (proj2 (getSCMEntry_SCM _ _ _ _ Hentry)). }
  (* the loop *)
  apply (mapM'_placed SI
           (λ dup b ids s, ∃ x y,
              tl !! dup = Some x ∧ fl !! dup = Some y ∧
              if decide (x = y) then ids = [] ∧ b = Some x
              else ∃ id c t,
                  ids = [id] ∧ b = Some (VInst id) ∧ cl !! dup = Some c ∧
                  typeOf (insts s) x = Some t ∧
                  insts s !! id = Some (plainInst Select t [c; x; y]))) in Hloop;
    [| | |exact Hwf3].
  2:{ intros dup b s s' Hs Hb.
      apply bind_Some in Hb. destruct Hb as (x & z & Hx & Hb).
      apply getLane_Some in Hx. destruct Hx as [Hx ->].
      apply bind_Some in Hb. destruct Hb as (y & z & Hy & Hb).
      apply getLane_Some in Hy. destruct Hy as [Hy ->].
      destruct (decide (x ≠ y)) as [Hne|He].
      - apply bind_Some in Hb. destruct Hb as (c & z & Hcl' & Hb).
        apply getLane_Some in Hcl'. destruct Hcl' as [Hcl' ->].
        apply bind_Some in Hb. destruct Hb as (t & z & Ht & Hb).
        apply getType_inv in Ht. destruct Ht as [Ht ->].
        apply bind_Some in Hb. destruct Hb as (id & t2 & Hcr & Hb).
        apply ret_inv in Hb. destruct Hb as [-> ->].
        destruct (placedBefore_createBefore _ _ _ _ _ Hs Hcr) as (Hpl & Hi & _).
        exists [id]. split; [exact Hpl|]. exists x, y.
        split; [exact Hx|]. split; [exact Hy|].
        destruct (decide (x = y)) as [E|_]; [by destruct Hne|].
        exists id, c, t. repeat (split; [reflexivity || assumption|]).
        split; [|exact Hi].
        destruct Hpl as (_ & _ & _ & Hk & _). exact (typeOf_keep _ _ _ _ Hk Ht).
      - apply ret_inv in Hb. destruct Hb as [-> ->].
        exists []. split; [by apply placedBefore_refl|]. exists x, y.
        split; [exact Hx|]. split; [exact Hy|].
        destruct (decide (x = y)) as [_|Hne]; [by split|].
        destruct He. exact Hne. }
  2:{ intros dup b ids s s' (x & y & Hx & Hy & HP) Hk.
      exists x, y. split; [exact Hx|]. split; [exact Hy|].
      destruct (decide (x = y)); [exact HP|].
      destruct HP as (id & c & t & -> & -> & Hc & Ht & Hi).
      exists id, c, t. repeat (split; [reflexivity || assumption|]).
      split; [exact (typeOf_keep _ _ _ _ Hk Ht) | by apply Hk]. }
  destruct Hloop as (idss & Hlen & Hlenb & Hpl & Hall).
  rewrite length_seq in Hlen, Hlenb.
  destruct Hpl as (Hwf4 & Hnd4 & Hnew4 & Hkeep4 & Hpos4 & Hscm4 & Hrest4).
  assert (HtX4 : typeOf (insts s4) (VInst SI) = Some (VectorTy elt w))
    by exact (typeOf_keep _ _ _ _ Hkeep4 HtX).
  assert (Hp4 : m_SCM s4 !! VInst SI = Some p) by (injection Hscm4 as -> _; exact Hp3).
  destruct (register_decomposition _ _ _ _ _ _ _ _ HtX4 Hp4 H)
    as (lanes & Hlen' & Htake & Hstr & _ & Hn & Hfunc & Hp' & He' & Hrm & _).
  exists p, s0, tl, s1, fl, s2, ct, cl, s3, idss, lanes.
  split; [exact Hentry|]. split; [exact Hres1|]. split; [exact Hres2|].
  split; [exact Hct|]. split; [exact Hcl|].
  split; [exact Hlen|]. split; [exact Hlen'|].
  split; [intros l1 l2 Hl; rewrite Hfunc; by apply Hpos4|].
  split.
  { intros n ids Hn'.
    assert (Hlt : n < Pos.to_nat w) by (apply lookup_lt_Some in Hn'; lia).
    destruct (lookup_lt_is_Some_2 news n) as [b Hb]; [lia|].
    destruct (Hall n n b ids) as (x & y & Hx & Hy & HP); try assumption.
    { apply lookup_seq. lia. }
    assert (Hlane : ∀ v, b = Some v → lanes !! n = Some v).
    { intros v ->.
      assert (Hl' : (Some <$> lanes) !! n = Some (Some v)).
      { rewrite <- Htake. rewrite lookup_take_lt by lia. exact Hb. }
      rewrite list_lookup_fmap in Hl'. destruct (lanes !! n); [|discriminate].
      simpl in Hl'. by injection Hl' as ->. }
    exists x, y. split; [exact Hx|]. split; [exact Hy|].
    destruct (decide (x = y)).
    - destruct HP as [-> Hbx]. split; [reflexivity | by apply Hlane].
    - destruct HP as (id & c & t & -> & Hbx & Hc & Ht & Hi).
      exists id, c, t. split; [reflexivity|]. split; [by apply Hlane|].
      split; [exact Hc|].
      split; [by rewrite (typeOf_stripped _ _ x Hstr)|].
      split.
      + apply Hnew4. apply (elem_of_concat _ [id]); [left|].
        by apply list_elem_of_lookup_2 in Hn'.
      + rewrite Hstr. unfold stripped. by rewrite lookup_fmap, Hi. }
  split.
  { intros k i Hk. rewrite Hstr. exact (stripped_keep _ _ Hkeep4 k i Hk). }
  split; [exact (wellFormed_stripped _ _ Hstr Hn Hfunc Hwf4)|].
  split; [exact Hp'|]. split; [exact He'|].
  rewrite Hrm. f_equal. by injection Hrest4.
Qed.
Lemma select_rule_witness :
  ∃ st' id p lanes,
    scalarizeInstruction_SelectInst 1 sample_select_const = Some (tt, st') ∧
    instructionsOf (func st') = [id; 1; 2]%positive ∧
    m_SCM st' !! VInst 1 = Some p ∧
    lookupEntry st' p = Some (mkSCMEntry (Some <$> lanes) true) ∧
    length lanes = 2.
Proof.
  assert (Hc : holdsAfter (scalarizeInstruction_SelectInst 1 sample_select_const)
                 (λ _ st', bool_decide (tail (instructionsOf (func st')) = [1; 2]%positive)
                           && bool_decide (length (instructionsOf (func st')) = 3))
               = true) by (vm_compute; reflexivity).
  apply holdsAfter_Some in Hc. destruct Hc as ([] & st' & E & Hc).
  pose proof (select_rule 1
                (plainInst Select v2i32
                   [VArg (IntTy 1) 0; VConst (constVector2 1 2); VConst (constVector2 1 3)])
                (VArg (IntTy 1) 0) (VConst (constVector2 1 2)) (VConst (constVector2 1 3))
                sample_select_const st'
                (wellFormedb_correct sample_select_const eq_refl) eq_refl eq_refl eq_refl
                eq_refl E) as H.
  simpl in H.
  destruct H as (p & s0 & tl & s1 & fl & s2 & ct & cl & s3 & idss & lanes & _ & _ & _ & _ & _
                 & _ & Hlen & _ & _ & _ & _ & Hp & He & _).
  apply andb_prop in Hc. destruct Hc as [Ht Hn].
  apply bool_decide_eq_true in Ht. apply bool_decide_eq_true in Hn.
  destruct (instructionsOf (func st')) as [|id l] eqn:Hf; [discriminate Hn|].
  simpl in Ht. subst l.
  exists st', id, p, lanes.
  split; [exact E|]. split; [exact Hf|]. split; [exact Hp|].
  split; [exact He | exact Hlen].
Defined.

Lemma second_resolution_is_lookup_witness :
  ∃ r' c s1,
    obtainScalarizedValues [] (VArg v4i32 0) None sample_extract = Some ((r', c), s1) ∧
    obtainScalarizedValues [] (VArg v4i32 0) None s1 = Some ((r', c), s1).
Proof.
  assert (Hc : holdsAfter (obtainScalarizedValues [] (VArg v4i32 0) None sample_extract)
                 (λ _ _, true) = true) by (vm_compute; reflexivity).
  apply holdsAfter_Some in Hc. destruct Hc as ([r' c] & s1 & E & _).
  exists r', c, s1. split; [exact E|].
  apply (second_resolution_is_lookup [] r' [] (VArg v4i32 0) c sample_extract s1);
    [exact (proj1 (wellFormedb_correct sample_extract eq_refl)) | discriminate | exact E].
Defined.

Lemma insertelement_rule_witness :
  ∃ st' p,
    scalarizeInstruction_InsertElementInst 1 sample_insert = Some (tt, st') ∧
    m_SCM st' !! VInst 1 = Some p ∧
    lookupEntry st' p
    = Some (mkSCMEntry [Some (VArg i32 0); Some (VConst (UndefValue i32))] true).
Proof.
  assert (Hc : holdsAfter (scalarizeInstruction_InsertElementInst 1 sample_insert)
                 (λ _ _, true) = true) by (vm_compute; reflexivity).
  apply holdsAfter_Some in Hc. destruct Hc as ([] & st' & E & _).
  pose proof (insertelement_rule 1
                (plainInst InsertElement v2i32
                   [VConst (UndefValue v2i32); VArg i32 0; VConst (ConstantInt i32 0)])
                (VConst (UndefValue v2i32)) (VArg i32 0) (VConst (ConstantInt i32 0))
                sample_insert st'
                (proj1 (wellFormedb_correct sample_insert eq_refl)) eq_refl eq_refl eq_refl
                eq_refl eq_refl E) as H.
  simpl in H.
  destruct H as (elt & w & p & s0 & lanes & s1 & Ht & _ & _ & (elt' & w' & Ht' & -> & _)
                 & _ & _ & _ & _ & Hp & He & _).
  injection Ht as <- <-. injection Ht' as <- <-.
  exists st', p. split; [exact E|]. split; [exact Hp | exact He].
Defined.
(** ** Matching the debug locations *)

Lemma setDebugLoc_idem (d : option N) (i : Instruction) :
  setDebugLoc d (setDebugLoc d i) = setDebugLoc d i.
Proof. reflexivity. Qed.

Lemma matchDebugLoc_notin (d : option N) (vs : list Value) (k : positive)
    (i : Instruction) :
  VInst k ∉ vs → matchDebugLoc d vs k i = i.
Proof. intros Hn. unfold matchDebugLoc. by rewrite bool_decide_eq_false_2. Qed.

Lemma matchDebugLoc_Some (d : option N) (vs : list Value) (k : positive)
    (i : Instruction) (d0 : N) :
  debugLoc i = Some d0 → matchDebugLoc d vs k i = i.
Proof.
  intros Hd. unfold matchDebugLoc. rewrite Hd.
  rewrite (bool_decide_eq_false_2 (Some d0 = None)) by discriminate.
  by rewrite andb_false_r.
Qed.

Lemma matchDebugLoc_in (d : option N) (vs : list Value) (k : positive)
    (i : Instruction) :
  VInst k ∈ vs → debugLoc i = None → matchDebugLoc d vs k i = setDebugLoc d i.
Proof.
  intros Hin Hd. unfold matchDebugLoc.
  by rewrite bool_decide_eq_true_2, bool_decide_eq_true_2.
Qed.

Lemma matchDebugLoc_set (d : option N) (vs : list Value) (k : positive)
    (i : Instruction) :
  matchDebugLoc d vs k (setDebugLoc d i) = setDebugLoc d i.
Proof. unfold matchDebugLoc. by destruct (_ && _). Qed.

(** The loop of [updateSCMEntryWithValues] that matches the debug locations,
    on the lanes [vs] that it reads at the indices [idx]. *)
Lemma matchDebugLoc_loop (vals : list (option Value)) (X : positive) (d : option N)
    (idx : list nat) (vs : list Value) (st st' : State) :
  Forall2 (λ j v, vals !! j = Some (Some v)) idx vs →
  (∃ I, insts st !! X = Some I ∧ debugLoc I = d) →
  forM idx (λ i, getLane vals i ≫= λ v,
                 match v with
                 | VInst scalarInst => SetDebugLocBy scalarInst X
                 | _ => mret tt
                 end) st = Some (tt, st') →
  ∀ k, insts st' !! k = matchDebugLoc d vs k <$> insts st !! k.
Proof.
  intros Hvs. revert st. induction Hvs as [|j v idx vs Hj Hvs IH]; intros st HX H; simpl in H.
  - apply ret_inv in H. destruct H as [_ ->].
    intros k. destruct (insts st !! k) as [i|]; [|reflexivity]. simpl.
    rewrite matchDebugLoc_notin; [reflexivity | apply not_elem_of_nil].
  - apply bind_Some in H. destruct H as ([] & s1 & Hstep & H).
    apply bind_Some in Hstep. destruct Hstep as (v' & z & Hv & Hstep).
    unfold getLane in Hv.
    apply bind_Some in Hv. destruct Hv as (o & z' & Ho & Hv).
    apply fromOption_inv in Ho. destruct Ho as [Ho ->].
    rewrite Hj in Ho. injection Ho as <-.
    apply fromOption_inv in Hv. destruct Hv as [Hv ->]. injection Hv as <-.
    destruct HX as (I & HX & Hd).
    assert (Hs1 : (∀ k, insts s1 !! k = matchDebugLoc d [v] k <$> insts st !! k) ∧
                  ∃ I1, insts s1 !! X = Some I1 ∧ debugLoc I1 = d).
    { assert (Hother : ∀ k, VInst k ≠ v →
                matchDebugLoc d [v] k <$> insts st !! k = insts st !! k).
      { intros k Hne. destruct (insts st !! k) as [i|]; [|reflexivity]. simpl.
        rewrite matchDebugLoc_notin; [reflexivity|].
        intros Hin. apply list_elem_of_singleton in Hin. congruence. }
      destruct v as [k0| |].
      2,3: apply ret_inv in Hstep; destruct Hstep as [_ ->];
           (split; [|eauto]); intros k; by rewrite Hother.
      unfold SetDebugLocBy in Hstep.
      apply bind_Some in Hstep. destruct Hstep as (i0 & z1 & Hi0 & Hstep).
      apply getInst_inv in Hi0. destruct Hi0 as [Hi0 ->].
      apply bind_Some in Hstep. destruct Hstep as (sB & z1 & HsB & Hstep).
      apply getInst_inv in HsB. destruct HsB as [HsB ->].
      rewrite HX in HsB. injection HsB as <-.
      destruct (debugLoc i0) as [d0|] eqn:Hd0.
      - apply ret_inv in Hstep. destruct Hstep as [_ ->].
        split; [|eauto].
        intros k. destruct (decide (k = k0)) as [->|Hne].
        + rewrite Hi0. simpl. by rewrite (matchDebugLoc_Some _ _ _ _ d0).
        + rewrite Hother; [reflexivity | congruence].
      - apply modify_inv in Hstep. subst s1. simpl.
        split.
        + intros k. destruct (decide (k = k0)) as [->|Hne].
          * rewrite lookup_insert_eq, Hi0. simpl. rewrite Hd.
            rewrite matchDebugLoc_in; [reflexivity | left | exact Hd0].
          * rewrite lookup_insert_ne by congruence.
            rewrite Hother; [reflexivity | congruence].
        + destruct (decide (X = k0)) as [->|Hne].
          * rewrite lookup_insert_eq. eexists. split; [reflexivity|]. simpl. exact Hd.
          * rewrite lookup_insert_ne by congruence. eauto. }
    destruct Hs1 as (Hk1 & HX1).
    intros k. rewrite (IH s1 HX1 H), Hk1.
    destruct (insts st !! k) as [i|]; [|reflexivity]. simpl. f_equal.
    destruct (decide (VInst k = v)) as [<-|Hne].
    + destruct (debugLoc i) as [d0|] eqn:Hdi.
      * rewrite (matchDebugLoc_Some d [VInst k] k i d0 Hdi).
        by rewrite !(matchDebugLoc_Some _ _ _ _ d0).
      * rewrite (matchDebugLoc_in d [VInst k] k i) by (left || assumption).
        rewrite matchDebugLoc_set.
        symmetry. apply matchDebugLoc_in; [left | exact Hdi].
    + rewrite (matchDebugLoc_notin d [v]).
      2:{ intros Hin. apply list_elem_of_singleton in Hin. congruence. }
      unfold matchDebugLoc.
      rewrite (bool_decide_ext (VInst k ∈ v :: vs) (VInst k ∈ vs)); [reflexivity|].
      rewrite elem_of_cons. split; [intros [?|?]; [congruence|assumption] | by right].
Qed.

(** X15: matching the debug locations.  When [updateSCMEntryWithValues]
    writes the lanes of an instruction and is told to match the debug
    locations, every lane that is an instruction without a debug location
    gets the debug location of the original; a lane that has a debug location
    keeps it, and no other instruction object is touched.  When it is not
    told to, or the original is no instruction, the instruction objects are
    as they were. *)
Theorem update_matches_debug_locations (p : SCMEntryPtr) (vals : list (option Value))
    (v : Value) (rm dbg : bool) (st st' : State) :
  updateSCMEntryWithValues p vals v rm dbg st = Some (tt, st') →
  ∃ elt w lanes,
    typeOf (insts st) v = Some (VectorTy elt w) ∧
    length lanes = Pos.to_nat w ∧ take (Pos.to_nat w) vals = Some <$> lanes ∧
    lookupEntry st' p = Some (mkSCMEntry (Some <$> lanes) rm) ∧
    ∀ k, insts st' !! k
         = match v, dbg with
           | VInst X, true =>
               matchDebugLoc (insts st !! X ≫= debugLoc) lanes k <$> insts st !! k
           | _, _ => insts st !! k
           end.
Proof.
  intros H. pose proof H as Hentry.
  apply updateSCMEntryWithValues_entry in Hentry.
  destruct Hentry as (elt & w & arr & lanes' & Hty & Harr & Hlt & Hlen & Hall & Hlanes & Harrs).
  assert (Hex : ∃ lanes, lanes' = Some <$> lanes).
  { clear -Hall. induction lanes' as [|[x|] l IH].
    - by exists [].
    - apply Forall_cons in Hall. destruct Hall as [_ Hall].
      destruct (IH Hall) as (lanes & ->). by exists (x :: lanes).
    - apply Forall_cons in Hall. destruct Hall as [[? Hx] _]. discriminate. }
  destruct Hex as (lanes & ->). rewrite length_fmap in Hlen.
  exists elt, w, lanes. split; [exact Hty|]. split; [exact Hlen|]. split.
  { rewrite <- Hlen.
    apply list_eq. intros i. destruct (decide (i < length lanes)) as [Hi|Hi].
    - rewrite lookup_take_lt by exact Hi. symmetry. apply Hlanes. lia.
    - rewrite lookup_take_ge by lia. symmetry. apply lookup_ge_None_2.
      rewrite length_fmap. lia. }
  split.
  { unfold lookupEntry. rewrite Harrs.
    rewrite list_lookup_insert_eq by (by apply lookup_lt_Some in Harr). simpl.
    by apply list_lookup_insert_eq. }
  unfold updateSCMEntryWithValues in H.
  apply bind_Some in H. destruct H as (t & z & Ht & H).
  apply getType_inv in Ht. destruct Ht as [Ht ->].
  rewrite Hty in Ht. injection Ht as <-.
  apply bind_Some in H. destruct H as ([elt' w'] & z & Hw' & H).
  apply fromOption_inv in Hw'. destruct Hw' as [Hw' ->].
  simpl in Hw'. injection Hw' as <- <-.
  apply bind_Some in H. destruct H as (e & z & He & H).
  assert (z = st) as ->.
  { exact ((ltac:(unfold readEntry; keeps_tac) : keeps id (readEntry p)) _ _ _ He). }
  apply bind_Some in H. destruct H as (filled & z & Hfill & H).
  assert (z = st) as -> by exact (keeps_fillLanes id _ _ _ _ _ _ Hfill).
  apply bind_Some in H. destruct H as ([] & s1 & Hw & H).
  assert (Hi1 : insts s1 = insts st).
  { exact ((ltac:(unfold writeEntry; keeps_tac) : keeps insts (writeEntry p _)) _ _ _ Hw). }
  destruct dbg.
  2:{ apply ret_inv in H. destruct H as [_ ->]. intros k. rewrite Hi1. by destruct v. }
  destruct v as [X| |].
  2,3: apply ret_inv in H; destruct H as [_ ->]; intros k; by rewrite Hi1.
  simpl in Hty. destruct (insts st !! X) as [I|] eqn:HX; [|discriminate].
  assert (HF : Forall2 (λ j v, vals !! j = Some (Some v)) (seq 0 (Pos.to_nat w)) lanes).
  { apply Forall2_lookup. intros i.
    destruct (decide (i < Pos.to_nat w)) as [Hi|Hi].
    + rewrite lookup_seq_lt by exact Hi.
      destruct (lookup_lt_is_Some_2 lanes i) as [x Hx]; [lia|]. rewrite Hx.
      constructor. simpl. rewrite <- (Hlanes i Hi), list_lookup_fmap, Hx. reflexivity.
    + rewrite lookup_seq_ge by lia. rewrite lookup_ge_None_2 by lia. constructor. }
  assert (HX1 : ∃ I1, insts s1 !! X = Some I1 ∧ debugLoc I1 = debugLoc I)
    by (exists I; rewrite Hi1; auto).
  intros k. rewrite (matchDebugLoc_loop vals X (debugLoc I) _ lanes _ _ HF HX1 H k).
  by rewrite Hi1.
Qed.

Lemma update_matches_debug_locations_witness :
  ∃ p s0 st',
    getSCMEntry (VInst 1) sample_debug = Some (p, s0) ∧
    updateSCMEntryWithValues p [Some (VInst 2); Some (VInst 3)] (VInst 1) true true s0
    = Some (tt, st') ∧
    debugLoc <$> insts st' !! 2%positive = Some (Some 7%N) ∧
    debugLoc <$> insts st' !! 3%positive = Some (Some 9%N).
Proof.
  assert (Hc : holdsAfter
                 ((getSCMEntry (VInst 1) ≫= λ p,
                   updateSCMEntryWithValues p [Some (VInst 2); Some (VInst 3)] (VInst 1)
                                            true true ;; mret p) sample_debug)
                 (λ _ _, true) = true) by (vm_compute; reflexivity).
  apply holdsAfter_Some in Hc. destruct Hc as (p' & st' & E & _).
  apply bind_Some in E. destruct E as (p & s0 & Hget & E).
  apply bind_Some in E. destruct E as ([] & s1 & Hupd & E).
  apply ret_inv in E. destruct E as [_ ->].
  exists p, s0, s1. split; [exact Hget|]. split; [exact Hupd|].
  destruct (update_matches_debug_locations _ _ _ _ _ _ _ Hupd)
    as (elt & w & lanes & Hty & _ & Htake & _ & Hk).
  pose proof (keeps_getSCMEntry_insts _ _ _ _ Hget) as Hi0.
  rewrite Hi0 in Hty, Hk. injection Hty as <- <-.
  apply (fmap_Some_inj [VInst 2; VInst 3]) in Htake.
  subst lanes. rewrite !Hk. split; reflexivity.
Defined.
(** ** The deletion loop of [runOnFunction] *)

Lemma instructionsOf_removeFromBlock (id : positive) (d r : bool) (bs : list BasicBlock) :
  instructionsOf (mkFunction d r (removeFromBlock id <$> bs))
  = filter (λ y, y ≠ id) (instructionsOf (mkFunction d r bs)).
Proof.
  unfold instructionsOf. simpl. induction bs as [|b bs IH]; [reflexivity|].
  rewrite !fmap_cons, !concat_cons, filter_app, <- IH. reflexivity.
Qed.

Lemma filter_not_elem_cons (id : positive) (ids l : list positive) :
  filter (λ y, y ∉ ids) (filter (λ y, y ≠ id) l) = filter (λ y, y ∉ id :: ids) l.
Proof.
  induction l as [|x l IH]; [reflexivity|].
  rewrite (filter_cons (λ y, y ≠ id)), (filter_cons (λ y, y ∉ id :: ids)).
  destruct (decide (x ≠ id)) as [Hne|He].
  - rewrite filter_cons. destruct (decide (x ∉ ids)) as [Hn|Hi].
    + rewrite decide_True; [by rewrite IH|]. rewrite not_elem_of_cons. by split.
    + rewrite decide_False; [exact IH|]. rewrite not_elem_of_cons. tauto.
  - rewrite decide_False; [exact IH|]. rewrite not_elem_of_cons.
    intros [Hne _]. apply He. exact Hne.
Qed.

(** One turn of the deletion loop, for an instruction that has an object. *)
Lemma deleteRemovedInst_run (id : positive) (i : Instruction) (st : State) :
  insts st !! id = Some i →
  deleteRemovedInst id st
  = Some (tt, set_insts (λ m, delete id (replaceUses (VInst id) (VConst (UndefValue (type i)))
                                           <$> m))
                (set_blocks (fmap (removeFromBlock id)) st)).
Proof.
  intros Hi. unfold deleteRemovedInst.
  apply bind_Some. exists (type i), st. split.
  { simpl. apply bind_Some. exists i, st. split; [by apply getInst_Some | reflexivity]. }
  apply bind_Some. eexists tt, _. split.
  { unfold replaceAllUsesWith. apply bind_Some. exists tt, st. split.
    - apply require_Some. split; [|reflexivity]. by apply bool_decide_eq_true.
    - reflexivity. }
  apply bind_Some. eexists _, _. split; [reflexivity|].
  apply bind_Some. eexists tt, _. split.
  { apply require_Some. split; [|reflexivity]. simpl. by apply use_empty_replaceUses. }
  unfold eraseFromParent.
  apply bind_Some. eexists _, _. split.
  { apply getInst_Some. simpl. rewrite lookup_fmap, Hi. reflexivity. }
  apply bind_Some. eexists tt, _. split; reflexivity.
Qed.

Lemma setOperands_setOperands (ops ops' : list Value) (i : Instruction) :
  setOperands ops (setOperands ops' i) = setOperands ops i.
Proof. reflexivity. Qed.

Lemma undefUses_replaceUses (m : gmap positive Instruction) (G : gset positive)
    (id : positive) (i j : Instruction) :
  m !! id = Some i →
  undefUses (delete id (replaceUses (VInst id) (VConst (UndefValue (type i))) <$> m)) G
            (replaceUses (VInst id) (VConst (UndefValue (type i))) j)
  = undefUses m ({[id]} ∪ G) j.
Proof.
  intros Hi. unfold undefUses, replaceUses. rewrite setOperands_setOperands.
  simpl. rewrite <- list_fmap_compose. f_equal.
  apply list_fmap_ext. intros _ v _. simpl.
  destruct (decide (v = VInst id)) as [->|Hne].
  - rewrite decide_True by (apply elem_of_union; left; by apply elem_of_singleton).
    by rewrite Hi.
  - destruct v as [k| |]; try reflexivity.
    assert (Hk : k ≠ id) by congruence.
    rewrite lookup_delete_ne by congruence. rewrite lookup_fmap.
    destruct (decide (k ∈ G)) as [Hin|Hnin].
    + rewrite decide_True by (apply elem_of_union; by right).
      by destruct (m !! k).
    + rewrite decide_False; [reflexivity|].
      rewrite elem_of_union, elem_of_singleton. tauto.
Qed.

Lemma deletion_loop_list (ids : list positive) :
  NoDup ids →
  ∀ st, (∀ id, id ∈ ids → is_Some (insts st !! id)) →
  ∃ st', forM ids deleteRemovedInst st = Some (tt, st') ∧
    instructionsOf (func st') = filter (λ y, y ∉ ids) (instructionsOf (func st)) ∧
    (∀ k, insts st' !! k
          = if decide (k ∈ ids) then None
            else undefUses (insts st) (list_to_set ids) <$> insts st !! k) ∧
    bb_name <$> blocks (func st') = bb_name <$> blocks (func st) ∧
    nextId st' = nextId st ∧
    (m_SCM st', m_SCMArrays st', scmShape st') = (m_SCM st, m_SCMArrays st, scmShape st) ∧
    (m_DRL st', m_usedVectors st', m_removedInsts st')
    = (m_DRL st, m_usedVectors st, m_removedInsts st).
Proof.
  induction 1 as [|id ids Hnin Hnd IH]; intros st Hall.
  - exists st. split; [reflexivity|]. split.
    { simpl. symmetry. induction (instructionsOf (func st)) as [|x l IHl]; [reflexivity|].
      rewrite filter_cons, decide_True by apply not_elem_of_nil. by rewrite IHl. }
    split; [|by repeat split].
    intros k. rewrite decide_False by apply not_elem_of_nil.
    destruct (insts st !! k) as [i|] eqn:Hk; [|reflexivity]. simpl. f_equal.
    unfold undefUses. destruct i as [op t ops pr fl ib mk intr dl]. unfold setOperands. simpl.
    f_equal. symmetry. etrans; [|apply list_fmap_id].
    apply list_fmap_ext. intros _ v _. simpl. destruct v as [k'| |]; reflexivity.
  - destruct (Hall id) as [i Hi]; [left|].
    pose proof (deleteRemovedInst_run id i st Hi) as Hrun.
    set (s1 := set_insts (λ m, delete id (replaceUses (VInst id)
                                            (VConst (UndefValue (type i))) <$> m))
                 (set_blocks (fmap (removeFromBlock id)) st)) in *.
    destruct (IH s1) as (st' & Hloop & Hf & Hk & Hnames & Hn & Hscm & Hrest).
    { intros id' Hid'. assert (id' ≠ id) by (intros ->; contradiction).
      destruct (Hall id') as [i' Hi']; [by right|].
      simpl. rewrite lookup_delete_ne by congruence. rewrite lookup_fmap, Hi'. by eexists. }
    exists st'. split.
    { simpl. apply bind_Some. exists tt, s1. split; assumption. }
    split.
    { rewrite Hf. simpl. rewrite instructionsOf_removeFromBlock.
      rewrite filter_not_elem_cons. by destruct (func st). }
    split.
    { intros k. rewrite Hk. simpl.
      destruct (decide (k = id)) as [->|Hne].
      - rewrite decide_False by exact Hnin. rewrite decide_True by left.
        by rewrite lookup_delete_eq.
      - destruct (decide (k ∈ ids)) as [Hin|Hnk].
        + rewrite decide_True; [reflexivity | by right].
        + rewrite decide_False.
          2:{ rewrite elem_of_cons. tauto. }
          rewrite lookup_delete_ne by congruence. rewrite lookup_fmap.
          destruct (insts st !! k) as [j|]; [|reflexivity]. simpl. f_equal.
          by apply undefUses_replaceUses. }
    split.
    { rewrite Hnames. simpl. rewrite <- list_fmap_compose. reflexivity. }
    split; [exact Hn|]. split; [exact Hscm | exact Hrest].
Qed.

(** X16: the deletion loop at the end of [runOnFunction].  When every
    instruction of the removed set has an object, the loop ends without a
    failed assertion, in whatever order [ids] it visits the set.  Afterwards
    the instructions of the function are those that were not in the set, in
    their order; the objects of the set are gone; in the other objects every
    operand that was an instruction of the set is the undefined value of its
    type and nothing else is changed; so no object refers to an erased
    instruction.  No block is removed, and the pass object is untouched. *)
Theorem deletion_loop (st : State) (ids : list positive) :
  NoDup ids → (∀ id, id ∈ ids ↔ id ∈ m_removedInsts st) →
  (∀ id, id ∈ m_removedInsts st → is_Some (insts st !! id)) →
  ∃ st', forM ids deleteRemovedInst st = Some (tt, st') ∧
    instructionsOf (func st')
    = filter (λ y, y ∉ m_removedInsts st) (instructionsOf (func st)) ∧
    (∀ k, insts st' !! k
          = if decide (k ∈ m_removedInsts st) then None
            else undefUses (insts st) (m_removedInsts st) <$> insts st !! k) ∧
    (∀ id, id ∈ m_removedInsts st → unused (insts st') (VInst id)) ∧
    bb_name <$> blocks (func st') = bb_name <$> blocks (func st) ∧
    nextId st' = nextId st ∧
    (m_SCM st', m_SCMArrays st', scmShape st') = (m_SCM st, m_SCMArrays st, scmShape st) ∧
    (m_DRL st', m_usedVectors st', m_removedInsts st')
    = (m_DRL st, m_usedVectors st, m_removedInsts st).
Proof.
  intros Hnd Hids Hall.
  destruct (deletion_loop_list ids Hnd st)
    as (st' & Hloop & Hf & Hk & Hnames & Hn & Hscm & Hrest).
  { intros id Hid. apply Hall. by apply Hids. }
  assert (Hset : list_to_set ids = m_removedInsts st).
  { apply set_eq. intros id. rewrite elem_of_list_to_set. apply Hids. }
  rewrite Hset in Hk.
  assert (Hk' : ∀ k, insts st' !! k
                     = if decide (k ∈ m_removedInsts st) then None
                       else undefUses (insts st) (m_removedInsts st) <$> insts st !! k).
  { intros k. rewrite Hk.
    destruct (decide (k ∈ ids)) as [Hin|Hnin].
    - rewrite decide_True; [reflexivity | by apply Hids].
    - rewrite decide_False; [reflexivity | by rewrite <- Hids]. }
  exists st'. split; [exact Hloop|]. split.
  { rewrite Hf. apply list_filter_iff. intros y. by rewrite Hids. }
  split; [exact Hk'|]. split.
  { intros id Hid k i' Hki Hin. rewrite Hk' in Hki.
    destruct (decide (k ∈ m_removedInsts st)); [discriminate|].
    destruct (insts st !! k) as [j|]; [|discriminate]. injection Hki as <-.
    unfold undefUses in Hin. simpl in Hin.
    apply list_elem_of_fmap in Hin. destruct Hin as (v & Hv & _).
    destruct (Hall id Hid) as [i Hi].
    destruct v as [k'| |]; try discriminate Hv.
    destruct (decide (k' ∈ m_removedInsts st)) as [Hk'in|Hk'nin].
    - destruct (Hall k' Hk'in) as [j' Hj']. rewrite Hj' in Hv. discriminate.
    - injection Hv as ->. contradiction. }
  split; [exact Hnames|]. split; [exact Hn|]. split; [exact Hscm | exact Hrest].
Qed.

Lemma deletion_loop_witness :
  ∃ st',
    forM (elements (m_removedInsts sample_add_call_traversed)) deleteRemovedInst
         sample_add_call_traversed = Some (tt, st') ∧
    instructionsOf (func st')
    = filter (λ y, y ∉ m_removedInsts sample_add_call_traversed)
             (instructionsOf (func sample_add_call_traversed)).
Proof.
  destruct (deletion_loop sample_add_call_traversed
              (elements (m_removedInsts sample_add_call_traversed)))
    as (st' & H1 & H2 & _).
  - apply NoDup_elements.
  - intros id. apply elem_of_elements.
  - change (set_Forall (λ id, is_Some (insts sample_add_call_traversed !! id))
                      (m_removedInsts sample_add_call_traversed)).
    apply (bool_decide_unpack _). vm_compute. exact I.
  - exists st'. split; assumption.
Defined.
(** ** The instructions that are left as they are *)

(** The loop of [recoverNonScalarizableInst] over the operands: the
    used-whole set grows at its end by the vector operands that it did not
    hold, each once, in the order of the operands. *)
Lemma recover_loop (ops : list Value) :
  ∀ st st',
    forM ops (λ operand,
      getType operand ≫= λ t,
      if isVectorTy t then obtainVectorValueWhichMightBeScalarized operand
      else mret tt) st = Some (tt, st') →
    ∃ added,
      st' = set_usedVectors (λ u, u ++ added) st ∧ NoDup added ∧
      ∀ v, v ∈ added ↔
           v ∈ ops ∧ (v ∉ m_usedVectors st) ∧
           ∃ t, typeOf (insts st) v = Some t ∧ isVectorTy t = true.
Proof.
  induction ops as [|op ops IH]; intros st st' H; simpl in H.
  - apply ret_inv in H. destruct H as [_ ->]. exists [].
    split; [destruct st; unfold set_usedVectors; simpl; by rewrite app_nil_r|].
    split; [constructor|].
    intros v. split; [intros Hv; by apply elem_of_nil in Hv|].
    intros [Hv _]. by apply elem_of_nil in Hv.
  - apply bind_Some in H. destruct H as ([] & s1 & Hstep & H).
    apply bind_Some in Hstep. destruct Hstep as (t & z & Ht & Hstep).
    apply getType_inv in Ht. destruct Ht as [Ht ->].
    destruct (IH _ _ H) as (added & -> & Hnd & Hadded). clear IH H.
    destruct (isVectorTy t) eqn:Hvec.
    + apply modify_inv in Hstep. subst s1.
      destruct (decide (op ∈ m_usedVectors st)) as [Hin|Hnin].
      * exists added.
        split; [unfold set_usedVectors; simpl; rewrite decide_True by exact Hin;
                by destruct st|].
        split; [exact Hnd|]. revert Hadded. simpl. rewrite decide_True by exact Hin.
        intros Hadded.
        intros v. rewrite Hadded. simpl. rewrite elem_of_cons.
        split; [tauto|]. intros ([->|Hv] & Hn & Hty); [contradiction | tauto].
      * exists (op :: added).
        split; [unfold set_usedVectors; simpl; rewrite decide_False by exact Hnin;
                by rewrite <- app_assoc|].
        revert Hadded. simpl. rewrite decide_False by exact Hnin. intros Hadded.
        split.
        { constructor; [|exact Hnd]. intros Hin. apply Hadded in Hin.
          destruct Hin as (_ & Hn & _). simpl in Hn. apply Hn.
          apply elem_of_app. right. left. }
        intros v. rewrite !elem_of_cons, Hadded. simpl. rewrite elem_of_app.
        split.
        -- intros [->|(Hv & Hn & Hty)]; [eauto 6|]. split; [by right|]. split; [tauto|exact Hty].
        -- intros ([->|Hv] & Hn & Hty); [by left|].
           destruct (decide (v = op)) as [->|Hne]; [by left|]. right.
           split; [exact Hv|]. split; [|exact Hty].
           intros [?|Hin]; [contradiction|]. apply list_elem_of_singleton in Hin. contradiction.
    + apply ret_inv in Hstep. destruct Hstep as [_ ->].
      exists added. split; [reflexivity|]. split; [exact Hnd|].
      intros v. rewrite Hadded, elem_of_cons.
      split; [tauto|]. intros ([->|Hv] & Hn & t' & Ht' & Hvec'); [|eauto 6].
      rewrite Ht in Ht'. injection Ht' as <-. congruence.
Qed.

(** X17: the instructions that are left as they are.  For an instruction
    that is not marked as removed and is a call, an alloca, a getelementptr,
    an address space cast or of an opcode the pass does not know, dispatching
    changes no instruction, removes nothing and defers nothing.  It gives an
    instruction of a vector type an entry in the SCM, and it appends to the
    used-whole set the vector operands that the set did not hold (the
    arguments only for a call, whose last operand is the callee), each once
    and in the order of the operands. *)
Theorem dispatch_leftAsIs (I : positive) (inst : Instruction) (st st' : State) :
  I ∉ m_removedInsts st →
  insts st !! I = Some inst → leftAsIs (opcode inst) = true →
  dispatchInstructionToScalarize I st = Some (tt, st') →
  code st' = code st ∧
  (isVectorTy (type inst) = true → is_Some (m_SCM st' !! VInst I)) ∧
  (isVectorTy (type inst) = false →
     (m_SCM st', m_SCMArrays st', scmShape st') = (m_SCM st, m_SCMArrays st, scmShape st)) ∧
  ∃ added,
    m_usedVectors st' = m_usedVectors st ++ added ∧ NoDup added ∧
    ∀ v, v ∈ added ↔
         v ∈ recoveredOperands inst ∧ (v ∉ m_usedVectors st) ∧
         ∃ t, typeOf (insts st) v = Some t ∧ isVectorTy t = true.
Proof.
  intros Hnr HI Hop H.
  assert (Hrec : recoverNonScalarizableInst I st = Some (tt, st')).
  { unfold dispatchInstructionToScalarize in H.
    apply bind_Some in H. destruct H as (removed & z & Hr & H).
    apply gets_inv in Hr. destruct Hr as [-> ->].
    destruct (decide (I ∈ m_removedInsts st)); [contradiction|].
    apply bind_Some in H. destruct H as (inst' & z & Hi & H).
    apply getInst_inv in Hi. destruct Hi as [Hi ->].
    rewrite HI in Hi. injection Hi as <-.
    destruct (opcode inst) as [| |[]| | | | | | | | | | |]; try discriminate Hop; exact H. }
  clear H. split; [exact (keeps_recoverNonScalarizableInst_code _ _ _ _ Hrec)|].
  unfold recoverNonScalarizableInst in Hrec.
  apply bind_Some in Hrec. destruct Hrec as (inst' & z & Hi & H).
  apply getInst_inv in Hi. destruct Hi as [Hi ->].
  rewrite HI in Hi. injection Hi as <-.
  apply bind_Some in H. destruct H as ([] & s1 & Hentry & H).
  apply recover_loop in H. destruct H as (added & -> & Hnd & Hadded).
  assert (Hs1 : insts s1 = insts st ∧ m_usedVectors s1 = m_usedVectors st ∧
                (isVectorTy (type inst) = true → is_Some (m_SCM s1 !! VInst I)) ∧
                (isVectorTy (type inst) = false → s1 = st)).
  { destruct (isVectorTy (type inst)).
    - apply bind_Some in Hentry. destruct Hentry as (p & z & Hget & Hret).
      apply ret_inv in Hret. destruct Hret as [_ ->].
      split; [exact (keeps_getSCMEntry_insts _ _ _ _ Hget)|].
      split; [exact (f_equal (λ x, x.1.2) (keeps_getSCMEntry_outside _ _ _ _ Hget))|].
      split; [|discriminate]. intros _.
      rewrite (proj2 (getSCMEntry_SCM _ _ _ _ Hget)). by eexists.
    - apply ret_inv in Hentry. destruct Hentry as [_ ->]. by repeat split. }
  destruct Hs1 as (Hi1 & Hu1 & Hv1 & Hn1).
  split; [exact Hv1|].
  split; [intros Hnv; by rewrite (Hn1 Hnv)|].
  exists added. split; [simpl; by rewrite Hu1|]. split; [exact Hnd|].
  intros v. rewrite Hadded, Hi1, Hu1. reflexivity.
Qed.

Lemma dispatch_leftAsIs_witness :
  ∃ st',
    dispatchInstructionToScalarize 2 sample_add_call = Some (tt, st') ∧
    code st' = code sample_add_call ∧
    ∃ added, m_usedVectors st' = m_usedVectors sample_add_call ++ added ∧ NoDup added.
Proof.
  assert (Hc : holdsAfter (dispatchInstructionToScalarize 2 sample_add_call)
                 (λ _ _, true) = true) by (vm_compute; reflexivity).
  apply holdsAfter_Some in Hc. destruct Hc as ([] & st' & E & _).
  destruct (dispatch_leftAsIs 2 (plainInst Call VoidTy [VInst 1; callee]) sample_add_call st')
    as (Hcode & _ & _ & added & Hu & Hnd & _).
  - simpl. apply not_elem_of_empty.
  - reflexivity.
  - reflexivity.
  - exact E.
  - exists st'. split; [exact E|]. split; [exact Hcode|]. exists added. by split.
Defined.
(** ** When [getSCMEntry] runs *)

Lemma readEntry_Some (p : SCMEntryPtr) (arr : list SCMEntry) (e : SCMEntry) (st : State) :
  m_SCMArrays st !! p.1 = Some arr → arr !! p.2 = Some e →
  readEntry p st = Some (e, st).
Proof.
  intros Ha He. unfold readEntry. apply bind_Some. exists (m_SCMArrays st), st.
  split; [reflexivity|]. rewrite Ha. simpl. rewrite He. reflexivity.
Qed.

Lemma writeEntry_Some (p : SCMEntryPtr) (arr : list SCMEntry) (e : SCMEntry) (st : State) :
  m_SCMArrays st !! p.1 = Some arr → p.2 < length arr →
  writeEntry p e st = Some (tt, set_SCMArrays <[p.1 := <[p.2 := e]> arr]> st).
Proof.
  intros Ha Hlt. unfold writeEntry. apply bind_Some. exists (m_SCMArrays st), st.
  split; [reflexivity|]. rewrite Ha.
  apply bind_Some. exists arr, st. split; [reflexivity|].
  apply bind_Some. exists tt, st. split; [|reflexivity].
  apply require_Some. split; [by apply bool_decide_eq_true | reflexivity].
Qed.

Lemma getSCMEntry_total (v : Value) (st : State) :
  scmWf st → 0 < ESTIMATED_INST_NUM st → isUndefValue v = false →
  ∃ p st', getSCMEntry v st = Some (p, st').
Proof.
  intros (Hlast & Hlens & Hloc & _ & _) Hest Hu.
  unfold getSCMEntry. rewrite Hu. simpl.
  destruct (m_SCM st !! v) as [q|] eqn:Hq.
  { exists q, st. apply bind_Some. exists tt, st. split; [reflexivity|].
    apply bind_Some. exists (m_SCM st), st. split; [reflexivity|]. by rewrite Hq. }
  set (s1 := if decide (m_SCMArrayLocation st = ESTIMATED_INST_NUM st)
             then set_SCMArrayLocation 0
                    (set_SCMAllocationArray (length (m_SCMArrays st))
                       (set_SCMArrays (λ a, a ++ [replicate (ESTIMATED_INST_NUM st)
                                                            emptySCMEntry]) st))
             else st).
  assert (Hs1 : ∃ arr, m_SCMArrays s1 !! m_SCMAllocationArray s1 = Some arr ∧
                       m_SCMArrayLocation s1 < length arr).
  { subst s1. destruct (decide (m_SCMArrayLocation st = ESTIMATED_INST_NUM st)) as [He|Hne].
    - simpl. exists (replicate (ESTIMATED_INST_NUM st) emptySCMEntry).
      split; [|by rewrite length_replicate].
      rewrite lookup_app_r by lia. by rewrite Nat.sub_diag.
    - destruct (lookup_lt_is_Some_2 (m_SCMArrays st) (m_SCMAllocationArray st))
        as [arr Harr]; [lia|].
      exists arr. split; [exact Harr|].
      rewrite Forall_forall in Hlens.
      rewrite (Hlens arr) by (by apply list_elem_of_lookup_2 in Harr). lia. }
  destruct Hs1 as (arr & Harr & Hlt).
  destruct (lookup_lt_is_Some_2 arr (m_SCMArrayLocation s1) Hlt) as [e He].
  eexists _, _.
  apply bind_Some. exists tt, st. split; [reflexivity|].
  apply bind_Some. exists (m_SCM st), st. split; [reflexivity|]. rewrite Hq.
  apply bind_Some. exists (m_SCMArrayLocation st), st. split; [reflexivity|].
  apply bind_Some. exists (ESTIMATED_INST_NUM st), st. split; [reflexivity|].
  apply bind_Some. exists tt, s1. split.
  { subst s1. destruct (decide (m_SCMArrayLocation st = ESTIMATED_INST_NUM st));
      reflexivity. }
  apply bind_Some. eexists _, _. split; [reflexivity|].
  apply bind_Some. eexists _, _. split; [reflexivity|].
  apply bind_Some. eexists tt, _. split; [reflexivity|].
  apply bind_Some. eexists e, _. split.
  { apply (readEntry_Some _ arr); [exact Harr | exact He]. }
  apply bind_Some. eexists tt, _. split.
  { apply (writeEntry_Some _ arr); [exact Harr | exact Hlt]. }
  apply bind_Some. eexists tt, _. split; reflexivity.
Qed.


(** X18: when [getSCMEntry] runs.  Asking for the entry of an undefined
    value fails the assertion of the function.  For any other value, in a
    pass object whose arrays are as the allocator keeps them and have at
    least one entry each, the function returns an entry: it never runs out
    of entries, since it pushes a new array when the current one is used
    up. *)
Theorem getSCMEntry_runs (v : Value) (st : State) :
  scmWf st → 0 < ESTIMATED_INST_NUM st →
  if isUndefValue v then getSCMEntry v st = None
  else ∃ p st', getSCMEntry v st = Some (p, st') ∧ m_SCM st' !! v = Some p.
Proof.
  intros Hwf Hest. destruct (isUndefValue v) eqn:Hu.
  { unfold getSCMEntry. rewrite Hu. reflexivity. }
  destruct (getSCMEntry_total v st Hwf Hest Hu) as (p & st' & H).
  exists p, st'. split; [exact H|].
  exact (proj2 (getSCMEntry_SCM _ _ _ _ H)).
Qed.

Lemma getSCMEntry_runs_witness :
  ∃ p st', getSCMEntry (VInst 1) sample_add_call = Some (p, st') ∧
           m_SCM st' !! VInst 1 = Some p.
Proof.
  exact (getSCMEntry_runs (VInst 1) sample_add_call
           (scmWfb_correct sample_add_call eq_refl) (Nat.lt_0_succ 3)).
Defined.

(** ** The pass object between two functions *)

(** X19: the pass object between two functions.  The reset at the start of
    [runOnFunction] forgets every entry of the SCM and releases every
    allocation array but the first, whose entries it does not clear: the
    arrays are again as the allocator keeps them, and the first value that
    asks for an entry gets the first entry of the first array, whose first
    lane is made null and whose other lanes are those the previous function
    left there.  With no allocation array the reset fails its assertion. *)
Theorem reset_reuses_first_array (v : Value) (st : State) :
  0 < ESTIMATED_INST_NUM st → isUndefValue v = false →
  let reset :=
    modify (set_usedVectors (λ _, [])) ;;
    modify (set_removedInsts (λ _, ∅)) ;;
    modify (set_SCM (λ _, ∅)) ;;
    releaseAllSCMEntries ;;
    modify (set_DRL (λ _, [])) in
  match m_SCMArrays st with
  | [] => reset st = None
  | arr0 :: _ =>
      length arr0 = ESTIMATED_INST_NUM st →
      ∃ st' e st'',
        reset st = Some (tt, st') ∧
        scmWf st' ∧ m_SCM st' = ∅ ∧ m_SCMArrays st' = [arr0] ∧
        (m_DRL st', m_usedVectors st', m_removedInsts st') = ([], [], ∅) ∧
        code st' = (insts st, nextId st, func st, ∅, []) ∧
        arr0 !! 0 = Some e ∧
        getSCMEntry v st' = Some ((0, 0), st'') ∧
        lookupEntry st'' (0, 0) = Some (mkSCMEntry (None :: tail (scalarValues e)) false)
  end.
Proof.
  intros Hest Hu reset.
  destruct (m_SCMArrays st) as [|arr0 rest] eqn:Harrays.
  { subst reset. unfold releaseAllSCMEntries.
    cbv [mbind M_bind modify gets]. simpl. rewrite Harrays. reflexivity. }
  intros Hlen0.
  set (st' := set_DRL (λ _, [])
                (set_SCMArrayLocation 0
                   (set_SCMAllocationArray 0
                      (set_SCMArrays (take 1)
                         (set_SCM (λ _, ∅)
                            (set_removedInsts (λ _, ∅)
                               (set_usedVectors (λ _, []) st))))))).
  assert (Hrun : reset st = Some (tt, st')).
  { subst reset st'. unfold releaseAllSCMEntries.
    cbv [mbind M_bind modify gets]. simpl. rewrite Harrays. reflexivity. }
  assert (Harr' : m_SCMArrays st' = [arr0]).
  { subst st'. simpl. rewrite Harrays. reflexivity. }
  assert (Hwf : scmWf st').
  { split; [by rewrite Harr'|]. split.
    { rewrite Harr'. constructor; [exact Hlen0 | constructor]. }
    split; [simpl; lia|].
    split; [intros w p Hp; simpl in Hp; by rewrite lookup_empty in Hp|].
    intros w1 w2 p Hp. simpl in Hp. by rewrite lookup_empty in Hp. }
  destruct (getSCMEntry_total v st' Hwf Hest Hu) as (p & st'' & Hget).
  destruct (lookup_lt_is_Some_2 arr0 0) as [e He]; [lia|].
  exists st', e, st''. split; [exact Hrun|]. split; [exact Hwf|].
  split; [reflexivity|]. split; [exact Harr'|]. split; [reflexivity|].
  split; [reflexivity|]. split; [exact He|].
  pose proof Hget as Hspec. apply getSCMEntry_spec in Hspec.
  destruct Hspec as [[Hp _]|(_ & arrays1 & alloc1 & loc1 & arr & e' & Hcase & -> & Ha & He'
                              & _ & _ & _ & _ & Harrs)].
  { simpl in Hp. by rewrite lookup_empty in Hp. }
  destruct (decide (m_SCMArrayLocation st' = ESTIMATED_INST_NUM st')) as [Habs|_].
  { simpl in Habs. lia. }
  destruct Hcase as (-> & -> & ->). simpl in Ha, He'.
  rewrite Harrays in Ha. simpl in Ha. injection Ha as <-.
  rewrite He in He'. injection He' as <-.
  split; [exact Hget|].
  unfold lookupEntry. rewrite Harrs, Harr'. simpl.
  rewrite list_lookup_insert_eq by lia. reflexivity.
Qed.

Lemma reset_reuses_first_array_witness :
  ∃ st' e st'',
    (modify (set_usedVectors (λ _, [])) ;;
     modify (set_removedInsts (λ _, ∅)) ;;
     modify (set_SCM (λ _, ∅)) ;;
     releaseAllSCMEntries ;;
     modify (set_DRL (λ _, []))) sample_add_call_traversed = Some (tt, st') ∧
    getSCMEntry (VInst 1) st' = Some ((0, 0), st'') ∧
    lookupEntry st'' (0, 0) = Some (mkSCMEntry (None :: tail (scalarValues e)) false).
Proof.
  assert (Hest : 0 < ESTIMATED_INST_NUM sample_add_call_traversed)
    by (vm_compute; repeat constructor).
  assert (Hc : match m_SCMArrays sample_add_call_traversed with
               | [] => false
               | arr0 :: _ =>
                   bool_decide (length arr0 = ESTIMATED_INST_NUM sample_add_call_traversed)
               end = true) by (vm_compute; reflexivity).
  pose proof (reset_reuses_first_array (VInst 1) sample_add_call_traversed Hest eq_refl) as H.
  cbv zeta in H.
  destruct (m_SCMArrays sample_add_call_traversed) as [|arr0 rest];
    [discriminate Hc|].
  apply bool_decide_eq_true in Hc.
  destruct (H Hc) as (st' & e & st'' & Hrun & _ & _ & _ & _ & _ & _ & Hget & He).
  exists st', e, st''. auto.
Defined.
(** ** The end of a run *)

Lemma deleteRemovedInst_object (id : positive) (st st' : State) :
  deleteRemovedInst id st = Some (tt, st') → is_Some (insts st !! id).
Proof.
  intros H. unfold deleteRemovedInst in H.
  apply bind_Some in H. destruct H as (t & z & Ht & _).
  apply getType_inv in Ht. destruct Ht as [Ht _]. simpl in Ht.
  destruct (insts st !! id); [by eexists | discriminate].
Qed.

Lemma deletion_loop_objects (ids : list positive) :
  NoDup ids →
  ∀ st st', forM ids deleteRemovedInst st = Some (tt, st') →
            ∀ id, id ∈ ids → is_Some (insts st !! id).
Proof.
  induction 1 as [|id0 ids Hnin Hnd IH]; intros st st' H id Hid.
  { by apply elem_of_nil in Hid. }
  simpl in H. apply bind_Some in H. destruct H as ([] & s1 & Hstep & H).
  pose proof (deleteRemovedInst_object _ _ _ Hstep) as [i0 Hi0].
  apply elem_of_cons in Hid. destruct Hid as [->|Hid]; [by eexists|].
  rewrite (deleteRemovedInst_run id0 i0 st Hi0) in Hstep. injection Hstep as <-.
  destruct (IH _ _ H id Hid) as [i Hi]. simpl in Hi.
  assert (id ≠ id0) by (intros ->; contradiction).
  rewrite lookup_delete_ne in Hi by congruence. rewrite lookup_fmap in Hi.
  destruct (insts st !! id); [by eexists | discriminate].
Qed.

(** X20: the end of a run.  When [runOnFunction] has processed a function,
    every instruction that is in the removed set has been erased: it has no
    object any more, it stands in no block, and no instruction that is left
    refers to it.  The set itself is kept until the next run. *)
Theorem removed_instructions_are_erased (fuel : nat) (st st' : State) :
  runOnFunction fuel st = Some (true, st') →
  ∀ id, id ∈ m_removedInsts st' →
        insts st' !! id = None ∧ (id ∉ instructionsOf (func st')) ∧
        unused (insts st') (VInst id).
Proof.
  intros H. unfold runOnFunction in H.
  apply bind_Some in H. destruct H as (F & z & HF & H).
  apply gets_inv in HF. destruct HF as [-> ->].
  apply bind_Some in H. destruct H as (force & z & Hf & H).
  apply gets_inv in Hf. destruct Hf as [-> ->].
  destruct (if negb (forceInline st) then isDeclaration (func st)
            else negb (returnsVoid (func st))).
  { apply ret_inv in H. destruct H as [Hb _]. discriminate Hb. }
  do 8 (apply bind_Some in H; destruct H as ([] & ? & _ & H)).
  apply bind_Some in H. destruct H as (removed & s & Hr & H).
  apply gets_inv in Hr. destruct Hr as [-> <-].
  apply bind_Some in H. destruct H as ([] & s' & Hloop & H).
  apply ret_inv in H. destruct H as [_ <-].
  pose proof (deletion_loop_objects _ (NoDup_elements _) _ _ Hloop) as Hobj.
  destruct (deletion_loop_list _ (NoDup_elements _) s Hobj)
    as (st2 & Hloop2 & Hfn & Hk & _ & _ & _ & Hrest).
  rewrite Hloop in Hloop2. injection Hloop2 as <-.
  assert (Hrm : m_removedInsts st' = m_removedInsts s) by (by injection Hrest).
  intros id Hid. rewrite Hrm in Hid.
  assert (Hin : id ∈ elements (m_removedInsts s)) by (by apply elem_of_elements).
  split; [by rewrite Hk, decide_True|].
  split.
  { rewrite Hfn. intros Hmem. apply list_elem_of_filter in Hmem.
    destruct Hmem as [Hn _]. contradiction. }
  intros k i' Hki Huse. rewrite Hk in Hki.
  destruct (decide (k ∈ elements (m_removedInsts s))); [discriminate|].
  destruct (insts s !! k) as [j|]; [|discriminate]. injection Hki as <-.
  unfold undefUses in Huse. simpl in Huse.
  apply list_elem_of_fmap in Huse. destruct Huse as (v & Hv & _).
  destruct v as [k'| |]; try discriminate Hv.
  rewrite list_to_set_elements_L in Hv.
  destruct (decide (k' ∈ m_removedInsts s)) as [Hk'in|Hk'nin].
  - destruct (Hobj k') as [j' Hj']; [by apply elem_of_elements|].
    rewrite Hj' in Hv. discriminate.
  - injection Hv as ->. contradiction.
Qed.

Lemma removed_instructions_are_erased_witness :
  ∃ st', runOnFunction 10 sample_add_call = Some (true, st') ∧
         1%positive ∈ m_removedInsts st' ∧
         insts st' !! 1%positive = None ∧ (1%positive ∉ instructionsOf (func st')).
Proof.
  assert (Hc : holdsAfter (runOnFunction 10 sample_add_call)
                 (λ b st', b && bool_decide (1%positive ∈ m_removedInsts st')) = true)
    by (vm_compute; reflexivity).
  apply holdsAfter_Some in Hc. destruct Hc as (b & st' & E & Hc).
  apply andb_prop in Hc. destruct Hc as [Hb Hin].
  apply bool_decide_eq_true in Hin. destruct b; [|discriminate Hb].
  destruct (removed_instructions_are_erased 10 sample_add_call st' E 1%positive Hin)
    as (Hnone & Hnot & _).
  exists st'. auto.
Defined.

(** ** Runs on supported functions *)

Lemma kept_refl (s : State) : kept s s.
Proof. intros id I HI. eauto. Qed.

Lemma kept_trans (s1 s2 s3 : State) : kept s1 s2 → kept s2 s3 → kept s1 s3.
Proof.
  intros H12 H23 id I HI. destruct (H12 _ _ HI) as (I2 & HI2 & Ho2 & Ht2).
  destruct (H23 _ _ HI2) as (I3 & HI3 & Ho3 & Ht3).
  exists I3. rewrite Ho3, Ht3. auto.
Qed.

Lemma kept_carried (s s' : State) : carried s s' → kept s s'.
Proof.
  intros H id I HI. destruct (H _ _ HI) as (I' & HI' & Ho & Ht & _). eauto.
Qed.

Lemma kept_sub (s s' : State) : stripped s ⊆ stripped s' → kept s s'.
Proof.
  intros Hsub id I HI.
  assert (Hs : stripped s !! id = Some (setDebugLoc None I))
    by (unfold stripped; by rewrite lookup_fmap, HI).
  apply (lookup_weaken _ _ _ _ Hs) in Hsub. unfold stripped in Hsub.
  rewrite lookup_fmap in Hsub. destruct (insts s' !! id) as [I'|]; [|discriminate].
  injection Hsub as Ho Ht _. eauto.
Qed.

Lemma kept_typeOf (s s' : State) (v : Value) (t : Ty) :
  kept s s' → typeOf (insts s) v = Some t → typeOf (insts s') v = Some t.
Proof.
  intros Hk Ht. destruct v as [k| |]; simpl in *; try exact Ht.
  destruct (insts s !! k) as [I|] eqn:HI; [|discriminate]. injection Ht as <-.
  destruct (Hk _ _ HI) as (I' & HI' & _ & Ht). rewrite HI'. simpl. by rewrite Ht.
Qed.

Lemma kept_isPHI (s s' : State) (k : positive) :
  kept s s' → is_Some (insts s !! k) → isPHI (insts s') k = isPHI (insts s) k.
Proof.
  intros Hk [I HI]. unfold isPHI. rewrite HI.
  destruct (Hk _ _ HI) as (I' & HI' & Ho & _). rewrite HI'. by rewrite Ho.
Qed.

(** The invariant looks at the instruction objects through their opcode and
    type only: it is kept by what leaves the SCM and the records alone. *)
Lemma passInv_frame (s s' : State) :
  passInv s → wellFormed s' → kept s s' →
  (m_SCMArrays s', scmShape s') = (m_SCMArrays s, scmShape s) →
  (m_DRL s', m_usedVectors s', m_removedInsts s')
  = (m_DRL s, m_usedVectors s, m_removedInsts s) →
  (∀ k, k ∈ instructionsOf (func s) → k ∈ instructionsOf (func s')) →
  noPHI s' →
  passInv s'.
Proof.
  intros (Hwf & Hscm & Hest & Hlane & Hread & Hty & Hflag & Hphi & Hdrl & Hrem & Hused)
    Hwf' Hk Hshape Hrec Hfun Hphi'.
  pose proof (scmWf_shape _ _ Hshape Hscm) as Hscm'.
  unfold scmShape in Hshape. injection Hshape as Harr Hm Ha Hl He.
  injection Hrec as Hd Hu Hr.
  assert (Hlook : ∀ p, lookupEntry s' p = lookupEntry s p).
  { intros p. by apply lookupEntry_arrays. }
  split; [exact Hwf'|]. split; [exact Hscm'|]. split; [by rewrite He|]. split.
  { intros v p e Hv Hp Hres. rewrite Hm in Hv. rewrite Hlook in Hp.
    destruct (Hlane v p e Hv Hp Hres) as (elt & w & Ht & Hlen & Hall).
    exists elt, w. split; [exact (kept_typeOf _ _ _ _ Hk Ht) | auto]. }
  split.
  { intros v p Hv. rewrite Hm in Hv. destruct (Hread v p Hv) as (e & Hp & Hne).
    exists e. by rewrite Hlook. }
  split.
  { intros v p e i x Hv Hp Hres Hx. rewrite Hm in Hv. rewrite Hlook in Hp.
    destruct (Hty v p e i x Hv Hp Hres Hx) as [t Ht].
    exists t. exact (kept_typeOf _ _ _ _ Hk Ht). }
  split.
  { intros v p e Hv Hp Hf. rewrite Hm in Hv. rewrite Hlook in Hp.
    destruct (Hflag v p e Hv Hp Hf) as (Hres & j & -> & Hj).
    split; [exact Hres|]. exists j. auto. }
  split; [exact Hphi'|]. split; [congruence|]. split.
  { intros x Hx. rewrite Hr in Hx. destruct (Hrem x Hx) as [I HI].
    destruct (Hk _ _ HI) as (I' & HI' & _). eauto. }
  intros v Hv. rewrite Hu in Hv. destruct (Hused v Hv) as (elt & w & Ht).
  exists elt, w. exact (kept_typeOf _ _ _ _ Hk Ht).
Qed.

Lemma bind_runs {A B : Type} (m : M A) (f : A → M B) (s s1 : State) (a : A) :
  m s = Some (a, s1) → is_Some (f a s1) → is_Some ((m ≫= f) s).
Proof.
  intros Hm [r Hr]. exists r. apply bind_Some. destruct r as [b s2]. eauto.
Qed.

Lemma lookupEntry_arr (s : State) (p : SCMEntryPtr) (e : SCMEntry) :
  lookupEntry s p = Some e →
  ∃ arr, m_SCMArrays s !! p.1 = Some arr ∧ arr !! p.2 = Some e.
Proof.
  unfold lookupEntry. destruct (m_SCMArrays s !! p.1) as [arr|]; [|discriminate].
  simpl. eauto.
Qed.

Lemma readEntry_lookup (s : State) (p : SCMEntryPtr) (e : SCMEntry) :
  lookupEntry s p = Some e → readEntry p s = Some (e, s).
Proof.
  intros H. destruct (lookupEntry_arr s p e H) as (arr & Ha & He).
  exact (readEntry_Some p arr e s Ha He).
Qed.

(** The entries after [getSCMEntry]: an entry that was there is as it was;
    the entry that is handed out is empty. *)
Lemma getSCMEntry_cases (v : Value) (p : SCMEntryPtr) (st st' : State) :
  scmWf st → getSCMEntry v st = Some (p, st') →
  ∀ v' p', m_SCM st' !! v' = Some p' →
    (m_SCM st !! v' = Some p' ∧ lookupEntry st' p' = lookupEntry st p') ∨
    (v' = v ∧ p' = p ∧ m_SCM st !! v = None ∧
     ∃ e, lookupEntry st' p = Some e ∧ scalarValues e !! 0 = Some None ∧
          isOriginalVectorRemoved e = false).
Proof.
  intros Hwf H v' p' Hv'.
  destruct (getSCMEntry_old _ _ _ _ Hwf H) as [Hscm Hold].
  pose proof Hwf as (_ & _ & _ & Halloc & _).
  apply getSCMEntry_spec in H. destruct H as [[Hv ->]|[Hnone H]]; [by left|].
  destruct H as (arrays1 & alloc1 & loc1 & arr & e & Hcase & -> & Harr & He &
                 _ & _ & _ & _ & Harrays).
  rewrite Hscm in Hv'. apply lookup_insert_Some in Hv'.
  destruct Hv' as [[<- <-]|[_ Hv']].
  - right. split; [reflexivity|]. split; [reflexivity|]. split; [exact Hnone|].
    eexists. split.
    + unfold lookupEntry. rewrite Harrays. simpl.
      rewrite list_lookup_insert_eq by (by apply lookup_lt_Some in Harr). simpl.
      apply list_lookup_insert_eq. by apply lookup_lt_Some in He.
    + split; reflexivity.
  - left. split; [exact Hv'|]. apply Hold. by apply (Halloc v').
Qed.

Lemma passInv_getSCMEntry (v : Value) (p : SCMEntryPtr) (s s' : State) :
  passInv s → getSCMEntry v s = Some (p, s') → passInv s'.
Proof.
  intros (Hwf & Hscm & Hest & Hlane & Hread & Hty & Hflag & Hphi & Hdrl & Hrem & Hused) H.
  pose proof (keeps_getSCMEntry_insts _ _ _ _ H) as Hi.
  pose proof (keeps_getSCMEntry_outside _ _ _ _ H) as Ho.
  unfold outsideSCM in Ho. injection Ho as Hn Hf Hd Hu Hr.
  pose proof ((ltac:(unfold getSCMEntry; keeps_tac) :
                 keeps ESTIMATED_INST_NUM (getSCMEntry v)) _ _ _ H) as He.
  destruct (getSCMEntry_invariant s v p s' Hscm Hlane H) as (Hscm' & Hlane' & _).
  pose proof (getSCMEntry_cases v p s s' Hscm H) as Hcases.
  split; [exact (wellFormed_getSCMEntry _ _ _ _ H Hwf)|].
  split; [exact Hscm'|]. split; [by rewrite He|]. split; [exact Hlane'|]. split.
  { intros v' p' Hv'. destruct (Hcases v' p' Hv') as [[Hold Hl]|(-> & -> & _ & e & Hl & H0 & _)].
    - destruct (Hread v' p' Hold) as (e & Hp & Hne). exists e. by rewrite Hl.
    - exists e. split; [exact Hl|]. intros Hnil. rewrite Hnil in H0. discriminate. }
  split.
  { intros v' p' e i x Hv' Hp Hres Hx. rewrite Hi.
    destruct (Hcases v' p' Hv') as [[Hold Hl]|(-> & -> & _ & e0 & Hl & H0 & _)].
    - rewrite Hl in Hp. exact (Hty v' p' e i x Hold Hp Hres Hx).
    - rewrite Hl in Hp. injection Hp as <-. apply isResolved_lane0 in Hres.
      destruct Hres as [y Hy]. congruence. }
  split.
  { intros v' p' e Hv' Hp Hfl. rewrite Hf.
    destruct (Hcases v' p' Hv') as [[Hold Hl]|(-> & -> & _ & e0 & Hl & _ & Hf0)].
    - rewrite Hl in Hp. exact (Hflag v' p' e Hold Hp Hfl).
    - rewrite Hl in Hp. injection Hp as <-. congruence. }
  split; [unfold noPHI; by rewrite Hf, Hi|]. split; [congruence|]. split.
  - intros x Hx. rewrite Hi. apply Hrem. by rewrite <- Hr.
  - intros v' Hv'. rewrite Hi. apply Hused. by rewrite <- Hu.
Qed.

Lemma passInv_runs_getSCMEntry (v : Value) (s : State) :
  passInv s → isUndefValue v = false →
  ∃ p s', getSCMEntry v s = Some (p, s').
Proof.
  intros (_ & Hscm & Hest & _) Hu. exact (getSCMEntry_total v s Hscm Hest Hu).
Qed.

Lemma fillLanes_total (values : list (option Value)) (idx : list nat) (s : State) :
  ∀ lanes,
    (∀ i, i ∈ idx → i < length lanes ∧ ∃ x, values !! i = Some (Some x)) →
    ∃ lanes', fillLanes values idx lanes s = Some (lanes', s).
Proof.
  induction idx as [|j idx IH]; intros lanes Hall; simpl.
  - by exists lanes.
  - destruct (Hall j) as (Hj & x & Hx); [left|].
    destruct (IH (<[j := Some x]> lanes)) as (lanes' & Hl).
    { intros i Hi. rewrite length_insert. apply Hall. by right. }
    exists lanes'. apply bind_Some. exists x, s. split.
    { unfold getLane. apply bind_Some. exists (Some x), s. by rewrite Hx. }
    apply bind_Some. exists (<[j := Some x]> lanes), s. split; [|exact Hl].
    unfold storeAt. apply bind_Some. exists tt, s. split; [|reflexivity].
    by rewrite (bool_decide_eq_true_2 _ Hj).
Qed.

Lemma SetDebugLocBy_runs (a b : positive) (s : State) :
  is_Some (insts s !! a) → is_Some (insts s !! b) →
  ∃ s', SetDebugLocBy a b s = Some (tt, s').
Proof.
  intros [i Hi] [j Hj]. unfold SetDebugLocBy.
  destruct (debugLoc i) as [d|] eqn:Hd.
  - exists s. apply bind_Some. exists i, s. split; [by apply getInst_Some|].
    apply bind_Some. exists j, s. split; [by apply getInst_Some|]. by rewrite Hd.
  - eexists. apply bind_Some. exists i, s. split; [by apply getInst_Some|].
    apply bind_Some. exists j, s. split; [by apply getInst_Some|]. by rewrite Hd.
Qed.

(** The loop of [updateSCMEntryWithValues] that matches the debug
    locations runs when the lanes and the original are there. *)
Lemma matchLoop_runs (vals : list (option Value)) (o : positive) (idx : list nat) :
  ∀ s, is_Some (insts s !! o) →
    (∀ i, i ∈ idx → ∃ x, vals !! i = Some (Some x) ∧
                        ∀ k, x = VInst k → is_Some (insts s !! k)) →
    ∃ s', forM idx (λ i, getLane vals i ≫= λ v,
                     match v with
                     | VInst scalarInst => SetDebugLocBy scalarInst o
                     | _ => mret tt
                     end) s = Some (tt, s').
Proof.
  induction idx as [|j idx IH]; intros s Ho Hall; simpl; [by exists s|].
  destruct (Hall j) as (x & Hx & Hk); [left|].
  assert (Hstep : ∃ s1, (getLane vals j ≫= λ v,
                     match v with
                     | VInst scalarInst => SetDebugLocBy scalarInst o
                     | _ => mret tt
                     end) s = Some (tt, s1) ∧ stripped s1 = stripped s).
  { assert (Hget : getLane vals j s = Some (x, s)).
    { unfold getLane. apply bind_Some. exists (Some x), s. by rewrite Hx. }
    destruct x as [k|ty n|c].
    - destruct (SetDebugLocBy_runs k o s (Hk k eq_refl) Ho) as [s1 H1].
      exists s1. split; [|by apply SetDebugLocBy_inv in H1; destruct H1].
      apply bind_Some. exists (VInst k), s. split; [exact Hget | exact H1].
    - exists s. split; [|reflexivity]. apply bind_Some. exists (VArg ty n), s.
      split; [exact Hget | reflexivity].
    - exists s. split; [|reflexivity]. apply bind_Some. exists (VConst c), s.
      split; [exact Hget | reflexivity]. }
  destruct Hstep as (s1 & H1 & Hs1).
  assert (Hsame : ∀ k, is_Some (insts s !! k) → is_Some (insts s1 !! k)).
  { intros k [i Hi]. destruct (carried_stripped s s1 Hs1 k i Hi) as (i' & Hi' & _). eauto. }
  destruct (IH s1 (Hsame o Ho)) as [s' H'].
  { intros i Hi. destruct (Hall i) as (y & Hy & Hky); [by right|].
    exists y. split; [exact Hy|]. intros k Hk'. apply Hsame. by apply Hky. }
  exists s'. apply bind_Some. exists tt, s1. split; assumption.
Qed.

Lemma updateSCMEntryWithValues_runs p vals v rm dbg (elt : Ty) (w : positive)
    (e : SCMEntry) (s : State) :
  typeOf (insts s) v = Some (VectorTy elt w) →
  lookupEntry s p = Some e →
  (∀ i, i < Pos.to_nat w → ∃ x, vals !! i = Some (Some x) ∧
                              ∀ k, x = VInst k → is_Some (insts s !! k)) →
  ∃ s', updateSCMEntryWithValues p vals v rm dbg s = Some (tt, s').
Proof.
  intros Ht He Hvals. unfold updateSCMEntryWithValues.
  destruct (lookupEntry_arr s p e He) as (arr & Harr & Hpe).
  destruct (fillLanes_total vals (seq 0 (Pos.to_nat w)) s
              (resize (Pos.to_nat w) (scalarValues e))) as (lanes & Hfill).
  { intros i Hi. apply elem_of_seq in Hi. rewrite length_resize.
    destruct (Hvals i) as (x & Hx & _); [lia|]. split; [lia | eauto]. }
  set (s1 := set_SCMArrays <[p.1 := <[p.2 := mkSCMEntry lanes rm]> arr]> s).
  assert (Hwrite : writeEntry p (mkSCMEntry lanes rm) s = Some (tt, s1)).
  { apply writeEntry_Some; [exact Harr | by apply lookup_lt_Some in Hpe]. }
  assert (Hrest : ∃ s', (if dbg then
                    match v with
                    | VInst origInst =>
                        forM (seq 0 (Pos.to_nat w)) (λ i,
                          getLane vals i ≫= λ v0,
                          match v0 with
                          | VInst scalarInst => SetDebugLocBy scalarInst origInst
                          | _ => mret tt
                          end)
                    | _ => mret tt
                    end
                  else mret tt) s1 = Some (tt, s')).
  { destruct dbg; [|by exists s1]. destruct v as [o| |]; try by exists s1.
    apply (matchLoop_runs vals o (seq 0 (Pos.to_nat w)) s1).
    - simpl in Ht. simpl. destruct (insts s !! o); [eauto | discriminate].
    - intros i Hi. apply elem_of_seq in Hi. apply Hvals. lia. }
  destruct Hrest as [s' Hrest]. exists s'.
  apply bind_Some. exists (VectorTy elt w), s. split; [by apply getType_typeOf|].
  apply bind_Some. exists (elt, Pos.to_nat w), s. split; [reflexivity|].
  apply bind_Some. exists e, s. split; [by apply readEntry_lookup|].
  apply bind_Some. exists lanes, s. split; [exact Hfill|].
  apply bind_Some. exists tt, s1. split; [exact Hwrite | exact Hrest].
Qed.

Lemma passInv_update p vals v rm dbg (s s' : State) :
  passInv s → m_SCM s !! v = Some p →
  (∀ i x, vals !! i = Some (Some x) → is_Some (typeOf (insts s) x)) →
  (rm = true → ∃ j, v = VInst j ∧ j ∈ instructionsOf (func s)) →
  updateSCMEntryWithValues p vals v rm dbg s = Some (tt, s') →
  passInv s'.
Proof.
  intros (Hwf & Hscm & Hest & Hlane & Hread & Hty & Hflag & Hphi & Hdrl & Hrem & Hused)
    Hv Hvals Hrm H.
  pose proof (keeps_updateSCMEntryWithValues_stripped _ _ _ _ _ _ _ _ H) as Hstr.
  pose proof (kept_carried _ _ (carried_stripped _ _ Hstr)) as Hk.
  pose proof (keeps_updateSCMEntryWithValues_shape _ _ _ _ _ _ _ _ H) as Hshape.
  unfold scmShape in Hshape. injection Hshape as Hm Ha Hl He.
  pose proof (keeps_updateSCMEntryWithValues_outside _ _ _ _ _ _ _ _ H) as Ho.
  unfold outsideSCM in Ho. injection Ho as Hn Hf Hd Hu Hr.
  destruct (updateSCMEntryWithValues_invariant s p vals v rm dbg s' Hscm Hlane Hv H)
    as (Hscm' & Hlane' & _).
  pose proof (wellFormed_update _ _ _ _ _ _ _ H Hwf) as Hwf'.
  apply updateSCMEntryWithValues_entry in H.
  destruct H as (elt & w & arr & lanes & Ht & Harr & Hlt & Hlen & Hall & Hlanes & Harrays).
  assert (Hlook : ∀ q, lookupEntry s' q =
            if decide (q = p) then Some (mkSCMEntry lanes rm) else lookupEntry s q).
  { intros q. unfold lookupEntry. rewrite Harrays.
    rewrite (lookup_insert_entry _ _ _ _ _ q Harr Hlt).
    destruct p as [pa po]. reflexivity. }
  pose proof Hscm as (_ & _ & _ & _ & Hinj).
  split; [exact Hwf'|]. split; [exact Hscm'|]. split; [by rewrite He|].
  split; [exact Hlane'|]. split.
  { intros v' p' Hv'. rewrite Hm in Hv'. rewrite Hlook.
    destruct (decide (p' = p)) as [->|Hne]; [|by apply (Hread v')].
    eexists. split; [reflexivity|]. simpl. intros Hnil. rewrite Hnil in Hlen.
    simpl in Hlen. lia. }
  split.
  { intros v' p' e i x Hv' Hp Hres Hx. rewrite Hm in Hv'. rewrite Hlook in Hp.
    assert (Hold : ∀ y, is_Some (typeOf (insts s) y) → is_Some (typeOf (insts s') y)).
    { intros y [t Hy]. exists t. exact (kept_typeOf _ _ _ _ Hk Hy). }
    apply Hold. destruct (decide (p' = p)) as [->|Hne].
    - injection Hp as <-. simpl in Hx. apply (Hvals i x).
      rewrite <- Hlanes; [exact Hx|]. apply lookup_lt_Some in Hx. lia.
    - exact (Hty v' p' e i x Hv' Hp Hres Hx). }
  split.
  { intros v' p' e Hv' Hp Hfl. rewrite Hm in Hv'. rewrite Hlook in Hp. rewrite Hf.
    destruct (decide (p' = p)) as [->|Hne].
    - injection Hp as <-. simpl in Hfl. split; [exact (isResolved_full _ _ _ Hlen Hall)|].
      rewrite (Hinj v' v p Hv' Hv). by apply Hrm.
    - exact (Hflag v' p' e Hv' Hp Hfl). }
  split.
  { intros k Hk'. rewrite Hf in Hk'.
    rewrite (kept_isPHI _ _ _ Hk); [by apply Hphi|].
    destruct Hwf as (_ & Hlinked & _). by apply Hlinked. }
  split; [congruence|]. split.
  - intros x Hx. rewrite Hr in Hx. destruct (Hrem x Hx) as [I HI].
    destruct (Hk _ _ HI) as (I' & HI' & _). eauto.
  - intros v' Hv'. rewrite Hu in Hv'. destruct (Hused v' Hv') as (elt' & w' & Ht').
    exists elt', w'. exact (kept_typeOf _ _ _ _ Hk Ht').
Qed.

Lemma typeOf_mono (m m' : gmap positive Instruction) (v : Value) (t : Ty) :
  m ⊆ m' → typeOf m v = Some t → typeOf m' v = Some t.
Proof.
  intros Hsub. apply typeOf_keep. intros k i Hk. exact (lookup_weaken _ _ _ _ Hk Hsub).
Qed.

Lemma typeOf_strip (s : State) (v : Value) :
  typeOf (stripped s) v = typeOf (insts s) v.
Proof.
  destruct v as [k| |]; simpl; try reflexivity.
  unfold stripped. rewrite lookup_fmap. by destruct (insts s !! k).
Qed.

Lemma laneOperand_mono (m m' : gmap positive Instruction) earlier w v :
  m ⊆ m' → laneOperand m earlier w v = true → laneOperand m' earlier w v = true.
Proof.
  intros Hsub. unfold laneOperand.
  destruct (typeOf m v) as [t|] eqn:Ht; [|discriminate].
  by rewrite (typeOf_mono m m' v t Hsub Ht).
Qed.

Lemma scalarTyped_mono (m m' : gmap positive Instruction) v :
  m ⊆ m' → scalarTyped m v = true → scalarTyped m' v = true.
Proof.
  intros Hsub. unfold scalarTyped.
  destruct (typeOf m v) as [t|] eqn:Ht; [|discriminate].
  by rewrite (typeOf_mono m m' v t Hsub Ht).
Qed.

Lemma forallb_mono {A : Type} (f g : A → bool) (l : list A) :
  (∀ x, f x = true → g x = true) → forallb f l = true → forallb g l = true.
Proof.
  intros Hfg. induction l as [|x l IH]; simpl; [done|].
  intros H. apply andb_prop in H. destruct H as [Hx Hl].
  by rewrite (Hfg x Hx), (IH Hl).
Qed.

Lemma vectorFree_mono (m m' : gmap positive Instruction) (I : Instruction) :
  m ⊆ m' → vectorFree m I = true → vectorFree m' I = true.
Proof.
  intros Hsub. unfold vectorFree. intros H.
  apply andb_prop in H. destruct H as [H H3]. apply andb_prop in H. destruct H as [H1 H2].
  rewrite H1, H3. simpl. rewrite andb_true_r.
  exact (forallb_mono _ _ _ (λ v, scalarTyped_mono m m' v Hsub) H2).
Qed.

Lemma supported_mono (m m' : gmap positive Instruction) earlier (I : Instruction) :
  m ⊆ m' → supported m earlier I = true → supported m' earlier I = true.
Proof.
  intros Hsub. unfold supported. intros H.
  apply andb_prop in H. destruct H as [H1 H2]. rewrite H1. simpl.
  apply orb_prop in H2. destruct H2 as [H2|H2].
  { by rewrite (vectorFree_mono m m' I Hsub H2). }
  apply orb_true_iff. right.
  assert (Hleft : leftAsIs (opcode I) &&
                  forallb (λ v, bool_decide (is_Some (typeOf m v))) (operands I) = true →
                  leftAsIs (opcode I) &&
                  forallb (λ v, bool_decide (is_Some (typeOf m' v))) (operands I) = true).
  { intros H. apply andb_prop in H. destruct H as [Ha Hb]. rewrite Ha. simpl.
    revert Hb. apply forallb_mono. intros v Hv. apply bool_decide_eq_true in Hv.
    apply bool_decide_eq_true. destruct Hv as [t Ht]. exists t.
    exact (typeOf_mono m m' v t Hsub Ht). }
  assert (Htwo : match type I, operands I with
                 | VectorTy _ w, [v0; v1] =>
                     laneOperand m earlier w v0 && laneOperand m earlier w v1
                 | _, _ => false
                 end = true →
                 match type I, operands I with
                 | VectorTy _ w, [v0; v1] =>
                     laneOperand m' earlier w v0 && laneOperand m' earlier w v1
                 | _, _ => false
                 end = true).
  { destruct (type I); try discriminate.
    destruct (operands I) as [|v0 [|v1 [|]]]; try discriminate.
    intros H. apply andb_prop in H. destruct H as [Ha Hb].
    by rewrite (laneOperand_mono m m' _ _ _ Hsub Ha), (laneOperand_mono m m' _ _ _ Hsub Hb). }
  destruct (opcode I); first [exact (Htwo H2) | exact (Hleft H2)].
Qed.

Lemma supportedFrom_mono (m m' : gmap positive Instruction) earlier rest :
  m ⊆ m' → supportedFrom m earlier rest = true → supportedFrom m' earlier rest = true.
Proof.
  intros Hsub. revert earlier. induction rest as [|x rest IH]; intros earlier; simpl; [done|].
  intros H. apply andb_prop in H. destruct H as [Hx Hr].
  destruct (m !! x) as [I|] eqn:HI; [|discriminate].
  rewrite (lookup_weaken _ _ _ _ HI Hsub).
  by rewrite (supported_mono m m' earlier I Hsub Hx), (IH _ Hr).
Qed.

Lemma last_elem_of {A : Type} (l : list A) (x : A) : last l = Some x → x ∈ l.
Proof.
  intros H. apply last_Some in H. destruct H as [l' ->]. apply elem_of_app. right. left.
Qed.

Lemma blockEnds_in (f : Function) (j : positive) :
  Some j ∈ blockEnds f → j ∈ instructionsOf f.
Proof.
  unfold blockEnds, instructionsOf. intros H. apply list_elem_of_fmap in H.
  destruct H as (bb & Hl & Hbb). symmetry in Hl. apply last_elem_of in Hl.
  apply (elem_of_concat j (bb_insts bb)); [exact Hl|].
  apply list_elem_of_fmap. eauto.
Qed.

(** What a step inside the dispatch of an instruction has to keep. *)
Lemma travInv_step (pre rest : list positive) (s s' : State) :
  travInv pre rest s → passInv s' →
  stripped s ⊆ stripped s' → m_SCM s ⊆ m_SCM s' →
  blockEnds (func s') = blockEnds (func s) →
  m_removedInsts s' = m_removedInsts s →
  (∀ mid, instructionsOf (func s) = mid ++ rest →
          ∃ mid', instructionsOf (func s') = mid' ++ rest ∧ ∀ j, j ∈ mid → j ∈ mid') →
  travInv pre rest s'.
Proof.
  intros (Hinv & (mid & Hmid & Hpre) & Hsup & Hent & Hends & Hrm) Hinv' Hsub Hscm Hbe
    Hrem Hlist.
  pose proof (kept_sub _ _ Hsub) as Hk.
  pose proof Hinv as ((_ & Hlinked & _) & _).
  assert (Hback : ∀ j t, j ∈ instructionsOf (func s) →
            typeOf (insts s') (VInst j) = Some t → typeOf (insts s) (VInst j) = Some t).
  { intros j t Hj Ht. destruct (Hlinked j Hj) as [I HI].
    assert (Ht0 : typeOf (insts s) (VInst j) = Some (type I)) by (simpl; by rewrite HI).
    rewrite (kept_typeOf _ _ _ _ Hk Ht0) in Ht. congruence. }
  split; [exact Hinv'|]. split.
  { destruct (Hlist mid Hmid) as (mid' & Hmid' & Hin). exists mid'. split; [exact Hmid'|].
    auto. }
  split; [exact (supportedFrom_mono _ _ _ _ Hsub Hsup)|]. split.
  { intros j t Hj Ht Hv.
    assert (Hjf : j ∈ instructionsOf (func s)).
    { rewrite Hmid. apply elem_of_app. left. by apply Hpre. }
    destruct (Hent j t Hj (Hback j t Hjf Ht) Hv) as [p Hp].
    exists p. exact (lookup_weaken _ _ _ _ Hp Hscm). }
  split.
  - intros j t Hj Ht. rewrite Hbe in Hj.
    exact (Hends j t Hj (Hback j t (blockEnds_in _ _ Hj) Ht)).
  - intros r Hr. apply Hrm. by rewrite <- Hrem.
Qed.

(** The instruction at the head of those still to be visited is done. *)
Lemma travInv_next (pre rest : list positive) (x : positive) (s : State) :
  travInv pre (x :: rest) s →
  (∀ t, typeOf (insts s) (VInst x) = Some t → isVectorTy t = true →
        is_Some (m_SCM s !! VInst x)) →
  travInv (x :: pre) rest s.
Proof.
  intros (Hinv & (mid & Hmid & Hpre) & Hsup & Hent & Hends & Hrm) Hx.
  split; [exact Hinv|]. split.
  { exists (mid ++ [x]). split; [by rewrite <- app_assoc|].
    intros j Hj. apply elem_of_app. apply elem_of_cons in Hj.
    destruct Hj as [->|Hj]; [right; left | left; auto]. }
  split.
  { simpl in Hsup. apply andb_prop in Hsup. by destruct Hsup. }
  split.
  { intros j t Hj Ht Hv. apply elem_of_cons in Hj. destruct Hj as [->|Hj]; eauto. }
  split; [exact Hends|].
  intros r Hr. right. by apply Hrm.
Qed.

Lemma passInv_markRemoved (x : positive) (s : State) :
  passInv s → is_Some (insts s !! x) →
  passInv (set_removedInsts (λ r, {[x]} ∪ r) s).
Proof.
  intros (Hwf & Hscm & Hest & Hlane & Hread & Hty & Hflag & Hphi & Hdrl & Hrem & Hused) Hx.
  split; [exact Hwf|]. split; [exact Hscm|]. split; [exact Hest|].
  split; [exact Hlane|]. split; [exact Hread|]. split; [exact Hty|].
  split; [exact Hflag|]. split; [exact Hphi|]. split; [exact Hdrl|]. split; [|exact Hused].
  intros r Hr. simpl in Hr. apply elem_of_union in Hr. destruct Hr as [Hr|Hr]; [|auto].
  apply elem_of_singleton in Hr. by subst r.
Qed.

Lemma travInv_markRemoved (pre rest : list positive) (x : positive) (s : State) :
  travInv (x :: pre) rest s → is_Some (insts s !! x) →
  travInv (x :: pre) rest (set_removedInsts (λ r, {[x]} ∪ r) s).
Proof.
  intros (Hinv & Hshape & Hsup & Hent & Hends & Hrm) Hx.
  split; [exact (passInv_markRemoved x s Hinv Hx)|]. split; [exact Hshape|].
  split; [exact Hsup|]. split; [exact Hent|]. split; [exact Hends|].
  intros r Hr. simpl in Hr. apply elem_of_union in Hr. destruct Hr as [Hr|Hr]; [|auto].
  apply elem_of_singleton in Hr. subst r. left.
Qed.

(** *** Creating instructions *)

Lemma createBefore_runs (i : Instruction) (l : positive) (s : State) :
  l ∈ instructionsOf (func s) →
  ∃ id s', createBefore i (Some l) s = Some (id, s').
Proof.
  intros Hl. unfold createBefore, newInst. eexists _, _.
  cbv [mbind M_bind gets mret M_ret modify require]. simpl.
  rewrite (bool_decide_eq_true_2 _ Hl). reflexivity.
Qed.


Lemma createLoop_runs {A : Type} (idx : list A) (mk : A → Instruction) (l : positive) :
  ∀ s, wellFormed s → l ∈ instructionsOf (func s) →
    ∃ ids s', mapM' idx (λ a, createBefore (mk a) (Some l)) s = Some (ids, s').
Proof.
  induction idx as [|a idx IH]; intros s Hwf Hl; simpl; [by exists [], s|].
  destruct (createBefore_runs (mk a) l s Hl) as (id & s1 & H1).
  destruct (placedBefore_createBefore _ _ _ _ _ Hwf H1) as [(Hwf1 & _ & _ & _ & Hpos & _) _].
  assert (Hl1 : l ∈ instructionsOf (func s1)).
  { pose proof Hl as Hl0. apply list_elem_of_split in Hl0.
    destruct Hl0 as (l1 & l2 & Hsplit). rewrite (Hpos l1 l2 Hsplit).
    apply elem_of_app. right. apply elem_of_app. right. left. }
  destruct (IH s1 Hwf1 Hl1) as (ids & s' & H').
  exists (id :: ids), s'. apply bind_Some. exists id, s1. split; [exact H1|].
  apply bind_Some. exists ids, s'. split; [exact H' | reflexivity].
Qed.

Lemma decomposeLoop_runs {X : Type} (pre : nat → M X) (mk : nat → X → Instruction)
    (l : positive) (body : nat → M (option Value)) (idx : list nat) :
  (∀ dup s, body dup s
            = (pre dup ≫= λ x, createBefore (mk dup x) (Some l)
                       ≫= λ id, mret (Some (VInst id))) s) →
  ∀ s, wellFormed s → l ∈ instructionsOf (func s) →
    (∀ a s1, a ∈ idx → (∀ k i, insts s !! k = Some i → insts s1 !! k = Some i) →
             ∃ x, pre a s1 = Some (x, s1)) →
    ∃ news s', mapM' idx body s = Some (news, s').
Proof.
  intros Hbody. induction idx as [|a idx IH]; intros s Hwf Hl Hpre; simpl;
    [by exists [], s|].
  destruct (Hpre a s) as (x & Hx); [left | auto |].
  destruct (createBefore_runs (mk a x) l s Hl) as (id & s1 & H1).
  destruct (placedBefore_createBefore _ _ _ _ _ Hwf H1)
    as [(Hwf1 & _ & _ & Hkeep & Hpos & _) _].
  assert (Hl1 : l ∈ instructionsOf (func s1)).
  { pose proof Hl as Hl0. apply list_elem_of_split in Hl0.
    destruct Hl0 as (l1 & l2 & Hsplit). rewrite (Hpos l1 l2 Hsplit).
    apply elem_of_app. right. apply elem_of_app. right. left. }
  destruct (IH s1 Hwf1 Hl1) as (news & s' & H').
  { intros b s2 Hb Hs2. apply Hpre; [by right|]. intros k i Hk. apply Hs2, Hkeep, Hk. }
  exists (Some (VInst id) :: news), s'. apply bind_Some. exists (Some (VInst id)), s1. split.
  { rewrite Hbody. apply bind_Some. exists x, s. split; [exact Hx|].
    apply bind_Some. exists id, s1. split; [exact H1 | reflexivity]. }
  apply bind_Some. exists news, s'. split; [exact H' | reflexivity].
Qed.

(** The invariant after instructions that are no PHI nodes were put into
    the function. *)
Lemma passInv_inserted (s s' : State) :
  passInv s → wellFormed s' →
  (∀ k i, insts s !! k = Some i → insts s' !! k = Some i) →
  (m_SCM s', m_SCMArrays s', scmShape s') = (m_SCM s, m_SCMArrays s, scmShape s) →
  (m_DRL s', m_usedVectors s', m_removedInsts s')
  = (m_DRL s, m_usedVectors s, m_removedInsts s) →
  (∀ k, k ∈ instructionsOf (func s) → k ∈ instructionsOf (func s')) →
  (∀ k, k ∈ instructionsOf (func s') →
        k ∈ instructionsOf (func s) ∨ isPHI (insts s') k = false) →
  passInv s'.
Proof.
  intros Hinv Hwf' Hkeep Hscm Hrec Hin Hout.
  pose proof Hinv as ((_ & Hlinked & _) & _ & _ & _ & _ & _ & _ & Hphi0 & _).
  assert (Hk : kept s s').
  { intros id I HI. exists I. rewrite (Hkeep _ _ HI). auto. }
  apply (passInv_frame s s' Hinv Hwf' Hk); [congruence | exact Hrec | exact Hin |].
  intros k Hk'. destruct (Hout k Hk') as [Hc|Hc]; [|exact Hc].
  rewrite (kept_isPHI _ _ _ Hk (Hlinked k Hc)). by apply Hphi0.
Qed.

(** The invariant after instructions that are no PHI nodes were placed. *)
Lemma passInv_placed (l : positive) (ids : list positive) (s s' : State) :
  passInv s → placedBefore l ids s s' → l ∈ instructionsOf (func s) →
  (∀ id, id ∈ ids → isPHI (insts s') id = false) →
  passInv s'.
Proof.
  intros Hinv (Hwf' & Hnd & Hnew & Hkeep & Hpos & Hscm & Hrec) Hl Hphi.
  pose proof Hinv as ((_ & Hlinked & _) & _ & _ & _ & _ & _ & _ & Hphi0 & _).
  assert (Hk : kept s s').
  { intros id I HI. exists I. rewrite (Hkeep _ _ HI). auto. }
  apply list_elem_of_split in Hl. destruct Hl as (l1 & l2 & Hsplit).
  pose proof (Hpos l1 l2 Hsplit) as Hnewlist.
  apply (passInv_frame s s' Hinv Hwf' Hk); [congruence | exact Hrec | |].
  - intros k Hk'. rewrite Hnewlist. rewrite Hsplit in Hk'.
    apply elem_of_app in Hk'. apply elem_of_app. destruct Hk' as [Hk'|Hk']; [by left|].
    right. apply elem_of_app. by right.
  - intros k Hk'. rewrite Hnewlist in Hk'.
    assert (Hcase : k ∈ ids ∨ k ∈ instructionsOf (func s)).
    { rewrite Hsplit. apply elem_of_app in Hk'. destruct Hk' as [Hk'|Hk'].
      - right. apply elem_of_app. by left.
      - apply elem_of_app in Hk'. destruct Hk' as [Hk'|Hk']; [by left|].
        right. apply elem_of_app. by right. }
    destruct Hcase as [Hc|Hc]; [by apply Hphi|].
    rewrite (kept_isPHI _ _ _ Hk (Hlinked k Hc)). by apply Hphi0.
Qed.

(** *** The place of the extractions *)

Lemma last_insertBeforeIn (x loc : positive) (l : list positive) :
  last (insertBeforeIn x loc l) = last l.
Proof.
  induction l as [|y l IH]; simpl; [reflexivity|].
  destruct (decide (y = loc)) as [_|_].
  - apply last_cons_cons.
  - by rewrite !last_cons, IH.
Qed.

Lemma keeps_createBefore_blockEnds i loc :
  keeps (λ s, blockEnds (func s)) (createBefore i loc).
Proof.
  intros st id st' H. apply createBefore_func in H. destruct loc as [l|].
  - destruct H as [_ Hb]. unfold blockEnds. rewrite Hb, <- list_fmap_compose.
    apply list_fmap_ext. intros k bb _. simpl. apply last_insertBeforeIn.
  - by rewrite H.
Qed.

Lemma keeps_SetDebugLocBy_blockEnds a b :
  keeps (λ s, blockEnds (func s)) (SetDebugLocBy a b).
Proof. unfold SetDebugLocBy. keeps_tac. Qed.

Lemma keeps_getSCMEntry_blockEnds v :
  keeps (λ s, blockEnds (func s)) (getSCMEntry v).
Proof. unfold getSCMEntry. keeps_tac. Qed.

Lemma keeps_update_blockEnds p vals v rm dbg :
  keeps (λ s, blockEnds (func s)) (updateSCMEntryWithValues p vals v rm dbg).
Proof.
  unfold updateSCMEntryWithValues.
  pose proof keeps_SetDebugLocBy_blockEnds. keeps_tac.
Qed.

Lemma keeps_resolveLanes_blockEnds v :
  keeps (λ s, blockEnds (func s)) (resolveLanes v).
Proof.
  unfold resolveLanes, lanesBy, newInst.
  pose proof keeps_createBefore_blockEnds. pose proof keeps_getSCMEntry_blockEnds.
  pose proof keeps_update_blockEnds. pose proof (@keeps_breakdownLocation).
  keeps_tac.
Qed.

Lemma nextIn_runs (x : positive) (l : list positive) :
  x ∈ l → last l ≠ Some x → ∃ y, nextIn x l = Some y.
Proof.
  induction l as [|z l IH]; intros Hx Hlast; [by apply elem_of_nil in Hx|].
  simpl. destruct (decide (z = x)) as [->|Hne].
  - destruct l as [|y l]; [by destruct Hlast | by exists y].
  - apply elem_of_cons in Hx. destruct Hx as [->|Hx]; [contradiction|].
    apply IH; [exact Hx|]. intros Hl. apply Hlast. by rewrite last_cons, Hl.
Qed.

Lemma getParent_runs (j : positive) (f : Function) :
  j ∈ instructionsOf f →
  ∃ bb, getParent j f = Some bb ∧ bb ∈ blocks f ∧ j ∈ bb_insts bb.
Proof.
  unfold instructionsOf, getParent. induction (blocks f) as [|b bs IH]; simpl; intros Hj.
  - by apply elem_of_nil in Hj.
  - rewrite filter_cons. destruct (decide (j ∈ bb_insts b)) as [Hb|Hb].
    + exists b. split; [reflexivity|]. split; [left | exact Hb].
    + apply elem_of_app in Hj. destruct Hj as [Hj|Hj]; [contradiction|].
      destruct (IH Hj) as (bb & Hg & Hin & Hjb). exists bb.
      split; [exact Hg|]. split; [by right | exact Hjb].
Qed.

Lemma block_in_function (bb : BasicBlock) (f : Function) :
  bb ∈ blocks f → ∃ A B, instructionsOf f = A ++ bb_insts bb ++ B.
Proof.
  intros H. apply list_elem_of_split in H. destruct H as (B1 & B2 & Hs).
  unfold instructionsOf. rewrite Hs, fmap_app, concat_app. simpl. eauto.
Qed.

Lemma breakdownLocation_runs (v : Value) (s : State) :
  noPHI s → instructionsOf (func s) ≠ [] →
  (∀ j, v = VInst j → j ∈ instructionsOf (func s) ∧ (Some j ∉ blockEnds (func s))) →
  ∃ l, breakdownLocation v s = Some (Some l, s) ∧ l ∈ instructionsOf (func s) ∧
       match v with
       | VInst j => ∃ l1 l2, instructionsOf (func s) = l1 ++ j :: l :: l2
       | _ => head (instructionsOf (func s)) = Some l
       end.
Proof.
  intros Hphi Hne Hv. unfold breakdownLocation.
  destruct (instructionsOf (func s)) as [|l0 rest] eqn:Hl; [contradiction|].
  assert (Hbegin : inst_begin (func s) = Some l0) by (unfold inst_begin; by rewrite Hl).
  assert (Hother : ∃ l, (mret (Some l0) : M (option positive)) s = Some (Some l, s) ∧
                        l ∈ l0 :: rest ∧ head (l0 :: rest) = Some l).
  { exists l0. split; [reflexivity|]. split; [left | reflexivity]. }
  destruct v as [j|t n|c].
  - destruct (Hv j eq_refl) as [Hj Hend]. rewrite <- Hl in Hj.
    destruct (getParent_runs j (func s) Hj) as (bb & Hg & Hbb & Hjb).
    destruct (nextIn_runs j (bb_insts bb) Hjb) as [n Hn].
    { intros Hlast. apply Hend. unfold blockEnds. apply list_elem_of_fmap.
      exists bb. split; [by rewrite Hlast | exact Hbb]. }
    assert (Hpos : ∃ l1 l2, instructionsOf (func s) = l1 ++ j :: n :: l2).
    { destruct (nextIn_Some _ _ _ Hn) as (pre & post & Hsplit).
      destruct (block_in_function bb (func s) Hbb) as (A & B & HAB).
      exists (A ++ pre), (post ++ B). rewrite HAB, Hsplit.
      by rewrite <- !app_assoc. }
    assert (Hnf : n ∈ instructionsOf (func s)).
    { destruct Hpos as (l1 & l2 & ->). apply elem_of_app. right. right. left. }
    exists n. rewrite <- Hl. split; [|split; [exact Hnf | exact Hpos]].
    apply bind_Some. exists (func s), s. split; [reflexivity|].
    apply bind_Some. exists l0, s. split; [by rewrite Hbegin|].
    apply bind_Some. exists bb, s. split; [by rewrite Hg|].
    apply bind_Some. exists n, s. split; [by rewrite Hn|].
    apply bind_Some. exists (insts s), s. split; [reflexivity|].
    by rewrite (Hphi n Hnf).
  - destruct Hother as (l & Hr & Hin). exists l. split; [|exact Hin].
    apply bind_Some. exists (func s), s. split; [reflexivity|].
    apply bind_Some. exists l0, s. split; [by rewrite Hbegin | exact Hr].
  - destruct Hother as (l & Hr & Hin). exists l. split; [|exact Hin].
    apply bind_Some. exists (func s), s. split; [reflexivity|].
    apply bind_Some. exists l0, s. split; [by rewrite Hbegin | exact Hr].
Qed.

(** Where the location stands with respect to the instructions that are
    still to be visited: among the instructions before them, or at their
    head. *)
Lemma split_unique (x : positive) (l1 l2 a b : list positive) :
  NoDup (l1 ++ x :: l2) → l1 ++ x :: l2 = a ++ x :: b → l1 = a ∧ l2 = b.
Proof.
  revert a. induction l1 as [|y l1 IH]; intros a Hnd Heq.
  - destruct a as [|z a]; simpl in *.
    + by injection Heq as ->.
    + injection Heq as <- Heq. apply NoDup_cons in Hnd. destruct Hnd as [Hn _].
      exfalso. apply Hn. rewrite Heq. apply elem_of_app. right. left.
  - destruct a as [|z a]; simpl in *.
    + injection Heq as -> Heq. apply NoDup_cons in Hnd. destruct Hnd as [Hn _].
      exfalso. apply Hn. apply elem_of_app. right. left.
    + injection Heq as <- Heq. apply NoDup_cons in Hnd. destruct Hnd as [_ Hnd].
      destruct (IH a Hnd Heq) as [-> ->]. auto.
Qed.

Lemma suffix_kept (mid rest l1 l2 ids : list positive) (loc : positive) :
  NoDup (mid ++ rest) →
  loc ∈ mid ∨ head rest = Some loc →
  mid ++ rest = l1 ++ loc :: l2 →
  ∃ mid', l1 ++ ids ++ loc :: l2 = mid' ++ rest ∧ ∀ j, j ∈ mid → j ∈ mid'.
Proof.
  intros Hnd [Hloc|Hloc] Heq.
  - apply list_elem_of_split in Hloc. destruct Hloc as (a & b & ->).
    rewrite <- app_assoc in Heq, Hnd. simpl in Heq, Hnd.
    symmetry in Heq. rewrite <- Heq in Hnd.
    destruct (split_unique loc l1 l2 a (b ++ rest) Hnd Heq) as [-> ->].
    exists (a ++ ids ++ loc :: b). split.
    + by rewrite <- !app_assoc.
    + intros j Hj. apply elem_of_app in Hj. apply elem_of_app.
      destruct Hj as [Hj|Hj]; [by left|]. right. apply elem_of_app. by right.
  - destruct rest as [|r rest]; [discriminate|]. simpl in Hloc. injection Hloc as ->.
    symmetry in Heq. rewrite <- Heq in Hnd.
    destruct (split_unique loc l1 l2 mid rest Hnd Heq) as [-> ->].
    exists (mid ++ ids). split; [by rewrite <- app_assoc|].
    intros j Hj. apply elem_of_app. by left.
Qed.

Lemma successor_place (mid rest l1 l2 : list positive) (j n : positive) :
  NoDup (mid ++ rest) → j ∈ mid → mid ++ rest = l1 ++ j :: n :: l2 →
  n ∈ mid ∨ head rest = Some n.
Proof.
  intros Hnd Hj Heq. apply list_elem_of_split in Hj. destruct Hj as (a & b & ->).
  rewrite <- app_assoc in Heq, Hnd. simpl in Heq, Hnd.
  pose proof Hnd as Hnd'. rewrite Heq in Hnd'.
  destruct (split_unique j l1 (n :: l2) a (b ++ rest) Hnd' (eq_sym Heq)) as [_ Hb].
  destruct b as [|n' b]; simpl in Hb.
  - right. by rewrite <- Hb.
  - left. injection Hb as -> _. apply elem_of_app. right. right. left.
Qed.

(** *** Resolving the lanes of an operand *)

Lemma createLoop_placed {A : Type} (idx : list A) (mk : A → Instruction) (l : positive) :
  ∀ ids s s', wellFormed s →
    mapM' idx (λ a, createBefore (mk a) (Some l)) s = Some (ids, s') →
    placedBefore l ids s s'.
Proof.
  induction idx as [|a idx IH]; intros ids s s' Hwf H; simpl in H.
  - apply ret_inv in H. destruct H as [-> ->]. by apply placedBefore_refl.
  - apply bind_Some in H. destruct H as (id & s1 & H1 & H).
    apply bind_Some in H. destruct H as (ids' & s2 & H2 & H).
    apply ret_inv in H. destruct H as [-> ->].
    destruct (placedBefore_createBefore _ _ _ _ _ Hwf H1) as [Hp1 _].
    pose proof Hp1 as (Hwf1 & _).
    exact (placedBefore_trans l [id] ids' s s1 s2 Hp1 (IH ids' s1 s2 Hwf1 H2)).
Qed.

Lemma stripped_sub_keep (s s' : State) :
  (∀ k i, insts s !! k = Some i → insts s' !! k = Some i) → stripped s ⊆ stripped s'.
Proof.
  intros Hk. apply map_subseteq_spec. intros k i Hi. exact (stripped_keep s s' Hk k i Hi).
Qed.

Lemma mapM'_getLane_runs (l : list (option Value)) (idx : list nat) (s : State) :
  (∀ i, i ∈ idx → ∃ x, l !! i = Some (Some x)) →
  ∃ ls, mapM' idx (getLane l) s = Some (ls, s).
Proof.
  induction idx as [|i idx IH]; intros Hall; simpl; [by exists []|].
  destruct (Hall i) as [x Hx]; [left|].
  destruct IH as [ls Hls]; [intros k Hk; apply Hall; by right|].
  exists (x :: ls). apply bind_Some. exists x, s. split.
  { unfold getLane. apply bind_Some. exists (Some x), s. by rewrite Hx. }
  apply bind_Some. exists ls, s. split; [exact Hls | reflexivity].
Qed.

Lemma mapM'_getLane_inv (l : list (option Value)) (idx : list nat) (ls : list Value)
    (s s' : State) :
  mapM' idx (getLane l) s = Some (ls, s') →
  ∀ a, a ∈ ls → ∃ i, l !! i = Some (Some a).
Proof.
  revert ls s. induction idx as [|i idx IH]; intros ls s H a Ha; simpl in H.
  - apply ret_inv in H. destruct H as [-> _]. by apply elem_of_nil in Ha.
  - apply bind_Some in H. destruct H as (x & s1 & Hx & H).
    apply bind_Some in H. destruct H as (xs & s2 & Hxs & H).
    apply ret_inv in H. destruct H as [-> ->].
    apply elem_of_cons in Ha. destruct Ha as [->|Ha]; [|exact (IH xs s1 Hxs a Ha)].
    run_inv Hx. exists i. by rewrite Hopt, Hopt0.
Qed.

Lemma filledEntry_runs (s : State) (v : Value) :
  entriesReadable s →
  ∃ found, filledEntry (m_SCM s !! v) s = Some (found, s) ∧
    ∀ e, found = Some e →
         ∃ p, m_SCM s !! v = Some p ∧ lookupEntry s p = Some e ∧ isResolved e = true.
Proof.
  intros Hread. destruct (m_SCM s !! v) as [p|] eqn:Hp; simpl.
  - destruct (Hread v p Hp) as (e & He & Hne).
    destruct (scalarValues e) as [|lane0 lanes] eqn:Hl; [contradiction|].
    exists (match lane0 with Some _ => Some e | None => None end). split.
    + apply bind_Some. exists e, s. split; [by apply readEntry_lookup|].
      apply bind_Some. exists lane0, s. split; [by rewrite Hl | reflexivity].
    + intros e' He'. destruct lane0 as [x|]; [|discriminate]. injection He' as <-.
      exists p. split; [reflexivity|]. split; [exact He|].
      unfold isResolved. by rewrite Hl.
  - exists None. split; [reflexivity | discriminate].
Qed.

Lemma filledEntry_inv (s s' : State) (c : option SCMEntryPtr) (e : SCMEntry) :
  filledEntry c s = Some (Some e, s') →
  ∃ p, c = Some p ∧ lookupEntry s p = Some e ∧ isResolved e = true.
Proof.
  destruct c as [p|]; simpl; intros H; [|apply ret_inv in H; destruct H; discriminate].
  apply bind_Some in H. destruct H as (e0 & z & He0 & H). run_inv He0.
  apply bind_Some in H. destruct H as (lane0 & z & Hl & H). run_inv Hl.
  apply ret_inv in H. destruct H as [H _]. destruct lane0 as [x|]; [|discriminate].
  injection H as ->. exists p. split; [reflexivity|]. split; [exact Hopt|].
  apply isResolved_lane0. eauto.
Qed.

Lemma breakdown_runs (v : Value) (elt : Ty) (w : positive) (s : State) :
  passInv s → typeOf (insts s) v = Some (VectorTy elt w) → isUndefValue v = false →
  instructionsOf (func s) ≠ [] →
  (∀ j, v = VInst j → j ∈ instructionsOf (func s) ∧ (Some j ∉ blockEnds (func s))) →
  ∃ ls s',
    (breakdownLocation v ≫= λ locationInst,
     mapM' (seq 0 (Pos.to_nat w)) (λ i,
       createBefore (plainInst ExtractElement elt [v; constIndex i])
                    locationInst) ≫= λ extracts,
     getSCMEntry v ≫= λ newEntry,
     updateSCMEntryWithValues newEntry (Some <$> (VInst <$> extracts)) v false true ;;
     mret (VInst <$> extracts)) s = Some (ls, s').
Proof.
  intros Hinv Ht Hu Hne Hv.
  pose proof Hinv as (Hwf & _ & _ & _ & _ & _ & _ & Hphi & _).
  destruct (breakdownLocation_runs v s Hphi Hne Hv) as (l & Hloc & Hl & _).
  destruct (createLoop_runs (seq 0 (Pos.to_nat w))
              (λ i, plainInst ExtractElement elt [v; constIndex i]) l s Hwf Hl)
    as (ids & s1 & Hloop).
  pose proof (createLoop_placed _ _ _ _ _ _ Hwf Hloop) as Hplaced.
  destruct (createLoop_new _ _ _ _ _ _ (proj1 Hwf) Hloop) as (_ & _ & Hmk).
  assert (Hinv1 : passInv s1).
  { apply (passInv_placed l ids s s1 Hinv Hplaced Hl).
    intros id Hid. apply list_elem_of_lookup in Hid. destruct Hid as [n Hn].
    destruct (Forall2_lookup_r _ _ _ _ _ Hmk Hn) as (a & _ & Ha).
    unfold isPHI. by rewrite Ha. }
  destruct (passInv_runs_getSCMEntry v s1 Hinv1 Hu) as (p & s2 & Hget).
  pose proof (passInv_getSCMEntry v p s1 s2 Hinv1 Hget) as Hinv2.
  pose proof (keeps_getSCMEntry_insts _ _ _ _ Hget) as Hi2.
  destruct (getSCMEntry_SCM _ _ _ _ Hget) as [_ Hp2].
  pose proof Hinv2 as (_ & _ & _ & _ & Hread2 & _).
  destruct (Hread2 v p Hp2) as (e & He & _).
  destruct Hplaced as (_ & _ & Hnew & Hkeep & _).
  destruct (updateSCMEntryWithValues_runs p (Some <$> (VInst <$> ids)) v false true
              elt w e s2) as [s' Hupd].
  { rewrite Hi2. exact (typeOf_keep _ _ _ _ Hkeep Ht). }
  { exact He. }
  { intros i Hi. apply mapM'_length in Hloop. rewrite length_seq in Hloop.
    destruct (lookup_lt_is_Some_2 ids i) as [id Hid]; [lia|].
    exists (VInst id). split; [by rewrite !list_lookup_fmap, Hid|].
    intros k [= <-]. rewrite Hi2. apply Hnew. apply list_elem_of_lookup. eauto. }
  exists (VInst <$> ids), s'.
  apply bind_Some. exists (Some l), s. split; [exact Hloc|].
  apply bind_Some. exists ids, s1. split; [exact Hloop|].
  apply bind_Some. exists p, s2. split; [exact Hget|].
  apply bind_Some. exists tt, s'. split; [exact Hupd | reflexivity].
Qed.

Lemma resolveLanes_runs (v : Value) (elt : Ty) (w : positive) (s : State) :
  passInv s → typeOf (insts s) v = Some (VectorTy elt w) →
  instructionsOf (func s) ≠ [] →
  (∀ j, v = VInst j → is_Some (m_SCM s !! v) ∧ j ∈ instructionsOf (func s) ∧
                      (Some j ∉ blockEnds (func s))) →
  ∃ ls s', resolveLanes v s = Some (ls, s').
Proof.
  intros Hinv Ht Hne Hv.
  pose proof Hinv as (_ & _ & _ & Hlane & Hread & _).
  destruct (filledEntry_runs s v Hread) as (found & Hf & Hfound).
  assert (Hplace : ∀ j, v = VInst j →
            j ∈ instructionsOf (func s) ∧ (Some j ∉ blockEnds (func s))).
  { intros j Hj. destruct (Hv j Hj) as (_ & H1 & H2). auto. }
  assert (Hlanes : ∃ ls s',
            lanesBy v elt (Pos.to_nat w) (m_SCM s !! v) found s = Some (ls, s')).
  { destruct found as [e|]; simpl.
    - destruct (Hfound e eq_refl) as (p & Hp & He & Hres).
      destruct (Hlane v p e Hp He Hres) as (elt' & w' & Ht' & Hlen & Hall).
      rewrite Ht in Ht'. injection Ht' as <- <-.
      destruct (mapM'_getLane_runs (scalarValues e) (seq 0 (Pos.to_nat w)) s) as [ls Hls].
      { intros i Hi. apply elem_of_seq in Hi.
        destruct (lookup_lt_is_Some_2 (scalarValues e) i) as [o Ho]; [lia|].
        rewrite Forall_lookup in Hall. destruct (Hall i o Ho) as [x ->]. eauto. }
      eauto.
    - destruct (isUndefValue v) eqn:Hu; [by eexists _, s|].
      pose proof (breakdown_runs v elt w s Hinv Ht Hu Hne Hplace) as Hb.
      destruct v as [j|t n|c].
      + destruct (Hv j eq_refl) as ([p Hp] & _). rewrite Hp. exact Hb.
      + destruct (m_SCM s !! VArg t n); exact Hb.
      + by eexists _, s. }
  destruct Hlanes as (ls & s' & Hlanes). exists ls, s'. unfold resolveLanes.
  apply bind_Some. exists (VectorTy elt w), s. split; [by apply getType_typeOf|].
  apply bind_Some. exists (elt, Pos.to_nat w), s. split; [reflexivity|].
  apply bind_Some. exists (m_SCM s !! v), s. split; [reflexivity|].
  apply bind_Some. exists found, s. split; [exact Hf | exact Hlanes].
Qed.

Lemma keeps_resolveLanes_used v : keeps m_usedVectors (resolveLanes v).
Proof. unfold resolveLanes, lanesBy. keeps_tac. Qed.

(** What resolving the lanes of an operand leaves of the invariant of the
    traversal: all of it, and the lanes are values of the function. *)
Lemma resolveLanes_post (pre rest : list positive) (v : Value) (ls : list Value)
    (s s' : State) :
  travInv pre rest s → rest ≠ [] → (∀ j, v = VInst j → j ∈ pre) →
  resolveLanes v s = Some (ls, s') →
  travInv pre rest s' ∧ (∀ a, a ∈ ls → is_Some (typeOf (insts s') a)) ∧
  m_removedInsts s' = m_removedInsts s ∧ m_usedVectors s' = m_usedVectors s.
Proof.
  intros Htrav Hrest Hvpre H.
  pose proof Htrav as (Hinv & (mid & Hmid & Hpre) & Hsup & Hent & Hends & _).
  pose proof Hinv as (Hwf & _ & _ & _ & _ & Hty & _ & Hphi & _).
  pose proof Hwf as (Hfresh & Hlinked & Hnd).
  pose proof (keeps_resolveLanes_removed _ _ _ _ H) as Hrem.
  pose proof (keeps_resolveLanes_used _ _ _ _ H) as Hused.
  pose proof (proj2 (grows_resolveLanes _ _ _ _ H Hfresh)) as Hsub.
  pose proof (resolveLanes_SCM _ _ _ _ H) as Hscm.
  pose proof (keeps_resolveLanes_blockEnds _ _ _ _ H) as Hbe. simpl in Hbe.
  assert (Hmain : passInv s' ∧
            (∀ mid0, instructionsOf (func s) = mid0 ++ rest →
                     ∃ mid', instructionsOf (func s') = mid' ++ rest ∧
                             ∀ j, j ∈ mid0 → j ∈ mid') ∧
            (∀ a, a ∈ ls → is_Some (typeOf (insts s') a))).
  { apply resolveLanes_cases in H. destruct H as (elt & w & Ht & Hcases).
    assert (Hsame : passInv s ∧
              (∀ mid0, instructionsOf (func s) = mid0 ++ rest →
                       ∃ mid', instructionsOf (func s) = mid' ++ rest ∧
                               ∀ j, j ∈ mid0 → j ∈ mid')) by (split; [exact Hinv | eauto]).
    destruct Hcases as [(e & Hf & Hls & ->)|(Hf & [(Hu & -> & ->)|(Hu & Hcases)])].
    - destruct Hsame as [? ?]. split; [assumption|]. split; [assumption|].
      apply filledEntry_inv in Hf. destruct Hf as (p & Hp & He & Hres).
      intros a Ha. destruct (mapM'_getLane_inv _ _ _ _ _ Hls a Ha) as [i Hi].
      exact (Hty v p e i a Hp He Hres Hi).
    - destruct Hsame as [? ?]. split; [assumption|]. split; [assumption|].
      intros a Ha. apply elem_of_replicate in Ha. destruct Ha as [-> _]. by eexists.
    - destruct Hcases as [(c & -> & -> & ->)|[(vi & ids & s1 & -> & Hnone & _)|Hb]].
      + destruct Hsame as [? ?]. split; [assumption|]. split; [assumption|].
        intros a Ha. apply list_elem_of_fmap in Ha. destruct Ha as (i & -> & _).
        by eexists.
      + exfalso. destruct (Hent vi (VectorTy elt w) (Hvpre vi eq_refl) Ht eq_refl)
          as [p Hp]. congruence.
      + destruct Hb as (Hnc & _ & loc & ids & s1 & p & s2 & Hloc & Hloop & Hget & Hupd & ->).
        assert (Hne : instructionsOf (func s) ≠ []).
        { rewrite Hmid. destruct rest; [contradiction|]. by destruct mid. }
        assert (Hplace : ∀ j, v = VInst j →
                  j ∈ instructionsOf (func s) ∧ (Some j ∉ blockEnds (func s))).
        { intros j ->. split.
          - rewrite Hmid. apply elem_of_app. left. by apply Hpre, Hvpre.
          - intros Hend. by pose proof (Hends j _ Hend Ht). }
        destruct (breakdownLocation_runs v s Hphi Hne Hplace) as (l & Hloc' & Hl & Hpos).
        rewrite Hloc' in Hloc. injection Hloc as <-.
        pose proof (createLoop_placed _ _ _ _ _ _ Hwf Hloop) as Hplaced.
        destruct (createLoop_new _ _ _ _ _ _ Hfresh Hloop) as (_ & _ & Hmk).
        assert (Hinv1 : passInv s1).
        { apply (passInv_placed l ids s s1 Hinv Hplaced Hl).
          intros id Hid. apply list_elem_of_lookup in Hid. destruct Hid as [n Hn].
          destruct (Forall2_lookup_r _ _ _ _ _ Hmk Hn) as (a & _ & Ha).
          unfold isPHI. by rewrite Ha. }
        pose proof (passInv_getSCMEntry v p s1 s2 Hinv1 Hget) as Hinv2.
        pose proof (keeps_getSCMEntry_insts _ _ _ _ Hget) as Hi2.
        pose proof (keeps_getSCMEntry_outside _ _ _ _ Hget) as Ho2.
        unfold outsideSCM in Ho2. injection Ho2 as _ Hf2 _ _ _.
        destruct (getSCMEntry_SCM _ _ _ _ Hget) as [_ Hp2].
        pose proof (keeps_updateSCMEntryWithValues_outside _ _ _ _ _ _ _ _ Hupd) as Ho3.
        unfold outsideSCM in Ho3. injection Ho3 as _ Hf3 _ _ _.
        pose proof (keeps_updateSCMEntryWithValues_stripped _ _ _ _ _ _ _ _ Hupd) as Hs3.
        destruct Hplaced as (_ & _ & Hnew & Hkeep & Hposn & _).
        assert (Hids : ∀ id, id ∈ ids → is_Some (typeOf (insts s2) (VInst id))).
        { intros id Hid. destruct (Hnew id Hid) as [_ [i Hi]]. simpl.
          rewrite Hi2, Hi. by eexists. }
        assert (Hinv3 : passInv s').
        { apply (passInv_update p (Some <$> (VInst <$> ids)) v false true s2 s' Hinv2 Hp2);
            [|discriminate | exact Hupd].
          intros i x Hx. rewrite !list_lookup_fmap in Hx.
          destruct (ids !! i) as [id|] eqn:Hid; [|discriminate]. simpl in Hx.
          injection Hx as <-. apply Hids. apply list_elem_of_lookup. eauto. }
        split; [exact Hinv3|]. split.
        * intros mid0 Hmid0. rewrite Hf3, Hf2.
          pose proof Hl as Hl0. apply list_elem_of_split in Hl0.
          destruct Hl0 as (l1 & l2 & Hsplit). rewrite (Hposn l1 l2 Hsplit).
          apply (suffix_kept mid0 rest l1 l2 ids l); [by rewrite <- Hmid0| |congruence].
          assert (Hmid_eq : mid0 = mid).
          { rewrite Hmid in Hmid0. by apply app_inv_tail in Hmid0. }
          subst mid0. destruct v as [j|t n|c].
          -- destruct Hpos as (a & b & Hab).
             apply (successor_place mid rest a b j l); [by rewrite <- Hmid | |congruence].
             by apply Hpre, Hvpre.
          -- rewrite Hmid in Hpos. destruct mid as [|m0 mid]; [by right|].
             left. simpl in Hpos. injection Hpos as ->. left.
          -- by destruct (Hnc c).
        * intros a Ha. apply list_elem_of_fmap in Ha. destruct Ha as (id & -> & Hid).
          destruct (Hids id Hid) as [t Ht']. exists t.
          rewrite <- (typeOf_stripped s2 s' (VInst id) Hs3) in Ht'. exact Ht'. }
  destruct Hmain as (Hinv' & Hshape & Htyped).
  split; [|split; [exact Htyped | split; [exact Hrem | exact Hused]]].
  exact (travInv_step pre rest s s' Htrav Hinv' Hsub Hscm Hbe Hrem Hshape).
Qed.

(** *** The rule of the binary operator and of the compare *)

Lemma operand_runs (pre rest : list positive) (v : Value) (elt : Ty) (w : positive)
    (s : State) :
  travInv pre rest s → rest ≠ [] →
  typeOf (insts s) v = Some (VectorTy elt w) → (∀ j, v = VInst j → j ∈ pre) →
  ∃ ls s', resolveLanes v s = Some (ls, s') ∧ travInv pre rest s' ∧
           length ls = Pos.to_nat w ∧
           (∀ a, a ∈ ls → is_Some (typeOf (insts s') a)) ∧
           stripped s ⊆ stripped s' ∧ m_SCM s ⊆ m_SCM s'.
Proof.
  intros Htrav Hrest Ht Hvpre.
  pose proof Htrav as (Hinv & (mid & Hmid & Hpre) & _ & Hent & Hends & _).
  destruct (resolveLanes_runs v elt w s Hinv Ht) as (ls & s' & H).
  { rewrite Hmid. destruct rest; [contradiction|]. by destruct mid. }
  { intros j ->. split; [exact (Hent j _ (Hvpre j eq_refl) Ht eq_refl)|]. split.
    - rewrite Hmid. apply elem_of_app. left. by apply Hpre, Hvpre.
    - intros Hend. by pose proof (Hends j _ Hend Ht). }
  exists ls, s'. split; [exact H|].
  destruct (resolveLanes_post pre rest v ls s s' Htrav Hrest Hvpre H)
    as (Htrav' & Htyped & _ & _).
  split; [exact Htrav'|]. split.
  { pose proof (resolveLanes_obtainScalarizedValues [] v ls s s' H) as Hob.
    apply obtainScalarizedValues_lanes in Hob.
    destruct Hob as (ls' & elt' & w' & Ht' & _ & Hlen & _ & Heq).
    apply fmap_Some_inj in Heq. subst ls'. rewrite Ht in Ht'. by injection Ht' as _ <-. }
  split; [exact Htyped|]. split.
  - pose proof Hinv as ((Hfresh & _) & _).
    exact (proj2 (grows_resolveLanes _ _ _ _ H Hfresh)).
  - exact (resolveLanes_SCM _ _ _ _ H).
Qed.

Lemma laneOperand_facts (s : State) (pre : list positive) (w : positive) (v : Value) :
  laneOperand (stripped s) pre w v = true →
  (∃ elt, typeOf (insts s) v = Some (VectorTy elt w)) ∧ (∀ j, v = VInst j → j ∈ pre).
Proof.
  unfold laneOperand. rewrite typeOf_strip. intros H.
  apply andb_prop in H. destruct H as [Ht Hj]. split.
  - destruct (typeOf (insts s) v) as [[| | | |elt w'|]|]; try discriminate.
    apply bool_decide_eq_true in Ht. subst w'. eauto.
  - intros j ->. by apply bool_decide_eq_true in Hj.
Qed.

Lemma travInv_head (pre rest : list positive) (x : positive) (s : State) :
  travInv pre (x :: rest) s →
  x ∈ instructionsOf (func s) ∧ (x ∉ pre) ∧ (x ∉ m_removedInsts s) ∧
  ∃ I, insts s !! x = Some I ∧ supported (stripped s) pre (setDebugLoc None I) = true.
Proof.
  intros (Hinv & (mid & Hmid & Hpre) & Hsup & _ & _ & Hrm).
  pose proof Hinv as ((_ & _ & Hnd) & _).
  assert (Hx : x ∉ pre).
  { intros Hin. apply Hpre in Hin. rewrite Hmid in Hnd. apply NoDup_app in Hnd.
    destruct Hnd as (_ & Hdisj & _). apply (Hdisj x Hin). left. }
  split; [rewrite Hmid; apply elem_of_app; right; left|]. split; [exact Hx|].
  split; [intros Hr; by apply Hx, Hrm|].
  simpl in Hsup. apply andb_prop in Hsup. destruct Hsup as [Hsup _].
  unfold stripped in Hsup. rewrite lookup_fmap in Hsup.
  destruct (insts s !! x) as [I|]; [|discriminate]. eauto.
Qed.

Lemma keeps_markRemoved_blockEnds x : keeps (λ s, blockEnds (func s)) (markRemoved x).
Proof. unfold markRemoved. keeps_tac. Qed.

(** A step that only writes the SCM or the records. *)
Lemma travInv_same_code (pre rest : list positive) (s s' : State) :
  travInv pre rest s → passInv s' →
  stripped s' = stripped s → func s' = func s → m_SCM s ⊆ m_SCM s' →
  m_removedInsts s' = m_removedInsts s →
  travInv pre rest s'.
Proof.
  intros Htrav Hinv' Hs Hf Hscm Hrem.
  apply (travInv_step pre rest s s' Htrav Hinv'); try assumption.
  - by rewrite Hs.
  - by rewrite Hf.
  - intros mid Hmid. exists mid. split; [by rewrite Hf | auto].
Qed.

Lemma travInv_getSCMEntry (pre rest : list positive) (v : Value) (p : SCMEntryPtr)
    (s s' : State) :
  travInv pre rest s → getSCMEntry v s = Some (p, s') → travInv pre rest s'.
Proof.
  intros Htrav H. pose proof Htrav as (Hinv & _).
  pose proof (keeps_getSCMEntry_insts _ _ _ _ H) as Hi.
  pose proof (keeps_getSCMEntry_outside _ _ _ _ H) as Ho.
  unfold outsideSCM in Ho. injection Ho as _ Hf _ _ Hr.
  apply (travInv_same_code pre rest s s' Htrav (passInv_getSCMEntry v p s s' Hinv H));
    try assumption.
  - unfold stripped. by rewrite Hi.
  - exact (proj1 (getSCMEntry_SCM _ _ _ _ H)).
Qed.

Lemma twoOperandRule_supported (mk : Instruction → Value → Value → Ty → Instruction)
    (pre rest : list positive) (x : positive) (I : Instruction) (elt : Ty) (w : positive)
    (v0 v1 : Value) (s : State) :
  (∀ a b t, opcode (mk I a b t) = opcode I) → opcode I ≠ PHI →
  travInv pre (x :: rest) s →
  insts s !! x = Some I → type I = VectorTy elt w → operands I = [v0; v1] →
  laneOperand (stripped s) pre w v0 = true → laneOperand (stripped s) pre w v1 = true →
  ∃ s', twoOperandRule mk x s = Some (tt, s') ∧ travInv (x :: pre) rest s'.
Proof.
  intros Hmk Hop Htrav HI HtI Hops Hl0 Hl1.
  destruct (laneOperand_facts s pre w v0 Hl0) as [[e0 Ht0] Hp0].
  destruct (laneOperand_facts s pre w v1 Hl1) as [[e1 Ht1] Hp1].
  pose proof Htrav as (Hinv & _).
  (* the entry of the instruction *)
  destruct (passInv_runs_getSCMEntry (VInst x) s Hinv eq_refl) as (p & s0 & Hget).
  pose proof (travInv_getSCMEntry _ _ _ _ _ _ Htrav Hget) as Htrav0.
  pose proof (keeps_getSCMEntry_insts _ _ _ _ Hget) as Hi0.
  destruct (getSCMEntry_SCM _ _ _ _ Hget) as [_ Hp].
  (* the lanes of the operands *)
  destruct (operand_runs pre (x :: rest) v0 e0 w s0 Htrav0 ltac:(discriminate))
    as (ls0 & s1 & Hres0 & Htrav1 & Hlen0 & Hty0 & Hsub1 & Hscm1); [by rewrite Hi0 | exact Hp0 |].
  pose proof (kept_sub _ _ Hsub1) as Hk1.
  destruct (operand_runs pre (x :: rest) v1 e1 w s1 Htrav1 ltac:(discriminate))
    as (ls1 & s2 & Hres1 & Htrav2 & Hlen1 & Hty1 & Hsub2 & Hscm2);
    [apply (kept_typeOf _ _ _ _ Hk1); by rewrite Hi0 | exact Hp1 |].
  pose proof (kept_sub _ _ Hsub2) as Hk2.
  pose proof (resolveLanes_obtainScalarizedValues [] v0 ls0 s0 s1 Hres0) as Hob0.
  pose proof (resolveLanes_obtainScalarizedValues [] v1 ls1 s1 s2 Hres1) as Hob1.
  assert (HI2 : ∃ I2, insts s2 !! x = Some I2 ∧ opcode I2 = opcode I ∧ type I2 = type I).
  { rewrite <- Hi0 in HI. destruct (Hk1 _ _ HI) as (I1 & HI1 & Ho1 & Ht1').
    destruct (Hk2 _ _ HI1) as (I2 & HI2 & Ho2 & Ht2'). exists I2.
    split; [exact HI2|]. split; congruence. }
  assert (Hp2 : m_SCM s2 !! VInst x = Some p).
  { apply (lookup_weaken _ _ _ _ (lookup_weaken _ _ _ _ Hp Hscm1) Hscm2). }
  assert (Hentry : ∀ s', m_SCM s' !! VInst x = Some p →
            ∀ t, typeOf (insts s') (VInst x) = Some t → isVectorTy t = true →
                 is_Some (m_SCM s' !! VInst x)) by eauto.
  (* what is left of the rule *)
  assert (Hrest : ∃ s',
    (if isConstant v0 && isConstant v1 then mret tt
     else
       mapM' (seq 0 (Pos.to_nat w)) (λ dup,
         getLane (Some <$> ls0) dup ≫= λ a,
         getLane (Some <$> ls1) dup ≫= λ b,
         getType a ≫= λ t,
         createBefore (mk I a b t) (Some x)
         ≫= λ id, mret (Some (VInst id))) ≫= λ newScalarizedInsts,
       updateSCMEntryWithValues p newScalarizedInsts (VInst x) true true ;;
       markRemoved x) s2 = Some (tt, s') ∧ travInv (x :: pre) rest s').
  { destruct (isConstant v0 && isConstant v1).
    { exists s2. split; [reflexivity|]. apply travInv_next; [exact Htrav2 | eauto]. }
    pose proof Htrav2 as (Hinv2 & (mid2 & Hmid2 & Hpre2) & _).
    pose proof Hinv2 as (Hwf2 & _).
    assert (Hx2 : x ∈ instructionsOf (func s2)).
    { rewrite Hmid2. apply elem_of_app. right. left. }
    set (pre' := λ dup, getLane (Some <$> ls0) dup ≫= λ a,
                        getLane (Some <$> ls1) dup ≫= λ b,
                        getType a ≫= λ t, mret (a, b, t)).
    set (mk' := λ (_ : nat) (abt : Value * Value * Ty),
                  let '(a, b, t) := abt in mk I a b t).
    set (body := λ dup, getLane (Some <$> ls0) dup ≫= λ a,
                        getLane (Some <$> ls1) dup ≫= λ b,
                        getType a ≫= λ t,
                        createBefore (mk I a b t) (Some x)
                        ≫= λ id, mret (Some (VInst id))).
    assert (Hbody : ∀ dup z, body dup z
              = (pre' dup ≫= λ abt, createBefore (mk' dup abt) (Some x)
                          ≫= λ id, mret (Some (VInst id))) z).
    { intros dup z. subst body pre' mk'. cbv [mbind M_bind mret M_ret].
      destruct (getLane (Some <$> ls0) dup z) as [[a sa]|]; [|reflexivity].
      destruct (getLane (Some <$> ls1) dup sa) as [[b sb]|]; [|reflexivity].
      destruct (getType a sb) as [[t sc]|]; reflexivity. }
    assert (Hstateless : ∀ a abt z z', pre' a z = Some (abt, z') → z' = z).
    { intros dup abt z z' Hx. subst pre'.
      apply bind_Some in Hx. destruct Hx as (a & z1 & Ha & Hx).
      apply getLane_Some in Ha. destruct Ha as [_ ->].
      apply bind_Some in Hx. destruct Hx as (b & z1 & Hb & Hx).
      apply getLane_Some in Hb. destruct Hb as [_ ->].
      apply bind_Some in Hx. destruct Hx as (t & z1 & Ht & Hx).
      apply getType_inv in Ht. destruct Ht as [_ ->].
      apply ret_inv in Hx. tauto. }
    destruct (decomposeLoop_runs pre' mk' x body (seq 0 (Pos.to_nat w)) Hbody s2 Hwf2 Hx2)
      as (news & s3 & Hloop).
    { intros dup z Hdup Hz. apply elem_of_seq in Hdup.
      destruct (lookup_lt_is_Some_2 ls0 dup) as [a Ha]; [lia|].
      destruct (lookup_lt_is_Some_2 ls1 dup) as [b Hb]; [lia|].
      destruct (Hty0 a) as [t Ht]; [apply list_elem_of_lookup; eauto|].
      exists (a, b, t). subst pre'.
      apply bind_Some. exists a, z. split.
      { unfold getLane. apply bind_Some. exists (Some a), z.
        by rewrite list_lookup_fmap, Ha. }
      apply bind_Some. exists b, z. split.
      { unfold getLane. apply bind_Some. exists (Some b), z.
        by rewrite list_lookup_fmap, Hb. }
      apply bind_Some. exists t, z. split; [|reflexivity].
      apply getType_typeOf. apply (typeOf_keep _ _ _ _ Hz).
      exact (kept_typeOf _ _ _ _ Hk2 Ht). }
    pose proof ((ltac:(subst body; pose proof keeps_createBefore_blockEnds; keeps_tac) :
                  keeps (λ z, blockEnds (func z)) (mapM' (seq 0 (Pos.to_nat w)) body))
                _ _ _ Hloop) as Hbe3.
    pose proof Hloop as Hloop'.
    apply (decomposeLoop w pre' mk' x body news s2 s3 Hbody Hstateless Hwf2) in Hloop'.
    destruct Hloop' as (ids & -> & Hlen & Hnd & Hwf3 & (l1 & l2 & Hl12 & Hl12') & Hkeep &
                        Hids & Hscm3 & Hrec3).
    assert (Hnew : ∀ id, id ∈ ids → ∃ i, insts s3 !! id = Some i ∧ opcode i = opcode I).
    { intros id Hid. apply list_elem_of_lookup in Hid. destruct Hid as [n Hn].
      destruct (Hids n id Hn) as (_ & [[a b] t] & z & _ & _ & _ & Hi).
      eexists. split; [exact Hi|]. subst mk'. simpl. apply Hmk. }
    assert (Hin3 : ∀ k, k ∈ instructionsOf (func s2) → k ∈ instructionsOf (func s3)).
    { intros k Hk. rewrite Hl12'. rewrite Hl12 in Hk. apply elem_of_app in Hk.
      apply elem_of_app. destruct Hk as [Hk|Hk]; [by left|].
      right. apply elem_of_app. by right. }
    assert (Hinv3 : passInv s3).
    { apply (passInv_inserted s2 s3 Hinv2 Hwf3 Hkeep Hscm3 Hrec3 Hin3).
      intros k Hk. rewrite Hl12' in Hk. rewrite Hl12.
      apply elem_of_app in Hk. destruct Hk as [Hk|Hk]; [left; apply elem_of_app; by left|].
      apply elem_of_app in Hk. destruct Hk as [Hk|Hk];
        [|left; apply elem_of_app; by right].
      right. destruct (Hnew k Hk) as (i & Hi & Hoi). unfold isPHI. rewrite Hi.
      apply bool_decide_eq_false. congruence. }
    assert (Htrav3 : travInv pre (x :: rest) s3).
    { apply (travInv_step pre (x :: rest) s2 s3 Htrav2 Hinv3).
      - exact (stripped_sub_keep _ _ Hkeep).
      - injection Hscm3 as -> _. reflexivity.
      - exact Hbe3.
      - by injection Hrec3.
      - intros mid Hmid. rewrite Hl12'.
        apply (suffix_kept mid (x :: rest) l1 l2 ids x);
          [rewrite <- Hmid; by destruct Hwf2 as (_ & _ & ?) | by right | congruence]. }
    (* the entry is filled in *)
    assert (Hp3 : m_SCM s3 !! VInst x = Some p) by (injection Hscm3 as -> _; exact Hp2).
    destruct HI2 as (I2 & HI2 & Ho2 & Ht2).
    pose proof (Hkeep _ _ HI2) as HI3.
    pose proof Hinv3 as (_ & _ & _ & _ & Hread3 & _).
    destruct (Hread3 _ _ Hp3) as (e3 & He3 & _).
    destruct (updateSCMEntryWithValues_runs p (Some <$> (VInst <$> ids)) (VInst x) true true
                elt w e3 s3) as [s4 Hupd].
    { simpl. rewrite HI3. simpl. by rewrite Ht2, HtI. }
    { exact He3. }
    { intros i Hi. destruct (lookup_lt_is_Some_2 ids i) as [id Hid]; [lia|].
      exists (VInst id). split; [by rewrite !list_lookup_fmap, Hid|].
      intros k [= <-]. destruct (Hnew id) as (i0 & Hi0' & _);
        [apply list_elem_of_lookup; eauto | eauto]. }
    assert (Hinv4 : passInv s4).
    { apply (passInv_update p (Some <$> (VInst <$> ids)) (VInst x) true true s3 s4 Hinv3 Hp3);
        [| |exact Hupd].
      - intros i y Hy. rewrite !list_lookup_fmap in Hy.
        destruct (ids !! i) as [id|] eqn:Hid; [|discriminate]. simpl in Hy.
        injection Hy as <-. destruct (Hnew id) as (i0 & Hi0' & _);
          [apply list_elem_of_lookup; eauto|]. simpl. rewrite Hi0'. by eexists.
      - intros _. exists x. split; [reflexivity|]. by apply Hin3. }
    pose proof (keeps_updateSCMEntryWithValues_stripped _ _ _ _ _ _ _ _ Hupd) as Hs4.
    pose proof (keeps_updateSCMEntryWithValues_outside _ _ _ _ _ _ _ _ Hupd) as Ho4.
    unfold outsideSCM in Ho4. injection Ho4 as _ Hf4 _ _ Hr4.
    pose proof (keeps_updateSCMEntryWithValues_shape _ _ _ _ _ _ _ _ Hupd) as Hsh4.
    unfold scmShape in Hsh4. injection Hsh4 as Hm4 _ _ _.
    assert (Htrav4 : travInv pre (x :: rest) s4).
    { apply (travInv_same_code pre (x :: rest) s3 s4 Htrav3 Hinv4); try assumption.
      by rewrite Hm4. }
    assert (Hx4 : is_Some (insts s4 !! x)).
    { destruct (carried_stripped s3 s4 Hs4 x I2 HI3) as (I4 & HI4 & _). eauto. }
    exists (set_removedInsts (λ r, {[x]} ∪ r) s4). split.
    - apply bind_Some. exists (Some <$> (VInst <$> ids)), s3. split; [exact Hloop|].
      apply bind_Some. exists tt, s4. split; [exact Hupd | reflexivity].
    - apply travInv_markRemoved; [|exact Hx4].
      apply travInv_next; [exact Htrav4|]. intros t _ _. rewrite Hm4. eauto. }
  destruct Hrest as (s' & Hrest & Htrav'). exists s'. split; [|exact Htrav'].
  unfold twoOperandRule.
  apply bind_Some. exists I, s. split; [by apply getInst_Some|].
  rewrite HtI. simpl.
  apply bind_Some. exists p, s0. split; [exact Hget|].
  apply bind_Some. exists v0, s0. split; [unfold getOperand; by rewrite Hops|].
  apply bind_Some. exists (Some <$> ls0, isConstant v0), s1. split; [exact Hob0|].
  apply bind_Some. exists v1, s1. split; [unfold getOperand; by rewrite Hops|].
  apply bind_Some. exists (Some <$> ls1, isConstant v1), s2. split; [exact Hob1|].
  exact Hrest.
Qed.

(** *** The instructions that are left as they are *)

Lemma vectorFree_strip (s : State) (I : Instruction) :
  vectorFree (stripped s) (setDebugLoc None I) = vectorFree (insts s) I.
Proof.
  unfold vectorFree. simpl. f_equal. f_equal.
  induction (operands I) as [|v l IH]; [reflexivity|]. simpl.
  rewrite IH. unfold scalarTyped. by rewrite typeOf_strip.
Qed.

Lemma passInv_used (added : list Value) (s : State) :
  passInv s →
  (∀ v, v ∈ added → ∃ elt w, typeOf (insts s) v = Some (VectorTy elt w)) →
  passInv (set_usedVectors (λ u, u ++ added) s).
Proof.
  intros (Hwf & Hscm & Hest & Hlane & Hread & Hty & Hflag & Hphi & Hdrl & Hrem & Hused) Hadd.
  split; [exact Hwf|]. split; [exact Hscm|]. split; [exact Hest|].
  split; [exact Hlane|]. split; [exact Hread|]. split; [exact Hty|].
  split; [exact Hflag|]. split; [exact Hphi|]. split; [exact Hdrl|].
  split; [exact Hrem|].
  intros v Hv. simpl in Hv. apply elem_of_app in Hv. destruct Hv as [Hv|Hv]; auto.
Qed.

Lemma recover_loop_runs (ops : list Value) :
  ∀ s, (∀ v, v ∈ ops → is_Some (typeOf (insts s) v)) →
  ∃ s', forM ops (λ operand,
          getType operand ≫= λ t,
          if isVectorTy t then obtainVectorValueWhichMightBeScalarized operand
          else mret tt) s = Some (tt, s').
Proof.
  induction ops as [|op ops IH]; intros s Hops; simpl.
  - by exists s.
  - destruct (Hops op) as [t Ht]; [left|].
    assert (Hstep : ∃ s1, (getType op ≫= λ t,
              if isVectorTy t then obtainVectorValueWhichMightBeScalarized op
              else mret tt) s = Some (tt, s1) ∧ insts s1 = insts s).
    { destruct (isVectorTy t) eqn:Hv.
      - eexists. split.
        + apply bind_Some. exists t, s. split; [by apply getType_typeOf|].
          rewrite Hv. reflexivity.
        + reflexivity.
      - exists s. split; [|reflexivity].
        apply bind_Some. exists t, s. split; [by apply getType_typeOf|].
        by rewrite Hv. }
    destruct Hstep as (s1 & Hstep & Hi).
    destruct (IH s1) as [s' H'].
    { intros v Hv. rewrite Hi. apply Hops. by right. }
    exists s'. apply bind_Some. exists tt, s1. auto.
Qed.

Lemma elem_of_removelast {A : Type} (l : list A) (x : A) : x ∈ removelast l → x ∈ l.
Proof.
  induction l as [|a l IH]; simpl; [by intros H|].
  destruct l as [|b l]; [by intros H%elem_of_nil|].
  intros H. apply elem_of_cons in H. destruct H as [->|H]; [left | right; auto].
Qed.

Lemma recoverNonScalarizableInst_supported (pre rest : list positive) (x : positive)
    (I : Instruction) (s : State) :
  travInv pre (x :: rest) s → insts s !! x = Some I →
  (∀ v, v ∈ operands I → is_Some (typeOf (insts s) v)) →
  ∃ s', recoverNonScalarizableInst x s = Some (tt, s') ∧ travInv (x :: pre) rest s'.
Proof.
  intros Htrav HI Hops.
  set (ops := match opcode I with
              | Call => removelast (operands I)
              | _ => operands I
              end).
  assert (Hsub : ∀ v, v ∈ ops → v ∈ operands I).
  { intros v. subst ops. destruct (opcode I); auto using elem_of_removelast. }
  (* the entry of a vector instruction *)
  assert (Hentry : ∃ s1,
    (if isVectorTy (type I) then getSCMEntry (VInst x) ;; mret tt else mret tt) s
    = Some (tt, s1) ∧ travInv pre (x :: rest) s1 ∧ insts s1 = insts s ∧
    (isVectorTy (type I) = true → is_Some (m_SCM s1 !! VInst x))).
  { destruct (isVectorTy (type I)) eqn:Hv.
    - pose proof Htrav as (Hinv & _).
      destruct (passInv_runs_getSCMEntry (VInst x) s Hinv eq_refl) as (p & s1 & Hget).
      exists s1. split; [apply bind_Some; exists p, s1; auto|].
      split; [exact (travInv_getSCMEntry _ _ _ _ _ _ Htrav Hget)|].
      split; [exact (keeps_getSCMEntry_insts _ _ _ _ Hget)|].
      intros _. destruct (getSCMEntry_SCM _ _ _ _ Hget) as [_ Hp]. eauto.
    - exists s. split; [reflexivity|]. split; [exact Htrav|]. split; [reflexivity|].
      discriminate. }
  destruct Hentry as (s1 & Hentry & Htrav1 & Hi1 & Hscm1).
  destruct (recover_loop_runs ops s1) as [s' Hloop].
  { intros v Hv. rewrite Hi1. auto. }
  exists s'. split.
  { unfold recoverNonScalarizableInst.
    apply bind_Some. exists I, s. split; [by apply getInst_Some|].
    apply bind_Some. exists tt, s1. split; [exact Hentry | exact Hloop]. }
  pose proof Hloop as Hshape. apply recover_loop in Hshape.
  destruct Hshape as (added & -> & _ & Hadded).
  pose proof Htrav1 as (Hinv1 & _).
  apply travInv_next.
  - apply (travInv_same_code pre (x :: rest) s1 _ Htrav1); try reflexivity.
    apply passInv_used; [exact Hinv1|].
    intros v Hv. apply Hadded in Hv. destruct Hv as (_ & _ & t & Ht & Hvec).
    destruct t; try discriminate. eauto.
  - intros t Ht Hvec. simpl in Ht |- *. rewrite Hi1, HI in Ht. injection Ht as <-. auto.
Qed.

(** *** An instruction of a supported function is dispatched *)

Lemma dispatch_supported (pre rest : list positive) (x : positive) (s : State) :
  travInv pre (x :: rest) s →
  ∃ s', dispatchInstructionToScalarize x s = Some (tt, s') ∧ travInv (x :: pre) rest s'.
Proof.
  intros Htrav.
  destruct (travInv_head pre rest x s Htrav) as (Hx & Hxpre & Hxrm & I & HI & Hsup).
  unfold supported in Hsup. apply andb_prop in Hsup. destruct Hsup as [Hphi Hsup].
  apply negb_true_iff, bool_decide_eq_false in Hphi. simpl in Hphi.
  apply orb_prop in Hsup. destruct Hsup as [Hvf|Hsup].
  { rewrite vectorFree_strip in Hvf. exists s.
    split; [exact (dispatch_vectorFree s x I HI Hvf)|].
    apply travInv_next; [exact Htrav|].
    intros t Ht Hvec. simpl in Ht. rewrite HI in Ht. injection Ht as <-.
    unfold vectorFree in Hvf. rewrite Hvec in Hvf. discriminate. }
  simpl in Hsup.
  assert (Hrule : ∃ s',
    match opcode I with
    | OpBinary _ => scalarizeInstruction_BinaryOperator x
    | OpCmp _ => scalarizeInstruction_CmpInst x
    | OpCast AddrSpaceCast => recoverNonScalarizableInst x
    | OpCast _ => scalarizeInstruction_CastInst x
    | PHI => scalarizeInstruction_PHINode x
    | Select => scalarizeInstruction_SelectInst x
    | ExtractElement => scalarizeInstruction_ExtractElementInst x
    | InsertElement => scalarizeInstruction_InsertElementInst x
    | ShuffleVector => scalarizeInstruction_ShuffleVectorInst x
    | Alloca => scalarizeInstruction_AllocaInst x
    | GetElementPtr => scalarizeInstruction_GetElementPtrInst x
    | Load => scalarizeInstruction_LoadInst x
    | Store => scalarizeInstruction_StoreInst x
    | Call | OtherOp _ => recoverNonScalarizableInst x
    end s = Some (tt, s') ∧ travInv (x :: pre) rest s').
  { assert (Hleft : leftAsIs (opcode I) &&
                    forallb (λ v, bool_decide (is_Some (typeOf (stripped s) v))) (operands I)
                    = true →
                    ∃ s', recoverNonScalarizableInst x s = Some (tt, s') ∧
                          travInv (x :: pre) rest s').
    { intros H. apply andb_prop in H. destruct H as [_ H].
      rewrite List.forallb_forall in H.
      apply (recoverNonScalarizableInst_supported pre rest x I s Htrav HI).
      intros v Hv. apply list_elem_of_In, H, bool_decide_eq_true in Hv.
      by rewrite typeOf_strip in Hv. }
    assert (Htwo : ∀ mk : Instruction → Value → Value → Ty → Instruction,
              (∀ a b t, opcode (mk I a b t) = opcode I) →
              match type I, operands I with
              | VectorTy _ w, [v0; v1] =>
                  laneOperand (stripped s) pre w v0 && laneOperand (stripped s) pre w v1
              | _, _ => false
              end = true →
              ∃ s', twoOperandRule mk x s = Some (tt, s') ∧ travInv (x :: pre) rest s').
    { intros mk Hmk H.
      destruct (type I) as [| | | |elt w|] eqn:HtI; try discriminate.
      destruct (operands I) as [|v0 [|v1 [|]]] eqn:Hops; try discriminate.
      apply andb_prop in H. destruct H as [H0 H1].
      exact (twoOperandRule_supported mk pre rest x I elt w v0 v1 s Hmk Hphi Htrav HI HtI
               Hops H0 H1). }
    destruct (opcode I) as [b|c|[]| | | | | | | | | | |] eqn:Hop;
      try discriminate Hsup; try (by apply Hleft); try contradiction.
    - rewrite binary_is_twoOperandRule. apply Htwo; [|exact Hsup].
      intros a b0 t. unfold scalarBinaryOperator. simpl. exact Hop.
    - rewrite cmp_is_twoOperandRule. apply Htwo; [|exact Hsup].
      intros a b0 t. unfold scalarCmpInst. simpl. exact Hop. }
  destruct Hrule as (s' & Hrule & Htrav'). exists s'. split; [|exact Htrav'].
  unfold dispatchInstructionToScalarize.
  apply bind_Some. exists (m_removedInsts s), s. split; [reflexivity|].
  rewrite decide_False by exact Hxrm.
  apply bind_Some. exists I, s. split; [by apply getInst_Some | exact Hrule].
Qed.

(** *** The reassembly of the vectors that are used whole *)

Lemma passInv_stripped (s s' : State) :
  passInv s → stripped s' = stripped s → nextId s' = nextId s → func s' = func s →
  (m_SCM s', m_SCMArrays s', scmShape s') = (m_SCM s, m_SCMArrays s, scmShape s) →
  (m_DRL s', m_usedVectors s', m_removedInsts s')
  = (m_DRL s, m_usedVectors s, m_removedInsts s) →
  passInv s'.
Proof.
  intros Hinv Hs Hn Hf Hscm Hrec.
  pose proof Hinv as (Hwf & _ & _ & _ & _ & _ & _ & Hphi & _).
  pose proof (kept_carried _ _ (carried_stripped _ _ Hs)) as Hk.
  apply (passInv_frame s s' Hinv (wellFormed_stripped _ _ Hs Hn Hf Hwf) Hk).
  - congruence.
  - exact Hrec.
  - intros k Hk'. by rewrite Hf.
  - intros k Hk'. rewrite Hf in Hk'. rewrite (kept_isPHI _ _ _ Hk); [by apply Hphi|].
    destruct Hwf as (_ & Hl & _). by apply Hl.
Qed.

Lemma assembleVector_runs (t : Ty) (j : positive) (p : SCMEntryPtr) (e : SCMEntry) :
  ∀ (idx : list nat) (prev : Value) (s : State),
    passInv s → j ∈ instructionsOf (func s) → lookupEntry s p = Some e →
    (∀ i, i ∈ idx → ∃ x, scalarValues e !! i = Some (Some x)) →
    ∃ v s', assembleVector t j (Some j) p prev idx s = Some (v, s') ∧
      passInv s' ∧ kept s s' ∧ (nextId s ≤ nextId s')%positive ∧
      (m_SCM s', m_SCMArrays s', scmShape s') = (m_SCM s, m_SCMArrays s, scmShape s) ∧
      m_usedVectors s' = m_usedVectors s ∧
      ((idx = [] ∧ v = prev ∧ s' = s) ∨
       ∃ id, v = VInst id ∧ (nextId s ≤ id)%positive ∧ typeOf (insts s') v = Some t).
Proof.
  induction idx as [|i idx IH]; intros prev s Hinv Hj He Hlanes; simpl.
  { exists prev, s. split; [reflexivity|]. split; [exact Hinv|].
    split; [apply kept_refl|]. split; [lia|]. split; [reflexivity|].
    split; [reflexivity|]. left. auto. }
  destruct (Hlanes i) as [x Hx]; [left|].
  pose proof Hinv as (Hwf & _).
  set (ins := plainInst InsertElement t [prev; x; constIndex i]).
  destruct (createBefore_runs ins j s Hj) as (id & s1 & H1).
  destruct (placedBefore_createBefore _ _ _ _ _ Hwf H1) as (Hp1 & Hid & _).
  pose proof (createBefore_inv _ _ _ _ _ H1) as (Heq & _ & Hn1 & Hscm1 & Hrec1).
  assert (Hinv1 : passInv s1).
  { apply (passInv_placed j [id] s s1 Hinv Hp1 Hj).
    intros k Hk. apply list_elem_of_singleton in Hk. subst k.
    unfold isPHI. by rewrite Hid. }
  pose proof Hp1 as (_ & _ & _ & Hkeep1 & Hpos1 & _).
  assert (Hj1 : j ∈ instructionsOf (func s1)).
  { pose proof Hj as Hj'. apply list_elem_of_split in Hj'.
    destruct Hj' as (l1 & l2 & Hsplit). rewrite (Hpos1 l1 l2 Hsplit).
    apply elem_of_app. right. right. left. }
  destruct (SetDebugLocBy_runs id j s1) as [s2 H2].
  { by rewrite Hid. }
  { destruct Hwf as (_ & Hl & _). destruct (Hl j Hj) as [ij Hij].
    rewrite (Hkeep1 _ _ Hij). eauto. }
  pose proof (SetDebugLocBy_inv _ _ _ _ H2) as (Hs2 & Hn2 & Hf2 & Hty2 & Hscm2 & Hrec2).
  pose proof (passInv_stripped s1 s2 Hinv1 Hs2 Hn2 Hf2 Hscm2 Hrec2) as Hinv2.
  assert (He2 : lookupEntry s2 p = Some e).
  { rewrite <- He. transitivity (lookupEntry s1 p); apply lookupEntry_arrays; congruence. }
  destruct (IH (VInst id) s2 Hinv2) as (v & s' & Hrun & Hinv' & Hk' & Hn' & Hscm' & Hu' & Hv);
    [by rewrite Hf2 | exact He2 | intros k Hk; apply Hlanes; by right |].
  assert (Hk2 : kept s s2).
  { apply (kept_trans s s1 s2).
    - intros k I HI. exists I. rewrite (Hkeep1 _ _ HI). auto.
    - exact (kept_carried _ _ (carried_stripped _ _ Hs2)). }
  exists v, s'. split.
  { apply bind_Some. exists e, s. split; [by apply readEntry_lookup|].
    apply bind_Some. exists x, s. split.
    { unfold getLane. apply bind_Some. exists (Some x), s. by rewrite Hx. }
    apply bind_Some. exists id, s1. split; [exact H1|].
    apply bind_Some. exists tt, s2. split; [exact H2 | exact Hrun]. }
  split; [exact Hinv'|]. split; [exact (kept_trans _ _ _ Hk2 Hk')|].
  split; [lia|]. split; [congruence|].
  split; [injection Hrec1 as _ Hu1 _; injection Hrec2 as _ Hu2 _; congruence|].
  right. destruct Hv as [(-> & -> & ->)|(id' & -> & Hid' & Ht')].
  - exists id. split; [reflexivity|]. split; [lia|].
    destruct (Hty2 _ Hid) as (i' & Hi' & Hti'). simpl. rewrite Hi'. simpl.
    by rewrite Hti'.
  - exists id'. split; [reflexivity|]. split; [lia | exact Ht'].
Qed.

Lemma kept_replaceUses (old new : Value) (s : State) :
  kept s (set_insts (fmap (replaceUses old new)) s).
Proof.
  intros id I HI. exists (replaceUses old new I). simpl. rewrite lookup_fmap, HI. auto.
Qed.

Lemma passInv_replaceUses (old new : Value) (s : State) :
  passInv s → passInv (set_insts (fmap (replaceUses old new)) s).
Proof.
  intros Hinv. pose proof Hinv as ((Hfresh & Hl & Hnd) & _ & _ & _ & _ & _ & _ & Hphi & _).
  pose proof (kept_replaceUses old new s) as Hk.
  apply (passInv_frame s _ Hinv); try reflexivity; try exact Hk.
  - split; [|split; [|exact Hnd]].
    + intros id i Hi. simpl in Hi. rewrite lookup_fmap in Hi.
      destruct (insts s !! id) as [i0|] eqn:Hi0; [|discriminate]. exact (Hfresh _ _ Hi0).
    + intros id Hid. simpl. rewrite lookup_fmap. destruct (Hl id Hid) as [i Hi].
      rewrite Hi. eauto.
  - auto.
  - intros k Hk'. rewrite (kept_isPHI _ _ _ Hk); [by apply Hphi | by apply Hl].
Qed.

Lemma reassembly_runs (v : Value) (s : State) :
  passInv s → (∃ elt w, typeOf (insts s) v = Some (VectorTy elt w)) →
  ∃ s', obtainVectorValueWhichMightBeScalarizedImpl v s = Some (tt, s') ∧
        passInv s' ∧ kept s s' ∧ m_usedVectors s' = m_usedVectors s.
Proof.
  intros Hinv (elt & w & Ht).
  pose proof Hinv as (Hwf & Hscm & Hest & Hlane & Hread & Hty & Hflag & Hphi & _).
  unfold obtainVectorValueWhichMightBeScalarizedImpl.
  destruct (isUndefValue v) eqn:Hundef.
  { exists s. split; [|split; [exact Hinv | split; [apply kept_refl | reflexivity]]].
    apply bind_Some. exists (VectorTy elt w), s. split; [by apply getType_typeOf|].
    apply bind_Some. exists (elt, Pos.to_nat w), s. split; [reflexivity|].
    reflexivity. }
  destruct (m_SCM s !! v) as [p|] eqn:Hp; cycle 1.
  { exists s. split; [|split; [exact Hinv | split; [apply kept_refl | reflexivity]]].
    apply bind_Some. exists (VectorTy elt w), s. split; [by apply getType_typeOf|].
    apply bind_Some. exists (elt, Pos.to_nat w), s. split; [reflexivity|].
    apply bind_Some. exists (m_SCM s), s. split; [reflexivity|]. by rewrite Hp. }
  destruct (Hread v p Hp) as (e & He & _).
  destruct (isOriginalVectorRemoved e) eqn:Hrm; cycle 1.
  { exists s. split; [|split; [exact Hinv | split; [apply kept_refl | reflexivity]]].
    apply bind_Some. exists (VectorTy elt w), s. split; [by apply getType_typeOf|].
    apply bind_Some. exists (elt, Pos.to_nat w), s. split; [reflexivity|].
    apply bind_Some. exists (m_SCM s), s. split; [reflexivity|]. rewrite Hp.
    apply bind_Some. exists e, s. split; [by apply readEntry_lookup|]. by rewrite Hrm. }
  destruct (Hflag v p e Hp He Hrm) as (Hres & j & -> & Hj).
  destruct (Hlane _ _ _ Hp He Hres) as (elt' & w' & Ht' & Hlen & Hall).
  rewrite Ht in Ht'. injection Ht' as <- <-.
  assert (Hlanes : ∀ i, i < Pos.to_nat w → ∃ x, scalarValues e !! i = Some (Some x)).
  { intros i Hi. destruct (lookup_lt_is_Some_2 (scalarValues e) i) as [o Ho]; [lia|].
    rewrite Forall_lookup in Hall. destruct (Hall _ _ Ho) as [x ->]. eauto. }
  (* the chain *)
  destruct (assembleVector_runs (VectorTy elt w) j p e (seq 0 (Pos.to_nat w))
              (VConst (UndefValue (VectorTy elt w))) s Hinv Hj He)
    as (a & s1 & Hasm & Hinv1 & Hk1 & Hn1 & Hscm1 & Hu1 & Ha).
  { intros i Hi. apply elem_of_seq in Hi. apply Hlanes. lia. }
  destruct Ha as [(Hnil & _)|(id & -> & Hid & Hta)].
  { exfalso. pose proof (f_equal length Hnil) as Hl. rewrite length_seq in Hl.
    simpl in Hl. lia. }
  assert (Hne : VInst id ≠ VInst j).
  { intros [= ->]. destruct Hwf as (Hfresh & Hl & _). destruct (Hl j Hj) as [ij Hij].
    apply Hfresh in Hij. lia. }
  (* the uses of the original *)
  set (s2 := set_insts (fmap (replaceUses (VInst j) (VInst id))) s1).
  pose proof (passInv_replaceUses (VInst j) (VInst id) s1 Hinv1) as Hinv2.
  fold s2 in Hinv2.
  pose proof (kept_replaceUses (VInst j) (VInst id) s1) as Hk2. fold s2 in Hk2.
  (* the entry of the chain *)
  destruct (passInv_runs_getSCMEntry (VInst id) s2 Hinv2 eq_refl) as (q & s3 & Hget).
  pose proof (passInv_getSCMEntry _ _ _ _ Hinv2 Hget) as Hinv3.
  pose proof (keeps_getSCMEntry_insts _ _ _ _ Hget) as Hi3.
  pose proof (keeps_getSCMEntry_outside _ _ _ _ Hget) as Ho3.
  unfold outsideSCM in Ho3. injection Ho3 as _ _ _ Hu3 _.
  destruct (getSCMEntry_SCM _ _ _ _ Hget) as [Hsub3 Hq].
  pose proof Hinv2 as (_ & Hscm2 & _).
  assert (Hp2 : m_SCM s2 !! VInst j = Some p).
  { subst s2. simpl. injection Hscm1 as -> _. exact Hp. }
  assert (He3 : lookupEntry s3 p = Some e).
  { destruct (getSCMEntry_discipline _ _ _ _ Hscm2 Hget) as (_ & _ & Hold & _).
    rewrite Hold by (destruct Hscm2 as (_ & _ & _ & Halloc & _); exact (Halloc _ _ Hp2)).
    rewrite <- He. apply lookupEntry_arrays. subst s2. simpl. congruence. }
  pose proof Hinv3 as (_ & _ & _ & _ & Hread3 & Hty3 & _).
  destruct (Hread3 _ _ Hq) as (eq & Heq & _).
  assert (Hp3 : m_SCM s3 !! VInst j = Some p) by exact (lookup_weaken _ _ _ _ Hp2 Hsub3).
  assert (Hta3 : typeOf (insts s3) (VInst id) = Some (VectorTy elt w)).
  { rewrite Hi3. exact (kept_typeOf _ _ _ _ Hk2 Hta). }
  destruct (updateSCMEntryWithValues_runs q (scalarValues e) (VInst id) false true elt w eq s3
              Hta3 Heq) as [s4 Hupd].
  { intros i Hi. destruct (Hlanes i Hi) as [x Hx]. exists x. split; [exact Hx|].
    intros k ->. destruct (Hty3 _ _ _ _ _ Hp3 He3 Hres Hx) as [tk Htk].
    simpl in Htk. by destruct (insts s3 !! k). }
  pose proof (passInv_update q (scalarValues e) (VInst id) false true s3 s4 Hinv3 Hq) as Hinv4.
  pose proof (keeps_updateSCMEntryWithValues_outside _ _ _ _ _ _ _ _ Hupd) as Ho4.
  unfold outsideSCM in Ho4. injection Ho4 as _ _ _ Hu4 _.
  pose proof (keeps_updateSCMEntryWithValues_stripped _ _ _ _ _ _ _ _ Hupd) as Hs4.
  exists s4. split.
  { apply bind_Some. exists (VectorTy elt w), s. split; [by apply getType_typeOf|].
    apply bind_Some. exists (elt, Pos.to_nat w), s. split; [reflexivity|].
    apply bind_Some. exists (m_SCM s), s. split; [reflexivity|]. rewrite Hp.
    apply bind_Some. exists e, s. split; [by apply readEntry_lookup|]. rewrite Hrm. simpl.
    apply bind_Some. exists (insts s), s. split; [reflexivity|].
    apply bind_Some. exists (func s), s. split; [reflexivity|].
    rewrite (Hphi j Hj).
    apply bind_Some. exists (Some j), s. split; [reflexivity|].
    apply bind_Some. exists (VInst id), s1. split; [exact Hasm|].
    apply bind_Some. exists tt, s2. split.
    { unfold replaceAllUsesWith. apply bind_Some. exists tt, s1. split; [|reflexivity].
      apply require_Some. split; [|reflexivity]. by apply bool_decide_eq_true. }
    apply bind_Some. exists q, s3. split; [exact Hget|].
    apply bind_Some. exists e, s3. split; [by apply readEntry_lookup | exact Hupd]. }
  split.
  { apply Hinv4; [|discriminate | exact Hupd].
    intros i x Hx. exact (Hty3 _ _ _ _ _ Hp3 He3 Hres Hx). }
  split.
  { apply (kept_trans s s1 s4 Hk1). apply (kept_trans s1 s2 s4 Hk2).
    apply kept_carried, carried_stripped. rewrite Hs4. unfold stripped. by rewrite Hi3. }
  subst s2. simpl in Hu3. congruence.
Qed.

Lemma resolveVectorValues_runs (s : State) :
  passInv s → ∃ s', resolveVectorValues s = Some (tt, s') ∧ passInv s'.
Proof.
  intros Hinv. unfold resolveVectorValues.
  assert (Hloop : ∀ used z, passInv z →
            (∀ v, v ∈ used → ∃ elt w, typeOf (insts z) v = Some (VectorTy elt w)) →
            ∃ z', forM used obtainVectorValueWhichMightBeScalarizedImpl z = Some (tt, z') ∧
                  passInv z').
  { induction used as [|v used IH]; intros z Hz Hused; simpl; [by exists z|].
    destruct (reassembly_runs v z Hz) as (z1 & H1 & Hz1 & Hk1 & _); [apply Hused; left|].
    destruct (IH z1 Hz1) as (z' & H' & Hz').
    { intros v' Hv'. destruct (Hused v') as (elt & w & Ht); [by right|].
      exists elt, w. exact (kept_typeOf _ _ _ _ Hk1 Ht). }
    exists z'. split; [|exact Hz']. apply bind_Some. exists tt, z1. auto. }
  pose proof Hinv as (_ & _ & _ & _ & _ & _ & _ & _ & _ & _ & Hused).
  destruct (Hloop (m_usedVectors s) s Hinv Hused) as (s' & H & Hinv').
  exists s'. split; [|exact Hinv']. apply bind_Some. exists (m_usedVectors s), s. auto.
Qed.

(** *** The traversal *)

Lemma scalarizeLoop_supported :
  ∀ (rest pre : list positive) (fuel : nat) (s : State),
    travInv pre rest s → length rest ≤ fuel →
    ∃ s', scalarizeLoop fuel (head rest) s = Some (tt, s') ∧ passInv s'.
Proof.
  induction rest as [|x rest IH]; intros pre fuel s Htrav Hfuel; simpl.
  { exists s. split; [by destruct fuel | exact (proj1 Htrav)]. }
  destruct fuel as [|fuel]; [simpl in Hfuel; lia|]. simpl.
  pose proof Htrav as (Hinv & (mid & Hmid & Hpre) & _).
  assert (Hnext : nextInstruction x (func s) = head rest).
  { unfold nextInstruction. rewrite Hmid. apply nextIn_middle.
    destruct Hinv as ((_ & _ & Hnd) & _). rewrite Hmid in Hnd.
    apply NoDup_app in Hnd. destruct Hnd as (_ & Hdisj & _).
    intros Hx. apply (Hdisj x Hx). left. }
  destruct (dispatch_supported pre rest x s Htrav) as (s1 & Hd & Htrav1).
  destruct (IH (x :: pre) fuel s1 Htrav1) as (s' & Hloop & Hinv'); [simpl in Hfuel; lia|].
  exists s'. split; [|exact Hinv'].
  apply bind_Some. exists (func s), s. split; [reflexivity|].
  apply bind_Some. exists tt, s1. split; [exact Hd|]. by rewrite Hnext.
Qed.

(** *** The state the traversal starts in *)

Lemma supported_strip (s : State) (pre : list positive) (I : Instruction) :
  supported (stripped s) pre (setDebugLoc None I) = supported (insts s) pre I.
Proof.
  unfold supported. rewrite vectorFree_strip. simpl.
  assert (Hl : ∀ w v, laneOperand (stripped s) pre w v = laneOperand (insts s) pre w v).
  { intros w v. unfold laneOperand. by rewrite typeOf_strip. }
  assert (Hf : ∀ l, forallb (λ v, bool_decide (is_Some (typeOf (stripped s) v))) l
                  = forallb (λ v, bool_decide (is_Some (typeOf (insts s) v))) l).
  { induction l as [|v l IHl]; [reflexivity|]. simpl. by rewrite IHl, typeOf_strip. }
  rewrite Hf. f_equal. f_equal.
  destruct (opcode I); try reflexivity;
    destruct (type I); try reflexivity;
    destruct (operands I) as [|v0 [|v1 [|]]]; try reflexivity; by rewrite !Hl.
Qed.

Lemma supportedFrom_strip (s : State) (rest pre : list positive) :
  supportedFrom (stripped s) pre rest = supportedFrom (insts s) pre rest.
Proof.
  revert pre. induction rest as [|x rest IH]; intros pre; simpl; [reflexivity|].
  rewrite IH. f_equal. unfold stripped. rewrite lookup_fmap.
  destruct (insts s !! x) as [I|]; [apply supported_strip | reflexivity].
Qed.

Lemma supportedFrom_noPHI (m : gmap positive Instruction) (rest pre : list positive) :
  supportedFrom m pre rest = true →
  ∀ k, k ∈ rest → isPHI m k = false.
Proof.
  revert pre. induction rest as [|x rest IH]; intros pre H k Hk;
    [by apply not_elem_of_nil in Hk|].
  simpl in H. apply andb_prop in H. destruct H as [Hx Hr].
  apply elem_of_cons in Hk. destruct Hk as [->|Hk]; [|exact (IH _ Hr k Hk)].
  unfold isPHI. destruct (m !! x) as [I|]; [|reflexivity].
  unfold supported in Hx. apply andb_prop in Hx. destruct Hx as [Hx _].
  apply negb_true_iff in Hx. exact Hx.
Qed.

Lemma travInv_start (st : State) :
  supportedFunction st →
  travInv [] (instructionsOf (func st))
    (set_DRL (λ _, [])
       (set_SCMArrayLocation 0
          (set_SCMAllocationArray 0
             (set_SCMArrays (take 1)
                (set_SCM (λ _, ∅)
                   (set_removedInsts (λ _, ∅)
                      (set_usedVectors (λ _, []) st))))))).
Proof.
  intros (Hwf & Hscm & Hest & Hsup & Hends).
  destruct Hscm as (Hlast & Hlens & _).
  split; [|split; [|split; [|split; [|split]]]].
  - split; [exact Hwf|]. split.
    { unfold scmWf. simpl. split.
      - rewrite length_take. lia.
      - split; [by apply Forall_take|]. split; [lia|].
        split; intros ? ?; by rewrite lookup_empty. }
    split; [exact Hest|].
    split; [intros v p e Hv; simpl in Hv; by rewrite lookup_empty in Hv|].
    split; [intros v p Hv; simpl in Hv; by rewrite lookup_empty in Hv|].
    split; [intros v p e i x Hv; simpl in Hv; by rewrite lookup_empty in Hv|].
    split; [intros v p e Hv; simpl in Hv; by rewrite lookup_empty in Hv|].
    split; [exact (supportedFrom_noPHI _ _ _ Hsup)|].
    split; [reflexivity|]. split.
    + intros x Hx. simpl in Hx. by apply not_elem_of_empty in Hx.
    + intros v Hv. simpl in Hv. by apply not_elem_of_nil in Hv.
  - exists []. split; [reflexivity|]. intros j Hj. by apply not_elem_of_nil in Hj.
  - rewrite <- Hsup. apply (supportedFrom_strip st).
  - intros j t Hj. by apply not_elem_of_nil in Hj.
  - intros j t Hj Ht. simpl in Hj, Ht. unfold endsScalar in Hends.
    rewrite List.forallb_forall in Hends. apply list_elem_of_In, Hends in Hj.
    destruct (insts st !! j) as [I|]; [|discriminate]. simpl in Ht. injection Ht as <-.
    by apply negb_true_iff in Hj.
  - intros r Hr. simpl in Hr. by apply not_elem_of_empty in Hr.
Qed.

(** *** The run *)

Lemma runOnFunction_skipped (fuel : nat) (st : State) :
  skipped st = true → runOnFunction fuel st = Some (false, st).
Proof.
  intros Hs. unfold runOnFunction, skipped in *. run_goal. by rewrite Hs.
Qed.

Lemma runOnFunction_supported (fuel : nat) (st : State) :
  skipped st = false → supportedFunction st →
  length (instructionsOf (func st)) ≤ fuel →
  ∃ st', runOnFunction fuel st = Some (true, st').
Proof.
  intros Hskip Hsup Hfuel.
  pose proof (travInv_start st Hsup) as Htrav.
  set (s0 := set_DRL (λ _, [])
               (set_SCMArrayLocation 0
                  (set_SCMAllocationArray 0
                     (set_SCMArrays (take 1)
                        (set_SCM (λ _, ∅)
                           (set_removedInsts (λ _, ∅)
                              (set_usedVectors (λ _, []) st))))))) in *.
  destruct (scalarizeLoop_supported _ [] fuel s0 Htrav Hfuel) as (s1 & Hloop & Hinv1).
  destruct (resolveVectorValues_runs s1 Hinv1) as (s2 & Hvec & Hinv2).
  pose proof Hinv2 as (_ & _ & _ & _ & _ & _ & _ & _ & Hdrl & Hrem & _).
  destruct (deletion_loop_list (elements (m_removedInsts s2)) (NoDup_elements _)
              (set_DRL (λ _, []) s2)) as (s3 & Hdel & _).
  { intros id Hid. apply elem_of_elements in Hid. simpl. by apply Hrem. }
  exists s3. unfold runOnFunction, skipped in *.
  apply bind_Some. exists (func st), st. split; [reflexivity|].
  apply bind_Some. exists (forceInline st), st. split; [reflexivity|].
  rewrite Hskip.
  apply bind_Some. eexists tt, _. split; [reflexivity|].
  apply bind_Some. eexists tt, _. split; [reflexivity|].
  apply bind_Some. eexists tt, _. split; [reflexivity|].
  apply bind_Some. eexists tt, _. split.
  { unfold releaseAllSCMEntries. run_goal. simpl.
    destruct Hsup as (_ & (Hlast & _) & _).
    destruct (m_SCMArrays st); [simpl in Hlast; lia | reflexivity]. }
  apply bind_Some. eexists tt, _. split; [reflexivity|].
  apply bind_Some. exists tt, s1. split; [exact Hloop|].
  apply bind_Some. exists tt, s2. split; [exact Hvec|].
  apply bind_Some. exists tt, (set_DRL (λ _, []) s2). split.
  { unfold resolveDeferredInstructions.
    apply bind_Some. exists (m_DRL s2), s2. split; [reflexivity|]. rewrite Hdrl.
    reflexivity. }
  apply bind_Some. exists (m_removedInsts s2), (set_DRL (λ _, []) s2).
  split; [reflexivity|].
  apply bind_Some. exists tt, s3. split; [exact Hdel | reflexivity].
Qed.



